(** * The IPC channel protocol of [vs/base/parts/ipc] (ChannelServer,
    ChannelClient, IPCServer, IPCClient), embedded as state machines.

    The source is the second half of
    [src/vs/base/browser/ui/breadcrumbs/breadcrumbsWidget.ts] (from the
    [MessageType] enum to [getNextTickChannel]).  Every class becomes a record
    of its fields, every method a function from the record to the new record
    and the list of effects the method performs, in the order it performs
    them.  A call of [protocol.send] is the effect [Send].

    The first half of the file, the [BreadcrumbsWidget], is embedded in the
    same way in the module [Breadcrumbs]. *)

From stdpp Require Import base gmap strings list fin_maps sorting.
From Stdlib Require Import ZArith Lia.

Local Open Scope Z_scope.
Local Set Warnings "-register-all".

(** ** Values crossing the boundary *)

(** The [stack] property of an Error: absent, the string the runtime
    attached, or the array of lines a ChannelClient stored when it rebuilt
    the error from a response. *)
Inductive StackValue : Type :=
| StackUndefined
| StackString (s : string)
| StackLines (lines : list string).

(** [{ message, name, stack }]: the own data of an Error instance, and the
    shape of the [data] of a [ResponsePromiseError]. *)
Record ErrorData : Type := mkErrorData {
  message : string;
  name : string;
  stack : StackValue
}.

(** [any]: plain data, or an Error instance ([data instanceof Error]). *)
Inductive Value : Type :=
| VUndefined
| VNull
| VBool (b : bool)
| VNumber (n : Z)
| VString (s : string)
| VArray (items : list Value)
| VObject (fields : list (string * Value))
| VError (e : ErrorData).

(** ** Wire protocol *)

Inductive MessageType : Type :=
| RequestPromise
| RequestPromiseCancel
| ResponseInitialize
| ResponsePromiseSuccess
| ResponsePromiseProgress
| ResponsePromiseError
| ResponsePromiseErrorObj
| RequestEventListen
| RequestEventDispose
| ResponseEventFire.

#[global] Instance MessageType_eq_dec : EqDecision MessageType.
Proof. solve_decision. Defined.

(** The numeric value of an enum member. *)
Definition tag (t : MessageType) : Z :=
  match t with
  | RequestPromise => 0
  | RequestPromiseCancel => 1
  | ResponseInitialize => 2
  | ResponsePromiseSuccess => 3
  | ResponsePromiseProgress => 4
  | ResponsePromiseError => 5
  | ResponsePromiseErrorObj => 6
  | RequestEventListen => 7
  | RequestEventDispose => 8
  | ResponseEventFire => 9
  end.

Definition isResponse (messageType : MessageType) : bool :=
  tag ResponseInitialize <=? tag messageType.

(** [IRawRequest] and [IRawResponse] as one tagged union: each constructor
    carries the fields the sender writes for that [type]. *)
Inductive Message : Type :=
| MRequestPromise (id : Z) (channelName name : string) (arg : Value)
| MRequestPromiseCancel (id : Z)
| MResponseInitialize
| MResponsePromiseSuccess (id : Z) (data : Value)
| MResponsePromiseProgress (id : Z) (data : Value)
| MResponsePromiseError (id : Z) (data : ErrorData)
| MResponsePromiseErrorObj (id : Z) (data : Value)
| MRequestEventListen (id : Z) (channelName name : string) (arg : Value)
| MRequestEventDispose (id : Z)
| MResponseEventFire (id : Z) (data : Value).

(** The plain object [{ message, name, stack }] as a [Value]. *)
Definition stackData (s : StackValue) : Value :=
  match s with
  | StackUndefined => VUndefined
  | StackString s => VString s
  | StackLines l => VArray (VString <$> l)
  end.

Definition errorObject (e : ErrorData) : Value :=
  VObject [("message", VString (message e)); ("name", VString (name e));
           ("stack", stackData (stack e))].

(** The fields of a message, as the interfaces [IRawMessage], [IRawRequest]
    and [IRawResponse] name them. *)
Module IRawMessage.

Definition type (m : Message) : MessageType :=
  match m with
  | MRequestPromise _ _ _ _ => RequestPromise
  | MRequestPromiseCancel _ => RequestPromiseCancel
  | MResponseInitialize => ResponseInitialize
  | MResponsePromiseSuccess _ _ => ResponsePromiseSuccess
  | MResponsePromiseProgress _ _ => ResponsePromiseProgress
  | MResponsePromiseError _ _ => ResponsePromiseError
  | MResponsePromiseErrorObj _ _ => ResponsePromiseErrorObj
  | MRequestEventListen _ _ _ _ => RequestEventListen
  | MRequestEventDispose _ => RequestEventDispose
  | MResponseEventFire _ _ => ResponseEventFire
  end.

(** [message.id]; [ResponseInitialize] is sent without one. *)
Definition id (m : Message) : option Z :=
  match m with
  | MResponseInitialize => None
  | MRequestPromise i _ _ _ | MRequestPromiseCancel i
  | MResponsePromiseSuccess i _ | MResponsePromiseProgress i _
  | MResponsePromiseError i _ | MResponsePromiseErrorObj i _
  | MRequestEventListen i _ _ _ | MRequestEventDispose i
  | MResponseEventFire i _ => Some i
  end.

(** [message.data]; [undefined] where the sender wrote none. *)
Definition data (m : Message) : Value :=
  match m with
  | MResponsePromiseSuccess _ d | MResponsePromiseProgress _ d
  | MResponsePromiseErrorObj _ d | MResponseEventFire _ d => d
  | MResponsePromiseError _ e => errorObject e
  | _ => VUndefined
  end.

End IRawMessage.

(** ** Strings: [s.split('\n')] *)

Definition newline : Ascii.ascii := Ascii.ascii_of_nat 10.

(** [splitLines acc s]: [acc] holds, reversed, the characters of the line
    being read. *)
Fixpoint splitLines (acc : string) (s : string) : list string :=
  match s with
  | EmptyString => [String.rev acc]
  | String c rest =>
      if Ascii.eqb c newline
      then String.rev acc :: splitLines EmptyString rest
      else splitLines (String c acc) rest
  end.

Definition split (s : string) : list string := splitLines EmptyString s.

(** ** Local channels, as a ChannelServer drives them *)

(** The eventual result [channel.call] returned, as [promise.then] finds it:
    still running, or settled already ([TPromise.as], [TPromise.wrapError]). *)
Inductive TPromise : Type :=
| Pending
| Fulfilled (value : Value)
| Failed (err : Value).

Inductive CallResult : Type :=
| Returns (promise : TPromise)
| Throws (err : Value).

Inductive ListenResult : Type :=
| Listening
| ListenThrows (err : Value).

Record IChannel : Type := mkChannel {
  call : string -> Value -> CallResult;
  listen : string -> Value -> ListenResult
}.

(** What an [IDisposable] kept in [activeRequests] does when disposed. *)
Inductive IDisposable : Type :=
| CancelPromise      (* toDisposable(() => requestPromise.cancel()) *)
| RemoveListener.    (* the disposable [event(listener)] returned *)

(** The TypeError of [channel.call] or [channel.listen] on a name that
    [channels] does not hold. *)
Definition undefinedChannel (method : string) : Value :=
  VError (mkErrorData ("Cannot read property '" +:+ method +:+ "' of undefined")
                      "TypeError" StackUndefined).

Module Server.

Inductive Effect : Type :=
| Send (m : Message)                       (* protocol.send(m) *)
| Dispose (id : Z) (d : IDisposable)       (* activeRequests[id].dispose() *)
| Uncaught (err : Value).                  (* an exception leaves onMessage *)

(** Modelled from the spec: [requestPromises] holds the ids under which
    [activeRequests] keeps the disposable of a [requestPromise] that has not
    settled; [cancel()] does something on those only ([TPromise] is not among
    the sources). *)
Record ChannelServer : Type := mkServer {
  channels : gmap string IChannel;
  activeRequests : gmap Z IDisposable;
  protocolListener : bool;                 (* false once dispose() ran *)
  requestPromises : gset Z
}.

(** What the eventual result of a request tells the callbacks that
    [onPromise] passed to [promise.then]. *)
Inductive Notification : Type :=
| Success (data : Value)
| Error (data : Value)
| Progress (data : Value).

Inductive Input : Type :=
| Receive (request : Message)              (* protocol.onMessage *)
| Notify (id : Z) (n : Notification)       (* a then-callback of request id runs *)
| Fire (id : Z) (data : Value)             (* the listener of request id runs *)
| RegisterChannel (channelName : string) (channel : IChannel)
| Disposal.

Section Methods.

(** Modelled from the spec: [TPromise] of vs/base/common/winjs.base is not
    among the sources.  [then_sync] says when [then] runs its callback on an
    eventual result that has settled already: at once, inside [then]
    ([true]), or after the code that called [then] has finished ([false]). *)
Variable then_sync : bool.

(** [new ChannelServer(protocol)] *)
Definition create : ChannelServer * list Effect :=
  (mkServer ∅ ∅ true ∅, [Send MResponseInitialize]).

Definition registerChannel (this : ChannelServer) (channelName : string)
    (channel : IChannel) : ChannelServer :=
  mkServer (<[channelName := channel]> (channels this)) (activeRequests this)
           (protocolListener this) (requestPromises this).

(** [delete this.activeRequests[id]]; the disposable gone, nothing can cancel
    the result it was made for. *)
Definition deleteActiveRequest (this : ChannelServer) (id : Z) : ChannelServer :=
  mkServer (channels this) (delete id (activeRequests this))
           (protocolListener this) (requestPromises this ∖ {[id]}).

Definition setActiveRequest (this : ChannelServer) (id : Z) (d : IDisposable)
    : ChannelServer :=
  mkServer (channels this) (<[id := d]> (activeRequests this))
           (protocolListener this) (requestPromises this).

(** The [requestPromise] whose disposable is stored under [id] is pending. *)
Definition setRequestPromise (this : ChannelServer) (id : Z) : ChannelServer :=
  mkServer (channels this) (activeRequests this) (protocolListener this)
           ({[id]} ∪ requestPromises this).

(** Modelled from the spec: what a pending [TPromise] fails with when it is
    cancelled, [new Error('Canceled')] with its name set to its message.  The
    text of the stack the runtime attaches to it is not fixed by the source,
    and is left out. *)
Definition canceled : Value :=
  VError (mkErrorData "Canceled" "Canceled" StackUndefined).

(** Reading a property of [null]. *)
Definition nullDereference : Value :=
  VError (mkErrorData "Cannot read property of null" "TypeError" StackUndefined).

(** [data.stack ? (data.stack.split ? data.stack.split('\n') : data.stack)
    : void 0] *)
Definition serializeStack (s : StackValue) : StackValue :=
  match s with
  | StackUndefined => StackUndefined
  | StackString EmptyString => StackUndefined
  | StackString s => StackLines (split s)
  | StackLines l => StackLines l
  end.

(** The message the error callback of [onPromise] sends. *)
Definition errorResponse (id : Z) (data : Value) : Message :=
  match data with
  | VError e =>
      MResponsePromiseError id
        (mkErrorData (message e) (name e) (serializeStack (stack e)))
  | _ => MResponsePromiseErrorObj id data
  end.

(** The three callbacks of [promise.then(..., ..., ...)] in [onPromise]. *)
Definition notify (this : ChannelServer) (id : Z) (n : Notification)
    : ChannelServer * list Effect :=
  match n with
  | Success data =>
      (deleteActiveRequest this id, [Send (MResponsePromiseSuccess id data)])
  | Error data =>
      (deleteActiveRequest this id, [Send (errorResponse id data)])
  | Progress data =>
      (this, [Send (MResponsePromiseProgress id data)])
  end.

(** [try { promise = channel.call(...) } catch (err) { promise =
    TPromise.wrapError(err) }] *)
Definition callChannel (this : ChannelServer) (channelName name : string)
    (arg : Value) : TPromise :=
  match channels this !! channelName with
  | None => Failed (undefinedChannel "call")
  | Some channel =>
      match call channel name arg with
      | Returns promise => promise
      | Throws err => Failed err
      end
  end.

Definition settled (promise : TPromise) : option Notification :=
  match promise with
  | Pending => None
  | Fulfilled value => Some (Success value)
  | Failed err => Some (Error err)
  end.

Definition onPromise (this : ChannelServer) (id : Z) (channelName name : string)
    (arg : Value) : ChannelServer * list Effect :=
  let promise := callChannel this channelName name arg in
  match settled promise with
  | None => (setRequestPromise (setActiveRequest this id CancelPromise) id, [])
  | Some n =>
      if then_sync
      then let '(this, out) := notify this id n in
           (setActiveRequest this id CancelPromise, out)
      else notify (setActiveRequest this id CancelPromise) id n
  end.

Definition onEventListen (this : ChannelServer) (id : Z)
    (channelName name : string) (arg : Value) : ChannelServer * list Effect :=
  match channels this !! channelName with
  | None => (this, [Uncaught (undefinedChannel "listen")])
  | Some channel =>
      match listen channel name arg with
      | ListenThrows err => (this, [Uncaught err])
      | Listening => (setActiveRequest this id RemoveListener, [])
      end
  end.

(** [disposable.dispose()], for the disposable stored under [id].
    Modelled from the spec: [requestPromise.cancel()] on a result that has
    settled does nothing; on a pending one it cancels the result of the call,
    which fails with [canceled], and the error callback of [onPromise] runs
    before [cancel()] returns. *)
Definition disposeDisposable (this : ChannelServer) (id : Z)
    (disposable : IDisposable) : ChannelServer * list Effect :=
  match disposable with
  | CancelPromise =>
      if decide (id ∈ requestPromises this)
      then let '(this, out) := notify this id (Error canceled) in
           (this, Dispose id CancelPromise :: out)
      else (this, [Dispose id CancelPromise])
  | RemoveListener => (this, [Dispose id RemoveListener])
  end.

Definition disposeActiveRequest (this : ChannelServer) (id : Z)
    : ChannelServer * list Effect :=
  match activeRequests this !! id with
  | Some disposable =>
      let '(this, out) := disposeDisposable this id disposable in
      (deleteActiveRequest this id, out)
  | None => (this, [])
  end.

Definition onMessage (this : ChannelServer) (request : Message)
    : ChannelServer * list Effect :=
  match request with
  | MRequestPromise id channelName name arg =>
      onPromise this id channelName name arg
  | MRequestEventListen id channelName name arg =>
      onEventListen this id channelName name arg
  | MRequestPromiseCancel id | MRequestEventDispose id =>
      disposeActiveRequest this id
  | _ => (this, [])
  end.

(** [Object.keys(this.activeRequests).forEach(id =>
    this.activeRequests[id].dispose())], here in the order of [map_to_list]. *)
Fixpoint disposeAll (this : ChannelServer) (requests : list (Z * IDisposable))
    : ChannelServer * list Effect :=
  match requests with
  | [] => (this, [])
  | (id, disposable) :: rest =>
      let '(this, out) := disposeDisposable this id disposable in
      let '(this, out') := disposeAll this rest in
      (this, out ++ out')
  end.

(** [dispose()]: on a server that was disposed of already,
    [this.protocolListener] is null and its [dispose()] throws.  Otherwise
    every disposable still registered is disposed.  The source then sets
    [activeRequests] to null; the listener being gone, only the [delete] of a
    then-callback could still reach it, and the model keeps an empty map. *)
Definition dispose (this : ChannelServer) : ChannelServer * list Effect :=
  if protocolListener this
  then
    let '(_, out) :=
      disposeAll (mkServer (channels this) (activeRequests this) false
                    (requestPromises this))
        (map_to_list (activeRequests this)) in
    (mkServer (channels this) ∅ false ∅, out)
  else (this, [Uncaught nullDereference]).

Definition step (this : ChannelServer) (i : Input) : ChannelServer * list Effect :=
  match i with
  | Receive request =>
      if protocolListener this then onMessage this request else (this, [])
  | Notify id n => notify this id n
  | Fire id data => (this, [Send (MResponseEventFire id data)])
  | RegisterChannel channelName channel =>
      (registerChannel this channelName channel, [])
  | Disposal => dispose this
  end.

Fixpoint run (this : ChannelServer) (inputs : list Input)
    : ChannelServer * list Effect :=
  match inputs with
  | [] => (this, [])
  | i :: rest =>
      let '(this, out) := step this i in
      let '(this, out') := run this rest in
      (this, out ++ out')
  end.

End Methods.

End Server.

(** ** ChannelClient *)

Module Client.

Inductive State : Type := Uninitialized | Idle.

(** The two closures stored in [handlers]; each closes over the id it is
    stored under. *)
Inductive IHandler : Type :=
| PromiseHandler     (* the switch on response.type of doRequest *)
| EventHandler.      (* response => emitter.fire(response.data) *)

Inductive Effect : Type :=
| Send (m : Message)                    (* protocol.send(m) *)
| Complete (id : Z) (data : Value)      (* the result of call id resolves *)
| Fail (id : Z) (err : Value)           (* the result of call id rejects *)
| Progress (id : Z) (data : Value)      (* its progress observer is told *)
| Canceled (id : Z)                     (* the result of call id is canceled *)
| Emit (id : Z) (data : Value)          (* the listeners of listen id are told *)
| Uncaught (err : Value).

Record IRequest : Type := mkRequest {
  raw : Message;
  flush : bool                          (* request.flush is a function *)
}.

Definition requestId (request : IRequest) : option Z :=
  IRawMessage.id (raw request).

(** Modelled from the spec: the eventual result [requestPromise] returns
    ([TPromise] is not among the sources), with the variables its closures
    share.  It settles once; a settled result ignores [c], [e], [p] and
    [cancel]; [cancel] on a pending one runs the cancel callback given to the
    constructor, and cancels the result it was chained from. *)
Record Call : Type := mkCall {
  buffered : bool;                      (* made by bufferRequest *)
  flushedRequest : bool;                (* bufferRequest's variable is set *)
  pending : bool                        (* not settled yet *)
}.

(** Modelled from the spec: the [Emitter] of [requestEvent] ([Emitter] of
    vs/base/common/event is not among the sources) counts its listeners and
    calls [onFirstListenerAdd] when the first one is added and
    [onLastListenerRemove] when the last one is removed. *)
Record Listen : Type := mkListen {
  request : Message;
  listeners : nat;
  uninitializedPromise : option TPromise
}.

Record ChannelClient : Type := mkClient {
  state : State;
  activeRequests : list Z;              (* the disposables, by request id *)
  bufferedRequests : option (list IRequest);
  handlers : gmap Z IHandler;
  lastRequestId : Z;                    (* a number: exact up to 2^53 *)
  protocolListener : bool;              (* false once dispose() ran *)
  calls : gmap Z Call;
  emitters : gmap Z Listen;
  onDidInitialize : list Z;             (* listens waiting for the event *)
  continuations : list Z                (* then-callbacks not run yet *)
}.

Definition setState (x : State) (c : ChannelClient) : ChannelClient :=
  mkClient x (activeRequests c) (bufferedRequests c) (handlers c)
    (lastRequestId c) (protocolListener c) (calls c) (emitters c)
    (onDidInitialize c) (continuations c).

Definition setActiveRequests (x : list Z) (c : ChannelClient) : ChannelClient :=
  mkClient (state c) x (bufferedRequests c) (handlers c)
    (lastRequestId c) (protocolListener c) (calls c) (emitters c)
    (onDidInitialize c) (continuations c).

Definition setBufferedRequests (x : option (list IRequest)) (c : ChannelClient)
    : ChannelClient :=
  mkClient (state c) (activeRequests c) x (handlers c)
    (lastRequestId c) (protocolListener c) (calls c) (emitters c)
    (onDidInitialize c) (continuations c).

Definition setHandlers (x : gmap Z IHandler) (c : ChannelClient) : ChannelClient :=
  mkClient (state c) (activeRequests c) (bufferedRequests c) x
    (lastRequestId c) (protocolListener c) (calls c) (emitters c)
    (onDidInitialize c) (continuations c).

Definition setLastRequestId (x : Z) (c : ChannelClient) : ChannelClient :=
  mkClient (state c) (activeRequests c) (bufferedRequests c) (handlers c)
    x (protocolListener c) (calls c) (emitters c)
    (onDidInitialize c) (continuations c).

Definition setProtocolListener (x : bool) (c : ChannelClient) : ChannelClient :=
  mkClient (state c) (activeRequests c) (bufferedRequests c) (handlers c)
    (lastRequestId c) x (calls c) (emitters c)
    (onDidInitialize c) (continuations c).

Definition setCalls (x : gmap Z Call) (c : ChannelClient) : ChannelClient :=
  mkClient (state c) (activeRequests c) (bufferedRequests c) (handlers c)
    (lastRequestId c) (protocolListener c) x (emitters c)
    (onDidInitialize c) (continuations c).

Definition setEmitters (x : gmap Z Listen) (c : ChannelClient) : ChannelClient :=
  mkClient (state c) (activeRequests c) (bufferedRequests c) (handlers c)
    (lastRequestId c) (protocolListener c) (calls c) x
    (onDidInitialize c) (continuations c).

Definition setOnDidInitialize (x : list Z) (c : ChannelClient) : ChannelClient :=
  mkClient (state c) (activeRequests c) (bufferedRequests c) (handlers c)
    (lastRequestId c) (protocolListener c) (calls c) (emitters c)
    x (continuations c).

Definition setContinuations (x : list Z) (c : ChannelClient) : ChannelClient :=
  mkClient (state c) (activeRequests c) (bufferedRequests c) (handlers c)
    (lastRequestId c) (protocolListener c) (calls c) (emitters c)
    (onDidInitialize c) x.

(** What the caller, or the transport, does to a ChannelClient. *)
Inductive Input : Type :=
| DoCall (channelName name : string) (arg : Value)   (* getChannel(..).call *)
| DoCancel (id : Z)                      (* cancel() on the result of call id *)
| DoListen (channelName name : string) (arg : Value) (* getChannel(..).listen *)
| Subscribe (id : Z)                     (* a listener is added to listen id *)
| Unsubscribe (id : Z)                   (* a listener of listen id is removed *)
| Receive (response : Message)           (* protocol.onMessage *)
| Tick                                   (* the callbacks not run yet run *)
| Disposal.

(** [new ChannelClient(protocol)] *)
Definition create : ChannelClient :=
  mkClient Uninitialized [] (Some []) ∅ 0 true ∅ ∅ [] [].

(** Reading a property of [null]. *)
Definition nullDereference : Value :=
  VError (mkErrorData "Cannot read property of null" "TypeError" StackUndefined).

(** [try { this.protocol.send(raw) } catch (err) { }] *)
Definition send (raw : Message) : list Effect := [Send raw].

Section Methods.

(** Modelled from the spec: see [Server.then_sync]; the same choice, for the
    [then] of [whenInitialized().then(...)] in [requestEvent]. *)
Variable then_sync : bool.

(** *** Calls *)

Definition setCall (id : Z) (c : Call) (this : ChannelClient) : ChannelClient :=
  setCalls (<[id := c]> (calls this)) this.

(** [c], [e] or the end of [cancel] on the result of call id: a pending result
    settles, tells its observer [e], and the [done] callback of
    [requestPromise] takes its disposable out of [activeRequests]. *)
Definition settle (this : ChannelClient) (id : Z) (e : Effect)
    : ChannelClient * list Effect :=
  match calls this !! id with
  | Some c =>
      if pending c
      then (setActiveRequests (filter (λ el, el ≠ id) (activeRequests this))
              (setCall id (mkCall (buffered c) (flushedRequest c) false) this),
            [e])
      else (this, [])
  | None => (this, [])
  end.

(** [p] on the result of call id. *)
Definition progress (this : ChannelClient) (id : Z) (data : Value)
    : ChannelClient * list Effect :=
  match calls this !! id with
  | Some c => if pending c then (this, [Progress id data]) else (this, [])
  | None => (this, [])
  end.

(** The body of the promise of [doRequest]: [this.handlers[id] = ...;
    this.send(request.raw)]. *)
Definition doRequest (this : ChannelClient) (request : IRequest)
    : ChannelClient * list Effect :=
  match requestId request with
  | Some id =>
      (setHandlers (<[id := PromiseHandler]> (handlers this)) this,
       send (raw request))
  | None => (this, send (raw request))
  end.

(** The body of the promise of [bufferRequest]:
    [this.bufferedRequests.push(request); request.flush = ...]. *)
Definition bufferRequest (this : ChannelClient) (id : Z) (request : IRequest)
    : ChannelClient * list Effect :=
  match bufferedRequests this with
  | Some buffer =>
      (setCall id (mkCall true false true)
         (setBufferedRequests (Some (buffer ++ [mkRequest (raw request) true]))
            this),
       [])
  | None => (this, [Uncaught nullDereference])
  end.

Definition requestPromise (this : ChannelClient) (channelName name : string)
    (arg : Value) : ChannelClient * list Effect :=
  let id := lastRequestId this in
  let this := setLastRequestId (id + 1) this in
  let request := mkRequest (MRequestPromise id channelName name arg) false in
  let '(this, out) :=
    match state this with
    | Uninitialized => bufferRequest this id request
    | Idle =>
        let '(this, out) := doRequest this request in
        (setCall id (mkCall false false true) this, out)
    end in
  (setActiveRequests (activeRequests this ++ [id]) this, out).

(** [request.flush()]: [flushedRequest = this.doRequest(request).then(c, e,
    p)]. *)
Definition flushRequest (this : ChannelClient) (request : IRequest)
    : ChannelClient * list Effect :=
  if flush request
  then
    let '(this, out) := doRequest this request in
    match requestId request with
    | Some id =>
        match calls this !! id with
        | Some c => (setCall id (mkCall (buffered c) true (pending c)) this, out)
        | None => (this, out)
        end
    | None => (this, out)
    end
  else (this, []).

(** [this.bufferedRequests.forEach(r => r.flush && r.flush())] *)
Fixpoint flushAll (this : ChannelClient) (buffer : list IRequest)
    : ChannelClient * list Effect :=
  match buffer with
  | [] => (this, [])
  | r :: rest =>
      let '(this, out) := flushRequest this r in
      let '(this, out') := flushAll this rest in
      (this, out ++ out')
  end.

(** [idx = indexOf(request); if (idx === -1) return; splice(idx, 1)], the
    request being the one that carries [id]. *)
Fixpoint removeRequest (id : Z) (buffer : list IRequest) : list IRequest :=
  match buffer with
  | [] => []
  | r :: rest =>
      if decide (requestId r = Some id) then rest
      else r :: removeRequest id rest
  end.

(** The cancel callback of the promise of call id: that of [doRequest], or
    that of [bufferRequest]. *)
Definition onCancel (this : ChannelClient) (id : Z) (c : Call)
    : ChannelClient * list Effect :=
  if buffered c
  then
    match state this with
    | Idle =>
        if flushedRequest c
        then (setCall id (mkCall true false (pending c)) this,
              send (MRequestPromiseCancel id))
        else (this, [])
    | Uninitialized =>
        (setBufferedRequests (removeRequest id <$> bufferedRequests this) this,
         [])
    end
  else (this, send (MRequestPromiseCancel id)).

(** [cancel()] on the result of call id. *)
Definition cancel (this : ChannelClient) (id : Z) : ChannelClient * list Effect :=
  match calls this !! id with
  | Some c =>
      if pending c
      then
        let '(this, out) := onCancel this id c in
        let '(this, out') := settle this id (Canceled id) in
        (this, out ++ out')
      else (this, [])
  | None => (this, [])
  end.

Fixpoint cancelAll (this : ChannelClient) (ids : list Z)
    : ChannelClient * list Effect :=
  match ids with
  | [] => (this, [])
  | id :: rest =>
      let '(this, out) := cancel this id in
      let '(this, out') := cancelAll this rest in
      (this, out ++ out')
  end.

(** *** Events *)

Definition setListen (id : Z) (l : Listen) (this : ChannelClient) : ChannelClient :=
  setEmitters (<[id := l]> (emitters this)) this.

Definition requestEvent (this : ChannelClient) (channelName name : string)
    (arg : Value) : ChannelClient * list Effect :=
  let id := lastRequestId this in
  let this := setLastRequestId (id + 1) this in
  let this :=
    setListen id (mkListen (MRequestEventListen id channelName name arg) 0 None)
      this in
  (setHandlers (<[id := EventHandler]> (handlers this)) this, []).

(** The callback of [whenInitialized().then(...)]:
    [uninitializedPromise = null; this.send(request.raw)]. *)
Definition whenInitializedThen (this : ChannelClient) (id : Z)
    : ChannelClient * list Effect :=
  match emitters this !! id with
  | Some l =>
      (setListen id (mkListen (request l) (listeners l) None) this,
       send (request l))
  | None => (this, [])
  end.

Fixpoint runAll (this : ChannelClient) (ids : list Z)
    : ChannelClient * list Effect :=
  match ids with
  | [] => (this, [])
  | id :: rest =>
      let '(this, out) := whenInitializedThen this id in
      let '(this, out') := runAll this rest in
      (this, out ++ out')
  end.

Definition setUninitializedPromise (id : Z) (p : option TPromise)
    (this : ChannelClient) : ChannelClient :=
  match emitters this !! id with
  | Some l => setListen id (mkListen (request l) (listeners l) p) this
  | None => this
  end.

Definition onFirstListenerAdd (this : ChannelClient) (id : Z)
    : ChannelClient * list Effect :=
  match state this with
  | Idle =>
      if then_sync
      then
        let '(this, out) := whenInitializedThen this id in
        (setUninitializedPromise id (Some (Fulfilled VUndefined)) this, out)
      else
        (setUninitializedPromise id (Some Pending)
           (setContinuations (continuations this ++ [id]) this), [])
  | Uninitialized =>
      (setUninitializedPromise id (Some Pending)
         (setOnDidInitialize (onDidInitialize this ++ [id]) this), [])
  end.

Definition onLastListenerRemove (this : ChannelClient) (id : Z) (l : Listen)
    : ChannelClient * list Effect :=
  match uninitializedPromise l with
  | Some _ =>
      (setUninitializedPromise id None
         (setContinuations (filter (λ el, el ≠ id) (continuations this))
            (setOnDidInitialize (filter (λ el, el ≠ id) (onDidInitialize this))
               this)),
       [])
  | None => (this, send (MRequestEventDispose id))
  end.

Definition setListeners (id : Z) (n : nat) (this : ChannelClient) : ChannelClient :=
  match emitters this !! id with
  | Some l => setListen id (mkListen (request l) n (uninitializedPromise l)) this
  | None => this
  end.

Definition subscribe (this : ChannelClient) (id : Z) : ChannelClient * list Effect :=
  match emitters this !! id with
  | Some l =>
      let '(this, out) :=
        match listeners l with
        | O => onFirstListenerAdd this id
        | S _ => (this, [])
        end in
      (setListeners id (S (listeners l)) this, out)
  | None => (this, [])
  end.

Definition unsubscribe (this : ChannelClient) (id : Z)
    : ChannelClient * list Effect :=
  match emitters this !! id with
  | Some l =>
      match listeners l with
      | O => (this, [])
      | S O => onLastListenerRemove (setListeners id O this) id l
      | S n => (setListeners id n this, [])
      end
  | None => (this, [])
  end.

(** [emitter.fire(data)] *)
Definition fire (this : ChannelClient) (id : Z) (data : Value) : list Effect :=
  match emitters this !! id with
  | Some l => match listeners l with O => [] | S _ => [Emit id data] end
  | None => []
  end.

(** *** Messages *)

Definition deleteHandler (id : Z) (this : ChannelClient) : ChannelClient :=
  setHandlers (delete id (handlers this)) this.

(** [handler(response)], for the handler stored under [id]. *)
Definition handle (this : ChannelClient) (handler : IHandler) (id : Z)
    (response : Message) : ChannelClient * list Effect :=
  match handler with
  | PromiseHandler =>
      match response with
      | MResponsePromiseSuccess _ data =>
          settle (deleteHandler id this) id (Complete id data)
      | MResponsePromiseError _ data =>
          let error := mkErrorData (message data) (name data) (stack data) in
          settle (deleteHandler id this) id (Fail id (VError error))
      | MResponsePromiseErrorObj _ data =>
          settle (deleteHandler id this) id (Fail id data)
      | MResponsePromiseProgress _ data => progress this id data
      | _ => (this, [])
      end
  | EventHandler => (this, fire this id (IRawMessage.data response))
  end.

(** [this._onDidInitialize.fire()]: the results of [toPromise] resolve. *)
Definition fireDidInitialize (this : ChannelClient) : ChannelClient * list Effect :=
  let waiting := onDidInitialize this in
  let this := setOnDidInitialize [] this in
  if then_sync then runAll this waiting
  else (setContinuations (continuations this ++ waiting) this, []).

(** The branch of [onMessage] taken on the first [ResponseInitialize]. *)
Definition initialize (this : ChannelClient) : ChannelClient * list Effect :=
  let this := setState Idle this in
  let '(this, out) := fireDidInitialize this in
  match bufferedRequests this with
  | Some buffer =>
      let '(this, out') := flushAll this buffer in
      (setBufferedRequests None this, out ++ out')
  | None => (this, out ++ [Uncaught nullDereference])
  end.

Definition onMessage (this : ChannelClient) (response : Message)
    : ChannelClient * list Effect :=
  if negb (isResponse (IRawMessage.type response)) then (this, [])
  else
    match state this, response with
    | Uninitialized, MResponseInitialize => initialize this
    | _, _ =>
        match IRawMessage.id response with
        | Some id =>
            match handlers this !! id with
            | Some handler => handle this handler id response
            | None => (this, [])
            end
        | None => (this, [])
        end
    end.

Definition tick (this : ChannelClient) : ChannelClient * list Effect :=
  runAll (setContinuations [] this) (continuations this).

(** [dispose()]: on a client that was disposed of already,
    [this.protocolListener] is null and its [dispose()] throws, before
    anything is cancelled. *)
Definition dispose (this : ChannelClient) : ChannelClient * list Effect :=
  if protocolListener this
  then
    let '(this, out) :=
      cancelAll (setProtocolListener false this) (activeRequests this) in
    (setActiveRequests [] this, out)
  else (this, [Uncaught nullDereference]).

Definition step (this : ChannelClient) (i : Input) : ChannelClient * list Effect :=
  match i with
  | DoCall channelName name arg => requestPromise this channelName name arg
  | DoCancel id => cancel this id
  | DoListen channelName name arg => requestEvent this channelName name arg
  | Subscribe id => subscribe this id
  | Unsubscribe id => unsubscribe this id
  | Receive response =>
      if protocolListener this then onMessage this response else (this, [])
  | Tick => tick this
  | Disposal => dispose this
  end.

Fixpoint run (this : ChannelClient) (inputs : list Input)
    : ChannelClient * list Effect :=
  match inputs with
  | [] => (this, [])
  | i :: rest =>
      let '(this, out) := step this i in
      let '(this, out') := run this rest in
      (this, out ++ out')
  end.

End Methods.

End Client.

(** ** IPCServer *)

Module IPC.

Record IClientRouter : Type := mkRouter {
  routeCall : string -> Value -> option string;
  routeEvent : string -> Value -> option string
}.

(** [!id]: the router gave no id, or the empty string. *)
Definition noId (id : option string) : bool :=
  match id with
  | None => true
  | Some EmptyString => true
  | Some _ => false
  end.

(** What a transport delivers: the identifier an IPCClient announces itself
    with, or a message of the protocol. *)
Inductive Incoming : Type :=
| Hello (id : string)
| Protocol (m : Message).

(** The property key [this.channelClients[id]] uses for a first message. *)
Definition key (first : Incoming) : string :=
  match first with
  | Hello id => id
  | Protocol _ => "[object Object]"
  end.

(** The variables of the handlers [onDidClientConnect] installs for one
    protocol. *)
Inductive Connection : Type :=
| Connected                       (* onFirstMessage has not fired *)
| Registered (id : string) (channelServer : Server.ChannelServer)
    (channelClient : Client.ChannelClient)
| Disconnected.

(** A call or listen on a routed channel, with the name of the channel. *)
Inductive Routed : Type :=
| RoutedCall (channelName command : string) (arg : Value)
| RoutedListen (channelName event : string) (arg : Value).

Inductive Effect : Type :=
| OfServer (protocol : nat) (e : Server.Effect)
| OfClient (protocol : nat) (e : Client.Effect).

(** What the routed channel hands back: [TPromise.wrapError(err)], or what
    the delayed channel returns. *)
Inductive Outcome : Type :=
| Rejected (err : Value)
| Delayed.

Record IPCServer : Type := mkIPCServer {
  channels : gmap string IChannel;
  channelClients : gmap string nat;       (* id ↦ the protocol of the client *)
  onClientAdded : list (string * Routed); (* getClient promises still waiting *)
  connections : list Connection           (* by protocol *)
}.

Inductive Input : Type :=
| ClientConnect                                    (* onDidClientConnect *)
| Deliver (protocol : nat) (m : Incoming)          (* protocol.onMessage *)
| ClientDisconnect (protocol : nat)                (* onDidClientDisconnect *)
| RegisterChannel (channelName : string) (channel : IChannel)
| GetChannel (router : IClientRouter) (op : Routed)
| Notify (protocol : nat) (id : Z) (n : Server.Notification)
| Fire (protocol : nat) (id : Z) (data : Value)
| Cancel (protocol : nat) (id : Z)
| Subscribe (protocol : nat) (id : Z)
| Unsubscribe (protocol : nat) (id : Z)
| Tick (protocol : nat)
| Disposal.

Definition clientIdError : Value :=
  VError (mkErrorData "Client id should be provided" "Error" StackUndefined).

Section Methods.

(** Modelled from the spec: see [Server.then_sync]. *)
Variable then_sync : bool.

(** [new IPCServer(onDidClientConnect)] *)
Definition create : IPCServer := mkIPCServer ∅ ∅ [] [].

Definition registerChannel (this : IPCServer) (channelName : string)
    (channel : IChannel) : IPCServer :=
  mkIPCServer (<[channelName := channel]> (channels this)) (channelClients this)
    (onClientAdded this) (connections this).

Definition setConnection (protocol : nat) (c : Connection) (this : IPCServer)
    : IPCServer :=
  mkIPCServer (channels this) (channelClients this) (onClientAdded this)
    (<[protocol := c]> (connections this)).

(** The callbacks of [getDelayedChannel], for the channel [c] of a
    ChannelClient: [c.call(command, arg)], or [relay.input = c.listen(event,
    arg)].  Modelled from the spec: the setter of [relay.input] ([Relay] of
    vs/base/common/event is not among the sources) adds a listener to the
    event it is given, at once. *)
Definition delayed (channelClient : Client.ChannelClient) (op : Routed)
    : Client.ChannelClient * list Client.Effect :=
  match op with
  | RoutedCall channelName command arg =>
      Client.requestPromise channelClient channelName command arg
  | RoutedListen channelName event arg =>
      let listenId := Client.lastRequestId channelClient in
      let '(channelClient, out) :=
        Client.requestEvent channelClient channelName event arg in
      let '(channelClient, out') :=
        Client.subscribe then_sync channelClient listenId in
      (channelClient, out ++ out')
  end.

(** The same on the ChannelClient of a protocol. *)
Definition forward (this : IPCServer) (protocol : nat) (op : Routed)
    : IPCServer * list Effect :=
  match connections this !! protocol with
  | Some (Registered id channelServer channelClient) =>
      let '(channelClient, out) := delayed channelClient op in
      (setConnection protocol (Registered id channelServer channelClient) this,
       OfClient protocol <$> out)
  | _ => (this, [])
  end.

Definition route (router : IClientRouter) (op : Routed) : option string :=
  match op with
  | RoutedCall _ command arg => routeCall router command arg
  | RoutedListen _ event arg => routeEvent router event arg
  end.

(** The [call] and the [listen] of the channel [getChannel(channelName,
    router)] returns. *)
Definition getChannel (this : IPCServer) (router : IClientRouter) (op : Routed)
    : IPCServer * Outcome * list Effect :=
  let id := route router op in
  if noId id then (this, Rejected clientIdError, [])
  else
    match id with
    | Some clientId =>
        match channelClients this !! clientId with
        | Some protocol =>
            let '(this, out) := forward this protocol op in
            (this, Delayed, out)
        | None =>
            (mkIPCServer (channels this) (channelClients this)
               (onClientAdded this ++ [(clientId, op)]) (connections this),
             Delayed, [])
        end
    | None => (this, Rejected clientIdError, [])
    end.

Fixpoint forwardAll (this : IPCServer) (protocol : nat) (ops : list Routed)
    : IPCServer * list Effect :=
  match ops with
  | [] => (this, [])
  | op :: rest =>
      let '(this, out) := forward this protocol op in
      let '(this, out') := forwardAll this protocol rest in
      (this, out ++ out')
  end.

(** [Object.keys(this.channels).forEach(name =>
    channelServer.registerChannel(name, this.channels[name]))] *)
Definition registerAll (channelServer : Server.ChannelServer)
    (channels : gmap string IChannel) : Server.ChannelServer :=
  map_fold (λ name channel server, Server.registerChannel server name channel)
    channelServer channels.

(** [id === clientId], for the [id] that [onClientAdded.fire(id)] passes to
    the filter of [getClient]: a first message that is not a string equals no
    [clientId]. *)
Definition isClient (first : Incoming) (clientId : string) : bool :=
  match first with
  | Hello id => bool_decide (id = clientId)
  | Protocol _ => false
  end.

(** The listener of [onFirstMessage]. *)
Definition onFirstMessage (this : IPCServer) (protocol : nat) (first : Incoming)
    : IPCServer * list Effect :=
  let id := key first in
  let '(channelServer, out) := Server.create in
  let channelClient := Client.create in
  let channelServer := registerAll channelServer (channels this) in
  let waiting := filter (λ w, isClient first w.1 = true) (onClientAdded this) in
  let this :=
    mkIPCServer (channels this) (<[id := protocol]> (channelClients this))
      (filter (λ w, isClient first w.1 ≠ true) (onClientAdded this))
      (<[protocol := Registered id channelServer channelClient]>
         (connections this)) in
  let '(this, out') := forwardAll this protocol (snd <$> waiting) in
  (this, (OfServer protocol <$> out) ++ out').

Definition onMessage (this : IPCServer) (protocol : nat) (m : Incoming)
    : IPCServer * list Effect :=
  match connections this !! protocol with
  | Some Connected => onFirstMessage this protocol m
  | Some (Registered id channelServer channelClient) =>
      match m with
      | Protocol m =>
          let '(channelServer, out) :=
            Server.step then_sync channelServer (Server.Receive m) in
          let '(channelClient, out') :=
            Client.step then_sync channelClient (Client.Receive m) in
          (setConnection protocol (Registered id channelServer channelClient)
             this,
           (OfServer protocol <$> out) ++ (OfClient protocol <$> out'))
      | Hello _ => (this, [])
      end
  | _ => (this, [])
  end.

(** The listener of [onDidClientDisconnect]. *)
Definition onDisconnect (this : IPCServer) (protocol : nat)
    : IPCServer * list Effect :=
  match connections this !! protocol with
  | Some (Registered id channelServer channelClient) =>
      let '(_, out) := Server.dispose channelServer in
      let '(_, out') := Client.dispose channelClient in
      (mkIPCServer (channels this) (delete id (channelClients this))
         (onClientAdded this) (<[protocol := Disconnected]> (connections this)),
       (OfServer protocol <$> out) ++ (OfClient protocol <$> out'))
  | _ => (this, [])
  end.

Definition dispose (this : IPCServer) : IPCServer :=
  mkIPCServer ∅ ∅ [] (connections this).

(** A step of the ChannelServer of a protocol. *)
Definition onServer (this : IPCServer) (protocol : nat) (i : Server.Input)
    : IPCServer * list Effect :=
  match connections this !! protocol with
  | Some (Registered id channelServer channelClient) =>
      let '(channelServer, out) := Server.step then_sync channelServer i in
      (setConnection protocol (Registered id channelServer channelClient) this,
       OfServer protocol <$> out)
  | _ => (this, [])
  end.

(** A step of the ChannelClient of a protocol. *)
Definition onClient (this : IPCServer) (protocol : nat) (i : Client.Input)
    : IPCServer * list Effect :=
  match connections this !! protocol with
  | Some (Registered id channelServer channelClient) =>
      let '(channelClient, out) := Client.step then_sync channelClient i in
      (setConnection protocol (Registered id channelServer channelClient) this,
       OfClient protocol <$> out)
  | _ => (this, [])
  end.

Definition step (this : IPCServer) (i : Input) : IPCServer * list Effect :=
  match i with
  | ClientConnect =>
      (mkIPCServer (channels this) (channelClients this) (onClientAdded this)
         (connections this ++ [Connected]), [])
  | Deliver protocol m => onMessage this protocol m
  | ClientDisconnect protocol => onDisconnect this protocol
  | RegisterChannel channelName channel =>
      (registerChannel this channelName channel, [])
  | GetChannel router op =>
      let '(this, _, out) := getChannel this router op in (this, out)
  | Notify protocol id n => onServer this protocol (Server.Notify id n)
  | Fire protocol id data => onServer this protocol (Server.Fire id data)
  | Cancel protocol id => onClient this protocol (Client.DoCancel id)
  | Subscribe protocol id => onClient this protocol (Client.Subscribe id)
  | Unsubscribe protocol id => onClient this protocol (Client.Unsubscribe id)
  | Tick protocol => onClient this protocol Client.Tick
  | Disposal => (dispose this, [])
  end.

Fixpoint run (this : IPCServer) (inputs : list Input) : IPCServer * list Effect :=
  match inputs with
  | [] => (this, [])
  | i :: rest =>
      let '(this, out) := step this i in
      let '(this, out') := run this rest in
      (this, out ++ out')
  end.

End Methods.

End IPC.

(** ** IPCClient *)

Module IPCClient.

Inductive Effect : Type :=
| SendId (id : string)                 (* protocol.send(id) *)
| OfClient (e : Client.Effect)
| OfServer (e : Server.Effect)
| Uncaught (err : Value).

Record IPCClient : Type := mkIPCClient {
  channelClient : option Client.ChannelClient;  (* null once dispose() ran *)
  channelServer : option Server.ChannelServer
}.

Inductive Input : Type :=
| GetChannel (op : IPC.Routed)          (* getChannel(name).call, or .listen *)
| RegisterChannel (channelName : string) (channel : IChannel)
| Deliver (m : Message)                 (* protocol.onMessage *)
| Disposal.

Section Methods.

(** Modelled from the spec: see [Server.then_sync]. *)
Variable then_sync : bool.

(** [new IPCClient(protocol, id)] *)
Definition create (id : string) : IPCClient * list Effect :=
  let channelClient := Client.create in
  let '(channelServer, out) := Server.create in
  (mkIPCClient (Some channelClient) (Some channelServer),
   SendId id :: (OfServer <$> out)).

(** [getChannel(channelName).call(command, arg)], or [.listen(event, arg)]. *)
Definition getChannel (this : IPCClient) (op : IPC.Routed)
    : IPCClient * list Effect :=
  match channelClient this with
  | Some client =>
      let '(client, out) :=
        match op with
        | IPC.RoutedCall channelName command arg =>
            Client.requestPromise client channelName command arg
        | IPC.RoutedListen channelName event arg =>
            Client.requestEvent client channelName event arg
        end in
      (mkIPCClient (Some client) (channelServer this), OfClient <$> out)
  | None => (this, [Uncaught Client.nullDereference])
  end.

Definition registerChannel (this : IPCClient) (channelName : string)
    (channel : IChannel) : IPCClient * list Effect :=
  match channelServer this with
  | Some server =>
      (mkIPCClient (channelClient this)
         (Some (Server.registerChannel server channelName channel)), [])
  | None => (this, [Uncaught Client.nullDereference])
  end.

(** The transport delivers a message: to the listener of the ChannelClient,
    which was added first, then to that of the ChannelServer. *)
Definition onMessage (this : IPCClient) (m : Message) : IPCClient * list Effect :=
  match channelClient this, channelServer this with
  | Some client, Some server =>
      let '(client, out) := Client.step then_sync client (Client.Receive m) in
      let '(server, out') := Server.step then_sync server (Server.Receive m) in
      (mkIPCClient (Some client) (Some server),
       (OfClient <$> out) ++ (OfServer <$> out'))
  | _, _ => (this, [])
  end.

Definition dispose (this : IPCClient) : IPCClient * list Effect :=
  match channelClient this with
  | Some client =>
      let '(_, out) := Client.dispose client in
      match channelServer this with
      | Some server =>
          let '(_, out') := Server.dispose server in
          (mkIPCClient None None, (OfClient <$> out) ++ (OfServer <$> out'))
      | None =>
          (mkIPCClient None None,
           (OfClient <$> out) ++ [Uncaught Client.nullDereference])
      end
  | None => (this, [Uncaught Client.nullDereference])
  end.

Definition step (this : IPCClient) (i : Input) : IPCClient * list Effect :=
  match i with
  | GetChannel op => getChannel this op
  | RegisterChannel channelName channel =>
      registerChannel this channelName channel
  | Deliver m => onMessage this m
  | Disposal => dispose this
  end.

End Methods.

End IPCClient.

(** ** getNextTickChannel *)

Module NextTick.

(** A [call] or a [listen] on the channel [getNextTickChannel] returns. *)
Inductive Operation : Type :=
| Call (command : string) (arg : Value)
| Listen (event : string) (arg : Value).

(** What reaches the channel that was wrapped: [channel.call(command, arg)],
    or [channel.listen(event, arg)]. *)
Inductive Effect : Type :=
| ChannelCall (command : string) (arg : Value)
| ChannelListen (event : string) (arg : Value).

(** The variables of the closures of one [getNextTickChannel(channel)].

    Modelled from the spec: [TPromise.timeout(0)] is not among the sources;
    its result completes once a scheduling tick has passed, and the
    callbacks chained on it run then, one after the other.  [timeouts] holds
    the results not complete yet, in the order they were made, each with the
    operation chained on it. *)
Record NextTickChannel : Type := mkNextTick {
  didTick : bool;
  timeouts : list Operation
}.

Inductive Input : Type :=
| Do (op : Operation)           (* call(command, arg), or listen(event, arg) *)
| Elapsed (k : nat).            (* the k-th of the timeouts completes *)

(** [getNextTickChannel(channel)] *)
Definition create : NextTickChannel := mkNextTick false [].

Definition perform (op : Operation) : Effect :=
  match op with
  | Call command arg => ChannelCall command arg
  | Listen event arg => ChannelListen event arg
  end.

(** [call] and [listen]: [if (didTick) return channel.call(command, arg)],
    and otherwise a timeout of its own. *)
Definition do (this : NextTickChannel) (op : Operation)
    : NextTickChannel * list Effect :=
  if didTick this then (this, [perform op])
  else (mkNextTick (didTick this) (timeouts this ++ [op]), []).

(** [.then(() => didTick = true).then(() => channel.call(command, arg))] *)
Definition elapsed (this : NextTickChannel) (k : nat)
    : NextTickChannel * list Effect :=
  match timeouts this !! k with
  | Some op => (mkNextTick true (delete k (timeouts this)), [perform op])
  | None => (this, [])
  end.

Definition step (this : NextTickChannel) (i : Input)
    : NextTickChannel * list Effect :=
  match i with
  | Do op => do this op
  | Elapsed k => elapsed this k
  end.

Fixpoint run (this : NextTickChannel) (inputs : list Input)
    : NextTickChannel * list Effect :=
  match inputs with
  | [] => (this, [])
  | i :: rest =>
      let '(this, out) := step this i in
      let '(this, out') := run this rest in
      (this, out ++ out')
  end.

End NextTick.

(** ** BreadcrumbsWidget *)

(** The first half of the source file: the widget that shows a path of items
    as a row of nodes, one of which can be focused and one selected.  Of the
    DOM the model keeps, for every node, which element it is, whether it has
    the classes the widget sets and removes, and the item rendered into it. *)
Module Breadcrumbs.

(** A [BreadcrumbsItem] object: [ident] tells the objects apart, the rest is
    a [SimpleBreadcrumbsItem]. *)
Record BreadcrumbsItem : Type := mkItem {
  ident : nat;
  text : string;
  title : string
}.

#[global] Instance BreadcrumbsItem_eq_dec : EqDecision BreadcrumbsItem.
Proof. solve_decision. Defined.

(** [SimpleBreadcrumbsItem.equals] *)
Definition equals (this other : BreadcrumbsItem) : bool :=
  bool_decide (ident other = ident this)
  || (bool_decide (text other = text this)
      && bool_decide (title other = title this)).

Record HTMLDivElement : Type := mkNode {
  element : nat;                        (* which element it is *)
  focused : bool;                       (* has the class 'focused' *)
  selected : bool;                      (* has the class 'selected' *)
  rendered : option BreadcrumbsItem     (* the item rendered into it *)
}.

Inductive Effect : Type :=
| DidFocusItem (item : option BreadcrumbsItem) (node : option nat)
| DidSelectItem (item : option BreadcrumbsItem) (node : option nat)
| DisposeItem (item : BreadcrumbsItem).

Record BreadcrumbsWidget : Type := mkWidget {
  _items : list BreadcrumbsItem;
  _nodes : list HTMLDivElement;
  _freeNodes : list HTMLDivElement;
  _focusedItemIdx : Z;
  _selectedItemIdx : Z;
  created : nat                 (* the elements document.createElement made *)
}.

Inductive Input : Type :=
| SetFocused (item : BreadcrumbsItem)
| FocusPrev
| FocusNext
| SetSelected (item : BreadcrumbsItem)
| SetItems (items : list BreadcrumbsItem)
| Click (path : list nat)      (* the target of the event and its ancestors *)
| Disposal.

(** [new BreadcrumbsWidget(container)] *)
Definition create : BreadcrumbsWidget := mkWidget [] [] [] (-1) (-1) 0.

(** [array[i]] for a number [i] that is an integer: [undefined] out of the
    array. *)
Definition at_ {A : Type} (array : list A) (i : Z) : option A :=
  if decide (0 ≤ i) then array !! Z.to_nat i else None.

(** [a % b]: [NaN] when [b] is 0; the sign of a zero makes no difference to
    [!==]. *)
Definition rem (a b : Z) : option Z :=
  if decide (b = 0) then None else Some (Z.rem a b).

(** [array.indexOf(x)] *)
Fixpoint indexOf {A : Type} `{EqDecision A} (x : A) (array : list A) : Z :=
  match array with
  | [] => -1
  | y :: rest =>
      if decide (y = x) then 0
      else let i := indexOf x rest in if decide (i = -1) then -1 else i + 1
  end.

Definition setFocusedClass (b : bool) (node : HTMLDivElement) : HTMLDivElement :=
  mkNode (element node) b (selected node) (rendered node).

Definition setSelectedClass (b : bool) (node : HTMLDivElement) : HTMLDivElement :=
  mkNode (element node) (focused node) b (rendered node).

(** The loop of [_focus], from the index [i] on: [idx] is
    [this._focusedItemIdx]. *)
Fixpoint focusLoop (nth : option Z) (i : nat) (nodes : list HTMLDivElement)
    (idx : Z) : list HTMLDivElement * Z :=
  match nodes with
  | [] => ([], idx)
  | node :: rest =>
      if decide (Some (Z.of_nat i) ≠ nth)
      then
        let '(rest, idx) := focusLoop nth (S i) rest idx in
        (setFocusedClass false node :: rest, idx)
      else
        let '(rest, idx) := focusLoop nth (S i) rest (Z.of_nat i) in
        (setFocusedClass true node :: rest, idx)
  end.

Definition _focus (this : BreadcrumbsWidget) (nth : option Z)
    : BreadcrumbsWidget * list Effect :=
  let '(nodes, idx) := focusLoop nth 0 (_nodes this) (-1) in
  (mkWidget (_items this) nodes (_freeNodes this) idx (_selectedItemIdx this)
     (created this),
   [DidFocusItem (at_ (_items this) idx) (element <$> at_ nodes idx)]).

Definition getFocused (this : BreadcrumbsWidget) : option BreadcrumbsItem :=
  at_ (_items this) (_focusedItemIdx this).

Definition setFocused (this : BreadcrumbsWidget) (item : BreadcrumbsItem)
    : BreadcrumbsWidget * list Effect :=
  _focus this (Some (indexOf item (_items this))).

Definition focusPrev (this : BreadcrumbsWidget) : BreadcrumbsWidget * list Effect :=
  let length := Z.of_nat (length (_nodes this)) in
  _focus this (rem (_focusedItemIdx this - 1 + length) length).

Definition focusNext (this : BreadcrumbsWidget) : BreadcrumbsWidget * list Effect :=
  let length := Z.of_nat (length (_nodes this)) in
  _focus this (rem (_focusedItemIdx this + 1) length).

(** The loop of [_select]. *)
Fixpoint selectLoop (nth : option Z) (i : nat) (nodes : list HTMLDivElement)
    (idx : Z) : list HTMLDivElement * Z :=
  match nodes with
  | [] => ([], idx)
  | node :: rest =>
      if decide (Some (Z.of_nat i) ≠ nth)
      then
        let '(rest, idx) := selectLoop nth (S i) rest idx in
        (setSelectedClass false node :: rest, idx)
      else
        let '(rest, idx) := selectLoop nth (S i) rest (Z.of_nat i) in
        (setSelectedClass true node :: rest, idx)
  end.

Definition _select (this : BreadcrumbsWidget) (nth : option Z)
    : BreadcrumbsWidget * list Effect :=
  let '(nodes, idx) := selectLoop nth 0 (_nodes this) (-1) in
  (mkWidget (_items this) nodes (_freeNodes this) (_focusedItemIdx this) idx
     (created this),
   [DidSelectItem (at_ (_items this) idx) (element <$> at_ nodes idx)]).

Definition getSelected (this : BreadcrumbsWidget) : option BreadcrumbsItem :=
  at_ (_items this) (_selectedItemIdx this).

Definition setSelected (this : BreadcrumbsWidget) (item : BreadcrumbsItem)
    : BreadcrumbsWidget * list Effect :=
  _select this (Some (indexOf item (_items this))).

(** [_renderItem]: [container.className = ''] takes the classes 'focused'
    and 'selected' away. *)
Definition _renderItem (item : BreadcrumbsItem) (container : HTMLDivElement)
    : HTMLDivElement :=
  mkNode (element container) false false (Some item).

(** The first loop of [_render], on the items and the nodes from [start] on:
    the nodes rendered, and the items and the nodes it did not reach. *)
Fixpoint renderExisting (items : list BreadcrumbsItem)
    (nodes : list HTMLDivElement)
    : list HTMLDivElement * list BreadcrumbsItem * list HTMLDivElement :=
  match items, nodes with
  | item :: items', node :: nodes' =>
      let '(done, items', nodes') := renderExisting items' nodes' in
      (_renderItem item node :: done, items', nodes')
  | _, _ => ([], items, nodes)
  end.

(** [this._freeNodes.pop()] *)
Definition pop {A : Type} (array : list A) : option (A * list A) :=
  match reverse array with
  | [] => None
  | x :: rest => Some (x, reverse rest)
  end.

(** The last loop of [_render], on the items that have no node yet. *)
Fixpoint renderNew (items : list BreadcrumbsItem)
    (freeNodes : list HTMLDivElement) (created : nat)
    : list HTMLDivElement * list HTMLDivElement * nat :=
  match items with
  | [] => ([], freeNodes, created)
  | item :: rest =>
      let '(node, freeNodes, created) :=
        match pop freeNodes with
        | Some (node, freeNodes) => (node, freeNodes, created)
        | None => (mkNode created false false None, freeNodes, S created)
        end in
      let '(nodes, freeNodes, created) := renderNew rest freeNodes created in
      (_renderItem item node :: nodes, freeNodes, created)
  end.

(** [_render(start)].  With [start] beyond the nodes, [this._nodes.length =
    this._items.length] would leave holes in the array, which the lists of
    this model do not have: [None]. *)
Definition _render (this : BreadcrumbsWidget) (start : nat)
    : option BreadcrumbsWidget :=
  if decide (start ≤ length (_nodes this))%nat
  then
    let '(done, items, nodes) :=
      renderExisting (drop start (_items this)) (drop start (_nodes this)) in
    (* case a: more nodes -> remove them *)
    let freeNodes := _freeNodes this ++ nodes in
    let kept := take (length (_items this)) (take start (_nodes this) ++ done) in
    (* case b: more items -> render them *)
    let '(new, freeNodes, created) := renderNew items freeNodes (created this) in
    Some (mkWidget (_items this) (kept ++ new) freeNodes (_focusedItemIdx this)
            (_selectedItemIdx this) created)
  else None.

(** [_onClick(event)]: [path] is [event.target] and its ancestors. *)
Fixpoint _onClick (this : BreadcrumbsWidget) (path : list nat)
    : BreadcrumbsWidget * list Effect :=
  match path with
  | [] => (this, [])
  | el :: parents =>
      let idx := indexOf el (element <$> _nodes this) in
      if decide (0 ≤ idx)
      then
        let '(this, out) := _focus this (Some idx) in
        let '(this, out') := _select this (Some idx) in
        (this, out ++ out')
      else _onClick this parents
  end.

(** [dispose()] *)
Definition dispose (this : BreadcrumbsWidget) : BreadcrumbsWidget :=
  mkWidget (_items this) [] [] (_focusedItemIdx this) (_selectedItemIdx this)
    (created this).

Section SetItems.

(** [commonPrefixLength] of [vs/base/common/arrays] is not among the
    sources: the widget is modelled for any function in its place. *)
Variable commonPrefixLength :
  list BreadcrumbsItem -> list BreadcrumbsItem ->
  (BreadcrumbsItem -> BreadcrumbsItem -> bool) -> nat.

Definition setItems (this : BreadcrumbsWidget) (items : list BreadcrumbsItem)
    : option (BreadcrumbsWidget * list Effect) :=
  let prefix := commonPrefixLength (_items this) items (λ a b, equals a b) in
  let removed := drop prefix (_items this) in
  let this :=
    mkWidget (take prefix (_items this) ++ drop prefix items) (_nodes this)
      (_freeNodes this) (_focusedItemIdx this) (_selectedItemIdx this)
      (created this) in
  match _render this prefix with
  | Some this =>
      let out := DisposeItem <$> removed in
      if decide (_focusedItemIdx this ≤ Z.of_nat prefix)
      then let '(this, out') := _focus this (Some (-1)) in Some (this, out ++ out')
      else Some (this, out)
  | None => None
  end.

Definition step (this : BreadcrumbsWidget) (i : Input)
    : option (BreadcrumbsWidget * list Effect) :=
  match i with
  | SetFocused item => Some (setFocused this item)
  | FocusPrev => Some (focusPrev this)
  | FocusNext => Some (focusNext this)
  | SetSelected item => Some (setSelected this item)
  | SetItems items => setItems this items
  | Click path => Some (_onClick this path)
  | Disposal => Some (dispose this, [])
  end.

Fixpoint run (this : BreadcrumbsWidget) (inputs : list Input)
    : option (BreadcrumbsWidget * list Effect) :=
  match inputs with
  | [] => Some (this, [])
  | i :: rest =>
      match step this i with
      | Some (this, out) =>
          match run this rest with
          | Some (this, out') => Some (this, out ++ out')
          | None => None
          end
      | None => None
      end
  end.

End SetItems.

End Breadcrumbs.

(** ** Vocabulary of the statements *)

(** The messages a list of effects puts on the transport, in order. *)
Definition serverSent (out : list Server.Effect) : list Message :=
  omap (λ e, match e with Server.Send m => Some m | _ => None end) out.

Definition clientSent (out : list Client.Effect) : list Message :=
  omap (λ e, match e with Client.Send m => Some m | _ => None end) out.

(** A string without a newline, and the lines of an array joined by
    newlines: [lines.join('\n')]. *)
Fixpoint oneLine (s : string) : Prop :=
  match s with
  | EmptyString => True
  | String c rest => c ≠ newline ∧ oneLine rest
  end.

Definition joinLines (lines : list string) : string :=
  String.concat (String newline EmptyString) lines.

(** [channel.call(name, arg)] throws [err] inside [onPromise]: the channel
    does, or there is no channel of that name to call. *)
Definition throws (this : Server.ChannelServer) (channelName name : string)
    (arg : Value) (err : Value) : Prop :=
  (Server.channels this !! channelName = None ∧ err = undefinedChannel "call")
  ∨ (∃ channel, Server.channels this !! channelName = Some channel
                ∧ call channel name arg = Throws err).

(** The remote implementation of request [id] fails with [err] at input [i]:
    its eventual result rejects, or the call returns a rejected one, or the
    call throws. *)
Definition failsWith (this : Server.ChannelServer) (i : Server.Input) (id : Z)
    (err : Value) : Prop :=
  i = Server.Notify id (Server.Error err)
  ∨ (∃ channelName name arg,
       i = Server.Receive (MRequestPromise id channelName name arg)
       ∧ Server.protocolListener this = true
       ∧ Server.callChannel this channelName name arg = Failed err).

(** The answer of a ChannelServer to the cancellation of the call [id]: a
    [ResponsePromiseError] whose message and name are those of the error a
    cancelled result fails with. *)
Definition canceledResponse (id : Z) (m : Message) : Prop :=
  ∃ stack,
    m = MResponsePromiseError id (mkErrorData "Canceled" "Canceled" stack).



(** The ChannelClient has call [id] on the wire and not settled. *)
Definition awaiting (this : Client.ChannelClient) (id : Z) : Prop :=
  Client.protocolListener this = true
  ∧ Client.handlers this !! id = Some Client.PromiseHandler
  ∧ ∃ c, Client.calls this !! id = Some c ∧ Client.pending c = true.

(** How an eventual result ends. *)
Inductive Settlement : Type :=
| Resolves (data : Value)
| Rejects (err : Value).

Definition terminal (s : Settlement) : Server.Notification :=
  match s with
  | Resolves data => Server.Success data
  | Rejects err => Server.Error err
  end.

(** What a caller is to get for a remote failure [err]: the value itself, or
    for an Error one with the same message and name. *)
Definition rejection (err : Value) : Value :=
  match err with
  | VError e =>
      VError (mkErrorData (message e) (name e) (Server.serializeStack (stack e)))
  | _ => err
  end.

Definition settlement (id : Z) (s : Settlement) : Client.Effect :=
  match s with
  | Resolves data => Client.Complete id data
  | Rejects err => Client.Fail id (rejection err)
  end.

(** The message the callbacks of [onPromise] send for a notification. *)
Definition response (id : Z) (n : Server.Notification) : Message :=
  match n with
  | Server.Success data => MResponsePromiseSuccess id data
  | Server.Error err => Server.errorResponse id err
  | Server.Progress data => MResponsePromiseProgress id data
  end.

(** What may become of the variables of a connection: a registered one keeps
    the channels of its ChannelServer until it is disconnected, and a
    disconnected one stays so. *)
Definition keeps (c c' : IPC.Connection) : Prop :=
  match c, c' with
  | IPC.Connected, _ => True
  | IPC.Registered _ server _, IPC.Registered _ server' _ =>
      Server.channels server' = Server.channels server
  | IPC.Registered _ _ _, IPC.Disconnected => True
  | IPC.Registered _ _ _, IPC.Connected => False
  | IPC.Disconnected, c' => c' = IPC.Disconnected
  end.

(** The channels, if any, that the ChannelServer of a connection serves. *)
Definition served (c : option IPC.Connection) : option (gmap string IChannel) :=
  match c with
  | Some (IPC.Registered _ server _) => Some (Server.channels server)
  | _ => None
  end.

(** What holds of every ChannelClient a program can have: before
    [ResponseInitialize] there is a buffer; what is in the buffer are
    [RequestPromise] messages not flushed yet; and the message of an event
    stream is the [RequestEventListen] with the id the stream is stored
    under, an id that has been allocated. *)
Definition wf (this : Client.ChannelClient) : Prop :=
  (Client.state this = Client.Uninitialized →
   is_Some (Client.bufferedRequests this))
  ∧ (∀ buffer, Client.bufferedRequests this = Some buffer →
       Forall (λ r, Client.flush r = true
                    ∧ IRawMessage.type (Client.raw r) = RequestPromise) buffer)
  ∧ (∀ id l, Client.emitters this !! id = Some l →
       id < Client.lastRequestId this
       ∧ ∃ channelName name arg,
           Client.request l = MRequestEventListen id channelName name arg).

(** The fields of a ChannelClient that calls read and write. *)
Definition sameCalls (this this' : Client.ChannelClient) : Prop :=
  Client.state this' = Client.state this
  ∧ Client.bufferedRequests this' = Client.bufferedRequests this
  ∧ Client.handlers this' = Client.handlers this
  ∧ Client.lastRequestId this' = Client.lastRequestId this
  ∧ Client.calls this' = Client.calls this.

(** The fields that event streams read and write. *)
Definition sameEvents (this this' : Client.ChannelClient) : Prop :=
  Client.emitters this' = Client.emitters this
  ∧ Client.onDidInitialize this' = Client.onDidInitialize this
  ∧ Client.continuations this' = Client.continuations this.

(** The message stored for the event stream [id]. *)
Definition stored (this : Client.ChannelClient) (id : Z) : option Message :=
  Client.request <$> Client.emitters this !! id.

(** An effect of the event streams: the message stored for a stream is sent,
    or the [RequestEventDispose] of one. *)
Definition ofStream (this : Client.ChannelClient) (e : Client.Effect) : Prop :=
  ∃ m, e = Client.Send m
       ∧ ((∃ id, stored this id = Some m) ∨ (∃ id, m = MRequestEventDispose id)).

(** A step that only the event streams take part in. *)
Definition eventStep (this : Client.ChannelClient)
    (result : Client.ChannelClient * list Client.Effect) : Prop :=
  sameCalls this result.1
  ∧ (∀ id, stored result.1 id = stored this id)
  ∧ Client.protocolListener result.1 = Client.protocolListener this
  ∧ Forall (ofStream this) result.2.

(** ** The life of one request *)

(** The two messages a ChannelClient can send for the call [id]. *)
Inductive Mark : Type := Requested | Cancelled.

Definition mark (id : Z) (e : Client.Effect) : option Mark :=
  match e with
  | Client.Send m =>
      if decide (IRawMessage.id m = Some id)
      then match IRawMessage.type m with
           | RequestPromise => Some Requested
           | RequestPromiseCancel => Some Cancelled
           | _ => None
           end
      else None
  | _ => None
  end.

(** The [RequestPromise] and [RequestPromiseCancel] messages with the id
    [id] among the effects, in the order they were sent. *)
Definition marks (id : Z) (out : list Client.Effect) : list Mark :=
  omap (mark id) out.

(** What a ChannelClient holds about the id [id]: its state, whether the id
    has been allocated, the call and the handler stored under it, and the
    requests of the buffer that carry it. *)
Definition view (id : Z) (this : Client.ChannelClient)
    : Client.State * bool * option Client.Call * option Client.IHandler
      * option (list Client.IRequest) :=
  (Client.state this,
   bool_decide (id < Client.lastRequestId this),
   Client.calls this !! id,
   Client.handlers this !! id,
   filter (λ r, Client.requestId r = Some id) <$> Client.bufferedRequests this).

(** Where the call [id] stands: its id is not allocated; it waits in the
    buffer; it is on the wire and not settled, with its handler stored; it
    was taken out of the buffer unsent (or the id is that of an event
    stream); it was sent and has settled. *)
Inductive Phase : Type := Fresh | Parked | InFlight | Dropped | Done.

Definition settledView
    (v : Client.State * bool * option Client.Call * option Client.IHandler
         * option (list Client.IRequest)) : Prop :=
  let '(state, allocated, call, _, buffer) := v in
  allocated = true
  ∧ (∀ c, call = Some c → Client.pending c = false)
  ∧ (state = Client.Uninitialized → ∀ b, buffer = Some b → b = []).

Definition phaseView (id : Z) (ph : Phase)
    (v : Client.State * bool * option Client.Call * option Client.IHandler
         * option (list Client.IRequest)) : Prop :=
  match ph with
  | Fresh =>
      let '(_, allocated, call, handler, buffer) := v in
      allocated = false ∧ call = None ∧ handler = None
      ∧ (∀ b, buffer = Some b → b = [])
  | Parked =>
      let '(state, allocated, call, handler, buffer) := v in
      allocated = true ∧ state = Client.Uninitialized
      ∧ call = Some (Client.mkCall true false true) ∧ handler = None
      ∧ ∃ channelName name arg,
          buffer = Some [Client.mkRequest
                           (MRequestPromise id channelName name arg) true]
  | InFlight =>
      let '(state, allocated, call, handler, _) := v in
      allocated = true ∧ state = Client.Idle
      ∧ handler = Some Client.PromiseHandler
      ∧ ∃ c, call = Some c ∧ Client.pending c = true
             ∧ (Client.buffered c = true → Client.flushedRequest c = true)
  | Dropped | Done => settledView v
  end.

Definition phase_ok (id : Z) (ph : Phase) (this : Client.ChannelClient) : Prop :=
  phaseView id ph (view id this).

(** The marks a request can leave on the way from one phase to another. *)
Definition path (ph : Phase) (tr : list Mark) (ph' : Phase) : Prop :=
  match ph, ph' with
  | Fresh, Fresh | Fresh, Parked | Fresh, Dropped => tr = []
  | Fresh, InFlight => tr = [Requested]
  | Fresh, Done => tr = [Requested] ∨ tr = [Requested; Cancelled]
  | Parked, Parked | Parked, Dropped => tr = []
  | Parked, InFlight => tr = [Requested]
  | Parked, Done => tr = [Requested] ∨ tr = [Requested; Cancelled]
  | InFlight, InFlight => tr = []
  | InFlight, Done => tr = [] ∨ tr = [Cancelled]
  | Dropped, Dropped | Done, Done => tr = []
  | _, _ => False
  end.

(** The phase of every id in a new ChannelClient. *)
Definition initialPhase (id : Z) : Phase :=
  if decide (0 ≤ id) then Fresh else Dropped.

(** A step takes the call [id] from whatever phase it is in to a phase it can
    reach, leaving the marks of that path. *)
Definition advances (id : Z) (this : Client.ChannelClient)
    (result : Client.ChannelClient * list Client.Effect) : Prop :=
  ∀ ph, phase_ok id ph this →
    ∃ ph', phase_ok id ph' result.1 ∧ path ph (marks id result.2) ph'.

(** The [RequestPromise] messages among the messages sent. *)
Definition promiseRequests (ms : list Message) : list Message :=
  filter (λ m, IRawMessage.type m = RequestPromise) ms.

(** Every [RequestEventListen] among the effects is the message stored for
    the stream whose id it carries. *)
Definition listensStored (this : Client.ChannelClient)
    (out : list Client.Effect) : Prop :=
  ∀ m id, m ∈ clientSent out → IRawMessage.type m = RequestEventListen →
          IRawMessage.id m = Some id → stored this id = Some m.

(** A step that only the calls take part in: the streams keep their
    messages, and what is sent is a [RequestPromise] or a
    [RequestPromiseCancel]. *)
Definition callStep (this : Client.ChannelClient)
    (result : Client.ChannelClient * list Client.Effect) : Prop :=
  (∀ id, stored result.1 id = stored this id)
  ∧ Forall (λ m, IRawMessage.type m = RequestPromise
                 ∨ IRawMessage.type m = RequestPromiseCancel)
      (clientSent result.2).

(** ** Disposal of a ChannelClient *)

(** The result of the call [id] has not settled. *)
Definition isPending (this : Client.ChannelClient) (id : Z) : Prop :=
  ∃ c, Client.calls this !! id = Some c ∧ Client.pending c = true.

(** Every call that has not settled has its disposable in [activeRequests]. *)
Definition tracked (this : Client.ChannelClient) : Prop :=
  ∀ id, isPending this id → id ∈ Client.activeRequests this.

(** Every call that has not settled waits in the buffer before
    [ResponseInitialize], and is on the wire after it. *)
Definition live (this : Client.ChannelClient) : Prop :=
  ∀ id, isPending this id →
    phase_ok id
      match Client.state this with
      | Client.Uninitialized => Parked
      | Client.Idle => InFlight
      end this.

(** What [cancel()] brings about on a result that has not settled: the
    caller sees the cancellation, after the [RequestPromiseCancel] sent if the
    request is on the wire. *)
Definition cancelEffects (state : Client.State) (id : Z) : list Client.Effect :=
  match state with
  | Client.Uninitialized => [Client.Canceled id]
  | Client.Idle => [Client.Send (MRequestPromiseCancel id); Client.Canceled id]
  end.

(** An effect a ChannelClient brings about without a message of its peer:
    it sends, a result is canceled, or [null] is dereferenced. *)
Definition unprompted (e : Client.Effect) : Prop :=
  match e with
  | Client.Send _ | Client.Canceled _ | Client.Uncaught _ => True
  | _ => False
  end.

(** ** The order of the calls on the transport *)

(** The ids of the [RequestPromise] messages among the effects, in the order
    they were sent. *)
Definition requestedIds (out : list Client.Effect) : list Z :=
  omap IRawMessage.id (promiseRequests (clientSent out)).

(** The ids of the requests that wait in the buffer, in its order. *)
Definition bufferedIds (this : Client.ChannelClient) : list Z :=
  match Client.bufferedRequests this with
  | Some buffer => omap Client.requestId buffer
  | None => []
  end.

(** The calls sent so far and, after them, the calls of the buffer carry
    ids that grow, all of them allocated; once the client is [Idle] there is
    no buffer. *)
Definition ordered (this : Client.ChannelClient) (out : list Client.Effect)
    : Prop :=
  StronglySorted Z.lt (requestedIds out ++ bufferedIds this)
  ∧ Forall (λ id, id < Client.lastRequestId this)
      (requestedIds out ++ bufferedIds this)
  ∧ (Client.state this = Client.Idle → Client.bufferedRequests this = None).

(** ** Connections of an IPCServer *)

(** The protocol an input of the IPCServer concerns, if it concerns one. *)
Definition addressee (i : IPC.Input) : option nat :=
  match i with
  | IPC.Deliver p _ | IPC.ClientDisconnect p | IPC.Notify p _ _
  | IPC.Fire p _ _ | IPC.Cancel p _ | IPC.Subscribe p _ | IPC.Unsubscribe p _
  | IPC.Tick p => Some p
  | _ => None
  end.

(** The protocol an effect takes place on. *)
Definition protocolOf (e : IPC.Effect) : nat :=
  match e with
  | IPC.OfServer p _ | IPC.OfClient p _ => p
  end.

(** The requests a ChannelClient that is not initialized parks for the calls
    among [ops], made one after the other from the id [next] on; a listen
    takes an id as a call does. *)
Fixpoint parked (next : Z) (ops : list IPC.Routed) : list Client.IRequest :=
  match ops with
  | [] => []
  | IPC.RoutedCall channelName command arg :: rest =>
      Client.mkRequest (MRequestPromise next channelName command arg) true
      :: parked (next + 1) rest
  | IPC.RoutedListen _ _ _ :: rest => parked (next + 1) rest
  end.

(** The ids the listens among [ops] take, and the [RequestEventListen]
    messages made for them. *)
Fixpoint listened (next : Z) (ops : list IPC.Routed) : list Z :=
  match ops with
  | [] => []
  | IPC.RoutedCall _ _ _ :: rest => listened (next + 1) rest
  | IPC.RoutedListen _ _ _ :: rest => next :: listened (next + 1) rest
  end.

Fixpoint listens (next : Z) (ops : list IPC.Routed) : list Message :=
  match ops with
  | [] => []
  | IPC.RoutedCall _ _ _ :: rest => listens (next + 1) rest
  | IPC.RoutedListen channelName event arg :: rest =>
      MRequestEventListen next channelName event arg :: listens (next + 1) rest
  end.

(** What the transport of an IPCServer delivers for an effect of the
    IPCClient at its other end. *)
Definition wire (e : IPCClient.Effect) : option IPC.Incoming :=
  match e with
  | IPCClient.SendId id => Some (IPC.Hello id)
  | IPCClient.OfClient (Client.Send m) => Some (IPC.Protocol m)
  | IPCClient.OfServer (Server.Send m) => Some (IPC.Protocol m)
  | _ => None
  end.

(** ** The breadcrumbs widget *)

(** The index [_focus(nth)] and [_select(nth)] leave in a widget of [length]
    nodes: [nth] if it is the index of a node, and -1 otherwise. *)
Definition landing (nth : option Z) (length : nat) : Z :=
  match nth with
  | Some k => if decide (0 ≤ k < Z.of_nat length) then k else -1
  | None => -1
  end.

(** A node but for its class 'focused', and but for its class 'selected'. *)
Definition unfocused (node : Breadcrumbs.HTMLDivElement)
    : Breadcrumbs.HTMLDivElement :=
  Breadcrumbs.setFocusedClass false node.

Definition unselected (node : Breadcrumbs.HTMLDivElement)
    : Breadcrumbs.HTMLDivElement :=
  Breadcrumbs.setSelectedClass false node.

(** A node as [_renderItem] leaves it: it shows the item and has neither
    class. *)
Definition justRendered (item : Breadcrumbs.BreadcrumbsItem)
    (node : Breadcrumbs.HTMLDivElement) : Prop :=
  Breadcrumbs.focused node = false
  ∧ Breadcrumbs.selected node = false
  ∧ Breadcrumbs.rendered node = Some item.

(** There is a node for every item; a node with the class 'focused' is the
    node of the focused index, and a node with the class 'selected' that of
    the selected index. *)
Definition coherent (this : Breadcrumbs.BreadcrumbsWidget) : Prop :=
  length (Breadcrumbs._nodes this) = length (Breadcrumbs._items this)
  ∧ (∀ i node, Breadcrumbs._nodes this !! i = Some node →
       Breadcrumbs.focused node = true →
       Breadcrumbs._focusedItemIdx this = Z.of_nat i)
  ∧ (∀ i node, Breadcrumbs._nodes this !! i = Some node →
       Breadcrumbs.selected node = true →
       Breadcrumbs._selectedItemIdx this = Z.of_nat i).

(** ** The next-tick channel *)

(** The operations asked of a next-tick channel, in the order they were
    asked. *)
Definition asked (inputs : list NextTick.Input) : list NextTick.Operation :=
  omap (λ i, match i with NextTick.Do op => Some op | _ => None end) inputs.

(** ** Clients and servers to try the statements on *)

(** A channel that answers every call at once, with the argument of the
    call, and a ChannelServer on which it is registered as "files". *)
Definition echoChannel : IChannel :=
  mkChannel (λ _ arg, Returns (Fulfilled arg)) (λ _ _, Listening).

Definition echoServer : Server.ChannelServer :=
  (Server.run true (Server.create).1
     [Server.RegisterChannel "files" echoChannel]).1.

(** An IPCServer that serves "files", with two calls and a listen routed to
    the client "a" and a call routed to "b", and one connection whose client
    has not said who it is. *)
Definition toClient (id : string) : IPC.IClientRouter :=
  IPC.mkRouter (λ _ _, Some id) (λ _ _, Some id).

Definition expectingServer : IPC.IPCServer :=
  (IPC.run true IPC.create
     [IPC.RegisterChannel "files" echoChannel;
      IPC.GetChannel (toClient "a") (IPC.RoutedCall "search" "find" (VString "x"));
      IPC.GetChannel (toClient "b") (IPC.RoutedCall "search" "find" (VString "y"));
      IPC.GetChannel (toClient "a") (IPC.RoutedListen "search" "onResult" VNull);
      IPC.GetChannel (toClient "a") (IPC.RoutedCall "search" "stop" VNull);
      IPC.ClientConnect]).1.

(** The clients "a" and "b", registered on the connections 0 and 1. *)
Definition twoClients : IPC.IPCServer :=
  (IPC.run true expectingServer
     [IPC.ClientConnect;
      IPC.Deliver 0 (IPC.Hello "a");
      IPC.Deliver 1 (IPC.Hello "b")]).1.

(** Two clients that both call themselves "a", on the connections 0 and 1. *)
Definition namesakes : IPC.IPCServer :=
  (IPC.run true IPC.create
     [IPC.ClientConnect;
      IPC.ClientConnect;
      IPC.Deliver 0 (IPC.Hello "a");
      IPC.Deliver 1 (IPC.Hello "a")]).1.

(** An IPCServer that serves "files" to the client "a" on the connection 0,
    after the handshake. *)
Definition servingServer : IPC.IPCServer :=
  (IPC.run true IPC.create
     ([IPC.RegisterChannel "files" echoChannel; IPC.ClientConnect]
      ++ (IPC.Deliver 0 <$> omap wire (IPCClient.create "a").2))).1.

(** The ChannelServer and the ChannelClient of a registered connection. *)
Definition channelServerOf (this : IPC.IPCServer) (p : nat)
    : Server.ChannelServer :=
  match IPC.connections this !! p with
  | Some (IPC.Registered _ channelServer _) => channelServer
  | _ => (Server.create).1
  end.

Definition channelClientOf (this : IPC.IPCServer) (p : nat)
    : Client.ChannelClient :=
  match IPC.connections this !! p with
  | Some (IPC.Registered _ _ channelClient) => channelClient
  | _ => Client.create
  end.

(** A [commonPrefixLength] to run [setItems] with: the number of leading
    places at which the two arrays hold equal items. *)
Fixpoint commonPrefix (one other : list Breadcrumbs.BreadcrumbsItem)
    (equals : Breadcrumbs.BreadcrumbsItem → Breadcrumbs.BreadcrumbsItem → bool)
    : nat :=
  match one, other with
  | a :: one, b :: other =>
      if equals a b then S (commonPrefix one other equals) else O
  | _, _ => O
  end.

(** The path src > vs > base > common, with "vs" focused and "base"
    selected. *)
Definition crumbs : list Breadcrumbs.BreadcrumbsItem :=
  [Breadcrumbs.mkItem 0 "src" "src"; Breadcrumbs.mkItem 1 "vs" "vs";
   Breadcrumbs.mkItem 2 "base" "base"; Breadcrumbs.mkItem 3 "common" "common"].

Definition widgetOf (inputs : list Breadcrumbs.Input)
    : Breadcrumbs.BreadcrumbsWidget :=
  match Breadcrumbs.run commonPrefix Breadcrumbs.create inputs with
  | Some (this, _) => this
  | None => Breadcrumbs.create
  end.

Definition fourCrumbs : Breadcrumbs.BreadcrumbsWidget :=
  widgetOf [Breadcrumbs.SetItems crumbs;
            Breadcrumbs.SetFocused (Breadcrumbs.mkItem 1 "vs" "vs");
            Breadcrumbs.SetSelected (Breadcrumbs.mkItem 2 "base" "base")].

(** Another path that begins with src > vs, and one that shares nothing. *)
Definition otherCrumbs : list Breadcrumbs.BreadcrumbsItem :=
  [Breadcrumbs.mkItem 4 "src" "src"; Breadcrumbs.mkItem 5 "vs" "vs";
   Breadcrumbs.mkItem 6 "editor" "editor"].

Definition strangeCrumbs : list Breadcrumbs.BreadcrumbsItem :=
  [Breadcrumbs.mkItem 7 "out" "out"; Breadcrumbs.mkItem 8 "vs" "vs"].

(** The same row with nothing focused. *)
Definition unfocusedCrumbs : Breadcrumbs.BreadcrumbsWidget :=
  widgetOf [Breadcrumbs.SetItems crumbs].

(** A ChannelClient with one event stream, of id 0, that has a listener. *)
Definition listeningClient : Client.ChannelClient :=
  (Client.run true Client.create
     [Client.Receive MResponseInitialize;
      Client.DoListen "files" "onChange" VNull;
      Client.Subscribe 0]).1.

(** A ChannelClient that has received [ResponseInitialize] and then made
    one call, which has id 0. *)
Definition oneCallClient : Client.ChannelClient :=
  (Client.run true Client.create
     [Client.Receive MResponseInitialize; Client.DoCall "files" "stat" VNull]).1.

(** [oneCallClient], disposed of while its call is on the wire. *)
Definition disposedClient : Client.ChannelClient :=
  (Client.step true oneCallClient Client.Disposal).1.

(** A ChannelClient that made one call before [ResponseInitialize]. *)
Definition parkedClient : Client.ChannelClient :=
  (Client.run true Client.create [Client.DoCall "files" "stat" VNull]).1.

(** The call made before [ResponseInitialize], and the handshake: the call
    waits in the buffer and is sent when the buffer is flushed. *)
Definition bufferedCall : list Client.Input :=
  [Client.DoCall "files" "stat" VNull; Client.Receive MResponseInitialize].

(** An Error with the message "boom" and a stack of two lines. *)
Definition boom : Value :=
  VError (mkErrorData "boom" "Error"
            (StackString ("Error: boom" +:+ String newline "    at stat"))).

(** A ChannelServer whose channel "files" throws [boom] at every call. *)
Definition failingServer : Server.ChannelServer :=
  Server.registerChannel (Server.create).1 "files"
    (mkChannel (λ _ _, Throws boom) (λ _ _, Listening)).

(** A ChannelServer with the call 0 of [oneCallClient] in flight: the
    channel "files" answers every call with a pending result. *)
Definition busyServer : Server.ChannelServer :=
  (Server.run true (Server.create).1
     [Server.RegisterChannel "files"
        (mkChannel (λ _ _, Returns Pending) (λ _ _, Listening));
      Server.Receive (MRequestPromise 0 "files" "stat" VNull)]).1.

(** A listener is added to the stream of one [listen], the handshake
    arrives, the listener is removed, and a listener is added again. *)
Definition resubscribe : list Client.Input :=
  [Client.DoListen "files" "onChange" VNull;
   Client.Subscribe 0;
   Client.Receive MResponseInitialize;
   Client.Tick;
   Client.Unsubscribe 0;
   Client.Subscribe 0;
   Client.Tick].

(** The same up to the removal of the listener. *)
Definition tornDown : list Client.Input :=
  [Client.DoListen "files" "onChange" VNull;
   Client.Subscribe 0;
   Client.Receive MResponseInitialize;
   Client.Tick;
   Client.Unsubscribe 0].

(** * Properties *)

(** ** ChannelServer *)

Lemma rev_app_append (s t u : string) :
  String.rev_app s t +:+ u = String.rev_app s (t +:+ u).
Proof.
  revert t. induction s as [|c s IH]; intros t; [done|]. simpl. by rewrite IH.
Qed.

Lemma rev_app_oneLine (s t : string) :
  oneLine s → oneLine t → oneLine (String.rev_app s t).
Proof.
  revert t. induction s as [|c s IH]; intros t Hs Ht; [done|].
  destruct Hs as [Hc Hs]. simpl. apply IH; [done|]. by split.
Qed.

Lemma splitLines_cons (acc s : string) : splitLines acc s ≠ [].
Proof.
  revert acc. induction s as [|c s IH]; intros acc; [done|].
  simpl. destruct (Ascii.eqb c newline); [done | apply IH].
Qed.

Lemma joinLines_cons (line : string) (lines : list string) :
  lines ≠ [] →
  joinLines (line :: lines)
  = line +:+ String newline EmptyString +:+ joinLines lines.
Proof. by destruct lines. Qed.

Lemma splitLines_join (acc s : string) :
  joinLines (splitLines acc s) = String.rev acc +:+ s.
Proof.
  revert acc. induction s as [|c s IH]; intros acc.
  - simpl. unfold String.rev. by rewrite rev_app_append.
  - simpl. destruct (Ascii.eqb_spec c newline) as [->|Hc].
    + rewrite joinLines_cons by apply splitLines_cons.
      rewrite IH. unfold String.rev. by rewrite !rev_app_append.
    + rewrite IH. unfold String.rev. simpl. by rewrite !rev_app_append.
Qed.

Lemma splitLines_oneLine (acc s : string) :
  oneLine acc → Forall oneLine (splitLines acc s).
Proof.
  revert acc. induction s as [|c s IH]; intros acc Hacc.
  - repeat constructor. by apply rev_app_oneLine.
  - simpl. destruct (Ascii.eqb_spec c newline) as [->|Hc].
    + constructor; [by apply rev_app_oneLine | by apply IH].
    + apply IH. by split.
Qed.

(** [s.split('\n')] gives the lines of [s]: strings without a newline that,
    joined by newlines, are [s]. *)
Lemma split_lines (s : string) :
  joinLines (split s) = s ∧ Forall oneLine (split s).
Proof. split; [apply splitLines_join | by apply splitLines_oneLine]. Qed.

Lemma errorResponse_id (id : Z) (err : Value) :
  IRawMessage.id (Server.errorResponse id err) = Some id.
Proof. by destruct err. Qed.

Lemma errorResponse_type (id : Z) (err : Value) :
  IRawMessage.type (Server.errorResponse id err) =
  match err with VError _ => ResponsePromiseError | _ => ResponsePromiseErrorObj end.
Proof. by destruct err. Qed.

(** A request whose call fails at once is answered inside [onPromise], in
    either order of registering and answering. *)
Lemma onPromise_failed then_sync (this : Server.ChannelServer) (id : Z)
    (channelName name : string) (arg err : Value) :
  Server.callChannel this channelName name arg = Failed err →
  ∃ this', Server.onPromise then_sync this id channelName name arg
           = (this', [Server.Send (Server.errorResponse id err)])
           ∧ Server.channels this' = Server.channels this.
Proof.
  intros Hcall. unfold Server.onPromise. rewrite Hcall. simpl.
  destruct then_sync; simpl; eexists; split; reflexivity.
Qed.

Lemma throws_callChannel (this : Server.ChannelServer) (channelName name : string)
    (arg err : Value) :
  throws this channelName name arg err →
  Server.callChannel this channelName name arg = Failed err.
Proof.
  unfold Server.callChannel.
  intros [[Hnone ->] | (channel & Hsome & Hthrow)].
  - by rewrite Hnone.
  - by rewrite Hsome, Hthrow.
Qed.

(** C6: a [RequestPromiseCancel] or [RequestEventDispose] whose id has no
    disposer in [activeRequests] does nothing: no disposer runs, nothing is
    raised or sent, and the ChannelServer is the same afterwards. *)
Theorem stale_cancellation_is_noop then_sync (this : Server.ChannelServer)
    (request : Message) (id : Z) :
  request = MRequestPromiseCancel id ∨ request = MRequestEventDispose id →
  Server.activeRequests this !! id = None →
  Server.step then_sync this (Server.Receive request) = (this, []).
Proof.
  intros Hrequest Hnone. simpl.
  destruct (Server.protocolListener this); [|done].
  destruct Hrequest as [-> | ->]; simpl;
    unfold Server.disposeActiveRequest; by rewrite Hnone.
Qed.

Lemma stale_cancellation_is_noop_witness :
  Server.step true (Server.create).1 (Server.Receive (MRequestPromiseCancel 7))
  = ((Server.create).1, []).
Proof.
  apply (stale_cancellation_is_noop true _ _ 7); [by left | reflexivity].
Defined.

(** C7: when [channel.call] throws inside [onPromise], and also when no
    channel of the requested name is registered, the ChannelServer still
    answers the [RequestPromise] with exactly one message, an error response
    for that id made from what was thrown; nothing else is done and no
    exception leaves [onMessage]. *)
Theorem synchronous_throw_is_answered then_sync (this : Server.ChannelServer)
    (id : Z) (channelName name : string) (arg err : Value) :
  Server.protocolListener this = true →
  throws this channelName name arg err →
  ∃ this' response,
    Server.step then_sync this
      (Server.Receive (MRequestPromise id channelName name arg))
    = (this', [Server.Send response])
    ∧ response = Server.errorResponse id err
    ∧ IRawMessage.id response = Some id
    ∧ (IRawMessage.type response = ResponsePromiseError
       ∨ IRawMessage.type response = ResponsePromiseErrorObj).
Proof.
  intros Hlistening Hthrows. simpl. rewrite Hlistening. simpl.
  destruct (onPromise_failed then_sync this id channelName name arg err)
    as (this' & Hstep & _); [by apply throws_callChannel|].
  exists this', (Server.errorResponse id err).
  split; [done|]. split; [done|]. split; [apply errorResponse_id|].
  rewrite errorResponse_type. destruct err; auto.
Qed.

Lemma synchronous_throw_is_answered_witness :
  ∃ this' response,
    Server.step true (Server.create).1
      (Server.Receive (MRequestPromise 3 "files" "stat" VNull))
    = (this', [Server.Send response])
    ∧ response = Server.errorResponse 3 (undefinedChannel "call")
    ∧ IRawMessage.id response = Some 3
    ∧ (IRawMessage.type response = ResponsePromiseError
       ∨ IRawMessage.type response = ResponsePromiseErrorObj).
Proof.
  apply (synchronous_throw_is_answered true (Server.create).1 3 "files" "stat"
           VNull (undefinedChannel "call")).
  - reflexivity.
  - left. split; reflexivity.
Defined.

Lemma notify_sends (this : Server.ChannelServer) (id : Z)
    (n : Server.Notification) :
  (Server.notify this id n).2 = [Server.Send (response id n)].
Proof. by destruct n. Qed.

Lemma run_notify_sends then_sync (this : Server.ChannelServer) (id : Z)
    (ns : list Server.Notification) :
  (Server.run then_sync this (Server.Notify id <$> ns)).2
  = Server.Send <$> (response id <$> ns).
Proof.
  revert this. induction ns as [|n ns IH]; intros this; [done|].
  rewrite !fmap_cons. cbn [Server.run Server.step].
  pose proof (notify_sends this id n) as Hn.
  destruct (Server.notify this id n) as [this1 out1]. simpl in Hn. subst out1.
  specialize (IH this1).
  destruct (Server.run then_sync this1 (Server.Notify id <$> ns)) as [this2 out2].
  simpl in *. by subst out2.
Qed.

Lemma serverSent_sends (ms : list Message) :
  serverSent (Server.Send <$> ms) = ms.
Proof. induction ms as [|m ms IH]; [done|]. simpl. by f_equal. Qed.

Lemma failsWith_sends then_sync (this : Server.ChannelServer) (i : Server.Input)
    (id : Z) (err : Value) :
  failsWith this i id err →
  ∃ this', Server.step then_sync this i
           = (this', [Server.Send (Server.errorResponse id err)]).
Proof.
  intros [-> | (channelName & name & arg & -> & Hlistening & Hcall)].
  - simpl. eauto.
  - simpl. rewrite Hlistening. simpl.
    destruct (onPromise_failed then_sync this id channelName name arg err Hcall)
      as (this' & Hstep & _).
    eauto.
Qed.

(** ** ChannelClient: responses *)

Lemma client_run_app then_sync (this : Client.ChannelClient)
    (xs ys : list Client.Input) :
  Client.run then_sync this (xs ++ ys) =
  let '(this1, out1) := Client.run then_sync this xs in
  let '(this2, out2) := Client.run then_sync this1 ys in
  (this2, out1 ++ out2).
Proof.
  revert this. induction xs as [|x xs IH]; intros this; simpl.
  - by destruct (Client.run then_sync this ys).
  - destruct (Client.step then_sync this x) as [this1 out1].
    rewrite IH.
    destruct (Client.run then_sync this1 xs) as [this2 out2].
    destruct (Client.run then_sync this2 ys) as [this3 out3].
    by rewrite app_assoc.
Qed.

(** A message that carries an id reaches the handler stored under it, in
    either state. *)
Lemma onMessage_handler then_sync (this : Client.ChannelClient)
    (response : Message) (id : Z) (handler : Client.IHandler) :
  isResponse (IRawMessage.type response) = true →
  IRawMessage.id response = Some id →
  Client.handlers this !! id = Some handler →
  Client.onMessage then_sync this response
  = Client.handle this handler id response.
Proof.
  intros Hresponse Hid Hhandler. unfold Client.onMessage.
  rewrite Hresponse. simpl.
  destruct (Client.state this), response; simpl in *; try discriminate;
    injection Hid as ->; by rewrite Hhandler.
Qed.

Lemma onMessage_no_handler then_sync (this : Client.ChannelClient)
    (response : Message) (id : Z) :
  IRawMessage.id response = Some id →
  Client.handlers this !! id = None →
  Client.onMessage then_sync this response = (this, []).
Proof.
  intros Hid Hnone. unfold Client.onMessage.
  destruct (negb (isResponse (IRawMessage.type response))); [done|].
  destruct (Client.state this), response; simpl in *; try discriminate;
    injection Hid as ->; by rewrite Hnone.
Qed.

Lemma receive_progress then_sync (this : Client.ChannelClient) (id : Z)
    (data : Value) :
  awaiting this id →
  Client.step then_sync this (Client.Receive (MResponsePromiseProgress id data))
  = (this, [Client.Progress id data]).
Proof.
  intros (Hlistening & Hhandler & c & Hcall & Hpending). simpl.
  rewrite Hlistening.
  rewrite (onMessage_handler then_sync this _ id Client.PromiseHandler);
    [|done..].
  simpl. unfold Client.progress. by rewrite Hcall, Hpending.
Qed.

(** The terminal response of a call that is awaited settles it, and takes its
    handler away. *)
Lemma receive_terminal then_sync (this : Client.ChannelClient) (id : Z)
    (s : Settlement) :
  awaiting this id →
  ∃ this', Client.step then_sync this (Client.Receive (response id (terminal s)))
           = (this', [settlement id s])
           ∧ Client.handlers this' !! id = None
           ∧ Client.protocolListener this' = true.
Proof.
  intros (Hlistening & Hhandler & c & Hcall & Hpending). simpl.
  rewrite Hlistening.
  assert (∀ e, ∃ this',
    Client.settle (Client.deleteHandler id this) id e = (this', [e])
    ∧ Client.handlers this' !! id = None
    ∧ Client.protocolListener this' = true) as Hsettle.
  { intros e. unfold Client.settle. simpl. rewrite Hcall, Hpending.
    eexists. split; [reflexivity|]. simpl. split; [apply lookup_delete_eq|done]. }
  destruct s as [data|err]; simpl.
  - rewrite (onMessage_handler then_sync this _ id Client.PromiseHandler);
      [|done..].
    apply Hsettle.
  - destruct err; simpl;
      rewrite (onMessage_handler then_sync this _ id Client.PromiseHandler);
      try done; apply Hsettle.
Qed.

Lemma receive_progress_all then_sync (this : Client.ChannelClient) (id : Z)
    (produced : list Value) :
  awaiting this id →
  Client.run then_sync this
    (Client.Receive <$> (MResponsePromiseProgress id <$> produced))
  = (this, Client.Progress id <$> produced).
Proof.
  intros Hawaiting. induction produced as [|data produced IH]; [done|].
  rewrite !fmap_cons. cbn [Client.run].
  rewrite receive_progress by done.
  by rewrite IH.
Qed.

(** A call that fails with the value [{code: 42}] of the spec. *)
Example remote_failure_code_42 :
  ∃ server' client',
    Server.step true (Server.create).1
      (Server.Notify 0 (Server.Error (VObject [("code", VNumber 42)])))
    = (server',
       [Server.Send (MResponsePromiseErrorObj 0 (VObject [("code", VNumber 42)]))])
    ∧ Client.step true oneCallClient
        (Client.Receive (MResponsePromiseErrorObj 0 (VObject [("code", VNumber 42)])))
      = (client', [Client.Fail 0 (VObject [("code", VNumber 42)])]).
Proof. eexists _, _. split; reflexivity. Qed.

(** ** IPCServer *)

Lemma keeps_refl (c : IPC.Connection) : keeps c c.
Proof. by destruct c. Qed.

Lemma keeps_trans (c1 c2 c3 : IPC.Connection) :
  keeps c1 c2 → keeps c2 c3 → keeps c1 c3.
Proof.
  destruct c1, c2, c3; simpl; try done; congruence.
Qed.

Lemma disposeDisposable_channels (this : Server.ChannelServer) (id : Z)
    (d : IDisposable) :
  Server.channels (Server.disposeDisposable this id d).1 = Server.channels this.
Proof.
  unfold Server.disposeDisposable. destruct d; [|done].
  by destruct (decide _).
Qed.

Lemma disposeActiveRequest_channels (this : Server.ChannelServer) (id : Z) :
  Server.channels (Server.disposeActiveRequest this id).1 = Server.channels this.
Proof.
  unfold Server.disposeActiveRequest.
  destruct (Server.activeRequests this !! id) as [d|]; [|done].
  pose proof (disposeDisposable_channels this id d) as Hd.
  by destruct (Server.disposeDisposable this id d).
Qed.

(** Only [registerChannel] changes the channels of a ChannelServer. *)
Lemma server_step_channels then_sync (this : Server.ChannelServer)
    (i : Server.Input) :
  (∀ channelName channel, i ≠ Server.RegisterChannel channelName channel) →
  Server.channels (Server.step then_sync this i).1 = Server.channels this.
Proof.
  intros Hi. destruct i as [request|id n|id data|channelName channel|]; simpl.
  - destruct (Server.protocolListener this); [|done].
    destruct request as [rid cn nm ar|rid| | | | | |rid cn nm ar|rid|];
      simpl; try done.
    + unfold Server.onPromise.
      destruct (Server.settled _) as [n|]; [|done].
      destruct then_sync; by destruct n.
    + by apply disposeActiveRequest_channels.
    + unfold Server.onEventListen.
      destruct (Server.channels this !! cn); [|done].
      by destruct (listen _ _ _).
    + by apply disposeActiveRequest_channels.
  - by destruct n.
  - done.
  - by destruct (Hi channelName channel).
  - unfold Server.dispose. destruct (Server.protocolListener this); [|done].
    by destruct (Server.disposeAll _ _).
Qed.

(** Writing the variables of one connection keeps all the others. *)
Lemma setConnection_keeps (this : IPC.IPCServer) (protocol p : nat)
    (old new c : IPC.Connection) :
  IPC.connections this !! protocol = Some old →
  keeps old new →
  IPC.connections this !! p = Some c →
  ∃ c', IPC.connections (IPC.setConnection protocol new this) !! p = Some c'
        ∧ keeps c c'.
Proof.
  intros Hold Hkeeps Hc. simpl.
  destruct (decide (protocol = p)) as [->|Hne].
  - exists new. split.
    + apply list_lookup_insert_eq. by eapply lookup_lt_Some.
    + congruence.
  - exists c. split; [by rewrite list_lookup_insert_ne | apply keeps_refl].
Qed.

Lemma forward_keeps then_sync (this : IPC.IPCServer) (protocol : nat) (op : IPC.Routed)
    (p : nat) (c : IPC.Connection) :
  IPC.connections this !! p = Some c →
  ∃ c', IPC.connections (IPC.forward then_sync this protocol op).1 !! p = Some c'
        ∧ keeps c c'.
Proof.
  intros Hc. unfold IPC.forward.
  destruct (IPC.connections this !! protocol) as [[|id server client|]|] eqn:Hold;
    try (exists c; split; [done | apply keeps_refl]).
  destruct (IPC.delayed then_sync client op) as [client' out].
  eapply setConnection_keeps; [done | by simpl | done].
Qed.

Lemma forwardAll_keeps then_sync (this : IPC.IPCServer) (protocol : nat)
    (ops : list IPC.Routed) (p : nat) (c : IPC.Connection) :
  IPC.connections this !! p = Some c →
  ∃ c', IPC.connections (IPC.forwardAll then_sync this protocol ops).1 !! p = Some c'
        ∧ keeps c c'.
Proof.
  revert this c. induction ops as [|op ops IH]; intros this c Hc; simpl.
  - exists c. split; [done | apply keeps_refl].
  - destruct (forward_keeps then_sync this protocol op p c Hc) as (c1 & Hc1 & Hk1).
    destruct (IPC.forward then_sync this protocol op) as [this1 out1]. simpl in Hc1.
    destruct (IH this1 c1 Hc1) as (c2 & Hc2 & Hk2).
    destruct (IPC.forwardAll then_sync this1 protocol ops) as [this2 out2].
    exists c2. split; [done | by eapply keeps_trans].
Qed.

Lemma forward_served then_sync (this : IPC.IPCServer) (protocol : nat) (op : IPC.Routed)
    (p : nat) :
  served (IPC.connections (IPC.forward then_sync this protocol op).1 !! p)
  = served (IPC.connections this !! p).
Proof.
  unfold IPC.forward.
  destruct (IPC.connections this !! protocol) as [[|id server client|]|] eqn:Hold;
    try done.
  destruct (IPC.delayed then_sync client op) as [client' out].
  simpl. destruct (decide (protocol = p)) as [->|Hne].
  - rewrite list_lookup_insert_eq by (by eapply lookup_lt_Some).
    by rewrite Hold.
  - by rewrite list_lookup_insert_ne.
Qed.

Lemma forwardAll_served then_sync (this : IPC.IPCServer) (protocol : nat)
    (ops : list IPC.Routed) (p : nat) :
  served (IPC.connections (IPC.forwardAll then_sync this protocol ops).1 !! p)
  = served (IPC.connections this !! p).
Proof.
  revert this. induction ops as [|op ops IH]; intros this; [done|].
  simpl. pose proof (forward_served then_sync this protocol op p) as Hop.
  destruct (IPC.forward then_sync this protocol op) as [this1 out1].
  specialize (IH this1).
  destruct (IPC.forwardAll then_sync this1 protocol ops) as [this2 out2].
  simpl in *. congruence.
Qed.

(** The ChannelServer of a new connection is given the channels the registry
    holds at that moment, no more and no fewer. *)
Lemma registerAll_channels (channels : gmap string IChannel) :
  Server.channels (IPC.registerAll (Server.create).1 channels) = channels.
Proof.
  unfold IPC.registerAll.
  apply (map_fold_weak_ind
           (λ (server : Server.ChannelServer) (m : gmap string IChannel),
              Server.channels server = m)).
  - done.
  - intros name channel m server _ IH. simpl. by rewrite IH.
Qed.

Lemma onServer_keeps then_sync (this : IPC.IPCServer) (protocol : nat)
    (i : Server.Input) (p : nat) (c : IPC.Connection) :
  (∀ channelName channel, i ≠ Server.RegisterChannel channelName channel) →
  IPC.connections this !! p = Some c →
  ∃ c', IPC.connections (IPC.onServer then_sync this protocol i).1 !! p = Some c'
        ∧ keeps c c'.
Proof.
  intros Hi Hc. unfold IPC.onServer.
  destruct (IPC.connections this !! protocol) as [[|id server client|]|] eqn:Hold;
    try (exists c; split; [done | apply keeps_refl]).
  pose proof (server_step_channels then_sync server i Hi) as Hchannels.
  destruct (Server.step then_sync server i) as [server' out].
  eapply setConnection_keeps; [done | by simpl | done].
Qed.

Lemma onClient_keeps then_sync (this : IPC.IPCServer) (protocol : nat)
    (i : Client.Input) (p : nat) (c : IPC.Connection) :
  IPC.connections this !! p = Some c →
  ∃ c', IPC.connections (IPC.onClient then_sync this protocol i).1 !! p = Some c'
        ∧ keeps c c'.
Proof.
  intros Hc. unfold IPC.onClient.
  destruct (IPC.connections this !! protocol) as [[|id server client|]|] eqn:Hold;
    try (exists c; split; [done | apply keeps_refl]).
  destruct (Client.step then_sync client i) as [client' out].
  eapply setConnection_keeps; [done | by simpl | done].
Qed.

Lemma onFirstMessage_keeps then_sync (this : IPC.IPCServer) (protocol : nat)
    (first : IPC.Incoming) (p : nat) (c : IPC.Connection) :
  IPC.connections this !! protocol = Some IPC.Connected →
  IPC.connections this !! p = Some c →
  ∃ c', IPC.connections (IPC.onFirstMessage then_sync this protocol first).1 !! p = Some c'
        ∧ keeps c c'.
Proof.
  intros Hold Hc. unfold IPC.onFirstMessage. simpl.
  match goal with
  | |- context [IPC.forwardAll _ ?t protocol ?ops] =>
      assert (∃ c1, IPC.connections t !! p = Some c1 ∧ keeps c c1)
        as (c1 & Hc1 & Hk1);
      [|destruct (forwardAll_keeps then_sync t protocol ops p c1 Hc1) as (c2 & Hc2 & Hk2);
        destruct (IPC.forwardAll then_sync t protocol ops) as [this2 out2]]
  end.
  - simpl. destruct (decide (protocol = p)) as [->|Hne].
    + eexists. split.
      * apply list_lookup_insert_eq. by eapply lookup_lt_Some.
      * rewrite Hold in Hc. by injection Hc as <-.
    + exists c. split; [by rewrite list_lookup_insert_ne | apply keeps_refl].
  - exists c2. split; [done | by eapply keeps_trans].
Qed.

(** No input changes the channels that the ChannelServer of a registered
    connection serves. *)
Lemma ipc_step_keeps then_sync (this : IPC.IPCServer) (i : IPC.Input) (p : nat)
    (c : IPC.Connection) :
  IPC.connections this !! p = Some c →
  ∃ c', IPC.connections (IPC.step then_sync this i).1 !! p = Some c'
        ∧ keeps c c'.
Proof.
  intros Hc.
  destruct i as [|protocol m|protocol|channelName channel|router op
                |protocol id n|protocol id data|protocol id|protocol id
                |protocol id|protocol|]; cbn [IPC.step].
  - simpl. exists c. split; [by apply lookup_app_l_Some | apply keeps_refl].
  - unfold IPC.onMessage.
    destruct (IPC.connections this !! protocol) as [[|id server client|]|] eqn:Hold;
      try (exists c; split; [done | apply keeps_refl]).
    + by apply onFirstMessage_keeps.
    + destruct m as [hello|m]; [exists c; split; [done | apply keeps_refl]|].
      pose proof (server_step_channels then_sync server (Server.Receive m))
        as Hchannels.
      destruct (Server.step then_sync server (Server.Receive m)) as [server' out].
      destruct (Client.step then_sync client (Client.Receive m)) as [client' out'].
      eapply setConnection_keeps; [done | | done].
      simpl. by apply Hchannels.
  - unfold IPC.onDisconnect.
    destruct (IPC.connections this !! protocol) as [[|id server client|]|] eqn:Hold;
      try (exists c; split; [done | apply keeps_refl]).
    destruct (Server.dispose server) as [server' out].
    destruct (Client.dispose client) as [client' out']. simpl.
    destruct (decide (protocol = p)) as [->|Hne].
    + exists IPC.Disconnected. split.
      * apply list_lookup_insert_eq. by eapply lookup_lt_Some.
      * rewrite Hold in Hc. by injection Hc as <-.
    + exists c. split; [by rewrite list_lookup_insert_ne | apply keeps_refl].
  - simpl. exists c. split; [done | apply keeps_refl].
  - unfold IPC.getChannel.
    destruct (IPC.noId (IPC.route router op));
      [exists c; split; [done | apply keeps_refl]|].
    destruct (IPC.route router op) as [clientId|];
      [|exists c; split; [done | apply keeps_refl]].
    destruct (IPC.channelClients this !! clientId) as [protocol|];
      [|exists c; split; [done | apply keeps_refl]].
    pose proof (forward_keeps then_sync this protocol op p c Hc) as Hforward.
    by destruct (IPC.forward then_sync this protocol op) as [this1 out1].
  - by apply onServer_keeps.
  - by apply onServer_keeps.
  - by apply onClient_keeps.
  - by apply onClient_keeps.
  - by apply onClient_keeps.
  - by apply onClient_keeps.
  - simpl. exists c. split; [done | apply keeps_refl].
Qed.

Lemma ipc_run_keeps then_sync (this : IPC.IPCServer) (inputs : list IPC.Input)
    (p : nat) (c : IPC.Connection) :
  IPC.connections this !! p = Some c →
  ∃ c', IPC.connections (IPC.run then_sync this inputs).1 !! p = Some c'
        ∧ keeps c c'.
Proof.
  revert this c. induction inputs as [|i inputs IH]; intros this c Hc.
  - exists c. split; [done | apply keeps_refl].
  - cbn [IPC.run].
    destruct (ipc_step_keeps then_sync this i p c Hc) as (c1 & Hc1 & Hk1).
    destruct (IPC.step then_sync this i) as [this1 out1]. simpl in Hc1.
    destruct (IH this1 c1 Hc1) as (c2 & Hc2 & Hk2).
    destruct (IPC.run then_sync this1 inputs) as [this2 out2].
    exists c2. split; [done | by eapply keeps_trans].
Qed.

(** C8: when the router gives no id for a call or a listen on a routed
    channel, the operation hands back a rejected result at once; it sends
    nothing on any transport and leaves the IPCServer as it was, so nothing
    is sent for it later either. *)
Theorem routing_failure_rejects_without_sending then_sync (this : IPC.IPCServer)
    (router : IPC.IClientRouter) (op : IPC.Routed) :
  IPC.route router op = None →
  IPC.getChannel then_sync this router op = (this, IPC.Rejected IPC.clientIdError, []).
Proof.
  intros Hroute. unfold IPC.getChannel. by rewrite Hroute.
Qed.

Lemma routing_failure_rejects_without_sending_witness :
  IPC.getChannel true IPC.create (IPC.mkRouter (λ _ _, None) (λ _ _, None))
    (IPC.RoutedCall "files" "stat" VNull)
  = (IPC.create, IPC.Rejected IPC.clientIdError, []).
Proof.
  apply (routing_failure_rejects_without_sending true IPC.create
           (IPC.mkRouter (λ _ _, None) (λ _ _, None))
           (IPC.RoutedCall "files" "stat" VNull)).
  reflexivity.
Defined.

(** C10: [registerChannel] on an IPCServer writes its own registry and
    nothing else.  The ChannelServer made when a connection registers is given
    the channels the registry holds at that moment, and serves exactly those
    for as long as the connection lasts, whatever is registered later. *)
Theorem late_channel_is_invisible then_sync (this : IPC.IPCServer)
    (protocol : nat) (first : IPC.Incoming) :
  IPC.connections this !! protocol = Some IPC.Connected →
  let registered := (IPC.step then_sync this (IPC.Deliver protocol first)).1 in
  served (IPC.connections registered !! protocol) = Some (IPC.channels this)
  ∧ (∀ later : list IPC.Input,
       let after := (IPC.run then_sync registered later).1 in
       served (IPC.connections after !! protocol) = Some (IPC.channels this)
       ∨ IPC.connections after !! protocol = Some IPC.Disconnected)
  ∧ (∀ (any : IPC.IPCServer) channelName channel,
       let after := (IPC.step then_sync any
                       (IPC.RegisterChannel channelName channel)).1 in
       IPC.channels after = <[channelName := channel]> (IPC.channels any)
       ∧ IPC.connections after = IPC.connections any
       ∧ IPC.channelClients after = IPC.channelClients any
       ∧ IPC.onClientAdded after = IPC.onClientAdded any).
Proof.
  intros Hconnected registered.
  assert (served (IPC.connections registered !! protocol)
          = Some (IPC.channels this)) as Hserved.
  { subst registered. cbn [IPC.step]. unfold IPC.onMessage.
    rewrite Hconnected. unfold IPC.onFirstMessage. simpl.
    match goal with
    | |- context [IPC.forwardAll _ ?t protocol ?ops] =>
        pose proof (forwardAll_served then_sync t protocol ops protocol) as Hforward;
        destruct (IPC.forwardAll then_sync t protocol ops) as [this2 out2]
    end.
    simpl in *. rewrite Hforward.
    rewrite list_lookup_insert_eq by (by eapply lookup_lt_Some).
    simpl. f_equal. apply registerAll_channels. }
  split; [done|]. split; [|by intros].
  intros later after.
  destruct (IPC.connections registered !! protocol) as [c|] eqn:Hc; [|done].
  destruct (ipc_run_keeps then_sync registered later protocol c Hc)
    as (c' & Hc' & Hkeeps).
  subst after. rewrite Hc'.
  destruct c as [|id server client|]; try done.
  destruct c' as [|id' server' client'|]; try done; [|by right].
  left. simpl in *. congruence.
Qed.

Lemma late_channel_is_invisible_witness :
  let this := (IPC.step true IPC.create IPC.ClientConnect).1 in
  let registered := (IPC.step true this (IPC.Deliver 0 (IPC.Hello "window:1"))).1 in
  served (IPC.connections registered !! 0%nat) = Some (IPC.channels this)
  ∧ (∀ later : list IPC.Input,
       let after := (IPC.run true registered later).1 in
       served (IPC.connections after !! 0%nat) = Some (IPC.channels this)
       ∨ IPC.connections after !! 0%nat = Some IPC.Disconnected)
  ∧ (∀ (any : IPC.IPCServer) channelName channel,
       let after := (IPC.step true any
                       (IPC.RegisterChannel channelName channel)).1 in
       IPC.channels after = <[channelName := channel]> (IPC.channels any)
       ∧ IPC.connections after = IPC.connections any
       ∧ IPC.channelClients after = IPC.channelClients any
       ∧ IPC.onClientAdded after = IPC.onClientAdded any).
Proof.
  apply (late_channel_is_invisible true
           (IPC.step true IPC.create IPC.ClientConnect).1 0 (IPC.Hello "window:1")).
  reflexivity.
Defined.

(** ** ChannelClient: what every reachable client satisfies *)

Lemma wf_create : wf Client.create.
Proof.
  split; [by eexists|]. split.
  - intros buffer [= <-]. constructor.
  - intros id l Hl. simpl in Hl. by rewrite lookup_empty in Hl.
Qed.

(** [wf] reads the state, the buffer, the counter and the streams only. *)
Lemma wf_same (this this' : Client.ChannelClient) :
  Client.state this' = Client.state this →
  Client.bufferedRequests this' = Client.bufferedRequests this →
  Client.lastRequestId this ≤ Client.lastRequestId this' →
  (∀ id, stored this' id = stored this id) →
  wf this → wf this'.
Proof.
  intros Hstate Hbuffer Hlast Hstored (W1 & W2 & W3).
  split; [by rewrite Hstate, Hbuffer|]. split; [by rewrite Hbuffer|].
  intros id l Hl.
  specialize (Hstored id). unfold stored in Hstored. rewrite Hl in Hstored.
  destruct (Client.emitters this !! id) as [l0|] eqn:Hl0; [|done].
  simpl in Hstored. injection Hstored as Hrequest.
  rewrite Hrequest. destruct (W3 id l0 Hl0) as [Hlt Hmessage].
  split; [lia|done].
Qed.

Lemma settle_same (this : Client.ChannelClient) (id : Z) (e : Client.Effect) :
  let this' := (Client.settle this id e).1 in
  Client.state this' = Client.state this
  ∧ Client.bufferedRequests this' = Client.bufferedRequests this
  ∧ Client.handlers this' = Client.handlers this
  ∧ Client.lastRequestId this' = Client.lastRequestId this
  ∧ Client.protocolListener this' = Client.protocolListener this
  ∧ sameEvents this this'.
Proof.
  unfold Client.settle.
  destruct (Client.calls this !! id) as [c|]; [|by repeat split].
  destruct (Client.pending c); by repeat split.
Qed.

Lemma settle_out (this : Client.ChannelClient) (id : Z) (e : Client.Effect) :
  (Client.settle this id e).2 = [e] ∨ (Client.settle this id e).2 = [].
Proof.
  unfold Client.settle.
  destruct (Client.calls this !! id) as [c|]; [|by right].
  destruct (Client.pending c); [by left | by right].
Qed.

(** What [settle] does to the call stored under any id. *)
Lemma settle_calls (this : Client.ChannelClient) (id j : Z) (e : Client.Effect) :
  Client.calls (Client.settle this id e).1 !! j =
  if decide (j = id)
  then (λ c, Client.mkCall (Client.buffered c) (Client.flushedRequest c) false)
       <$> Client.calls this !! id
  else Client.calls this !! j.
Proof.
  unfold Client.settle.
  destruct (Client.calls this !! id) as [c|] eqn:Hc.
  - destruct (Client.pending c) eqn:Hpending; simpl.
    + rewrite lookup_insert. by destruct (decide (id = j)), (decide (j = id)).
    + destruct (decide (j = id)) as [->|]; [|done].
      rewrite Hc. destruct c; simpl in *. by subst.
  - by destruct (decide (j = id)) as [->|].
Qed.

(** ** ChannelClient: event streams leave the calls alone *)

Lemma sameCalls_refl (this : Client.ChannelClient) : sameCalls this this.
Proof. by repeat split. Qed.

Lemma sameCalls_trans (a b c : Client.ChannelClient) :
  sameCalls a b → sameCalls b c → sameCalls a c.
Proof.
  intros (?&?&?&?&?) (?&?&?&?&?). repeat split; congruence.
Qed.

Lemma eventStep_nothing (this : Client.ChannelClient) : eventStep this (this, []).
Proof. split; [apply sameCalls_refl|]. by repeat split. Qed.

Lemma eventStep_then (this : Client.ChannelClient)
    (r1 r2 : Client.ChannelClient * list Client.Effect) :
  eventStep this r1 → eventStep r1.1 r2 → eventStep this (r2.1, r1.2 ++ r2.2).
Proof.
  intros (Hc1 & Hs1 & Hp1 & Ho1) (Hc2 & Hs2 & Hp2 & Ho2).
  split; [by eapply sameCalls_trans|]. split; [|split].
  - intros id. simpl. by rewrite Hs2, Hs1.
  - simpl. congruence.
  - simpl. apply Forall_app. split; [done|].
    eapply Forall_impl; [exact Ho2|].
    intros e (m & -> & [[id Hid] | [id Hid]]); exists m; (split; [done|]).
    + left. exists id. by rewrite <- Hs1.
    + right. by exists id.
Qed.

(** Writing a stream back with the message it had. *)
Lemma setListen_stored (this : Client.ChannelClient) (id : Z) (l l' : Client.Listen)
    (j : Z) :
  Client.emitters this !! id = Some l →
  Client.request l' = Client.request l →
  stored (Client.setListen id l' this) j = stored this j.
Proof.
  intros Hl Hrequest. unfold stored. simpl.
  destruct (decide (id = j)) as [->|Hne].
  - rewrite lookup_insert_eq, Hl. simpl. by rewrite Hrequest.
  - by rewrite lookup_insert_ne.
Qed.

Lemma whenInitializedThen_event (this : Client.ChannelClient) (id : Z) :
  eventStep this (Client.whenInitializedThen this id).
Proof.
  unfold Client.whenInitializedThen.
  destruct (Client.emitters this !! id) as [l|] eqn:Hl;
    [|apply eventStep_nothing].
  split; [by repeat split|]. split; [|split; [done|]].
  - intros j. by apply (setListen_stored this id l).
  - repeat constructor. eexists. split; [done|]. left. exists id.
    unfold stored. by rewrite Hl.
Qed.

Lemma runAll_event (this : Client.ChannelClient) (ids : list Z) :
  eventStep this (Client.runAll this ids).
Proof.
  revert this. induction ids as [|id ids IH]; intros this;
    [apply eventStep_nothing|].
  simpl. pose proof (whenInitializedThen_event this id) as H1.
  destruct (Client.whenInitializedThen this id) as [this1 out1].
  pose proof (IH this1) as H2.
  destruct (Client.runAll this1 ids) as [this2 out2].
  exact (eventStep_then this (this1, out1) (this2, out2) H1 H2).
Qed.

Lemma setUninitializedPromise_event (this : Client.ChannelClient) (id : Z)
    (p : option TPromise) :
  eventStep this (Client.setUninitializedPromise id p this, []).
Proof.
  unfold Client.setUninitializedPromise.
  destruct (Client.emitters this !! id) as [l|] eqn:Hl;
    [|apply eventStep_nothing].
  split; [by repeat split|]. split; [|by split].
  intros j. by apply (setListen_stored this id l).
Qed.

Lemma setListeners_event (this : Client.ChannelClient) (id : Z) (n : nat) :
  eventStep this (Client.setListeners id n this, []).
Proof.
  unfold Client.setListeners.
  destruct (Client.emitters this !! id) as [l|] eqn:Hl;
    [|apply eventStep_nothing].
  split; [by repeat split|]. split; [|by split].
  intros j. by apply (setListen_stored this id l).
Qed.

(** A step that writes only the two lists of waiting streams. *)
Lemma setWaiting_event (this : Client.ChannelClient) (xs ys : list Z) :
  eventStep this (Client.setContinuations xs (Client.setOnDidInitialize ys this), []).
Proof. split; [by repeat split|]. by repeat split. Qed.

Lemma onFirstListenerAdd_event then_sync (this : Client.ChannelClient) (id : Z) :
  eventStep this (Client.onFirstListenerAdd then_sync this id).
Proof.
  unfold Client.onFirstListenerAdd.
  destruct (Client.state this); [|destruct then_sync].
  - pose proof (setWaiting_event this (Client.continuations this)
                  (Client.onDidInitialize this ++ [id])) as H1.
    match goal with
    | |- eventStep _ (Client.setUninitializedPromise _ _ ?t, _) =>
        pose proof (setUninitializedPromise_event t id (Some Pending)) as H2;
        exact (eventStep_then this (t, []) _ H1 H2)
    end.
  - pose proof (whenInitializedThen_event this id) as H1.
    destruct (Client.whenInitializedThen this id) as [this1 out1].
    pose proof (setUninitializedPromise_event this1 id
                  (Some (Fulfilled VUndefined))) as H2.
    pose proof (eventStep_then this (this1, out1) _ H1 H2) as H.
    simpl in H. by rewrite app_nil_r in H.
  - pose proof (setWaiting_event this (Client.continuations this ++ [id])
                  (Client.onDidInitialize this)) as H1.
    match goal with
    | |- eventStep _ (Client.setUninitializedPromise _ _ ?t, _) =>
        pose proof (setUninitializedPromise_event t id (Some Pending)) as H2;
        exact (eventStep_then this (t, []) _ H1 H2)
    end.
Qed.

Lemma onLastListenerRemove_event (this : Client.ChannelClient) (id : Z)
    (l : Client.Listen) :
  eventStep this (Client.onLastListenerRemove this id l).
Proof.
  unfold Client.onLastListenerRemove.
  destruct (Client.uninitializedPromise l).
  - pose proof (setWaiting_event this
                  (filter (λ el, el ≠ id) (Client.continuations this))
                  (filter (λ el, el ≠ id) (Client.onDidInitialize this))) as H1.
    match goal with
    | |- eventStep _ (Client.setUninitializedPromise _ _ ?t, _) =>
        pose proof (setUninitializedPromise_event t id None) as H2;
        exact (eventStep_then this (t, []) _ H1 H2)
    end.
  - split; [apply sameCalls_refl|]. split; [done|]. split; [done|].
    repeat constructor. eexists. split; [done|]. right. by exists id.
Qed.

Lemma subscribe_event then_sync (this : Client.ChannelClient) (id : Z) :
  eventStep this (Client.subscribe then_sync this id).
Proof.
  unfold Client.subscribe.
  destruct (Client.emitters this !! id) as [l|]; [|apply eventStep_nothing].
  destruct (Client.listeners l) as [|n].
  - pose proof (onFirstListenerAdd_event then_sync this id) as H1.
    destruct (Client.onFirstListenerAdd then_sync this id) as [this1 out1].
    pose proof (setListeners_event this1 id 1) as H2.
    pose proof (eventStep_then this (this1, out1) _ H1 H2) as H.
    simpl in H. by rewrite app_nil_r in H.
  - apply setListeners_event.
Qed.

Lemma unsubscribe_event (this : Client.ChannelClient) (id : Z) :
  eventStep this (Client.unsubscribe this id).
Proof.
  unfold Client.unsubscribe.
  destruct (Client.emitters this !! id) as [l|]; [|apply eventStep_nothing].
  destruct (Client.listeners l) as [|[|n]].
  - apply eventStep_nothing.
  - pose proof (setListeners_event this id 0) as H1.
    pose proof (onLastListenerRemove_event (Client.setListeners id 0 this) id l)
      as H2.
    exact (eventStep_then this _ _ H1 H2).
  - apply setListeners_event.
Qed.

Lemma fireDidInitialize_event then_sync (this : Client.ChannelClient) :
  eventStep this (Client.fireDidInitialize then_sync this).
Proof.
  unfold Client.fireDidInitialize.
  pose proof (setWaiting_event this (Client.continuations this) []) as H1.
  destruct then_sync.
  - pose proof (runAll_event (Client.setOnDidInitialize [] this)
                  (Client.onDidInitialize this)) as H2.
    destruct (Client.runAll _ _) as [this2 out2].
    destruct H2 as (Hc & Hs & Hp & Ho). split; [|split; [|split]]; done.
  - split; [by repeat split|]. by repeat split.
Qed.

Lemma tick_event (this : Client.ChannelClient) :
  eventStep this (Client.tick this).
Proof.
  unfold Client.tick.
  pose proof (runAll_event (Client.setContinuations [] this)
                (Client.continuations this)) as H2.
  destruct (Client.runAll _ _) as [this2 out2].
  destruct H2 as (Hc & Hs & Hp & Ho). split; [|split; [|split]]; done.
Qed.

(** A step of the event streams keeps a client well formed, and sends
    nothing but [RequestEventListen] and [RequestEventDispose]. *)
Lemma eventStep_wf (this : Client.ChannelClient)
    (result : Client.ChannelClient * list Client.Effect) :
  eventStep this result → wf this → wf result.1.
Proof.
  intros ((Hstate & Hbuffer & _ & Hlast & _) & Hstored & _) Hwf.
  apply (wf_same this); try done. lia.
Qed.

Lemma ofStream_type (this : Client.ChannelClient) (e : Client.Effect) :
  wf this → ofStream this e →
  ∃ m, e = Client.Send m
       ∧ (IRawMessage.type m = RequestEventListen
          ∨ IRawMessage.type m = RequestEventDispose).
Proof.
  intros (_ & _ & W3) (m & -> & [[id Hid] | [id ->]]); eexists; (split; [done|]).
  - unfold stored in Hid.
    destruct (Client.emitters this !! id) as [l|] eqn:Hl; [|done].
    injection Hid as <-.
    destruct (W3 id l Hl) as (_ & channelName & name & arg & ->). by left.
  - by right.
Qed.

Lemma requestEvent_wf (this : Client.ChannelClient) (channelName name : string)
    (arg : Value) :
  wf this → wf (Client.requestEvent this channelName name arg).1.
Proof.
  intros (W1 & W2 & W3). split; [done|]. split; [done|].
  intros id l. simpl. rewrite lookup_insert.
  destruct (decide (Client.lastRequestId this = id)) as [<-|Hne].
  - intros [= <-]. split; [lia|]. by eexists _, _, _.
  - intros Hl. destruct (W3 id l Hl) as [Hlt Hrequest]. split; [lia|done].
Qed.

(** ** ChannelClient: the life of one request *)

Lemma path_refl (ph : Phase) : path ph [] ph.
Proof. by destruct ph. Qed.

Lemma path_trans (a b c : Phase) (t1 t2 : list Mark) :
  path a t1 b → path b t2 c → path a (t1 ++ t2) c.
Proof.
  destruct a, b, c; simpl; try done;
    intros H1 H2; destruct_or?; subst; simpl; auto.
Qed.

Lemma marks_app (id : Z) (out out' : list Client.Effect) :
  marks id (out ++ out') = marks id out ++ marks id out'.
Proof. apply omap_app. Qed.

Lemma marks_cons (id : Z) (e : Client.Effect) (out : list Client.Effect) :
  marks id (e :: out) =
  match mark id e with
  | Some x => x :: marks id out
  | None => marks id out
  end.
Proof. reflexivity. Qed.

Lemma phase_ok_view (id : Z) (ph : Phase) (this this' : Client.ChannelClient) :
  view id this' = view id this → phase_ok id ph this → phase_ok id ph this'.
Proof. unfold phase_ok. by intros ->. Qed.

Lemma sameCalls_view (id : Z) (this this' : Client.ChannelClient) :
  sameCalls this this' → view id this' = view id this.
Proof. intros (H1 & H2 & H3 & H4 & H5). unfold view. by rewrite H1, H2, H3, H4, H5. Qed.

Lemma initialPhase_create (id : Z) : phase_ok id (initialPhase id) Client.create.
Proof.
  unfold initialPhase, phase_ok, view. simpl.
  destruct (decide (0 ≤ id)); simpl.
  - rewrite bool_decide_eq_false_2 by lia. rewrite !lookup_empty.
    repeat split; try done. by intros b [= <-].
  - rewrite bool_decide_eq_true_2 by lia. rewrite !lookup_empty.
    repeat split; try done. by intros _ b [= <-].
Qed.

(** The event streams send no mark of any call. *)
Lemma eventStep_marks (this : Client.ChannelClient)
    (result : Client.ChannelClient * list Client.Effect) (id : Z) :
  wf this → eventStep this result → marks id result.2 = [].
Proof.
  intros Hwf (_ & _ & _ & Hout). induction Hout as [|e out He _ IH]; [done|].
  destruct (ofStream_type this e Hwf He) as (m & -> & Htype).
  rewrite marks_cons, IH. simpl.
  destruct (decide (IRawMessage.id m = Some id)); [|done].
  by destruct Htype as [-> | ->].
Qed.


Lemma advances_then (id : Z) (this : Client.ChannelClient)
    (r1 r2 : Client.ChannelClient * list Client.Effect) :
  advances id this r1 → advances id r1.1 r2 →
  advances id this (r2.1, r1.2 ++ r2.2).
Proof.
  intros H1 H2 ph Hph.
  destruct (H1 ph Hph) as (ph1 & Hph1 & Hpath1).
  destruct (H2 ph1 Hph1) as (ph2 & Hph2 & Hpath2).
  exists ph2. split; [done|]. simpl. rewrite marks_app. by eapply path_trans.
Qed.

(** A step that leaves the view of [id] alone and sends no mark of it. *)
Lemma advances_still (id : Z) (this : Client.ChannelClient)
    (result : Client.ChannelClient * list Client.Effect) :
  view id result.1 = view id this → marks id result.2 = [] →
  advances id this result.
Proof.
  intros Hview Hmarks ph Hph. exists ph. split.
  - by eapply phase_ok_view.
  - rewrite Hmarks. apply path_refl.
Qed.

Lemma eventStep_advances (this : Client.ChannelClient)
    (result : Client.ChannelClient * list Client.Effect) (id : Z) :
  wf this → eventStep this result → advances id this result.
Proof.
  intros Hwf Hstep. apply advances_still.
  - apply sameCalls_view. by destruct Hstep.
  - by eapply eventStep_marks.
Qed.

(** Taking one request out of the buffer. *)
Lemma filter_removeRequest (id j : Z) (buffer : list Client.IRequest) :
  filter (λ r, Client.requestId r = Some id) (Client.removeRequest j buffer)
  = if decide (j = id)
    then tail (filter (λ r, Client.requestId r = Some id) buffer)
    else filter (λ r, Client.requestId r = Some id) buffer.
Proof.
  induction buffer as [|r buffer IH]; simpl; [by destruct (decide (j = id))|].
  destruct (decide (Client.requestId r = Some j)) as [Hr|Hr].
  - rewrite filter_cons.
    destruct (decide (j = id)) as [->|Hne].
    + by rewrite decide_True.
    + rewrite decide_False; [done|]. rewrite Hr. intros [= ?]. done.
  - rewrite !filter_cons, IH.
    destruct (decide (Client.requestId r = Some id)) as [Hid|Hid];
      [|done].
    destruct (decide (j = id)) as [->|Hne]; [|done]. by destruct Hr.
Qed.

Lemma Forall_removeRequest (P : Client.IRequest → Prop) (j : Z)
    (buffer : list Client.IRequest) :
  Forall P buffer → Forall P (Client.removeRequest j buffer).
Proof.
  induction 1 as [|r buffer Hr Hbuffer IH]; simpl; [constructor|].
  destruct (decide (Client.requestId r = Some j)); [done|by constructor].
Qed.

(** [settle] with an effect that is no message. *)
Lemma settle_other (this : Client.ChannelClient) (id j : Z) (e : Client.Effect) :
  j ≠ id → mark id e = None →
  view id (Client.settle this j e).1 = view id this
  ∧ marks id (Client.settle this j e).2 = [].
Proof.
  intros Hne He. split.
  - destruct (settle_same this j e) as (H1 & H2 & H3 & H4 & _).
    unfold view. rewrite H1, H2, H3, H4, settle_calls.
    by rewrite decide_False by done.
  - destruct (settle_out this j e) as [-> | ->]; [|done].
    by rewrite marks_cons, He.
Qed.

Lemma settle_view (this : Client.ChannelClient) (id j : Z) (e : Client.Effect) :
  view id (Client.settle this j e).1 =
  (Client.state this,
   bool_decide (id < Client.lastRequestId this),
   if decide (id = j)
   then (λ c, Client.mkCall (Client.buffered c) (Client.flushedRequest c) false)
        <$> Client.calls this !! id
   else Client.calls this !! id,
   Client.handlers this !! id,
   filter (λ r, Client.requestId r = Some id) <$> Client.bufferedRequests this).
Proof.
  destruct (settle_same this j e) as (H1 & H2 & H3 & H4 & _).
  unfold view. rewrite H1, H2, H3, H4, settle_calls.
  by destruct (decide (id = j)) as [->|].
Qed.

Lemma settle_wf (this : Client.ChannelClient) (j : Z) (e : Client.Effect) :
  wf this → wf (Client.settle this j e).1.
Proof.
  destruct (settle_same this j e) as (H1 & H2 & H3 & H4 & _ & H5 & _).
  apply wf_same; try done; try lia. intros id. unfold stored. by rewrite H5.
Qed.

Lemma onCancel_wf (this : Client.ChannelClient) (j : Z) (c : Client.Call) :
  wf this → wf (Client.onCancel this j c).1.
Proof.
  intros Hwf. unfold Client.onCancel.
  destruct (Client.buffered c); [|done].
  destruct (Client.state this) eqn:Hstate.
  - destruct Hwf as (W1 & W2 & W3).
    split; [|split]; simpl; try done.
    + intros _. destruct (W1 Hstate) as [buffer ->]. by eexists.
    + intros buffer'.
      destruct (Client.bufferedRequests this) as [buffer|]; [|done].
      intros [= <-]. apply Forall_removeRequest. by apply W2.
  - destruct (Client.flushedRequest c); [|done].
    revert Hwf. by apply wf_same.
Qed.

Lemma cancel_wf (this : Client.ChannelClient) (j : Z) :
  wf this → wf (Client.cancel this j).1.
Proof.
  intros Hwf. unfold Client.cancel.
  destruct (Client.calls this !! j) as [c|]; [|done].
  destruct (Client.pending c); [|done].
  pose proof (onCancel_wf this j c Hwf) as H1.
  destruct (Client.onCancel this j c) as [this1 out1].
  pose proof (settle_wf this1 j (Client.Canceled j) H1) as H2.
  by destruct (Client.settle this1 j (Client.Canceled j)) as [this2 out2].
Qed.

(** Cancelling another call does nothing to the call [id]. *)
Lemma cancel_other (this : Client.ChannelClient) (id j : Z) :
  j ≠ id → advances id this (Client.cancel this j).
Proof.
  intros Hne. apply advances_still; unfold Client.cancel;
    destruct (Client.calls this !! j) as [c|] eqn:Hc; try done;
    destruct (Client.pending c); try done.
  - assert (view id (Client.onCancel this j c).1 = view id this) as Hview.
    { unfold Client.onCancel.
      destruct (Client.buffered c); [|done].
      destruct (Client.state this) eqn:Hstate.
      - unfold view. simpl. rewrite Hstate.
        destruct (Client.bufferedRequests this) as [buffer|]; [|done].
        simpl. rewrite filter_removeRequest.
        by rewrite decide_False by done.
      - destruct (Client.flushedRequest c); [|done].
        unfold view. simpl. by rewrite lookup_insert_ne by done. }
    destruct (Client.onCancel this j c) as [this1 out1].
    destruct (settle_other this1 id j (Client.Canceled j) Hne eq_refl) as [H _].
    destruct (Client.settle this1 j (Client.Canceled j)) as [this2 out2].
    simpl in *. congruence.
  - assert (marks id (Client.onCancel this j c).2 = []) as Hmarks.
    { unfold Client.onCancel.
      destruct (Client.buffered c), (Client.state this),
        (Client.flushedRequest c); try done;
        unfold marks; simpl; rewrite decide_False; try done;
        by intros [= ?]. }
    destruct (Client.onCancel this j c) as [this1 out1].
    destruct (settle_other this1 id j (Client.Canceled j) Hne eq_refl) as [_ H].
    destruct (Client.settle this1 j (Client.Canceled j)) as [this2 out2].
    simpl in *. by rewrite marks_app, Hmarks, H.
Qed.

(** Cancelling a call that waits in the buffer takes it out and sends
    nothing. *)
Lemma parked_cancel (this : Client.ChannelClient) (id : Z) :
  phase_ok id Parked this →
  phase_ok id Dropped (Client.cancel this id).1
  ∧ (Client.cancel this id).2 = [Client.Canceled id].
Proof.
  unfold phase_ok, view. simpl.
  intros (Hallocated & Hstate & Hcall & Hhandler & cn & n & a & Hbuffer).
  unfold Client.cancel. rewrite Hcall. simpl.
  unfold Client.onCancel. simpl. rewrite Hstate.
  unfold Client.settle. simpl. rewrite Hcall. simpl.
  split; [|done]. rewrite Hstate, Hallocated.
  split; [done|]. split.
  - intros c. rewrite lookup_insert_eq. by intros [= <-].
  - intros _ b.
    destruct (Client.bufferedRequests this) as [buffer|]; [|done].
    simpl in *. rewrite filter_removeRequest, decide_True by done.
    injection Hbuffer as ->. by intros [= <-].
Qed.

(** Cancelling a call that is on the wire sends one [RequestPromiseCancel]. *)
Lemma inflight_cancel (this : Client.ChannelClient) (id : Z) :
  phase_ok id InFlight this →
  phase_ok id Done (Client.cancel this id).1
  ∧ (Client.cancel this id).2
    = [Client.Send (MRequestPromiseCancel id); Client.Canceled id].
Proof.
  unfold phase_ok, view. simpl.
  intros (Hallocated & Hstate & Hhandler & c & Hcall & Hpending & Hflushed).
  unfold Client.cancel. rewrite Hcall, Hpending.
  unfold Client.onCancel. rewrite Hstate.
  destruct (Client.buffered c) eqn:Hbuffered.
  - rewrite (Hflushed eq_refl).
    unfold Client.settle. simpl. rewrite lookup_insert_eq. simpl.
    rewrite Hpending. simpl. split; [|done]. rewrite Hstate, Hallocated.
    split; [done|]. split; [|done].
    intros c'. rewrite lookup_insert_eq. by intros [= <-].
  - unfold Client.settle. rewrite Hcall, Hpending. simpl.
    split; [|done]. rewrite Hstate, Hallocated.
    split; [done|]. split; [|done].
    intros c'. rewrite lookup_insert_eq. by intros [= <-].
Qed.

Lemma mark_cancel (id : Z) :
  marks id [Client.Send (MRequestPromiseCancel id); Client.Canceled id]
  = [Cancelled].
Proof. unfold marks. simpl. by rewrite decide_True. Qed.

Lemma cancel_advances (this : Client.ChannelClient) (id j : Z) :
  advances id this (Client.cancel this j).
Proof.
  destruct (decide (j = id)) as [->|Hne]; [|by apply cancel_other].
  intros ph Hph. destruct ph.
  - exists Fresh. assert (Client.cancel this id = (this, [])) as ->; [|done].
    destruct Hph as (_ & Hcall & _). simpl in Hcall.
    unfold Client.cancel. by rewrite Hcall.
  - destruct (parked_cancel this id Hph) as [Hph' ->]. by exists Dropped.
  - destruct (inflight_cancel this id Hph) as [Hph' ->]. exists Done.
    split; [done|]. rewrite mark_cancel. by right.
  - exists Dropped. assert (Client.cancel this id = (this, [])) as ->; [|done].
    destruct Hph as (_ & Hpending & _). simpl in Hpending.
    unfold Client.cancel.
    destruct (Client.calls this !! id) as [c|]; [|done].
    by rewrite (Hpending c eq_refl).
  - exists Done. assert (Client.cancel this id = (this, [])) as ->; [|done].
    destruct Hph as (_ & Hpending & _). simpl in Hpending.
    unfold Client.cancel.
    destruct (Client.calls this !! id) as [c|]; [|done].
    by rewrite (Hpending c eq_refl).
Qed.

Lemma cancelAll_ok (this : Client.ChannelClient) (ids : list Z) (id : Z) :
  wf this →
  wf (Client.cancelAll this ids).1 ∧ advances id this (Client.cancelAll this ids).
Proof.
  revert this. induction ids as [|j ids IH]; intros this Hwf.
  - split; [done|]. by apply advances_still.
  - simpl. pose proof (cancel_wf this j Hwf) as Hwf1.
    pose proof (cancel_advances this id j) as Hadv1.
    destruct (Client.cancel this j) as [this1 out1].
    destruct (IH this1 Hwf1) as [Hwf2 Hadv2].
    destruct (Client.cancelAll this1 ids) as [this2 out2].
    split; [done|].
    exact (advances_then id this (this1, out1) (this2, out2) Hadv1 Hadv2).
Qed.

Lemma requestPromise_wf (this : Client.ChannelClient) (channelName name : string)
    (arg : Value) :
  wf this → wf (Client.requestPromise this channelName name arg).1.
Proof.
  intros Hwf. unfold Client.requestPromise, Client.bufferRequest.
  simpl. destruct (Client.state this) eqn:Hstate.
  - destruct Hwf as (W1 & W2 & W3).
    destruct (W1 Hstate) as [buffer Hbuffer]. rewrite Hbuffer. simpl.
    split; [by eexists|]. split.
    + intros buffer' [= <-]. apply Forall_app. split; [by apply W2|].
      by repeat constructor.
    + intros id l Hl. destruct (W3 id l Hl) as [Hlt Hmessage].
      split; [simpl; lia|done].
  - revert Hwf. apply wf_same; simpl; try done. lia.
Qed.

Lemma requestPromise_advances (this : Client.ChannelClient)
    (channelName name : string) (arg : Value) (id : Z) :
  wf this → advances id this (Client.requestPromise this channelName name arg).
Proof.
  intros (W1 & _ & _).
  destruct (decide (Client.lastRequestId this = id)) as [<-|Hne].
  - intros ph Hph.
    assert (ph = Fresh) as ->.
    { destruct ph; try done; destruct Hph as [Hallocated _];
        simpl in Hallocated; apply bool_decide_eq_true in Hallocated; lia. }
    destruct Hph as (_ & Hcall & Hhandler & Hbuffer). simpl in *.
    unfold Client.requestPromise, Client.bufferRequest. simpl.
    destruct (Client.state this) eqn:Hstate.
    + destruct (W1 eq_refl) as [buffer Hb]. rewrite Hb in *. simpl.
      exists Parked. split; [|done].
      unfold phase_ok, view. simpl. rewrite Hstate.
      rewrite bool_decide_eq_true_2 by lia.
      rewrite lookup_insert_eq, Hhandler, filter_app.
      rewrite (Hbuffer _ eq_refl), filter_cons, decide_True by done.
      repeat split; try done. by eexists _, _, _.
    + exists InFlight. split.
      * unfold phase_ok, view. simpl. rewrite Hstate.
        rewrite bool_decide_eq_true_2 by lia.
        rewrite !lookup_insert_eq. repeat split; try done.
        eexists. by repeat split.
      * unfold marks. simpl. by rewrite decide_True.
  - apply advances_still;
      unfold Client.requestPromise, Client.bufferRequest; simpl;
      destruct (Client.state this) eqn:Hstate;
      try destruct (Client.bufferedRequests this) as [buffer|] eqn:Hb;
      simpl; unfold view, marks; simpl;
      rewrite ?Hstate, ?Hb, ?lookup_insert_ne by done; simpl;
      rewrite ?filter_app, ?filter_cons, ?decide_False;
      rewrite ?filter_nil, ?app_nil_r; try done;
      try (intros [= ?]; done).
    all: do 4 f_equal; apply bool_decide_ext; lia.
Qed.

Lemma requestEvent_advances (this : Client.ChannelClient)
    (channelName name : string) (arg : Value) (id : Z) :
  advances id this (Client.requestEvent this channelName name arg).
Proof.
  destruct (decide (Client.lastRequestId this = id)) as [<-|Hne].
  - intros ph Hph.
    assert (ph = Fresh) as ->.
    { destruct ph; try done; destruct Hph as [Hallocated _];
        simpl in Hallocated; apply bool_decide_eq_true in Hallocated; lia. }
    destruct Hph as (_ & Hcall & Hhandler & Hbuffer). simpl in *.
    exists Dropped. split; [|done].
    unfold phase_ok, view. simpl.
    rewrite bool_decide_eq_true_2 by lia. rewrite Hcall.
    split; [done|]. split; [done|]. intros _ b Hb. by apply Hbuffer.
  - apply advances_still; [|done].
    unfold view. simpl. rewrite lookup_insert_ne by done.
    do 4 f_equal. apply bool_decide_ext. lia.
Qed.

Lemma settle_marks (this : Client.ChannelClient) (id j : Z) (e : Client.Effect) :
  mark id e = None → marks id (Client.settle this j e).2 = [].
Proof.
  intros He. destruct (settle_out this j e) as [-> | ->]; [|done].
  by rewrite marks_cons, He.
Qed.

(** A terminal response settles the call its handler was stored for. *)
Lemma settle_handled (this : Client.ChannelClient) (id j : Z)
    (h : Client.IHandler) (e : Client.Effect) :
  Client.handlers this !! j = Some h → mark id e = None →
  advances id this (Client.settle (Client.deleteHandler j this) j e).
Proof.
  intros Hhandler He.
  destruct (decide (j = id)) as [->|Hne].
  - intros ph Hph. unfold phase_ok in *.
    rewrite settle_view, decide_True by done.
    rewrite settle_marks by done.
    unfold view in Hph. simpl.
    destruct ph; simpl in *.
    + destruct Hph as (_ & _ & Hnone & _). congruence.
    + destruct Hph as (_ & _ & _ & Hnone & _). congruence.
    + destruct Hph as (Hallocated & Hstate & _ & c & Hcall & _).
      exists Done. simpl. rewrite Hcall. simpl.
      split; [|by left]. split; [done|]. split; [by intros c' [= <-]|].
      by rewrite Hstate.
    + destruct Hph as (Hallocated & Hpending & Hbuffer).
      exists Dropped. simpl. split; [|done]. split; [done|]. split; [|done].
      intros c'. destruct (Client.calls this !! id); [|done].
      by intros [= <-].
    + destruct Hph as (Hallocated & Hpending & Hbuffer).
      exists Done. simpl. split; [|done]. split; [done|]. split; [|done].
      intros c'. destruct (Client.calls this !! id); [|done].
      by intros [= <-].
  - apply advances_still; [|by apply settle_marks].
    rewrite settle_view, decide_False by done.
    unfold view. simpl. by rewrite lookup_delete_ne.
Qed.

Lemma handle_advances (this : Client.ChannelClient) (h : Client.IHandler)
    (j : Z) (response : Message) (id : Z) :
  Client.handlers this !! j = Some h →
  advances id this (Client.handle this h j response).
Proof.
  intros Hhandler. destruct h; simpl.
  - destruct response; try (by apply advances_still);
      try (by eapply settle_handled).
    unfold Client.progress.
    destruct (Client.calls this !! j) as [c|]; [|by apply advances_still].
    destruct (Client.pending c); by apply advances_still.
  - apply advances_still; [done|]. unfold Client.fire. simpl.
    destruct (Client.emitters this !! j) as [l|]; [|done].
    by destruct (Client.listeners l).
Qed.

Lemma handle_wf (this : Client.ChannelClient) (h : Client.IHandler) (j : Z)
    (response : Message) :
  wf this → wf (Client.handle this h j response).1.
Proof.
  intros Hwf. destruct h; simpl; [|done].
  assert (wf (Client.deleteHandler j this)) as Hwf'.
  { revert Hwf. by apply wf_same. }
  destruct response; try done; try (by apply settle_wf).
  unfold Client.progress.
  destruct (Client.calls this !! j) as [c|]; [|done].
  by destruct (Client.pending c).
Qed.

(** *** Flushing the buffer *)

Lemma flushRequest_same (this : Client.ChannelClient) (r : Client.IRequest) :
  let this' := (Client.flushRequest this r).1 in
  Client.state this' = Client.state this
  ∧ Client.bufferedRequests this' = Client.bufferedRequests this
  ∧ Client.lastRequestId this' = Client.lastRequestId this
  ∧ Client.protocolListener this' = Client.protocolListener this
  ∧ sameEvents this this'.
Proof.
  unfold Client.flushRequest, Client.doRequest.
  destruct (Client.flush r); [|by repeat split].
  destruct (Client.requestId r) as [j|]; [|by repeat split].
  simpl. destruct (Client.calls this !! j); by repeat split.
Qed.

Lemma flushAll_same (this : Client.ChannelClient) (buffer : list Client.IRequest) :
  let this' := (Client.flushAll this buffer).1 in
  Client.state this' = Client.state this
  ∧ Client.bufferedRequests this' = Client.bufferedRequests this
  ∧ Client.lastRequestId this' = Client.lastRequestId this
  ∧ Client.protocolListener this' = Client.protocolListener this
  ∧ sameEvents this this'.
Proof.
  revert this. induction buffer as [|r buffer IH]; intros this;
    [by repeat split|].
  simpl. pose proof (flushRequest_same this r) as H1.
  destruct (Client.flushRequest this r) as [this1 out1].
  pose proof (IH this1) as H2.
  destruct (Client.flushAll this1 buffer) as [this2 out2].
  simpl in *.
  destruct H1 as (?&?&?&?&?&?&?), H2 as (?&?&?&?&?&?&?).
  repeat split; congruence.
Qed.

(** What the buffer sends: its messages, in its order. *)
Lemma flushAll_out (this : Client.ChannelClient) (buffer : list Client.IRequest) :
  Forall (λ r, Client.flush r = true) buffer →
  (Client.flushAll this buffer).2 = Client.Send <$> (Client.raw <$> buffer).
Proof.
  intros Hflush. revert this.
  induction Hflush as [|r buffer Hr _ IH]; intros this; [done|].
  simpl. unfold Client.flushRequest at 1. rewrite Hr.
  unfold Client.doRequest.
  destruct (Client.requestId r) as [j|]; simpl.
  - destruct (Client.calls this !! j);
      match goal with
      | |- context [Client.flushAll ?t buffer] =>
          specialize (IH t); destruct (Client.flushAll t buffer); simpl in *;
          by rewrite IH
      end.
  - specialize (IH this). destruct (Client.flushAll this buffer). simpl in *.
    by rewrite IH.
Qed.

Lemma flushRequest_other (this : Client.ChannelClient) (r : Client.IRequest)
    (id : Z) :
  Client.requestId r ≠ Some id →
  view id (Client.flushRequest this r).1 = view id this
  ∧ marks id (Client.flushRequest this r).2 = [].
Proof.
  intros Hr. unfold Client.flushRequest, Client.doRequest.
  destruct (Client.flush r); [|done].
  assert (marks id (Client.send (Client.raw r)) = []) as Hmarks.
  { unfold marks. simpl. by rewrite decide_False. }
  destruct (Client.requestId r) as [j|] eqn:Hj; [|done].
  assert (j ≠ id) as Hne by congruence.
  simpl. destruct (Client.calls this !! j); simpl; (split; [|done]);
    unfold view; simpl; by rewrite ?lookup_insert_ne.
Qed.

Lemma flushAll_other (this : Client.ChannelClient)
    (buffer : list Client.IRequest) (id : Z) :
  filter (λ r, Client.requestId r = Some id) buffer = [] →
  view id (Client.flushAll this buffer).1 = view id this
  ∧ marks id (Client.flushAll this buffer).2 = [].
Proof.
  revert this. induction buffer as [|r buffer IH]; intros this Hfilter; [done|].
  rewrite filter_cons in Hfilter.
  destruct (decide (Client.requestId r = Some id)) as [|Hr]; [done|].
  simpl. destruct (flushRequest_other this r id Hr) as [Hv1 Hm1].
  destruct (Client.flushRequest this r) as [this1 out1].
  destruct (IH this1 Hfilter) as [Hv2 Hm2].
  destruct (Client.flushAll this1 buffer) as [this2 out2].
  simpl in *. split; [congruence|]. by rewrite marks_app, Hm1, Hm2.
Qed.

(** The buffer holds the call [id] once: flushing sends it once, stores its
    handler and records that it was flushed. *)
Lemma flushAll_parked (this : Client.ChannelClient)
    (buffer : list Client.IRequest) (id : Z) (channelName name : string)
    (arg : Value) :
  filter (λ r, Client.requestId r = Some id) buffer
  = [Client.mkRequest (MRequestPromise id channelName name arg) true] →
  Client.calls this !! id = Some (Client.mkCall true false true) →
  Client.calls (Client.flushAll this buffer).1 !! id
  = Some (Client.mkCall true true true)
  ∧ marks id (Client.flushAll this buffer).2 = [Requested]
  ∧ Client.handlers (Client.flushAll this buffer).1 !! id
    = Some Client.PromiseHandler.
Proof.
  revert this. induction buffer as [|r buffer IH]; intros this Hfilter Hcall;
    [done|].
  rewrite filter_cons in Hfilter.
  destruct (decide (Client.requestId r = Some id)) as [Hr|Hr].
  - injection Hfilter as -> Hrest. simpl.
    unfold Client.flushRequest, Client.doRequest. simpl. rewrite Hcall.
    match goal with
    | |- context [Client.flushAll ?t buffer] =>
        destruct (flushAll_other t buffer id Hrest) as [Hv Hm];
        destruct (Client.flushAll t buffer) as [this2 out2]
    end.
    simpl in *. unfold view in Hv. simpl in Hv. injection Hv as _ _ -> -> _.
    split; [apply lookup_insert_eq|]. split; [|apply lookup_insert_eq].
    by rewrite decide_True, Hm.
  - simpl. destruct (flushRequest_other this r id Hr) as [Hv1 Hm1].
    destruct (Client.flushRequest this r) as [this1 out1].
    simpl in *.
    assert (Client.calls this1 !! id = Some (Client.mkCall true false true))
      as Hcall1.
    { unfold view in Hv1. injection Hv1 as _ _ -> _ _. done. }
    destruct (IH this1 Hfilter Hcall1) as (Hc2 & Hm2 & Hh2).
    destruct (Client.flushAll this1 buffer) as [this2 out2].
    simpl in *. split; [done|]. split; [|done].
    by rewrite marks_app, Hm1, Hm2.
Qed.

Lemma initialize_wf then_sync (this : Client.ChannelClient) :
  wf this → wf (Client.initialize then_sync this).1.
Proof.
  intros Hwf. unfold Client.initialize.
  assert (wf (Client.setState Client.Idle this)) as Hwf0.
  { destruct Hwf as (W1 & W2 & W3). by split. }
  pose proof (fireDidInitialize_event then_sync (Client.setState Client.Idle this))
    as Hfire.
  pose proof (eventStep_wf _ _ Hfire Hwf0) as Hwf1.
  destruct (Client.fireDidInitialize then_sync _) as [this1 out1].
  destruct Hfire as ((Hstate1 & _) & _). simpl in *.
  destruct (Client.bufferedRequests this1) as [buffer|]; [|done].
  destruct (flushAll_same this1 buffer) as (Hs & Hb & Hl & _ & He & _).
  destruct (Client.flushAll this1 buffer) as [this2 out2]. simpl in *.
  destruct Hwf1 as (_ & _ & W3).
  split; [simpl; by rewrite Hs, Hstate1|]. split; [done|].
  simpl. rewrite He, Hl. apply W3.
Qed.

Lemma initialize_advances then_sync (this : Client.ChannelClient) (id : Z) :
  wf this → Client.state this = Client.Uninitialized →
  advances id this (Client.initialize then_sync this).
Proof.
  intros Hwf Hstate ph Hph. unfold Client.initialize.
  assert (wf (Client.setState Client.Idle this)) as Hwf0.
  { destruct Hwf as (W1 & W2 & W3). by split. }
  destruct Hwf as (W1 & _ & _). destruct (W1 Hstate) as [buffer Hbuffer].
  pose proof (fireDidInitialize_event then_sync (Client.setState Client.Idle this))
    as Hfire.
  pose proof (eventStep_marks _ _ id Hwf0 Hfire) as Hmarks1.
  destruct (Client.fireDidInitialize then_sync _) as [this1 out1].
  destruct Hfire as ((Hstate1 & Hbuffer1 & Hhandlers1 & Hlast1 & Hcalls1) & _).
  simpl in *. rewrite Hbuffer1, Hbuffer.
  destruct (flushAll_same this1 buffer) as (Hs & Hb & Hl & _).
  unfold phase_ok, view in Hph. rewrite Hstate, Hbuffer in Hph. simpl in Hph.
  destruct ph; simpl in Hph.
  - destruct Hph as (Hallocated & Hcall & Hhandler & Hempty).
    destruct (flushAll_other this1 buffer id (Hempty _ eq_refl)) as [Hv Hm].
    destruct (Client.flushAll this1 buffer) as [this2 out2]. simpl in *.
    exists Fresh. split; [|by rewrite marks_app, Hmarks1, Hm].
    unfold view in Hv. injection Hv as _ Hv2 Hv3 Hv4 _.
    unfold phase_ok, view. simpl. rewrite Hv2, Hv3, Hv4.
    by rewrite Hlast1, Hcalls1, Hhandlers1.
  - destruct Hph as (Hallocated & _ & Hcall & Hhandler & cn & n & a & Hone).
    injection Hone as Hone.
    destruct (flushAll_parked this1 buffer id cn n a Hone) as (Hc & Hm & Hh);
      [by rewrite Hcalls1|].
    destruct (Client.flushAll this1 buffer) as [this2 out2]. simpl in *.
    exists InFlight. split; [|by rewrite marks_app, Hmarks1, Hm].
    unfold phase_ok, view. simpl. rewrite Hs, Hstate1, Hl, Hlast1, Hc, Hh.
    split; [done|]. split; [done|]. split; [done|]. eexists. by repeat split.
  - by destruct Hph as (_ & [=] & _).
  - destruct Hph as (Hallocated & Hpending & Hempty).
    destruct (flushAll_other this1 buffer id (Hempty eq_refl _ eq_refl))
      as [Hv Hm].
    destruct (Client.flushAll this1 buffer) as [this2 out2]. simpl in *.
    exists Dropped. split; [|by rewrite marks_app, Hmarks1, Hm].
    unfold view in Hv. injection Hv as _ Hv2 Hv3 _ _.
    unfold phase_ok, view. simpl. rewrite Hv2, Hv3, Hs, Hstate1.
    by rewrite Hlast1, Hcalls1.
  - destruct Hph as (Hallocated & Hpending & Hempty).
    destruct (flushAll_other this1 buffer id (Hempty eq_refl _ eq_refl))
      as [Hv Hm].
    destruct (Client.flushAll this1 buffer) as [this2 out2]. simpl in *.
    exists Done. split; [|by rewrite marks_app, Hmarks1, Hm].
    unfold view in Hv. injection Hv as _ Hv2 Hv3 _ _.
    unfold phase_ok, view. simpl. rewrite Hv2, Hv3, Hs, Hstate1.
    by rewrite Hlast1, Hcalls1.
Qed.

Lemma onMessage_ok then_sync (this : Client.ChannelClient) (response : Message)
    (id : Z) :
  wf this →
  wf (Client.onMessage then_sync this response).1
  ∧ advances id this (Client.onMessage then_sync this response).
Proof.
  intros Hwf. unfold Client.onMessage.
  destruct (negb (isResponse (IRawMessage.type response)));
    [split; [done | by apply advances_still]|].
  assert (wf (match IRawMessage.id response with
              | Some j =>
                  match Client.handlers this !! j with
                  | Some handler => Client.handle this handler j response
                  | None => (this, [])
                  end
              | None => (this, [])
              end).1
          ∧ advances id this
              (match IRawMessage.id response with
               | Some j =>
                   match Client.handlers this !! j with
                   | Some handler => Client.handle this handler j response
                   | None => (this, [])
                   end
               | None => (this, [])
               end)) as Hdispatch.
  { destruct (IRawMessage.id response) as [j|];
      [|split; [done | by apply advances_still]].
    destruct (Client.handlers this !! j) as [h|] eqn:Hh;
      [|split; [done | by apply advances_still]].
    split; [by apply handle_wf | by apply handle_advances]. }
  destruct (Client.state this) eqn:Hstate; [|done].
  destruct response; try done.
  split; [by apply initialize_wf | by apply initialize_advances].
Qed.

Lemma dispose_ok (this : Client.ChannelClient) (id : Z) :
  wf this →
  wf (Client.dispose this).1 ∧ advances id this (Client.dispose this).
Proof.
  intros Hwf. unfold Client.dispose.
  destruct (Client.protocolListener this);
    [|split; [done | by apply advances_still]].
  assert (wf (Client.setProtocolListener false this)) as Hwf0.
  { revert Hwf. by apply wf_same. }
  destruct (cancelAll_ok (Client.setProtocolListener false this)
              (Client.activeRequests this) id Hwf0) as [Hwf1 Hadv1].
  destruct (Client.cancelAll _ _) as [this1 out1]. simpl in *.
  split; [revert Hwf1; by apply wf_same|].
  intros ph Hph. destruct (Hadv1 ph Hph) as (ph' & Hph' & Hpath).
  by exists ph'.
Qed.

(** Every input keeps a ChannelClient well formed and takes every call along
    a path of its life. *)
Lemma step_ok then_sync (this : Client.ChannelClient) (i : Client.Input) (id : Z) :
  wf this →
  wf (Client.step then_sync this i).1
  ∧ advances id this (Client.step then_sync this i).
Proof.
  intros Hwf.
  destruct i as [cn n a|j|cn n a|j|j|response| |]; cbn [Client.step].
  - split; [by apply requestPromise_wf | by apply requestPromise_advances].
  - split; [by apply cancel_wf | apply cancel_advances].
  - split; [by apply requestEvent_wf | apply requestEvent_advances].
  - pose proof (subscribe_event then_sync this j) as H.
    split; [by eapply eventStep_wf | by apply eventStep_advances].
  - pose proof (unsubscribe_event this j) as H.
    split; [by eapply eventStep_wf | by apply eventStep_advances].
  - destruct (Client.protocolListener this);
      [by apply onMessage_ok | split; [done | by apply advances_still]].
  - pose proof (tick_event this) as H.
    split; [by eapply eventStep_wf | by apply eventStep_advances].
  - by apply dispose_ok.
Qed.

Lemma run_ok then_sync (this : Client.ChannelClient) (inputs : list Client.Input)
    (id : Z) :
  wf this →
  wf (Client.run then_sync this inputs).1
  ∧ advances id this (Client.run then_sync this inputs).
Proof.
  revert this. induction inputs as [|i inputs IH]; intros this Hwf.
  - split; [done | by apply advances_still].
  - cbn [Client.run].
    destruct (step_ok then_sync this i id Hwf) as [Hwf1 Hadv1].
    destruct (Client.step then_sync this i) as [this1 out1].
    destruct (IH this1 Hwf1) as [Hwf2 Hadv2].
    destruct (Client.run then_sync this1 inputs) as [this2 out2].
    split; [done|].
    exact (advances_then id this (this1, out1) (this2, out2) Hadv1 Hadv2).
Qed.

(** What [marks] leaves out: with no mark of [id] among the effects, no
    [RequestPromise] and no [RequestPromiseCancel] with that id was sent. *)
Lemma marks_nil (id : Z) (out : list Client.Effect) (m : Message) :
  marks id out = [] → Client.Send m ∈ out → IRawMessage.id m = Some id →
  IRawMessage.type m ≠ RequestPromise
  ∧ IRawMessage.type m ≠ RequestPromiseCancel.
Proof.
  intros Hmarks Hin Hid.
  induction out as [|e out IH]; [by apply elem_of_nil in Hin|].
  rewrite marks_cons in Hmarks.
  apply elem_of_cons in Hin as [<- | Hin].
  - simpl in Hmarks. rewrite decide_True in Hmarks by done.
    by destruct (IRawMessage.type m).
  - apply IH; [|done]. by destruct (mark id e).
Qed.

(** The phase of a call that is pending in a reachable ChannelClient, and the
    marks it has left so far. *)
Lemma pending_phase then_sync (before : list Client.Input) (id : Z)
    (c : Client.Call) :
  let this := (Client.run then_sync Client.create before).1 in
  Client.calls this !! id = Some c → Client.pending c = true →
  wf this
  ∧ match Client.state this with
    | Client.Uninitialized =>
        phase_ok id Parked this
        ∧ marks id (Client.run then_sync Client.create before).2 = []
    | Client.Idle =>
        phase_ok id InFlight this
        ∧ marks id (Client.run then_sync Client.create before).2 = [Requested]
    end.
Proof.
  intros this Hcall Hpending.
  destruct (run_ok then_sync Client.create before id wf_create) as [Hwf Hadv].
  split; [done|].
  destruct (Hadv _ (initialPhase_create id)) as (ph & Hph & Hpath).
  fold this in Hph. pose proof Hph as Hph'.
  unfold phase_ok, view in Hph'. rewrite Hcall in Hph'.
  unfold initialPhase in Hpath.
  destruct ph; simpl in Hph'.
  - by destruct Hph' as (_ & [=] & _).
  - destruct Hph' as (_ & -> & _). split; [done|].
    by destruct (decide (0 ≤ id)).
  - destruct Hph' as (_ & -> & _). split; [done|].
    by destruct (decide (0 ≤ id)).
  - destruct Hph' as (_ & Hfalse & _). specialize (Hfalse c eq_refl). congruence.
  - destruct Hph' as (_ & Hfalse & _). specialize (Hfalse c eq_refl). congruence.
Qed.

(** C4: a call made before [ResponseInitialize] and canceled before it sits
    in the buffer until then; canceling takes it out of the buffer, and the
    ChannelClient never sends a [RequestPromise] or a [RequestPromiseCancel]
    with its id, whatever happens before or afterwards. *)
Theorem canceled_while_buffered_is_never_sent then_sync
    (before after : list Client.Input) (id : Z) (c : Client.Call) :
  let this := (Client.run then_sync Client.create before).1 in
  Client.state this = Client.Uninitialized →
  Client.calls this !! id = Some c → Client.pending c = true →
  (∃ buffer r, Client.bufferedRequests this = Some buffer
               ∧ r ∈ buffer ∧ Client.requestId r = Some id)
  ∧ (∃ buffer,
       Client.bufferedRequests (Client.step then_sync this (Client.DoCancel id)).1
       = Some buffer
       ∧ ∀ r, r ∈ buffer → Client.requestId r ≠ Some id)
  ∧ ∀ m, Client.Send m
         ∈ (Client.run then_sync Client.create
              (before ++ Client.DoCancel id :: after)).2 →
         IRawMessage.id m = Some id →
         IRawMessage.type m ≠ RequestPromise
         ∧ IRawMessage.type m ≠ RequestPromiseCancel.
Proof.
  intros this Hstate Hcall Hpending.
  destruct (pending_phase then_sync before id c Hcall Hpending) as [Hwf Hphase].
  fold this in Hwf, Hphase. rewrite Hstate in Hphase.
  destruct Hphase as [Hparked Hmarks].
  destruct (parked_cancel this id Hparked) as [Hdropped Hout].
  pose proof (cancel_wf this id Hwf) as Hwf'.
  split; [|split].
  - destruct Hparked as (_ & _ & _ & _ & cn & n & a & Hbuffer).
    simpl in Hbuffer.
    destruct (Client.bufferedRequests this) as [buffer|]; [|done].
    injection Hbuffer as Hbuffer.
    exists buffer, (Client.mkRequest (MRequestPromise id cn n a) true).
    split; [done|].
    assert (Client.mkRequest (MRequestPromise id cn n a) true
            ∈ filter (λ r, Client.requestId r = Some id) buffer) as Hin.
    { rewrite Hbuffer. apply list_elem_of_singleton. done. }
    apply list_elem_of_filter in Hin as [Hid Hin]. done.
  - cbn [Client.step].
    assert (Client.state (Client.cancel this id).1 = Client.Uninitialized)
      as Hstate'.
    { unfold Client.cancel. rewrite Hcall, Hpending.
      unfold Client.onCancel.
      pose proof Hparked as (_ & _ & Hc & _). simpl in Hc.
      rewrite Hcall in Hc. injection Hc as ->. simpl. rewrite Hstate.
      match goal with
      | |- context [Client.settle ?t id ?e] =>
          destruct (settle_same t id e) as (Hs & _);
          destruct (Client.settle t id e) as [this2 out2]
      end.
      simpl in *. by rewrite Hs. }
    destruct Hwf' as (W1 & _). destruct (W1 Hstate') as [buffer Hbuffer].
    exists buffer. split; [done|].
    destruct Hdropped as (_ & _ & Hempty). simpl in Hempty.
    rewrite Hbuffer in Hempty. specialize (Hempty Hstate' _ eq_refl).
    intros r Hr Hid.
    assert (r ∈ filter (λ r, Client.requestId r = Some id) buffer) as Hin.
    { by apply list_elem_of_filter. }
    rewrite Hempty in Hin. by apply elem_of_nil in Hin.
  - intros m. apply marks_nil.
    rewrite client_run_app.
    destruct (Client.run then_sync Client.create before) as [this0 out0].
    simpl in *. subst this.
    change (Client.cancel this0 id) with
      (Client.step then_sync this0 (Client.DoCancel id)) in *.
    cbn [Client.run].
    destruct (Client.step then_sync this0 (Client.DoCancel id)) as [this1 out1].
    simpl in *. subst out1.
    destruct (run_ok then_sync this1 after id Hwf') as [_ Hadv].
    destruct (Hadv Dropped Hdropped) as (ph & _ & Hpath).
    destruct (Client.run then_sync this1 after) as [this2 out2].
    simpl in *. rewrite !marks_app, Hmarks. simpl.
    by destruct ph.
Qed.

Lemma canceled_while_buffered_is_never_sent_witness :
  (∃ buffer r, Client.bufferedRequests parkedClient = Some buffer
               ∧ r ∈ buffer ∧ Client.requestId r = Some 0)
  ∧ (∃ buffer,
       Client.bufferedRequests (Client.step true parkedClient (Client.DoCancel 0)).1
       = Some buffer
       ∧ ∀ r, r ∈ buffer → Client.requestId r ≠ Some 0)
  ∧ ∀ m, Client.Send m
         ∈ (Client.run true Client.create
              ([Client.DoCall "files" "stat" VNull]
               ++ Client.DoCancel 0 :: [Client.Receive MResponseInitialize])).2 →
         IRawMessage.id m = Some 0 →
         IRawMessage.type m ≠ RequestPromise
         ∧ IRawMessage.type m ≠ RequestPromiseCancel.
Proof.
  apply (canceled_while_buffered_is_never_sent true
           [Client.DoCall "files" "stat" VNull]
           [Client.Receive MResponseInitialize] 0
           (Client.mkCall true false true)); reflexivity.
Defined.

(** A call that has not settled, in a ChannelClient that is initialized and
    listens on its transport, is awaited: whether it was sent when it was
    made or waited in the buffer for the handshake, its handler is stored. *)
Lemma pending_awaiting then_sync (history : list Client.Input) (id : Z)
    (c : Client.Call) :
  let this := (Client.run then_sync Client.create history).1 in
  Client.state this = Client.Idle →
  Client.protocolListener this = true →
  Client.calls this !! id = Some c → Client.pending c = true →
  awaiting this id.
Proof.
  intros this Hstate Hlistener Hcall Hpending.
  destruct (pending_phase then_sync history id c Hcall Hpending) as [_ Hphase].
  fold this in Hphase. rewrite Hstate in Hphase.
  destruct Hphase as [Hinflight _].
  unfold phase_ok, view in Hinflight. simpl in Hinflight.
  destruct Hinflight as (_ & _ & Hhandler & _).
  split; [done|]. split; [done|]. by exists c.
Qed.

(** C2: a call made through a ChannelClient, at any point of its life, that
    is on the wire and has not settled: when its remote implementation fails
    with an Error, the ChannelServer sends a [ResponsePromiseError] with the
    message and the name of the Error and with its stack as plain data (the
    lines of the stack if it is a string, which joined by newlines give the
    stack back; nothing if it is empty or absent), and the caller's result
    rejects with an Error of that message, name and stack.  When it fails with any other value, the ChannelServer sends a
    [ResponsePromiseErrorObj] with that value and the caller's result rejects
    with the value as it is. *)
Theorem remote_failure_reaches_caller then_sync (history : list Client.Input)
    (server : Server.ChannelServer) (id : Z) (c : Client.Call)
    (i : Server.Input) (err : Value) :
  let client := (Client.run then_sync Client.create history).1 in
  Client.state client = Client.Idle →
  Client.protocolListener client = true →
  Client.calls client !! id = Some c → Client.pending c = true →
  failsWith server i id err →
  ∃ server' response client',
    Server.step then_sync server i = (server', [Server.Send response])
    ∧ Client.step then_sync client (Client.Receive response)
      = (client', [Client.Fail id (rejection err)])
    ∧ match err with
      | VError e =>
          let lines :=
            match stack e with
            | StackUndefined | StackString EmptyString => StackUndefined
            | StackString s => StackLines (split s)
            | StackLines l => StackLines l
            end in
          response
          = MResponsePromiseError id (mkErrorData (message e) (name e) lines)
          ∧ rejection err = VError (mkErrorData (message e) (name e) lines)
          ∧ ∀ s, stack e = StackString s →
                 joinLines (split s) = s ∧ Forall oneLine (split s)
      | _ => response = MResponsePromiseErrorObj id err ∧ rejection err = err
      end.
Proof.
  intros client Hstate Hlistener Hcall Hpending Hfails.
  pose proof (pending_awaiting then_sync history id c Hstate Hlistener Hcall
                Hpending) as Hawaiting.
  fold client in Hawaiting.
  destruct (failsWith_sends then_sync server i id err Hfails) as [server' Hstep].
  destruct (receive_terminal then_sync client id (Rejects err) Hawaiting)
    as (client' & Hreceive & _).
  exists server', (Server.errorResponse id err), client'.
  split; [done|]. split; [done|].
  destruct err as [| | | | | | |e]; try done.
  split; [done|]. split; [done|]. intros s _. apply split_lines.
Qed.

Lemma remote_failure_reaches_caller_witness :
  ∃ server' response client',
    Server.step true failingServer
      (Server.Receive (MRequestPromise 0 "files" "stat" VNull))
    = (server', [Server.Send response])
    ∧ Client.step true (Client.run true Client.create bufferedCall).1
        (Client.Receive response)
      = (client', [Client.Fail 0 (rejection boom)])
    ∧ (response
       = MResponsePromiseError 0
           (mkErrorData "boom" "Error"
              (StackLines ["Error: boom"; "    at stat"]))
       ∧ rejection boom
         = VError (mkErrorData "boom" "Error"
                     (StackLines ["Error: boom"; "    at stat"]))
       ∧ ∀ s, stack (mkErrorData "boom" "Error"
                       (StackString
                          ("Error: boom" +:+ String newline "    at stat")))
              = StackString s →
              joinLines (split s) = s ∧ Forall oneLine (split s)).
Proof.
  apply (remote_failure_reaches_caller true bufferedCall failingServer 0
           (Client.mkCall true true true)
           (Server.Receive (MRequestPromise 0 "files" "stat" VNull)) boom);
    try reflexivity.
  right. by exists "files", "stat", VNull.
Defined.

(** C3: a call made through a ChannelClient, at any point of its life, that
    is on the wire and has not settled: the progress values its remote
    operation produces reach the caller's progress observer in the order
    they were produced, all of them before the one notification that settles
    the result; nothing that arrives for that id afterwards is passed on.
    The transport hands the ChannelClient the messages in the order the
    ChannelServer sent them. *)
Theorem progress_precedes_settlement then_sync (history : list Client.Input)
    (server : Server.ChannelServer) (id : Z) (c : Client.Call)
    (produced : list Value) (s : Settlement) :
  let client := (Client.run then_sync Client.create history).1 in
  Client.state client = Client.Idle →
  Client.protocolListener client = true →
  Client.calls client !! id = Some c → Client.pending c = true →
  let '(_, out) :=
    Server.run then_sync server
      (Server.Notify id <$> ((Server.Progress <$> produced) ++ [terminal s])) in
  let '(client', observed) :=
    Client.run then_sync client (Client.Receive <$> serverSent out) in
  observed = (Client.Progress id <$> produced) ++ [settlement id s]
  ∧ ∀ later, IRawMessage.id later = Some id →
      (Client.step then_sync client' (Client.Receive later)).2 = [].
Proof.
  intros client Hstate Hlistener Hcall Hpending.
  pose proof (pending_awaiting then_sync history id c Hstate Hlistener Hcall
                Hpending) as Hawaiting.
  fold client in Hawaiting.
  pose proof (run_notify_sends then_sync server id
                ((Server.Progress <$> produced) ++ [terminal s])) as Hout.
  destruct (Server.run then_sync server _) as [server' out]. simpl in Hout.
  subst out. rewrite serverSent_sends.
  rewrite fmap_app, <- list_fmap_compose. simpl.
  change (response id ∘ Server.Progress) with (MResponsePromiseProgress id).
  rewrite fmap_app, client_run_app, receive_progress_all by done.
  destruct (receive_terminal then_sync client id s Hawaiting)
    as (client' & Hreceive & Hnone & Hlistening).
  cbn [fmap list_fmap Client.run]. rewrite Hreceive. simpl.
  split; [done|].
  intros later Hid. rewrite Hlistening.
  by rewrite (onMessage_no_handler then_sync client' later id).
Qed.

Lemma progress_precedes_settlement_witness :
  let '(_, out) :=
    Server.run true busyServer
      (Server.Notify 0 <$> ((Server.Progress <$> [VNumber 1; VNumber 2])
                            ++ [terminal (Resolves (VString "done"))])) in
  let '(client', observed) :=
    Client.run true (Client.run true Client.create bufferedCall).1
      (Client.Receive <$> serverSent out) in
  observed = (Client.Progress 0 <$> [VNumber 1; VNumber 2])
             ++ [settlement 0 (Resolves (VString "done"))]
  ∧ ∀ later, IRawMessage.id later = Some 0 →
      (Client.step true client' (Client.Receive later)).2 = [].
Proof.
  apply (progress_precedes_settlement true bufferedCall busyServer 0
           (Client.mkCall true true true) [VNumber 1; VNumber 2]
           (Resolves (VString "done"))); reflexivity.
Defined.

(** What a ChannelServer does with the disposer it holds under an id. *)
Lemma disposeActiveRequest_registered (this : Server.ChannelServer) (id : Z)
    (d : IDisposable) :
  Server.activeRequests this !! id = Some d →
  Server.disposeActiveRequest this id
  = (Server.deleteActiveRequest this id,
     Server.Dispose id d
     :: match d with
        | CancelPromise =>
            if decide (id ∈ Server.requestPromises this)
            then [Server.Send (Server.errorResponse id Server.canceled)]
            else []
        | RemoveListener => []
        end).
Proof.
  intros Hd. unfold Server.disposeActiveRequest, Server.disposeDisposable.
  rewrite Hd. destruct d; [|done].
  destruct (decide (id ∈ Server.requestPromises this)); [|done].
  simpl. f_equal. unfold Server.deleteActiveRequest. simpl. f_equal.
  - by rewrite delete_delete_eq.
  - set_solver.
Qed.

(** A ChannelServer gets a request whose call is still running when it
    returns, and then twice the request to cancel it. *)
Lemma cancel_running then_sync (server : Server.ChannelServer) (id : Z)
    (channelName name : string) (arg : Value) :
  Server.protocolListener server = true →
  Server.callChannel server channelName name arg = Pending →
  Server.run then_sync server
    [Server.Receive (MRequestPromise id channelName name arg);
     Server.Receive (MRequestPromiseCancel id);
     Server.Receive (MRequestPromiseCancel id)]
  = (Server.deleteActiveRequest server id,
     [Server.Dispose id CancelPromise;
      Server.Send (Server.errorResponse id Server.canceled)]).
Proof.
  intros Hlistening Hrunning.
  set (server1 := Server.setRequestPromise
                    (Server.setActiveRequest server id CancelPromise) id).
  assert (Server.step then_sync server
            (Server.Receive (MRequestPromise id channelName name arg))
          = (server1, [])) as Hrequest.
  { cbn [Server.step Server.onMessage]. rewrite Hlistening.
    unfold Server.onPromise. by rewrite Hrunning. }
  assert (Server.step then_sync server1
            (Server.Receive (MRequestPromiseCancel id))
          = (Server.deleteActiveRequest server id,
             [Server.Dispose id CancelPromise;
              Server.Send (Server.errorResponse id Server.canceled)]))
    as Hcancel.
  { cbn [Server.step Server.onMessage].
    change (Server.protocolListener server1)
      with (Server.protocolListener server).
    rewrite Hlistening.
    rewrite (disposeActiveRequest_registered server1 id CancelPromise)
      by apply lookup_insert_eq.
    rewrite decide_True by (simpl; set_solver).
    f_equal. unfold Server.deleteActiveRequest. simpl. f_equal.
    - apply delete_insert_eq.
    - set_solver. }
  assert (Server.step then_sync (Server.deleteActiveRequest server id)
            (Server.Receive (MRequestPromiseCancel id))
          = (Server.deleteActiveRequest server id, [])) as Hagain.
  { cbn [Server.step Server.onMessage]. simpl. rewrite Hlistening.
    unfold Server.disposeActiveRequest. simpl. by rewrite lookup_delete_eq. }
  cbn [Server.run]. by rewrite Hrequest, Hcancel, Hagain.
Qed.

(** C5: a call that is on the wire and not settled, once canceled, makes the
    ChannelClient send one [RequestPromiseCancel] with its id: over the whole
    life of the client the messages for that call are its [RequestPromise]
    and then that one [RequestPromiseCancel].  The ChannelServer that receives
    it while it holds a disposer under the id disposes that disposer once and
    removes it, so that the same message again does nothing.  If the disposer
    is that of a call whose result has not settled, disposing it cancels the
    result, and the ChannelServer answers with the one [ResponsePromiseError]
    of the cancellation; otherwise it sends nothing.  So a ChannelServer that
    got the [RequestPromise], whose call is still running, answers the
    [RequestPromiseCancel] with that error, and holds afterwards what it
    held before the request. *)
Theorem cancel_in_flight_sends_one_cancel then_sync
    (before after : list Client.Input) (id : Z) (c : Client.Call)
    (server : Server.ChannelServer) :
  let this := (Client.run then_sync Client.create before).1 in
  Client.state this = Client.Idle →
  Client.calls this !! id = Some c → Client.pending c = true →
  Server.protocolListener server = true →
  (Client.step then_sync this (Client.DoCancel id)).2
  = [Client.Send (MRequestPromiseCancel id); Client.Canceled id]
  ∧ marks id (Client.run then_sync Client.create
                (before ++ Client.DoCancel id :: after)).2
    = [Requested; Cancelled]
  ∧ (∀ d, Server.activeRequests server !! id = Some d →
       ∃ server' answer,
         Server.step then_sync server (Server.Receive (MRequestPromiseCancel id))
         = (server', Server.Dispose id d :: (Server.Send <$> answer))
         ∧ match d with
           | CancelPromise =>
               if decide (id ∈ Server.requestPromises server)
               then ∃ m, answer = [m] ∧ canceledResponse id m
               else answer = []
           | RemoveListener => answer = []
           end
         ∧ Server.activeRequests server' !! id = None
         ∧ Server.step then_sync server'
             (Server.Receive (MRequestPromiseCancel id))
           = (server', []))
  ∧ (∀ channelName name arg,
       Server.callChannel server channelName name arg = Pending →
       ∃ m, canceledResponse id m
            ∧ Server.run then_sync server
                [Server.Receive (MRequestPromise id channelName name arg);
                 Server.Receive (MRequestPromiseCancel id);
                 Server.Receive (MRequestPromiseCancel id)]
              = (Server.deleteActiveRequest server id,
                 [Server.Dispose id CancelPromise; Server.Send m])).
Proof.
  intros this Hstate Hcall Hpending Hlistening.
  destruct (pending_phase then_sync before id c Hcall Hpending) as [Hwf Hphase].
  fold this in Hwf, Hphase. rewrite Hstate in Hphase.
  destruct Hphase as [Hinflight Hmarks].
  destruct (inflight_cancel this id Hinflight) as [Hdone Hout].
  pose proof (cancel_wf this id Hwf) as Hwf'.
  split; [done|]. split; [|split].
  - rewrite client_run_app.
    destruct (Client.run then_sync Client.create before) as [this0 out0].
    simpl in *. subst this.
    change (Client.cancel this0 id) with
      (Client.step then_sync this0 (Client.DoCancel id)) in *.
    cbn [Client.run].
    destruct (Client.step then_sync this0 (Client.DoCancel id)) as [this1 out1].
    simpl in *. subst out1.
    destruct (run_ok then_sync this1 after id Hwf') as [_ Hadv].
    destruct (Hadv Done Hdone) as (ph & _ & Hpath).
    destruct (Client.run then_sync this1 after) as [this2 out2].
    cbn [fst snd] in *. rewrite !marks_app, Hmarks, mark_cancel.
    destruct ph; try done. simpl in Hpath. by rewrite Hpath.
  - intros d Hdisposer.
    exists (Server.deleteActiveRequest server id),
      match d with
      | CancelPromise =>
          if decide (id ∈ Server.requestPromises server)
          then [Server.errorResponse id Server.canceled] else []
      | RemoveListener => []
      end.
    cbn [Server.step Server.onMessage]. rewrite Hlistening.
    rewrite (disposeActiveRequest_registered server id d Hdisposer).
    split; [|split; [|split]].
    + destruct d; [|done].
      by destruct (decide (id ∈ Server.requestPromises server)).
    + destruct d; [|done].
      destruct (decide (id ∈ Server.requestPromises server)); [|done].
      eexists. split; [done|]. by eexists.
    + simpl. by rewrite lookup_delete_eq.
    + simpl. rewrite Hlistening. unfold Server.disposeActiveRequest. simpl.
      by rewrite lookup_delete_eq.
  - intros channelName name arg Hrunning.
    exists (Server.errorResponse id Server.canceled).
    split; [by eexists|]. by apply cancel_running.
Qed.

Lemma cancel_in_flight_sends_one_cancel_witness :
  (Client.step true oneCallClient (Client.DoCancel 0)).2
  = [Client.Send (MRequestPromiseCancel 0); Client.Canceled 0]
  ∧ marks 0 (Client.run true Client.create
               ([Client.Receive MResponseInitialize;
                 Client.DoCall "files" "stat" VNull]
                ++ Client.DoCancel 0 :: [Client.DoCancel 0; Client.Disposal])).2
    = [Requested; Cancelled]
  ∧ (∀ d, Server.activeRequests busyServer !! 0 = Some d →
       ∃ server' answer,
         Server.step true busyServer (Server.Receive (MRequestPromiseCancel 0))
         = (server', Server.Dispose 0 d :: (Server.Send <$> answer))
         ∧ match d with
           | CancelPromise =>
               if decide (0 ∈ Server.requestPromises busyServer)
               then ∃ m, answer = [m] ∧ canceledResponse 0 m
               else answer = []
           | RemoveListener => answer = []
           end
         ∧ Server.activeRequests server' !! 0 = None
         ∧ Server.step true server' (Server.Receive (MRequestPromiseCancel 0))
           = (server', []))
  ∧ (∀ channelName name arg,
       Server.callChannel busyServer channelName name arg = Pending →
       ∃ m, canceledResponse 0 m
            ∧ Server.run true busyServer
                [Server.Receive (MRequestPromise 0 channelName name arg);
                 Server.Receive (MRequestPromiseCancel 0);
                 Server.Receive (MRequestPromiseCancel 0)]
              = (Server.deleteActiveRequest busyServer 0,
                 [Server.Dispose 0 CancelPromise; Server.Send m])).
Proof.
  apply (cancel_in_flight_sends_one_cancel true
           [Client.Receive MResponseInitialize;
            Client.DoCall "files" "stat" VNull]
           [Client.DoCancel 0; Client.Disposal] 0
           (Client.mkCall false false true) busyServer);
    reflexivity.
Defined.

(** ** ChannelClient: the handshake *)

Lemma cancel_state (this : Client.ChannelClient) (j : Z) :
  Client.state (Client.cancel this j).1 = Client.state this.
Proof.
  unfold Client.cancel.
  destruct (Client.calls this !! j) as [c|]; [|done].
  destruct (Client.pending c); [|done].
  assert (Client.state (Client.onCancel this j c).1 = Client.state this) as H1.
  { unfold Client.onCancel.
    destruct (Client.buffered c); [|done].
    destruct (Client.state this) eqn:Hstate; [done|].
    by destruct (Client.flushedRequest c). }
  destruct (Client.onCancel this j c) as [this1 out1].
  destruct (settle_same this1 j (Client.Canceled j)) as (H2 & _).
  destruct (Client.settle this1 j (Client.Canceled j)) as [this2 out2].
  simpl in *. congruence.
Qed.

Lemma cancelAll_state (this : Client.ChannelClient) (ids : list Z) :
  Client.state (Client.cancelAll this ids).1 = Client.state this.
Proof.
  revert this. induction ids as [|j ids IH]; intros this; [done|].
  simpl. pose proof (cancel_state this j) as H1.
  destruct (Client.cancel this j) as [this1 out1].
  specialize (IH this1).
  destruct (Client.cancelAll this1 ids) as [this2 out2].
  simpl in *. congruence.
Qed.

Lemma handle_state (this : Client.ChannelClient) (h : Client.IHandler) (j : Z)
    (response : Message) :
  Client.state (Client.handle this h j response).1 = Client.state this.
Proof.
  destruct h; simpl; [|done].
  destruct response; try done;
    try (match goal with
         | |- context [Client.settle ?t j ?e] =>
             by destruct (settle_same t j e) as (-> & _)
         end).
  unfold Client.progress.
  destruct (Client.calls this !! j) as [c|]; [|done].
  by destruct (Client.pending c).
Qed.

Lemma initialize_state then_sync (this : Client.ChannelClient) :
  Client.state (Client.initialize then_sync this).1 = Client.Idle.
Proof.
  unfold Client.initialize.
  pose proof (fireDidInitialize_event then_sync (Client.setState Client.Idle this))
    as ((Hstate1 & _) & _).
  destruct (Client.fireDidInitialize then_sync _) as [this1 out1].
  simpl in *.
  destruct (Client.bufferedRequests this1) as [buffer|]; [|done].
  destruct (flushAll_same this1 buffer) as (Hs & _).
  destruct (Client.flushAll this1 buffer) as [this2 out2].
  simpl in *. congruence.
Qed.

(** [Idle] is never left. *)
Lemma idle_step then_sync (this : Client.ChannelClient) (i : Client.Input) :
  Client.state this = Client.Idle →
  Client.state (Client.step then_sync this i).1 = Client.Idle.
Proof.
  intros Hstate.
  destruct i as [cn n a|j|cn n a|j|j|response| |]; cbn [Client.step].
  - unfold Client.requestPromise. simpl. by rewrite Hstate.
  - by rewrite cancel_state.
  - done.
  - destruct (subscribe_event then_sync this j) as ((-> & _) & _). done.
  - destruct (unsubscribe_event this j) as ((-> & _) & _). done.
  - destruct (Client.protocolListener this); [|done].
    unfold Client.onMessage.
    destruct (negb (isResponse (IRawMessage.type response))); [done|].
    rewrite Hstate.
    destruct (IRawMessage.id response) as [j|]; [|done].
    destruct (Client.handlers this !! j) as [h|]; [|done].
    by rewrite handle_state.
  - destruct (tick_event this) as ((-> & _) & _). done.
  - unfold Client.dispose. destruct (Client.protocolListener this); [|done].
    pose proof (cancelAll_state (Client.setProtocolListener false this)
                  (Client.activeRequests this)) as H.
    destruct (Client.cancelAll _ _) as [this1 out1]. simpl in *. congruence.
Qed.

Lemma idle_run then_sync (this : Client.ChannelClient)
    (inputs : list Client.Input) :
  Client.state this = Client.Idle →
  Client.state (Client.run then_sync this inputs).1 = Client.Idle.
Proof.
  revert this. induction inputs as [|i inputs IH]; intros this Hstate; [done|].
  cbn [Client.run]. pose proof (idle_step then_sync this i Hstate) as H1.
  destruct (Client.step then_sync this i) as [this1 out1].
  specialize (IH this1 H1).
  by destruct (Client.run then_sync this1 inputs) as [this2 out2].
Qed.

(** A handler sends nothing. *)
Lemma handle_sent (this : Client.ChannelClient) (h : Client.IHandler) (j : Z)
    (response : Message) :
  clientSent (Client.handle this h j response).2 = [].
Proof.
  destruct h; simpl.
  - destruct response; try done;
      try (match goal with
           | |- context [Client.settle ?t j ?e] =>
               by destruct (settle_out t j e) as [-> | ->]
           end).
    unfold Client.progress.
    destruct (Client.calls this !! j) as [c|]; [|done].
    by destruct (Client.pending c).
  - unfold Client.fire.
    destruct (Client.emitters this !! j) as [l|]; [|done].
    by destruct (Client.listeners l).
Qed.

(** Once [Idle], no message that arrives makes the client send. *)
Lemma idle_receive_sent then_sync (this : Client.ChannelClient)
    (response : Message) :
  Client.state this = Client.Idle →
  clientSent (Client.step then_sync this (Client.Receive response)).2 = [].
Proof.
  intros Hstate. cbn [Client.step].
  destruct (Client.protocolListener this); [|done].
  unfold Client.onMessage.
  destruct (negb (isResponse (IRawMessage.type response))); [done|].
  rewrite Hstate.
  destruct (IRawMessage.id response) as [j|]; [|done].
  destruct (Client.handlers this !! j) as [h|]; [|done].
  apply handle_sent.
Qed.

Lemma clientSent_app (out out' : list Client.Effect) :
  clientSent (out ++ out') = clientSent out ++ clientSent out'.
Proof. apply omap_app. Qed.

Lemma clientSent_sends (ms : list Message) :
  clientSent (Client.Send <$> ms) = ms.
Proof. induction ms as [|m ms IH]; [done|]. simpl. by f_equal. Qed.

(** The event streams send no [RequestPromise]. *)
Lemma eventStep_promiseRequests (this : Client.ChannelClient)
    (result : Client.ChannelClient * list Client.Effect) :
  wf this → eventStep this result →
  promiseRequests (clientSent result.2) = [].
Proof.
  intros Hwf (_ & _ & _ & Hout). induction Hout as [|e out He _ IH]; [done|].
  destruct (ofStream_type this e Hwf He) as (m & -> & Htype).
  simpl. unfold promiseRequests in *. rewrite filter_cons, IH.
  rewrite decide_False; [done|]. by destruct Htype as [-> | ->].
Qed.

Lemma promiseRequests_all (ms : list Message) :
  Forall (λ m, IRawMessage.type m = RequestPromise) ms →
  promiseRequests ms = ms.
Proof.
  induction 1 as [|m ms Hm Hms IH]; [done|].
  unfold promiseRequests in *. by rewrite filter_cons, decide_True, IH.
Qed.

(** What the handshake sends of the calls: the buffer, in its order. *)
Lemma initialize_out then_sync (this : Client.ChannelClient)
    (buffer : list Client.IRequest) :
  wf this → Client.bufferedRequests this = Some buffer →
  promiseRequests (clientSent (Client.initialize then_sync this).2)
  = Client.raw <$> buffer
  ∧ Client.bufferedRequests (Client.initialize then_sync this).1 = None.
Proof.
  intros Hwf Hbuffer. unfold Client.initialize.
  assert (wf (Client.setState Client.Idle this)) as Hwf0.
  { destruct Hwf as (W1 & W2 & W3). by split. }
  destruct Hwf as (_ & W2 & _). specialize (W2 buffer Hbuffer).
  pose proof (fireDidInitialize_event then_sync (Client.setState Client.Idle this))
    as Hfire.
  pose proof (eventStep_promiseRequests _ _ Hwf0 Hfire) as Hout1.
  destruct (Client.fireDidInitialize then_sync _) as [this1 out1].
  destruct Hfire as ((_ & Hbuffer1 & _) & _).
  simpl in *. rewrite Hbuffer1, Hbuffer.
  assert (Forall (λ r, Client.flush r = true) buffer) as Hflush.
  { eapply Forall_impl; [exact W2|]. by intros r [? ?]. }
  pose proof (flushAll_out this1 buffer Hflush) as Hout2.
  destruct (Client.flushAll this1 buffer) as [this2 out2].
  simpl in *. subst out2. split; [|done].
  rewrite clientSent_app, clientSent_sends.
  unfold promiseRequests in *. rewrite filter_app, Hout1. simpl.
  apply promiseRequests_all. apply Forall_fmap.
  eapply Forall_impl; [exact W2|]. by intros r [? ?].
Qed.

(** C1: a ChannelClient that has not been initialized holds a buffer; a call
    made now is put at its end and not sent.  On the first
    [ResponseInitialize] the client becomes [Idle], sends the requests of the
    buffer, all of them and in the order of the buffer, and gives the buffer
    up.  From then on it stays [Idle], and no message it receives makes it
    send anything. *)
Theorem handshake_flushes_buffer_once then_sync (before : list Client.Input) :
  let this := (Client.run then_sync Client.create before).1 in
  Client.state this = Client.Uninitialized →
  Client.protocolListener this = true →
  ∃ buffer,
    Client.bufferedRequests this = Some buffer
    ∧ (∀ channelName name arg,
         let '(this', out) :=
           Client.step then_sync this (Client.DoCall channelName name arg) in
         out = []
         ∧ Client.bufferedRequests this'
           = Some (buffer
                   ++ [Client.mkRequest
                         (MRequestPromise (Client.lastRequestId this)
                            channelName name arg) true]))
    ∧ let '(this', out) :=
        Client.step then_sync this (Client.Receive MResponseInitialize) in
      Client.state this' = Client.Idle
      ∧ Client.bufferedRequests this' = None
      ∧ promiseRequests (clientSent out) = Client.raw <$> buffer
      ∧ ∀ later response,
          let after := (Client.run then_sync this' later).1 in
          Client.state after = Client.Idle
          ∧ clientSent
              (Client.step then_sync after (Client.Receive response)).2 = [].
Proof.
  intros this Hstate Hlistening.
  destruct (run_ok then_sync Client.create before 0 wf_create) as [Hwf _].
  fold this in Hwf. pose proof Hwf as (W1 & _).
  destruct (W1 Hstate) as [buffer Hbuffer].
  exists buffer. split; [done|]. split.
  - intros channelName name arg. cbn [Client.step].
    unfold Client.requestPromise, Client.bufferRequest. simpl.
    by rewrite Hstate, Hbuffer.
  - cbn [Client.step]. rewrite Hlistening.
    unfold Client.onMessage. simpl. rewrite Hstate.
    destruct (initialize_out then_sync this buffer Hwf Hbuffer) as [Hout Hnone].
    pose proof (initialize_state then_sync this) as Hidle.
    destruct (Client.initialize then_sync this) as [this' out].
    simpl in *. split; [done|]. split; [done|]. split; [done|].
    intros later response.
    pose proof (idle_run then_sync this' later Hidle) as Hafter.
    split; [done|]. by apply idle_receive_sent.
Qed.

Lemma handshake_flushes_buffer_once_witness :
  ∃ buffer,
    Client.bufferedRequests parkedClient = Some buffer
    ∧ (∀ channelName name arg,
         let '(this', out) :=
           Client.step true parkedClient (Client.DoCall channelName name arg) in
         out = []
         ∧ Client.bufferedRequests this'
           = Some (buffer
                   ++ [Client.mkRequest
                         (MRequestPromise (Client.lastRequestId parkedClient)
                            channelName name arg) true]))
    ∧ let '(this', out) :=
        Client.step true parkedClient (Client.Receive MResponseInitialize) in
      Client.state this' = Client.Idle
      ∧ Client.bufferedRequests this' = None
      ∧ promiseRequests (clientSent out) = Client.raw <$> buffer
      ∧ ∀ later response,
          let after := (Client.run true this' later).1 in
          Client.state after = Client.Idle
          ∧ clientSent
              (Client.step true after (Client.Receive response)).2 = [].
Proof.
  apply (handshake_flushes_buffer_once true
           [Client.DoCall "files" "stat" VNull]); reflexivity.
Defined.

(** The calls made before the handshake, and nothing else, are what the
    handshake sends: each once, numbered from 0 in the order they were
    made. *)
Example three_calls_before_handshake :
  clientSent
    (Client.run true Client.create
       [Client.DoCall "files" "stat" (VString "a");
        Client.DoCall "files" "read" (VString "b");
        Client.DoCall "search" "find" (VString "c");
        Client.Receive MResponseInitialize;
        Client.Receive MResponseInitialize]).2
  = [MRequestPromise 0 "files" "stat" (VString "a");
     MRequestPromise 1 "files" "read" (VString "b");
     MRequestPromise 2 "search" "find" (VString "c")].
Proof. reflexivity. Qed.

(** ** ChannelClient: the request of an event stream *)

Lemma callStep_nothing (this : Client.ChannelClient) : callStep this (this, []).
Proof. split; [done | constructor]. Qed.

Lemma callStep_then (this : Client.ChannelClient)
    (r1 r2 : Client.ChannelClient * list Client.Effect) :
  callStep this r1 → callStep r1.1 r2 → callStep this (r2.1, r1.2 ++ r2.2).
Proof.
  intros [Hs1 Ho1] [Hs2 Ho2]. split.
  - intros id. simpl. by rewrite Hs2, Hs1.
  - simpl. rewrite clientSent_app. by apply Forall_app.
Qed.

Lemma settle_call (this : Client.ChannelClient) (j : Z) (e : Client.Effect) :
  (∀ m, e ≠ Client.Send m) → callStep this (Client.settle this j e).
Proof.
  intros He. destruct (settle_same this j e) as (_ & _ & _ & _ & _ & Hev & _).
  split; [intros id; unfold stored; by rewrite Hev|].
  destruct (settle_out this j e) as [-> | ->]; [|constructor].
  destruct e as [m| | | | | |]; [by destruct (He m) | constructor..].
Qed.

Lemma cancel_call (this : Client.ChannelClient) (j : Z) :
  callStep this (Client.cancel this j).
Proof.
  unfold Client.cancel.
  destruct (Client.calls this !! j) as [c|]; [|apply callStep_nothing].
  destruct (Client.pending c); [|apply callStep_nothing].
  assert (callStep this (Client.onCancel this j c)) as H1.
  { unfold Client.onCancel.
    destruct (Client.buffered c), (Client.state this),
      (Client.flushedRequest c);
      (split; [done | repeat constructor; by right]). }
  destruct (Client.onCancel this j c) as [this1 out1].
  assert (callStep this1 (Client.settle this1 j (Client.Canceled j))) as H2.
  { by apply settle_call. }
  destruct (Client.settle this1 j (Client.Canceled j)) as [this2 out2].
  exact (callStep_then this (this1, out1) (this2, out2) H1 H2).
Qed.

Lemma cancelAll_call (this : Client.ChannelClient) (ids : list Z) :
  callStep this (Client.cancelAll this ids).
Proof.
  revert this. induction ids as [|j ids IH]; intros this;
    [apply callStep_nothing|].
  simpl. pose proof (cancel_call this j) as H1.
  destruct (Client.cancel this j) as [this1 out1].
  pose proof (IH this1) as H2.
  destruct (Client.cancelAll this1 ids) as [this2 out2].
  exact (callStep_then this (this1, out1) (this2, out2) H1 H2).
Qed.

Lemma requestPromise_call (this : Client.ChannelClient)
    (channelName name : string) (arg : Value) :
  callStep this (Client.requestPromise this channelName name arg).
Proof.
  unfold Client.requestPromise, Client.bufferRequest. simpl.
  destruct (Client.state this);
    [destruct (Client.bufferedRequests this)|];
    (split; [done | repeat constructor; by left]).
Qed.

Lemma handle_call (this : Client.ChannelClient) (h : Client.IHandler) (j : Z)
    (response : Message) :
  callStep this (Client.handle this h j response).
Proof.
  split; [|rewrite handle_sent; constructor].
  intros id. destruct h; simpl; [|done].
  destruct response; try done;
    try (match goal with
         | |- context [Client.settle ?t j ?e] =>
             destruct (settle_same t j e) as (_ & _ & _ & _ & _ & Hev & _);
             unfold stored; by rewrite Hev
         end).
  unfold Client.progress.
  destruct (Client.calls this !! j) as [c|]; [|done].
  by destruct (Client.pending c).
Qed.

Lemma eventStep_listens (this : Client.ChannelClient)
    (result : Client.ChannelClient * list Client.Effect) :
  wf this → eventStep this result →
  (∀ id, stored result.1 id = stored this id)
  ∧ listensStored result.1 result.2.
Proof.
  intros Hwf (_ & Hstored & _ & Hout). split; [done|].
  intros m id Hin Htype Hid. rewrite Hstored.
  induction Hout as [|e out He _ IH]; [by apply elem_of_nil in Hin|].
  destruct He as (m' & -> & Hm'). simpl in Hin.
  apply elem_of_cons in Hin as [<- | Hin]; [|by apply IH].
  destruct Hm' as [[j Hj] | [j ->]]; [|done].
  assert (j = id) as ->; [|done].
  unfold stored in Hj.
  destruct (Client.emitters this !! j) as [l|] eqn:Hl; [|done].
  injection Hj as <-. destruct Hwf as (_ & _ & W3).
  destruct (W3 j l Hl) as (_ & cn & n & a & Hrequest).
  rewrite Hrequest in Hid. by injection Hid.
Qed.

Lemma callStep_listens (this : Client.ChannelClient)
    (result : Client.ChannelClient * list Client.Effect) :
  callStep this result →
  (∀ id, stored result.1 id = stored this id)
  ∧ listensStored result.1 result.2.
Proof.
  intros [Hstored Hout]. split; [done|].
  intros m id Hin Htype Hid.
  rewrite Forall_forall in Hout. destruct (Hout m Hin); congruence.
Qed.

Lemma flushAll_call (this : Client.ChannelClient) (buffer : list Client.IRequest) :
  Forall (λ r, Client.flush r = true
               ∧ IRawMessage.type (Client.raw r) = RequestPromise) buffer →
  callStep this (Client.flushAll this buffer).
Proof.
  intros Hbuffer.
  destruct (flushAll_same this buffer) as (_ & _ & _ & _ & Hev & _).
  split; [intros id; unfold stored; by rewrite Hev|].
  rewrite flushAll_out, clientSent_sends.
  - apply Forall_fmap. eapply Forall_impl; [exact Hbuffer|].
    intros r [_ Hr]. by left.
  - eapply Forall_impl; [exact Hbuffer|]. by intros r [? _].
Qed.

Lemma listensStored_app (this1 this2 : Client.ChannelClient)
    (out1 out2 : list Client.Effect) :
  (∀ id, stored this2 id = stored this1 id) →
  listensStored this1 out1 → listensStored this2 out2 →
  listensStored this2 (out1 ++ out2).
Proof.
  intros Hstored H1 H2 m id Hin Htype Hid.
  rewrite clientSent_app in Hin. apply elem_of_app in Hin as [Hin | Hin].
  - rewrite Hstored. by apply H1.
  - by apply H2.
Qed.

Lemma initialize_listens then_sync (this : Client.ChannelClient) :
  wf this →
  (∀ id, stored (Client.initialize then_sync this).1 id = stored this id)
  ∧ listensStored (Client.initialize then_sync this).1
      (Client.initialize then_sync this).2.
Proof.
  intros Hwf. unfold Client.initialize.
  assert (wf (Client.setState Client.Idle this)) as Hwf0.
  { destruct Hwf as (W1 & W2 & W3). by split. }
  pose proof (fireDidInitialize_event then_sync (Client.setState Client.Idle this))
    as Hfire.
  destruct (eventStep_listens _ _ Hwf0 Hfire) as [Hs1 Hl1].
  pose proof (eventStep_wf _ _ Hfire Hwf0) as (_ & W2 & _).
  destruct (Client.fireDidInitialize then_sync _) as [this1 out1].
  simpl in *.
  destruct (Client.bufferedRequests this1) as [buffer|].
  - destruct (callStep_listens this1 _ (flushAll_call this1 buffer (W2 _ eq_refl)))
      as [Hs2 Hl2].
    destruct (Client.flushAll this1 buffer) as [this2 out2]. simpl in *.
    split; [intros id; unfold stored in *; simpl; by rewrite Hs2, Hs1|].
    apply (listensStored_app this1); [done | done |].
    intros m id Hin Htype Hid. by apply Hl2.
  - split; [done|].
    apply (listensStored_app this1); [done | done |].
    intros m id Hin. by apply elem_of_nil in Hin.
Qed.

(** Whatever a ChannelClient does, a stream keeps the message it was made
    with, and every [RequestEventListen] sent is the message of a stream. *)
Lemma step_listens then_sync (this : Client.ChannelClient) (i : Client.Input) :
  wf this →
  (∀ id m, stored this id = Some m →
           stored (Client.step then_sync this i).1 id = Some m)
  ∧ listensStored (Client.step then_sync this i).1
      (Client.step then_sync this i).2.
Proof.
  intros Hwf.
  assert (∀ result,
    (∀ id, stored result.1 id = stored this id) ∧ listensStored result.1 result.2 →
    (∀ id m, stored this id = Some m → stored result.1 id = Some m)
    ∧ listensStored result.1 result.2) as Hsame.
  { intros result [Hs Hl]. split; [|done]. intros id m. by rewrite Hs. }
  destruct i as [cn n a|j|cn n a|j|j|response| |]; cbn [Client.step].
  - apply Hsame, callStep_listens, requestPromise_call.
  - apply Hsame, callStep_listens, cancel_call.
  - split; [|intros m id Hin; by apply elem_of_nil in Hin].
    intros id m. unfold stored. simpl.
    destruct (decide (Client.lastRequestId this = id)) as [<-|Hne];
      [|by rewrite lookup_insert_ne].
    destruct (Client.emitters this !! Client.lastRequestId this) as [l|] eqn:Hl;
      [|done].
    destruct Hwf as (_ & _ & W3). destruct (W3 _ l Hl) as [Hlt _]. lia.
  - apply Hsame, eventStep_listens, subscribe_event. done.
  - apply Hsame, eventStep_listens, unsubscribe_event. done.
  - destruct (Client.protocolListener this);
      [|apply Hsame, callStep_listens, callStep_nothing].
    unfold Client.onMessage.
    destruct (negb (isResponse (IRawMessage.type response)));
      [apply Hsame, callStep_listens, callStep_nothing|].
    assert (∀ j, (∀ id, stored (match Client.handlers this !! j with
                                | Some handler =>
                                    Client.handle this handler j response
                                | None => (this, [])
                                end).1 id = stored this id)
                 ∧ listensStored
                     (match Client.handlers this !! j with
                      | Some handler => Client.handle this handler j response
                      | None => (this, [])
                      end).1
                     (match Client.handlers this !! j with
                      | Some handler => Client.handle this handler j response
                      | None => (this, [])
                      end).2) as Hdispatch.
    { intros j. destruct (Client.handlers this !! j) as [h|].
      - apply callStep_listens, handle_call.
      - apply callStep_listens, callStep_nothing. }
    destruct (Client.state this),
      response as [rid cn nm ar|rid| |rid dt|rid dt|rid dt|rid dt
                  |rid cn nm ar|rid|rid dt];
      simpl;
      try (apply Hsame, Hdispatch);
      try (apply Hsame, callStep_listens, callStep_nothing);
      first [ by apply Hsame, initialize_listens
            | split; [done | intros ? ? Hin; by apply elem_of_nil in Hin] ].
  - apply Hsame, eventStep_listens, tick_event. done.
  - unfold Client.dispose.
    destruct (Client.protocolListener this);
      [|apply Hsame, callStep_listens; split; [done | constructor]].
    pose proof (cancelAll_call (Client.setProtocolListener false this)
                  (Client.activeRequests this)) as H.
    destruct (Client.cancelAll _ _) as [this1 out1].
    apply Hsame. by apply callStep_listens in H.
Qed.

Lemma run_listens then_sync (this : Client.ChannelClient)
    (inputs : list Client.Input) :
  wf this →
  (∀ id m, stored this id = Some m →
           stored (Client.run then_sync this inputs).1 id = Some m)
  ∧ listensStored (Client.run then_sync this inputs).1
      (Client.run then_sync this inputs).2.
Proof.
  revert this. induction inputs as [|i inputs IH]; intros this Hwf.
  - split; [done|]. intros m id Hin. by apply elem_of_nil in Hin.
  - cbn [Client.run].
    destruct (step_ok then_sync this i 0 Hwf) as [Hwf1 _].
    destruct (step_listens then_sync this i Hwf) as [Hs1 Hl1].
    destruct (Client.step then_sync this i) as [this1 out1].
    destruct (IH this1 Hwf1) as [Hs2 Hl2].
    destruct (Client.run then_sync this1 inputs) as [this2 out2].
    simpl in *. split; [by auto|].
    intros m id Hin Htype Hid. rewrite clientSent_app in Hin.
    apply elem_of_app in Hin as [Hin | Hin]; [|by apply Hl2].
    apply Hs2. by apply Hl1.
Qed.

Lemma runAll_sent (this : Client.ChannelClient) (ids : list Z) :
  clientSent (Client.runAll this ids).2 = omap (stored this) ids.
Proof.
  revert this. induction ids as [|id ids IH]; intros this; [done|].
  simpl. pose proof (whenInitializedThen_event this id) as (_ & Hstored & _).
  assert (clientSent (Client.whenInitializedThen this id).2
          = from_option (λ m, [m]) [] (stored this id)) as Hout.
  { unfold Client.whenInitializedThen, stored.
    by destruct (Client.emitters this !! id). }
  destruct (Client.whenInitializedThen this id) as [this1 out1].
  specialize (IH this1).
  destruct (Client.runAll this1 ids) as [this2 out2].
  simpl in *. rewrite clientSent_app, Hout, IH.
  assert (omap (stored this1) ids = omap (stored this) ids) as ->.
  { clear IH. induction ids as [|x xs IHx]; [done|].
    cbn [omap list_omap]. fold (omap (stored this1) xs).
    fold (omap (stored this) xs). by rewrite Hstored, IHx. }
  by destruct (stored this id).
Qed.

(** The first listener of a stream on an initialized client: the stored
    message is sent at once, or the stream is queued to have it sent. *)
Lemma subscribe_first then_sync (this : Client.ChannelClient) (id : Z)
    (l : Client.Listen) :
  Client.emitters this !! id = Some l → Client.listeners l = 0%nat →
  Client.state this = Client.Idle →
  (then_sync = true →
   clientSent (Client.subscribe then_sync this id).2 = [Client.request l])
  ∧ (then_sync = false →
     Client.continuations (Client.subscribe then_sync this id).1
     = Client.continuations this ++ [id]).
Proof.
  intros Hl Hlisteners Hstate.
  unfold Client.subscribe. rewrite Hl, Hlisteners.
  unfold Client.onFirstListenerAdd. rewrite Hstate.
  split; intros ->.
  - unfold Client.whenInitializedThen. by rewrite Hl.
  - unfold Client.setUninitializedPromise. simpl. rewrite Hl.
    unfold Client.setListeners. simpl. by rewrite lookup_insert_eq.
Qed.

(** C9, as stated, fails: after the last listener of a stream is removed and
    [RequestEventDispose] sent, a new listener makes the ChannelClient send
    a [RequestEventListen] with the id it used before, 0, and not a fresh
    one; in either order of running [then] callbacks. *)
Lemma resubscribing_gets_no_fresh_id :
  (∀ then_sync,
     clientSent (Client.run then_sync Client.create resubscribe).2
     = [MRequestEventListen 0 "files" "onChange" VNull;
        MRequestEventDispose 0;
        MRequestEventListen 0 "files" "onChange" VNull])
  ∧ ¬ (∃ first again,
         clientSent (Client.run true Client.create resubscribe).2
         = [first; MRequestEventDispose 0; again]
         ∧ IRawMessage.type again = RequestEventListen
         ∧ IRawMessage.id again ≠ IRawMessage.id first).
Proof.
  split.
  - intros [|]; reflexivity.
  - intros (first & again & Hsent & _ & Hfresh).
    vm_compute in Hsent. injection Hsent as <- <-. by apply Hfresh.
Qed.

(** C9, amended: the request of a stream is made once, by [listen], with the
    id allocated then.  When a listener is added to a stream that has none,
    on an initialized client, that same [RequestEventListen] is sent again;
    and every [RequestEventListen] with the id of the stream that the client
    has sent before, or sends now, is that message. *)
Theorem resubscribing_reissues_the_request then_sync (before : list Client.Input)
    (id : Z) (l : Client.Listen) :
  let this := (Client.run then_sync Client.create before).1 in
  Client.emitters this !! id = Some l →
  Client.listeners l = 0%nat →
  Client.state this = Client.Idle →
  let again :=
    clientSent (Client.run then_sync this [Client.Subscribe id; Client.Tick]).2 in
  (∃ channelName name arg,
     Client.request l = MRequestEventListen id channelName name arg)
  ∧ Client.request l ∈ again
  ∧ ∀ m, m ∈ clientSent (Client.run then_sync Client.create before).2 ++ again →
         IRawMessage.type m = RequestEventListen →
         IRawMessage.id m = Some id →
         m = Client.request l.
Proof.
  intros this Hl Hlisteners Hstate again.
  destruct (run_ok then_sync Client.create before 0 wf_create) as [Hwf _].
  destruct (run_listens then_sync Client.create before wf_create) as [_ Hbefore].
  fold this in Hwf, Hbefore.
  destruct (run_listens then_sync this [Client.Subscribe id; Client.Tick] Hwf)
    as [Hkept Hagain].
  assert (stored this id = Some (Client.request l)) as Hstored.
  { unfold stored. by rewrite Hl. }
  split; [|split].
  - destruct Hwf as (_ & _ & W3). by destruct (W3 id l Hl).
  - subst again. cbn [Client.run Client.step].
    destruct (subscribe_first then_sync this id l Hl Hlisteners Hstate)
      as [Hsync Hdeferred].
    pose proof (subscribe_event then_sync this id) as (_ & Hs1 & _).
    destruct (Client.subscribe then_sync this id) as [this1 out1].
    pose proof (runAll_sent (Client.setContinuations [] this1)
                  (Client.continuations this1)) as Htick.
    unfold Client.tick.
    destruct (Client.runAll _ _) as [this2 out2].
    simpl in *. rewrite app_nil_r, clientSent_app.
    apply elem_of_app. destruct then_sync.
    + left. rewrite Hsync by done. by apply list_elem_of_singleton.
    + right. rewrite Htick, Hdeferred by done.
      apply list_elem_of_omap. exists id. split.
      * apply elem_of_app. right. by apply list_elem_of_singleton.
      * change (stored this1 id = Some (Client.request l)). by rewrite Hs1.
  - intros m Hin Htype Hid. apply elem_of_app in Hin as [Hin | Hin].
    + specialize (Hbefore m id Hin Htype Hid). congruence.
    + specialize (Hagain m id Hin Htype Hid).
      specialize (Hkept id _ Hstored). congruence.
Qed.

Lemma resubscribing_reissues_the_request_witness :
  let this := (Client.run true Client.create tornDown).1 in
  let again :=
    clientSent (Client.run true this [Client.Subscribe 0; Client.Tick]).2 in
  (∃ channelName name arg,
     MRequestEventListen 0 "files" "onChange" VNull
     = MRequestEventListen 0 channelName name arg)
  ∧ MRequestEventListen 0 "files" "onChange" VNull ∈ again
  ∧ ∀ m, m ∈ clientSent (Client.run true Client.create tornDown).2 ++ again →
         IRawMessage.type m = RequestEventListen →
         IRawMessage.id m = Some 0 →
         m = MRequestEventListen 0 "files" "onChange" VNull.
Proof.
  apply (resubscribing_reissues_the_request true tornDown 0
           (Client.mkListen (MRequestEventListen 0 "files" "onChange" VNull)
              0 None)); reflexivity.
Defined.

(** * Further properties of the code *)

(** ** ChannelServer: event streams, registration, disposal *)

(** X1: [onEventListen] has no try/catch: where [onPromise] answers a missing
    channel or a throwing call with an error response, a
    [RequestEventListen] for a channel that is not registered, or whose
    [listen] throws, raises out of [onMessage]; nothing is registered and
    nothing is sent. *)
Theorem listen_failure_is_uncaught then_sync (this : Server.ChannelServer)
    (id : Z) (channelName name : string) (arg : Value) :
  Server.protocolListener this = true →
  (Server.channels this !! channelName = None
   ∨ ∃ channel err, Server.channels this !! channelName = Some channel
                    ∧ listen channel name arg = ListenThrows err) →
  ∃ err,
    Server.step then_sync this
      (Server.Receive (MRequestEventListen id channelName name arg))
    = (this, [Server.Uncaught err]).
Proof.
  intros Hlistening Hfails. simpl. rewrite Hlistening. simpl.
  unfold Server.onEventListen.
  destruct Hfails as [Hnone | (channel & err & Hsome & Hthrows)].
  - rewrite Hnone. by eexists.
  - rewrite Hsome, Hthrows. by eexists.
Qed.

Lemma listen_failure_is_uncaught_witness :
  ∃ err,
    Server.step true (Server.create).1
      (Server.Receive (MRequestEventListen 4 "files" "onChange" VNull))
    = ((Server.create).1, [Server.Uncaught err]).
Proof.
  apply (listen_failure_is_uncaught true (Server.create).1 4 "files" "onChange"
           VNull); [reflexivity | by left].
Defined.

Lemma server_run_fires then_sync (this : Server.ChannelServer) (id : Z)
    (fired : list Value) (rest : list Server.Input) :
  Server.run then_sync this ((Server.Fire id <$> fired) ++ rest)
  = ((Server.run then_sync this rest).1,
     (Server.Send <$> (MResponseEventFire id <$> fired))
     ++ (Server.run then_sync this rest).2).
Proof.
  induction fired as [|data fired IH].
  - simpl. by destruct (Server.run then_sync this rest).
  - rewrite !fmap_cons, <- !app_comm_cons. cbn [Server.run Server.step].
    rewrite IH. by destruct (Server.run then_sync this rest).
Qed.

(** X2: The life of a remote subscription: a [RequestEventListen] for a channel
    that listens registers a disposer and sends nothing; every value the
    stream then produces goes out as a [ResponseEventFire] with the id of the
    request, in order; the [RequestEventDispose] disposes that disposer and
    leaves no registration behind. *)
Theorem subscription_lifecycle then_sync (this : Server.ChannelServer) (id : Z)
    (channelName name : string) (arg : Value) (channel : IChannel)
    (fired : list Value) :
  Server.protocolListener this = true →
  Server.channels this !! channelName = Some channel →
  listen channel name arg = Listening →
  Server.run then_sync this
    (Server.Receive (MRequestEventListen id channelName name arg)
     :: (Server.Fire id <$> fired)
     ++ [Server.Receive (MRequestEventDispose id)])
  = (Server.deleteActiveRequest this id,
     (Server.Send <$> (MResponseEventFire id <$> fired))
     ++ [Server.Dispose id RemoveListener]).
Proof.
  intros Hlistening Hchannel Hlisten.
  cbn [Server.run Server.step]. rewrite Hlistening. simpl.
  unfold Server.onEventListen. rewrite Hchannel, Hlisten.
  rewrite server_run_fires. simpl. rewrite Hlistening.
  unfold Server.disposeActiveRequest. simpl. rewrite lookup_insert_eq. simpl.
  unfold Server.deleteActiveRequest. simpl. by rewrite delete_insert_eq.
Qed.

Lemma subscription_lifecycle_witness :
  Server.run true busyServer
    (Server.Receive (MRequestEventListen 5 "files" "onChange" VNull)
     :: (Server.Fire 5 <$> [VNumber 1; VNumber 2; VNumber 3])
     ++ [Server.Receive (MRequestEventDispose 5)])
  = (Server.deleteActiveRequest busyServer 5,
     (Server.Send <$> (MResponseEventFire 5 <$> [VNumber 1; VNumber 2; VNumber 3]))
     ++ [Server.Dispose 5 RemoveListener]).
Proof.
  apply (subscription_lifecycle true busyServer 5 "files" "onChange" VNull
           (mkChannel (λ _ _, Returns Pending) (λ _ _, Listening))
           [VNumber 1; VNumber 2; VNumber 3]); reflexivity.
Defined.









(** X4: [registerChannel]: the last channel registered under a name is the one
    that is called, whatever was registered under it before; requests that
    name another channel are answered as they were. *)
Theorem registerChannel_last_writer_wins then_sync (this : Server.ChannelServer)
    (channelName : string) (channel : IChannel) :
  let this' := (Server.step then_sync this
                  (Server.RegisterChannel channelName channel)).1 in
  (∀ name arg,
     Server.callChannel this' channelName name arg
     = match call channel name arg with
       | Returns promise => promise
       | Throws err => Failed err
       end)
  ∧ (∀ other id name arg, other ≠ channelName →
       (Server.step then_sync this'
          (Server.Receive (MRequestPromise id other name arg))).2
       = (Server.step then_sync this
            (Server.Receive (MRequestPromise id other name arg))).2)
  ∧ Server.activeRequests this' = Server.activeRequests this.
Proof.
  simpl. split; [|split; [|done]].
  - intros name arg. unfold Server.callChannel. simpl.
    by rewrite lookup_insert_eq.
  - intros other id name arg Hother.
    destruct (Server.protocolListener this); [|done].
    unfold Server.onPromise, Server.callChannel. simpl.
    rewrite lookup_insert_ne by done.
    destruct (Server.channels this !! other) as [ch|]; simpl.
    + destruct (call ch name arg) as [[|v|e]|e]; simpl; try done;
        by destruct then_sync.
    + by destruct then_sync.
Qed.

(** X5: A [RequestPromise] whose call is still running when it returns registers
    a disposer and sends nothing.  One whose call returns a settled result
    is answered in [onPromise] with the one response; [onPromise] calls
    [then] before it writes [activeRequests], so the disposer stays registered
    after the response when [then] runs its callback at once, and is removed
    when the callback runs later. *)
Theorem settled_call_and_its_registration then_sync (this : Server.ChannelServer)
    (id : Z) (channelName name : string) (arg : Value) :
  Server.protocolListener this = true →
  let '(this', out) :=
    Server.step then_sync this
      (Server.Receive (MRequestPromise id channelName name arg)) in
  match Server.settled (Server.callChannel this channelName name arg) with
  | None =>
      out = [] ∧ Server.activeRequests this' !! id = Some CancelPromise
  | Some n =>
      out = [Server.Send (response id n)]
      ∧ Server.activeRequests this' !! id
        = (if then_sync then Some CancelPromise else None)
  end
  ∧ ∀ other, other ≠ id →
      Server.activeRequests this' !! other = Server.activeRequests this !! other.
Proof.
  intros Hlistening. simpl. rewrite Hlistening. simpl.
  unfold Server.onPromise.
  destruct (Server.callChannel this channelName name arg) as [|v|e]; simpl.
  - rewrite lookup_insert_eq. split; [done|].
    intros other Hother. by rewrite lookup_insert_ne.
  - destruct then_sync; simpl;
      rewrite ?lookup_insert_eq, ?lookup_delete_eq; (split; [done|]);
      intros other Hother;
      by rewrite ?lookup_insert_ne, ?lookup_delete_ne, ?lookup_insert_ne by done.
  - destruct then_sync; simpl;
      rewrite ?lookup_insert_eq, ?lookup_delete_eq; (split; [done|]);
      intros other Hother;
      by rewrite ?lookup_insert_ne, ?lookup_delete_ne, ?lookup_insert_ne by done.
Qed.

Lemma settled_call_and_its_registration_witness :
  let '(this', out) :=
    Server.step true (Server.create).1
      (Server.Receive (MRequestPromise 0 "files" "stat" VNull)) in
  match Server.settled (Server.callChannel (Server.create).1 "files" "stat" VNull)
  with
  | None =>
      out = [] ∧ Server.activeRequests this' !! 0 = Some CancelPromise
  | Some n =>
      out = [Server.Send (response 0 n)]
      ∧ Server.activeRequests this' !! 0 = Some CancelPromise
  end
  ∧ ∀ other, other ≠ 0 →
      Server.activeRequests this' !! other
      = Server.activeRequests (Server.create).1 !! other.
Proof.
  apply (settled_call_and_its_registration true (Server.create).1 0 "files"
           "stat" VNull).
  reflexivity.
Defined.

(** X6: A call that is still running when it returns stays registered while it
    reports progress, and its terminal notification sends the one response
    and removes the registration: after it the ChannelServer holds what it
    held before the request, but for a disposer that was registered under the
    same id. *)
Theorem pending_call_lifecycle then_sync (this : Server.ChannelServer) (id : Z)
    (channelName name : string) (arg : Value) (produced : list Value)
    (s : Settlement) :
  Server.protocolListener this = true →
  Server.callChannel this channelName name arg = Pending →
  Server.run then_sync this
    (Server.Receive (MRequestPromise id channelName name arg)
     :: (Server.Notify id <$> (Server.Progress <$> produced))
     ++ [Server.Notify id (terminal s)])
  = (Server.deleteActiveRequest this id,
     Server.Send <$> ((MResponsePromiseProgress id <$> produced)
                      ++ [response id (terminal s)])).
Proof.
  intros Hlistening Hpending.
  cbn [Server.run Server.step]. rewrite Hlistening. simpl.
  unfold Server.onPromise. rewrite Hpending. simpl.
  assert (∀ this1 : Server.ChannelServer,
    Server.deleteActiveRequest this1 id = Server.deleteActiveRequest this id →
    Server.run then_sync this1
      ((Server.Notify id <$> (Server.Progress <$> produced))
       ++ [Server.Notify id (terminal s)])
    = (Server.deleteActiveRequest this id,
       Server.Send <$> ((MResponsePromiseProgress id <$> produced)
                        ++ [response id (terminal s)]))) as Hrun.
  { intros this1 Hthis1. induction produced as [|data produced IH].
    - simpl. rewrite <- Hthis1. by destruct s.
    - rewrite !fmap_cons, <- !app_comm_cons. cbn [Server.run Server.step].
      simpl. rewrite IH. done. }
  rewrite Hrun; [done|].
  unfold Server.deleteActiveRequest. simpl. f_equal.
  - apply delete_insert_eq.
  - set_solver.
Qed.

Lemma pending_call_lifecycle_witness :
  Server.run true
    (Server.registerChannel (Server.create).1 "files"
       (mkChannel (λ _ _, Returns Pending) (λ _ _, Listening)))
    (Server.Receive (MRequestPromise 0 "files" "stat" VNull)
     :: (Server.Notify 0 <$> (Server.Progress <$> [VNumber 1; VNumber 2]))
     ++ [Server.Notify 0 (terminal (Resolves (VString "done")))])
  = (Server.deleteActiveRequest
       (Server.registerChannel (Server.create).1 "files"
          (mkChannel (λ _ _, Returns Pending) (λ _ _, Listening))) 0,
     Server.Send <$> ((MResponsePromiseProgress 0 <$> [VNumber 1; VNumber 2])
                      ++ [response 0 (terminal (Resolves (VString "done")))])).
Proof.
  apply (pending_call_lifecycle true
           (Server.registerChannel (Server.create).1 "files"
              (mkChannel (λ _ _, Returns Pending) (λ _ _, Listening)))
           0 "files" "stat" VNull [VNumber 1; VNumber 2]
           (Resolves (VString "done"))); reflexivity.
Defined.

(** ** ChannelClient and ChannelServer on one transport *)

(** X7: An IPCClient and each connection of an IPCServer give the same transport
    to a ChannelClient and a ChannelServer, so every message reaches both.
    [isResponse] and the switch of the server divide them: but for
    [RequestEventListen] and [RequestEventDispose], a message is ignored by
    one of the two, with no effect and no change of state. *)
Theorem one_role_per_message then_sync (server : Server.ChannelServer)
    (client : Client.ChannelClient) (m : Message) :
  IRawMessage.type m ≠ RequestEventListen →
  IRawMessage.type m ≠ RequestEventDispose →
  (isResponse (IRawMessage.type m) = false
   ∧ Client.step then_sync client (Client.Receive m) = (client, []))
  ∨ (isResponse (IRawMessage.type m) = true
     ∧ Server.step then_sync server (Server.Receive m) = (server, [])).
Proof.
  intros Hlisten Hdispose.
  destruct m; simpl in *; try done;
    try (right; split; [done|]; by destruct (Server.protocolListener server));
    left; (split; [done|]); by destruct (Client.protocolListener client).
Qed.

Lemma one_role_per_message_witness :
  (isResponse (IRawMessage.type (MRequestPromise 0 "files" "stat" VNull)) = false
   ∧ Client.step true oneCallClient
       (Client.Receive (MRequestPromise 0 "files" "stat" VNull))
     = (oneCallClient, []))
  ∨ (isResponse (IRawMessage.type (MRequestPromise 0 "files" "stat" VNull)) = true
     ∧ Server.step true busyServer
         (Server.Receive (MRequestPromise 0 "files" "stat" VNull))
       = (busyServer, [])).
Proof.
  apply (one_role_per_message true busyServer oneCallClient
           (MRequestPromise 0 "files" "stat" VNull)); discriminate.
Defined.

(** X8: [isResponse] compares the numbers of the enum, and [RequestEventListen]
    and [RequestEventDispose] come after [ResponseInitialize]: a ChannelClient
    takes such a request of its peer for a response.  If it carries the id of
    one of the client's own event streams, the listeners of that stream are
    told [undefined]; if it carries the id of a call, the switch of the
    call's handler skips it. *)
Theorem peer_listen_request_reaches_local_handler then_sync
    (this : Client.ChannelClient) (id : Z) (request : Message)
    (handler : Client.IHandler) :
  Client.protocolListener this = true →
  IRawMessage.type request = RequestEventListen
  ∨ IRawMessage.type request = RequestEventDispose →
  IRawMessage.id request = Some id →
  Client.handlers this !! id = Some handler →
  isResponse (IRawMessage.type request) = true
  ∧ Client.step then_sync this (Client.Receive request)
    = (this,
       match handler with
       | Client.PromiseHandler => []
       | Client.EventHandler => Client.fire this id VUndefined
       end).
Proof.
  intros Hlistening Htype Hid Hhandler.
  split; [by destruct Htype as [-> | ->]|].
  cbn [Client.step]. rewrite Hlistening.
  rewrite (onMessage_handler then_sync this request id handler); try done;
    [|by destruct Htype as [-> | ->]].
  destruct handler, request; simpl in *; try done;
    destruct Htype; done.
Qed.

Lemma peer_listen_request_reaches_local_handler_witness :
  isResponse (IRawMessage.type (MRequestEventListen 0 "search" "onResult" VNull))
  = true
  ∧ Client.step true listeningClient
      (Client.Receive (MRequestEventListen 0 "search" "onResult" VNull))
    = (listeningClient, [Client.Emit 0 VUndefined]).
Proof.
  apply (peer_listen_request_reaches_local_handler true listeningClient 0
           (MRequestEventListen 0 "search" "onResult" VNull)
           Client.EventHandler); try reflexivity.
  by left.
Defined.

(** ** ChannelClient: what is sent for a call *)

(** X9: Whatever a ChannelClient is asked to do, from its construction on, for
    every id it sends at most one [RequestPromise] and at most one
    [RequestPromiseCancel], and the cancel only after the request. *)
Theorem one_request_one_cancel_per_id then_sync (inputs : list Client.Input)
    (id : Z) :
  marks id (Client.run then_sync Client.create inputs).2 = []
  ∨ marks id (Client.run then_sync Client.create inputs).2 = [Requested]
  ∨ marks id (Client.run then_sync Client.create inputs).2
    = [Requested; Cancelled].
Proof.
  destruct (run_ok then_sync Client.create inputs id wf_create) as [_ Hadv].
  destruct (Hadv _ (initialPhase_create id)) as (ph & _ & Hpath).
  unfold initialPhase in Hpath.
  destruct (decide (0 ≤ id)), ph; simpl in Hpath; try done;
    destruct_or?; auto.
Qed.

(** X10: A call made on an initialized client goes out at once; when the channel
    it names answers with a result that has settled with [data], the response
    of the ChannelServer brings that [data] back to the caller. *)
Theorem call_round_trip then_sync (client : Client.ChannelClient)
    (server : Server.ChannelServer) (channelName name : string)
    (arg data : Value) (channel : IChannel) :
  Client.state client = Client.Idle →
  Client.protocolListener client = true →
  Server.protocolListener server = true →
  Server.channels server !! channelName = Some channel →
  call channel name arg = Returns (Fulfilled data) →
  let id := Client.lastRequestId client in
  ∃ client1 server1 client2,
    Client.step then_sync client (Client.DoCall channelName name arg)
    = (client1, [Client.Send (MRequestPromise id channelName name arg)])
    ∧ Server.step then_sync server
        (Server.Receive (MRequestPromise id channelName name arg))
      = (server1, [Server.Send (MResponsePromiseSuccess id data)])
    ∧ Client.step then_sync client1
        (Client.Receive (MResponsePromiseSuccess id data))
      = (client2, [Client.Complete id data])
    ∧ Client.lastRequestId client2 = id + 1
    ∧ Client.handlers client2 !! id = None.
Proof.
  intros Hstate Hlistening Hserver Hchannel Hcall id.
  assert (awaiting (Client.step then_sync client
                      (Client.DoCall channelName name arg)).1 id) as Hawaiting.
  { cbn [Client.step]. unfold Client.requestPromise. simpl. rewrite Hstate.
    simpl. split; [done|]. split; [apply lookup_insert_eq|].
    eexists. split; [apply lookup_insert_eq | done]. }
  assert ((Client.step then_sync client (Client.DoCall channelName name arg)).2
          = [Client.Send (MRequestPromise id channelName name arg)]) as Hout.
  { cbn [Client.step]. unfold Client.requestPromise. simpl. by rewrite Hstate. }
  assert (Client.lastRequestId
            (Client.step then_sync client (Client.DoCall channelName name arg)).1
          = id + 1) as Hlast.
  { cbn [Client.step]. unfold Client.requestPromise. simpl. by rewrite Hstate. }
  destruct (Client.step then_sync client (Client.DoCall channelName name arg))
    as [client1 out1]. simpl in *. subst out1.
  destruct (receive_terminal then_sync client1 id (Resolves data) Hawaiting)
    as (client2 & Hreceive & Hnone & _).
  assert (Client.lastRequestId client2 = Client.lastRequestId client1) as Hsame.
  { cbn [Client.step] in Hreceive.
    destruct Hawaiting as (Hl1 & Hh1 & _). rewrite Hl1 in Hreceive.
    rewrite (onMessage_handler then_sync client1 _ id Client.PromiseHandler)
      in Hreceive by done.
    simpl in Hreceive.
    destruct (settle_same (Client.deleteHandler id client1) id
                (Client.Complete id data)) as (_ & _ & _ & Hl & _).
    rewrite Hreceive in Hl. done. }
  exists client1.
  exists (Server.step then_sync server
            (Server.Receive (MRequestPromise id channelName name arg))).1.
  exists client2. split; [done|]. split.
  - simpl. rewrite Hserver. simpl. unfold Server.onPromise, Server.callChannel.
    rewrite Hchannel, Hcall. simpl. destruct then_sync; reflexivity.
  - split; [done|]. split; [congruence | done].
Qed.

Lemma call_round_trip_witness :
  ∃ client1 server1 client2,
    Client.step true oneCallClient (Client.DoCall "files" "stat" (VNumber 7))
    = (client1, [Client.Send (MRequestPromise 1 "files" "stat" (VNumber 7))])
    ∧ Server.step true echoServer
        (Server.Receive (MRequestPromise 1 "files" "stat" (VNumber 7)))
      = (server1, [Server.Send (MResponsePromiseSuccess 1 (VNumber 7))])
    ∧ Client.step true client1
        (Client.Receive (MResponsePromiseSuccess 1 (VNumber 7)))
      = (client2, [Client.Complete 1 (VNumber 7)])
    ∧ Client.lastRequestId client2 = 1 + 1
    ∧ Client.handlers client2 !! 1 = None.
Proof.
  apply (call_round_trip true oneCallClient echoServer "files" "stat"
           (VNumber 7) (VNumber 7) echoChannel); reflexivity.
Defined.

(** ** ChannelClient: disposal *)

Lemma cancel_view (this : Client.ChannelClient) (id j : Z) :
  j ≠ id → view id (Client.cancel this j).1 = view id this.
Proof.
  intros Hne. unfold Client.cancel.
  destruct (Client.calls this !! j) as [c|] eqn:Hc; [|done].
  destruct (Client.pending c); [|done].
  assert (view id (Client.onCancel this j c).1 = view id this) as Hview.
  { unfold Client.onCancel.
    destruct (Client.buffered c); [|done].
    destruct (Client.state this) eqn:Hstate.
    - unfold view. simpl. rewrite Hstate.
      destruct (Client.bufferedRequests this) as [buffer|]; [|done].
      simpl. rewrite filter_removeRequest.
      by rewrite decide_False by done.
    - destruct (Client.flushedRequest c); [|done].
      unfold view. simpl. by rewrite lookup_insert_ne by done. }
  destruct (Client.onCancel this j c) as [this1 out1].
  destruct (settle_other this1 id j (Client.Canceled j) Hne eq_refl) as [H _].
  destruct (Client.settle this1 j (Client.Canceled j)) as [this2 out2].
  simpl in *. congruence.
Qed.

Lemma view_isPending (this this' : Client.ChannelClient) (id : Z) :
  view id this' = view id this → isPending this' id ↔ isPending this id.
Proof.
  unfold view, isPending. intros [= _ _ Hcalls _ _]. by rewrite Hcalls.
Qed.

Lemma settled_not_pending (this : Client.ChannelClient) (id : Z) :
  settledView (view id this) → ¬ isPending this id.
Proof.
  intros (_ & Hsettled & _) (c & Hcall & Hpending).
  specialize (Hsettled c Hcall). congruence.
Qed.

(** [cancel()] on the result of the call [j] of a client whose unsettled
    calls are all parked or in flight. *)
Lemma cancel_live (this : Client.ChannelClient) (j : Z) :
  live this →
  live (Client.cancel this j).1
  ∧ ¬ isPending (Client.cancel this j).1 j
  ∧ ((isPending this j
      ∧ (Client.cancel this j).2 = cancelEffects (Client.state this) j)
     ∨ (¬ isPending this j ∧ (Client.cancel this j).2 = [])).
Proof.
  intros Hlive.
  assert (¬ isPending (Client.cancel this j).1 j
          ∧ ((isPending this j
              ∧ (Client.cancel this j).2 = cancelEffects (Client.state this) j)
             ∨ (¬ isPending this j ∧ (Client.cancel this j).2 = [])))
    as [Hsettled Hout].
  { destruct (Client.calls this !! j) as [c|] eqn:Hcall.
    - destruct (Client.pending c) eqn:Hpending.
      + assert (isPending this j) as Hj by by exists c.
        specialize (Hlive j Hj).
        destruct (Client.state this).
        * destruct (parked_cancel this j Hlive) as [Hph ->].
          split; [by apply settled_not_pending | by left].
        * destruct (inflight_cancel this j Hlive) as [Hph ->].
          split; [by apply settled_not_pending | by left].
      + assert (¬ isPending this j) as Hj.
        { intros (c' & Hcall' & Hpending'). congruence. }
        unfold Client.cancel. rewrite Hcall, Hpending. split; [done | by right].
    - assert (¬ isPending this j) as Hj.
      { intros (c' & Hcall' & _). congruence. }
      unfold Client.cancel. rewrite Hcall. split; [done | by right]. }
  split; [|done].
  intros id Hid.
  destruct (decide (j = id)) as [->|Hne]; [done|].
  pose proof (cancel_view this id j Hne) as Hview.
  rewrite cancel_state.
  apply (phase_ok_view id _ this); [done|].
  apply Hlive. by apply (view_isPending this _ id Hview).
Qed.

Lemma cancelEffects_inj (state : Client.State) (id j : Z) (e : Client.Effect) :
  e ∈ cancelEffects state id → e ∈ cancelEffects state j → id = j.
Proof.
  destruct state; simpl; rewrite ?elem_of_cons, ?elem_of_nil;
    intros H1 H2; destruct_or?; simplify_eq; done.
Qed.

Lemma cancelEffects_NoDup (state : Client.State) (id : Z) :
  NoDup (cancelEffects state id).
Proof.
  destruct state; simpl; repeat constructor;
    rewrite ?elem_of_cons, ?elem_of_nil; intros ?; destruct_or?; done.
Qed.

(** [dispose(this.activeRequests)]: the effects are those of [cancel()] on
    each result that has not settled, once each, and none of these is left
    unsettled. *)
Lemma cancelAll_live (this : Client.ChannelClient) (ids : list Z) :
  live this →
  live (Client.cancelAll this ids).1
  ∧ (∀ id, isPending (Client.cancelAll this ids).1 id
           ↔ isPending this id ∧ id ∉ ids)
  ∧ (∀ e, e ∈ (Client.cancelAll this ids).2
          ↔ ∃ id, id ∈ ids ∧ isPending this id
                  ∧ e ∈ cancelEffects (Client.state this) id)
  ∧ NoDup (Client.cancelAll this ids).2.
Proof.
  revert this. induction ids as [|j ids IH]; intros this Hlive.
  - simpl. split; [done|]. split; [|split; [|constructor]].
    + intros id. rewrite elem_of_nil. tauto.
    + intros e. rewrite elem_of_nil. split; [done|].
      intros (id & Hin & _). by apply elem_of_nil in Hin.
  - simpl.
    destruct (cancel_live this j Hlive) as (Hlive1 & Hsettled & Hout).
    pose proof (cancel_state this j) as Hstate.
    assert (∀ id, j ≠ id →
              isPending (Client.cancel this j).1 id ↔ isPending this id)
      as Hother.
    { intros id Hne. apply view_isPending. by apply cancel_view. }
    destruct (Client.cancel this j) as [this1 out1]. simpl in *.
    destruct (IH this1 Hlive1) as (Hlive2 & Hpending2 & Hout2 & Hnodup2).
    destruct (Client.cancelAll this1 ids) as [this2 out2]. simpl in *.
    rewrite Hstate in Hout2.
    split; [done|]. split; [|split].
    + intros id. rewrite Hpending2, elem_of_cons.
      destruct (decide (j = id)) as [->|Hne].
      * split; [by intros [? _] | intros [_ H]; destruct H; by left].
      * rewrite (Hother id Hne). split; intros [H1 H2]; (split; [done|]).
        -- intros [-> | ?]; done.
        -- intros ?. apply H2. by right.
    + intros e. rewrite elem_of_app, Hout2. split.
      * intros [He | (id & Hin & Hid & He)].
        -- destruct Hout as [[Hj ->] | [_ ->]];
             [|by apply elem_of_nil in He].
           exists j. split; [by left | done].
        -- exists id. destruct (decide (j = id)) as [->|Hne]; [done|].
           split; [by right|]. by rewrite <- (Hother id Hne).
      * intros (id & Hin & Hid & He).
        apply elem_of_cons in Hin as [-> | Hin].
        -- left. destruct Hout as [[_ ->] | [Hj _]]; done.
        -- destruct (decide (j = id)) as [->|Hne].
           ++ left. destruct Hout as [[_ ->] | [Hj _]]; done.
           ++ right. exists id. by rewrite (Hother id Hne).
    + apply NoDup_app. split; [|split; [|done]].
      * destruct Hout as [[_ ->] | [_ ->]];
          [apply cancelEffects_NoDup | constructor].
      * intros e He1 He2. apply Hout2 in He2 as (id & _ & Hid & He2).
        destruct Hout as [[_ ->] | [_ ->]]; [|by apply elem_of_nil in He1].
        rewrite (cancelEffects_inj _ _ _ _ He1 He2) in Hsettled. done.
Qed.

(** *** The disposables of the calls that have not settled *)

Lemma tracked_from (this this' : Client.ChannelClient) :
  Client.activeRequests this' = Client.activeRequests this →
  (∀ id, isPending this' id → isPending this id) →
  tracked this → tracked this'.
Proof.
  intros Hactive Hpending Htracked id Hid.
  rewrite Hactive. by apply Htracked, Hpending.
Qed.

Lemma settle_tracked (this : Client.ChannelClient) (j : Z) (e : Client.Effect) :
  tracked this → tracked (Client.settle this j e).1.
Proof.
  intros Htracked id (c' & Hcall & Hpending).
  rewrite settle_calls in Hcall.
  destruct (decide (id = j)) as [->|Hne].
  { destruct (Client.calls this !! j); simplify_eq/=. }
  assert (id ∈ Client.activeRequests this) as Hin.
  { apply Htracked. by exists c'. }
  unfold Client.settle.
  destruct (Client.calls this !! j) as [c|]; [|done].
  destruct (Client.pending c); [|done].
  simpl. by apply list_elem_of_filter.
Qed.

Lemma onCancel_tracked (this : Client.ChannelClient) (j : Z) (c : Client.Call) :
  Client.calls this !! j = Some c →
  tracked this → tracked (Client.onCancel this j c).1.
Proof.
  intros Hcall. unfold Client.onCancel.
  destruct (Client.buffered c); [|done].
  destruct (Client.state this); [done|].
  destruct (Client.flushedRequest c); [|done].
  apply tracked_from; [done|].
  intros id (c' & Hcall' & Hpending). simpl in Hcall'.
  destruct (decide (j = id)) as [->|Hne].
  - rewrite lookup_insert_eq in Hcall'. simplify_eq/=. by exists c.
  - rewrite lookup_insert_ne in Hcall' by done. by exists c'.
Qed.

Lemma cancel_tracked (this : Client.ChannelClient) (j : Z) :
  tracked this → tracked (Client.cancel this j).1.
Proof.
  intros Htracked. unfold Client.cancel.
  destruct (Client.calls this !! j) as [c|] eqn:Hcall; [|done].
  destruct (Client.pending c); [|done].
  pose proof (onCancel_tracked this j c Hcall Htracked) as H1.
  destruct (Client.onCancel this j c) as [this1 out1].
  pose proof (settle_tracked this1 j (Client.Canceled j) H1) as H2.
  by destruct (Client.settle this1 j (Client.Canceled j)) as [this2 out2].
Qed.

Lemma requestPromise_tracked (this : Client.ChannelClient)
    (channelName name : string) (arg : Value) :
  tracked this → tracked (Client.requestPromise this channelName name arg).1.
Proof.
  intros Htracked id (c' & Hcall & Hpending).
  unfold Client.requestPromise, Client.bufferRequest, Client.doRequest in *.
  simpl in *.
  destruct (Client.state this); simpl in *;
    [destruct (Client.bufferedRequests this); simpl in *|];
    apply elem_of_app;
    try (destruct (decide (Client.lastRequestId this = id)) as [->|Hne];
         [right; by apply list_elem_of_singleton|];
         rewrite lookup_insert_ne in Hcall by done);
    left; apply Htracked; by exists c'.
Qed.

Lemma handle_tracked (this : Client.ChannelClient) (h : Client.IHandler) (j : Z)
    (response : Message) :
  tracked this → tracked (Client.handle this h j response).1.
Proof.
  intros Htracked. destruct h; simpl; [|done].
  destruct response; try done; try by apply settle_tracked.
  unfold Client.progress.
  destruct (Client.calls this !! j) as [c|]; [|done].
  by destruct (Client.pending c).
Qed.

Lemma flushRequest_tracked (this : Client.ChannelClient) (r : Client.IRequest) :
  tracked this → tracked (Client.flushRequest this r).1.
Proof.
  unfold Client.flushRequest, Client.doRequest.
  destruct (Client.flush r); [|done].
  destruct (Client.requestId r) as [j|]; [|done]. simpl.
  destruct (Client.calls this !! j) as [c|] eqn:Hcall; [|done].
  apply tracked_from; [done|].
  intros id (c' & Hcall' & Hpending). simpl in Hcall'.
  destruct (decide (j = id)) as [->|Hne].
  - rewrite lookup_insert_eq in Hcall'. simplify_eq/=. by exists c.
  - rewrite lookup_insert_ne in Hcall' by done. by exists c'.
Qed.

Lemma flushAll_tracked (this : Client.ChannelClient)
    (buffer : list Client.IRequest) :
  tracked this → tracked (Client.flushAll this buffer).1.
Proof.
  revert this. induction buffer as [|r buffer IH]; intros this Htracked;
    [done|].
  simpl. pose proof (flushRequest_tracked this r Htracked) as H1.
  destruct (Client.flushRequest this r) as [this1 out1].
  specialize (IH this1 H1).
  by destruct (Client.flushAll this1 buffer) as [this2 out2].
Qed.

(** The event streams leave [activeRequests] alone. *)
Lemma whenInitializedThen_active (this : Client.ChannelClient) (id : Z) :
  Client.activeRequests (Client.whenInitializedThen this id).1
  = Client.activeRequests this.
Proof.
  unfold Client.whenInitializedThen. by destruct (Client.emitters this !! id).
Qed.

Lemma runAll_active (this : Client.ChannelClient) (ids : list Z) :
  Client.activeRequests (Client.runAll this ids).1 = Client.activeRequests this.
Proof.
  revert this. induction ids as [|id ids IH]; intros this; [done|].
  simpl. pose proof (whenInitializedThen_active this id) as H1.
  destruct (Client.whenInitializedThen this id) as [this1 out1].
  specialize (IH this1).
  destruct (Client.runAll this1 ids) as [this2 out2].
  simpl in *. congruence.
Qed.

Lemma setUninitializedPromise_active (this : Client.ChannelClient) (id : Z)
    (p : option TPromise) :
  Client.activeRequests (Client.setUninitializedPromise id p this)
  = Client.activeRequests this.
Proof.
  unfold Client.setUninitializedPromise.
  by destruct (Client.emitters this !! id).
Qed.

Lemma setListeners_active (this : Client.ChannelClient) (id : Z) (n : nat) :
  Client.activeRequests (Client.setListeners id n this)
  = Client.activeRequests this.
Proof.
  unfold Client.setListeners. by destruct (Client.emitters this !! id).
Qed.

Lemma subscribe_active then_sync (this : Client.ChannelClient) (id : Z) :
  Client.activeRequests (Client.subscribe then_sync this id).1
  = Client.activeRequests this.
Proof.
  unfold Client.subscribe.
  destruct (Client.emitters this !! id) as [l|]; [|done].
  destruct (Client.listeners l); simpl; [|by rewrite setListeners_active].
  unfold Client.onFirstListenerAdd.
  destruct (Client.state this); [|destruct then_sync]; simpl;
    rewrite ?setListeners_active, ?setUninitializedPromise_active; try done.
  pose proof (whenInitializedThen_active this id) as H1.
  destruct (Client.whenInitializedThen this id) as [this1 out1]. simpl.
  by rewrite setListeners_active, setUninitializedPromise_active.
Qed.

Lemma unsubscribe_active (this : Client.ChannelClient) (id : Z) :
  Client.activeRequests (Client.unsubscribe this id).1
  = Client.activeRequests this.
Proof.
  unfold Client.unsubscribe.
  destruct (Client.emitters this !! id) as [l|]; [|done].
  destruct (Client.listeners l) as [|[|n]]; simpl;
    rewrite ?setListeners_active; try done.
  unfold Client.onLastListenerRemove.
  destruct (Client.uninitializedPromise l); simpl;
    rewrite ?setUninitializedPromise_active; simpl;
    by rewrite setListeners_active.
Qed.

Lemma fireDidInitialize_active then_sync (this : Client.ChannelClient) :
  Client.activeRequests (Client.fireDidInitialize then_sync this).1
  = Client.activeRequests this.
Proof.
  unfold Client.fireDidInitialize.
  destruct then_sync; [|done]. by rewrite runAll_active.
Qed.

(** A step of the event streams keeps the disposables and the calls. *)
Lemma eventStep_tracked (this : Client.ChannelClient)
    (result : Client.ChannelClient * list Client.Effect) :
  eventStep this result →
  Client.activeRequests result.1 = Client.activeRequests this →
  tracked this → tracked result.1.
Proof.
  intros ((_ & _ & _ & _ & Hcalls) & _) Hactive.
  apply tracked_from; [done|].
  intros id. unfold isPending. by rewrite Hcalls.
Qed.

Lemma initialize_tracked then_sync (this : Client.ChannelClient) :
  tracked this → tracked (Client.initialize then_sync this).1.
Proof.
  intros Htracked. unfold Client.initialize.
  pose proof (fireDidInitialize_event then_sync (Client.setState Client.Idle this))
    as Hevent.
  pose proof (fireDidInitialize_active then_sync
                (Client.setState Client.Idle this)) as Hactive.
  pose proof (eventStep_tracked _ _ Hevent Hactive Htracked) as H1.
  destruct (Client.fireDidInitialize then_sync _) as [this1 out1].
  simpl in H1.
  destruct (Client.bufferedRequests this1) as [buffer|]; [|done].
  pose proof (flushAll_tracked this1 buffer H1) as H2.
  by destruct (Client.flushAll this1 buffer) as [this2 out2].
Qed.

Lemma onMessage_tracked then_sync (this : Client.ChannelClient)
    (response : Message) :
  tracked this → tracked (Client.onMessage then_sync this response).1.
Proof.
  intros Htracked. unfold Client.onMessage.
  destruct (negb (isResponse (IRawMessage.type response))); [done|].
  assert (tracked
            match IRawMessage.id response with
            | Some id =>
                match Client.handlers this !! id with
                | Some handler => Client.handle this handler id response
                | None => (this, [])
                end
            | None => (this, [])
            end.1) as Hhandled.
  { destruct (IRawMessage.id response) as [id|]; [|done].
    destruct (Client.handlers this !! id) as [h|]; [|done].
    by apply handle_tracked. }
  destruct (Client.state this); [|done].
  destruct response; try done. by apply initialize_tracked.
Qed.

Lemma reachable_live then_sync (inputs : list Client.Input) :
  live (Client.run then_sync Client.create inputs).1.
Proof.
  intros id (c & Hcall & Hpending).
  destruct (pending_phase then_sync inputs id c Hcall Hpending) as [_ H].
  by destruct (Client.state _); destruct H.
Qed.

Lemma live_unlistened (this : Client.ChannelClient) :
  live this → live (Client.setProtocolListener false this).
Proof. intros Hlive id Hid. by apply (Hlive id). Qed.

(** What [dispose] does to the calls of a client whose unsettled calls are
    all parked or in flight, and have their disposables. *)
Lemma dispose_live (this : Client.ChannelClient) :
  Client.protocolListener this = true →
  live this → tracked this →
  (∀ id, ¬ isPending (Client.dispose this).1 id)
  ∧ (∀ e, e ∈ (Client.dispose this).2
          ↔ ∃ id, isPending this id ∧ e ∈ cancelEffects (Client.state this) id)
  ∧ NoDup (Client.dispose this).2.
Proof.
  intros Hlistener Hlive Htracked. unfold Client.dispose. rewrite Hlistener.
  destruct (cancelAll_live (Client.setProtocolListener false this)
              (Client.activeRequests this) (live_unlistened this Hlive))
    as (_ & Hpending & Hout & Hnodup).
  destruct (Client.cancelAll _ _) as [this1 out1]. simpl in *.
  split; [|split; [|done]].
  - intros id Hid. apply Hpending in Hid as [Hid Hnotin].
    by apply Hnotin, Htracked.
  - intros e. rewrite Hout. split.
    + intros (id & _ & Hid & He). by exists id.
    + intros (id & Hid & He). exists id. split; [by apply Htracked | done].
Qed.

Lemma step_tracked then_sync (this : Client.ChannelClient) (i : Client.Input) :
  live this → tracked this → tracked (Client.step then_sync this i).1.
Proof.
  intros Hlive Htracked.
  destruct i as [cn n a|j|cn n a|j|j|response| |]; cbn [Client.step].
  - by apply requestPromise_tracked.
  - by apply cancel_tracked.
  - revert Htracked. by apply tracked_from.
  - apply (eventStep_tracked this); [apply subscribe_event| |done].
    apply subscribe_active.
  - apply (eventStep_tracked this); [apply unsubscribe_event| |done].
    apply unsubscribe_active.
  - destruct (Client.protocolListener this); [|done].
    by apply onMessage_tracked.
  - apply (eventStep_tracked this); [apply tick_event| |done].
    unfold Client.tick. by rewrite runAll_active.
  - destruct (Client.protocolListener this) eqn:Hlistener.
    + intros id Hid.
      destruct (dispose_live this Hlistener Hlive Htracked) as (Hnone & _).
      by destruct (Hnone id).
    + unfold Client.dispose. by rewrite Hlistener.
Qed.

Lemma reachable_tracked then_sync (inputs : list Client.Input) :
  tracked (Client.run then_sync Client.create inputs).1.
Proof.
  induction inputs as [|i inputs IH] using rev_ind.
  - intros id (c & Hcall & _). simpl in Hcall. by rewrite lookup_empty in Hcall.
  - rewrite client_run_app.
    pose proof (reachable_live then_sync inputs) as Hlive.
    destruct (Client.run then_sync Client.create inputs) as [this1 out1].
    simpl in *.
    pose proof (step_tracked then_sync this1 i Hlive IH) as H1.
    destruct (Client.step then_sync this1 i) as [this2 out2]. done.
Qed.

Lemma cancel_listener (this : Client.ChannelClient) (j : Z) :
  Client.protocolListener (Client.cancel this j).1
  = Client.protocolListener this.
Proof.
  unfold Client.cancel.
  destruct (Client.calls this !! j) as [c|]; [|done].
  destruct (Client.pending c); [|done].
  assert (Client.protocolListener (Client.onCancel this j c).1
          = Client.protocolListener this) as H1.
  { unfold Client.onCancel.
    by destruct (Client.buffered c), (Client.state this),
      (Client.flushedRequest c). }
  destruct (Client.onCancel this j c) as [this1 out1].
  destruct (settle_same this1 j (Client.Canceled j)) as (_ & _ & _ & _ & H2 & _).
  destruct (Client.settle this1 j (Client.Canceled j)) as [this2 out2].
  simpl in *. congruence.
Qed.

Lemma dispose_listener (this : Client.ChannelClient) :
  Client.protocolListener (Client.dispose this).1 = false.
Proof.
  unfold Client.dispose.
  destruct (Client.protocolListener this) eqn:Hlistener; [|done].
  assert (∀ ids this0,
            Client.protocolListener (Client.cancelAll this0 ids).1
            = Client.protocolListener this0) as Hall.
  { induction ids as [|j ids IH]; intros this0; [done|].
    simpl. pose proof (cancel_listener this0 j) as H1.
    destruct (Client.cancel this0 j) as [this1 out1].
    specialize (IH this1).
    destruct (Client.cancelAll this1 ids) as [this2 out2].
    simpl in *. congruence. }
  specialize (Hall (Client.activeRequests this)
                (Client.setProtocolListener false this)).
  by destruct (Client.cancelAll _ _) as [this1 out1].
Qed.

Lemma handle_listener (this : Client.ChannelClient) (h : Client.IHandler)
    (j : Z) (response : Message) :
  Client.protocolListener (Client.handle this h j response).1
  = Client.protocolListener this.
Proof.
  destruct h; simpl; [|done].
  destruct response; try done;
    try (match goal with
         | |- context [Client.settle ?t j ?e] =>
             by destruct (settle_same t j e) as (_ & _ & _ & _ & -> & _)
         end).
  unfold Client.progress.
  destruct (Client.calls this !! j) as [c|]; [|done].
  by destruct (Client.pending c).
Qed.

Lemma initialize_listener then_sync (this : Client.ChannelClient) :
  Client.protocolListener (Client.initialize then_sync this).1
  = Client.protocolListener this.
Proof.
  unfold Client.initialize.
  pose proof (fireDidInitialize_event then_sync (Client.setState Client.Idle this))
    as (_ & _ & Hlistener1 & _).
  destruct (Client.fireDidInitialize then_sync _) as [this1 out1].
  simpl in *.
  destruct (Client.bufferedRequests this1) as [buffer|]; [|done].
  destruct (flushAll_same this1 buffer) as (_ & _ & _ & Hlistener2 & _).
  destruct (Client.flushAll this1 buffer) as [this2 out2].
  simpl in *. congruence.
Qed.

(** Only [dispose] gives up the listener on the transport. *)
Lemma step_listener then_sync (this : Client.ChannelClient) (i : Client.Input) :
  i ≠ Client.Disposal →
  Client.protocolListener (Client.step then_sync this i).1
  = Client.protocolListener this.
Proof.
  intros Hi.
  destruct i as [cn n a|j|cn n a|j|j|response| |]; cbn [Client.step]; [..|done].
  - unfold Client.requestPromise, Client.bufferRequest. simpl.
    by destruct (Client.state this); [destruct (Client.bufferedRequests this)|].
  - apply cancel_listener.
  - done.
  - by destruct (subscribe_event then_sync this j) as (_ & _ & -> & _).
  - by destruct (unsubscribe_event this j) as (_ & _ & -> & _).
  - destruct (Client.protocolListener this) eqn:Hlistener; [|done].
    unfold Client.onMessage.
    destruct (negb (isResponse (IRawMessage.type response))); [done|].
    assert (Client.protocolListener
              (match IRawMessage.id response with
               | Some id =>
                   match Client.handlers this !! id with
                   | Some handler => Client.handle this handler id response
                   | None => (this, [])
                   end
               | None => (this, [])
               end).1 = true) as Hdispatch.
    { destruct (IRawMessage.id response) as [id|]; [|done].
      destruct (Client.handlers this !! id) as [h|]; [|done].
      by rewrite handle_listener. }
    destruct (Client.state this); [|done].
    destruct response; try done.
    by rewrite initialize_listener.
  - by destruct (tick_event this) as (_ & _ & -> & _).
Qed.

(** A ChannelClient listens on its transport until it is disposed of. *)
Lemma reachable_listener then_sync (inputs : list Client.Input) :
  Client.protocolListener (Client.run then_sync Client.create inputs).1 = true
  ↔ Client.Disposal ∉ inputs.
Proof.
  induction inputs as [|i inputs IH] using rev_ind.
  - split; [intros _; apply not_elem_of_nil | done].
  - rewrite client_run_app.
    destruct (Client.run then_sync Client.create inputs) as [this1 out1].
    cbn [Client.run fst] in *.
    pose proof (step_listener then_sync this1 i) as Hstep.
    pose proof (dispose_listener this1) as Hdispose.
    destruct (Client.step then_sync this1 i) as [this2 out2] eqn:Hi.
    simpl in *. rewrite not_elem_of_app, list_elem_of_singleton.
    destruct i; try (rewrite Hstep by done; rewrite IH; split;
                     [by intros ? | by intros [? _]]).
    cbn [Client.step] in Hi. rewrite Hi in Hdispose. simpl in Hdispose.
    rewrite Hdispose. split; [done | by intros [_ ?]].
Qed.

(** X11: [dispose] on a ChannelClient that has not been disposed of cancels
    every call that has not settled, whatever the client has been through
    since its construction: the caller of each sees its result canceled,
    once; the ChannelClient sends one [RequestPromiseCancel] for each, if
    [ResponseInitialize] has arrived, and nothing before that; afterwards no
    result is left unsettled, and no message of the transport is listened
    to.  On a ChannelClient that has been disposed of, [dispose] throws at
    its first statement: nothing is cancelled, and the calls made since the
    first [dispose] stay as they are. *)
Theorem dispose_cancels_every_pending_call then_sync
    (inputs : list Client.Input) :
  let this := (Client.run then_sync Client.create inputs).1 in
  (Client.Disposal ∉ inputs →
     (∀ e, e ∈ (Client.dispose this).2
           ↔ ∃ id, isPending this id
                   ∧ e ∈ cancelEffects (Client.state this) id)
     ∧ NoDup (Client.dispose this).2
     ∧ (∀ id, ¬ isPending (Client.dispose this).1 id)
     ∧ Client.activeRequests (Client.dispose this).1 = []
     ∧ ∀ m, Client.step then_sync (Client.dispose this).1 (Client.Receive m)
            = ((Client.dispose this).1, []))
  ∧ (Client.Disposal ∈ inputs →
     ∃ err, Client.dispose this = (this, [Client.Uncaught err])).
Proof.
  intros this. split.
  - intros Hnone. apply (reachable_listener then_sync) in Hnone.
    fold this in Hnone.
    destruct (dispose_live this Hnone (reachable_live then_sync inputs)
                (reachable_tracked then_sync inputs)) as (Hsettled & Hout & Hnodup).
    split; [done|]. split; [done|]. split; [done|]. split.
    + unfold Client.dispose. rewrite Hnone. by destruct (Client.cancelAll _ _).
    + intros m. cbn [Client.step]. by rewrite dispose_listener.
  - intros Hdisposed.
    destruct (Client.protocolListener this) eqn:Hlistener.
    + by apply (reachable_listener then_sync) in Hlistener.
    + unfold Client.dispose. rewrite Hlistener. by eexists.
Qed.

(** *** After disposal *)

Lemma cancel_unprompted (this : Client.ChannelClient) (j : Z) :
  Forall unprompted (Client.cancel this j).2.
Proof.
  unfold Client.cancel.
  destruct (Client.calls this !! j) as [c|]; [|constructor].
  destruct (Client.pending c); [|constructor].
  assert (Forall unprompted (Client.onCancel this j c).2) as H1.
  { unfold Client.onCancel.
    destruct (Client.buffered c), (Client.state this),
      (Client.flushedRequest c); by repeat constructor. }
  destruct (Client.onCancel this j c) as [this1 out1].
  pose proof (settle_out this1 j (Client.Canceled j)) as H2.
  destruct (Client.settle this1 j (Client.Canceled j)) as [this2 out2].
  simpl in *. apply Forall_app. split; [done|].
  destruct H2 as [-> | ->]; by repeat constructor.
Qed.

Lemma cancelAll_unprompted (this : Client.ChannelClient) (ids : list Z) :
  Forall unprompted (Client.cancelAll this ids).2.
Proof.
  revert this. induction ids as [|j ids IH]; intros this; [constructor|].
  simpl. pose proof (cancel_unprompted this j) as H1.
  destruct (Client.cancel this j) as [this1 out1].
  specialize (IH this1).
  destruct (Client.cancelAll this1 ids) as [this2 out2].
  apply Forall_app. by split.
Qed.

Lemma eventStep_unprompted (this : Client.ChannelClient)
    (result : Client.ChannelClient * list Client.Effect) :
  eventStep this result →
  Forall unprompted result.2
  ∧ Client.protocolListener result.1 = Client.protocolListener this.
Proof.
  intros (_ & _ & Hlistener & Hout). split; [|done].
  eapply Forall_impl; [exact Hout|]. by intros e (m & -> & _).
Qed.

Lemma step_unprompted then_sync (this : Client.ChannelClient) (i : Client.Input) :
  Client.protocolListener this = false →
  Forall unprompted (Client.step then_sync this i).2
  ∧ Client.protocolListener (Client.step then_sync this i).1 = false.
Proof.
  intros Hlistener.
  destruct i as [cn n a|j|cn n a|j|j|response| |]; cbn [Client.step].
  - unfold Client.requestPromise, Client.bufferRequest. simpl.
    destruct (Client.state this);
      [destruct (Client.bufferedRequests this)|]; by repeat constructor.
  - split; [apply cancel_unprompted | by rewrite cancel_listener].
  - by repeat constructor.
  - destruct (eventStep_unprompted _ _ (subscribe_event then_sync this j)).
    split; [done | congruence].
  - destruct (eventStep_unprompted _ _ (unsubscribe_event this j)).
    split; [done | congruence].
  - rewrite Hlistener. by repeat constructor.
  - destruct (eventStep_unprompted _ _ (tick_event this)).
    split; [done | congruence].
  - split; [|apply dispose_listener].
    unfold Client.dispose. rewrite Hlistener. by repeat constructor.
Qed.

(** X12: [dispose] gives up the listener on the transport and nothing brings it
    back: whatever is done to a disposed ChannelClient and whatever its peer
    sends, no result completes, fails or reports progress, and no event
    stream fires.  What is left are the client's own doings: calls are still
    sent, results can still be canceled. *)
Theorem disposed_client_hears_nothing then_sync (this : Client.ChannelClient)
    (inputs : list Client.Input) :
  Client.protocolListener this = false →
  Forall unprompted (Client.run then_sync this inputs).2
  ∧ Client.protocolListener (Client.run then_sync this inputs).1 = false.
Proof.
  revert this. induction inputs as [|i inputs IH]; intros this Hlistener.
  - by split; [constructor|].
  - cbn [Client.run].
    destruct (step_unprompted then_sync this i Hlistener) as [Hout1 Hl1].
    destruct (Client.step then_sync this i) as [this1 out1].
    destruct (IH this1 Hl1) as [Hout2 Hl2].
    destruct (Client.run then_sync this1 inputs) as [this2 out2].
    split; [|done]. apply Forall_app. by split.
Qed.

Lemma disposed_client_hears_nothing_witness :
  Forall unprompted
    (Client.run true disposedClient
       [Client.Receive (MResponsePromiseSuccess 0 VNull);
        Client.DoCall "files" "stat" VNull;
        Client.Receive (MResponsePromiseSuccess 1 VNull)]).2
  ∧ Client.protocolListener
      (Client.run true disposedClient
         [Client.Receive (MResponsePromiseSuccess 0 VNull);
          Client.DoCall "files" "stat" VNull;
          Client.Receive (MResponsePromiseSuccess 1 VNull)]).1 = false.
Proof.
  apply (disposed_client_hears_nothing true disposedClient
           [Client.Receive (MResponsePromiseSuccess 0 VNull);
            Client.DoCall "files" "stat" VNull;
            Client.Receive (MResponsePromiseSuccess 1 VNull)]).
  reflexivity.
Defined.

(** ** ChannelClient: the order of the calls on the transport *)

Lemma requestedIds_app (out out' : list Client.Effect) :
  requestedIds (out ++ out') = requestedIds out ++ requestedIds out'.
Proof.
  unfold requestedIds, promiseRequests.
  by rewrite clientSent_app, filter_app, omap_app.
Qed.

Lemma requestedIds_none (out out' : list Client.Effect) :
  promiseRequests (clientSent out') = [] →
  requestedIds (out ++ out') = requestedIds out.
Proof.
  intros Hnone. rewrite requestedIds_app. unfold requestedIds at 2.
  rewrite Hnone. apply app_nil_r.
Qed.

(** A step that sends no call and keeps the buffer. *)
Lemma ordered_same (this this' : Client.ChannelClient)
    (out out' : list Client.Effect) :
  Client.state this' = Client.state this →
  Client.bufferedRequests this' = Client.bufferedRequests this →
  Client.lastRequestId this ≤ Client.lastRequestId this' →
  promiseRequests (clientSent out') = [] →
  ordered this out → ordered this' (out ++ out').
Proof.
  intros Hstate Hbuffer Hlast Hnone (Hsorted & Hbelow & Hidle).
  unfold ordered, bufferedIds in *.
  rewrite (requestedIds_none out out' Hnone), Hstate, Hbuffer.
  split; [done|]. split; [|done].
  eapply Forall_impl; [exact Hbelow|]. simpl. lia.
Qed.

Lemma removeRequest_elem (j x : Z) (buffer : list Client.IRequest) :
  x ∈ omap Client.requestId (Client.removeRequest j buffer) →
  x ∈ omap Client.requestId buffer.
Proof.
  induction buffer as [|r buffer IH]; simpl; [done|].
  destruct (decide (Client.requestId r = Some j)) as [Hr|Hr].
  - rewrite Hr. intros ?. by right.
  - simpl. destruct (Client.requestId r) as [y|]; [|done].
    rewrite !elem_of_cons. intros [-> | ?]; [by left | right; by apply IH].
Qed.

Lemma removeRequest_sorted (j : Z) (buffer : list Client.IRequest) :
  StronglySorted Z.lt (omap Client.requestId buffer) →
  StronglySorted Z.lt (omap Client.requestId (Client.removeRequest j buffer)).
Proof.
  induction buffer as [|r buffer IH]; simpl; [done|].
  destruct (decide (Client.requestId r = Some j)) as [Hr|Hr].
  - rewrite Hr. by intros [_ ?]%StronglySorted_cons.
  - simpl. destruct (Client.requestId r) as [y|]; [|done].
    intros [Hall Hsorted]%StronglySorted_cons.
    apply StronglySorted_cons. split; [|by apply IH].
    apply Forall_forall. intros x Hx.
    apply removeRequest_elem in Hx.
    by apply (proj1 (Forall_forall _ _) Hall).
Qed.

(** Taking a request out of the buffer keeps the order. *)
Lemma ordered_removed (this this' : Client.ChannelClient)
    (out out' : list Client.Effect) (j : Z) :
  Client.state this' = Client.state this →
  Client.bufferedRequests this'
  = Client.removeRequest j <$> Client.bufferedRequests this →
  Client.lastRequestId this' = Client.lastRequestId this →
  promiseRequests (clientSent out') = [] →
  ordered this out → ordered this' (out ++ out').
Proof.
  intros Hstate Hbuffer Hlast Hnone (Hsorted & Hbelow & Hidle).
  unfold ordered, bufferedIds in *.
  rewrite (requestedIds_none out out' Hnone), Hstate, Hbuffer, Hlast.
  destruct (Client.bufferedRequests this) as [buffer|]; simpl in *; [|done].
  apply StronglySorted_app in Hsorted as (Hacross & Hsent & Hbuffered).
  apply Forall_app in Hbelow as [Hbelow1 Hbelow2].
  split; [|split].
  - apply StronglySorted_app. split; [|split; [done|]].
    + intros x y Hx Hy. apply removeRequest_elem in Hy. by apply Hacross.
    + by apply removeRequest_sorted.
  - apply Forall_app. split; [done|].
    apply Forall_forall. intros x Hx. apply removeRequest_elem in Hx.
    by apply (proj1 (Forall_forall _ _) Hbelow2).
  - intros H. by specialize (Hidle H).
Qed.

Lemma cancel_buffer (this : Client.ChannelClient) (j : Z) :
  (Client.bufferedRequests (Client.cancel this j).1
   = Client.bufferedRequests this
   ∨ Client.bufferedRequests (Client.cancel this j).1
     = Client.removeRequest j <$> Client.bufferedRequests this)
  ∧ Client.lastRequestId (Client.cancel this j).1 = Client.lastRequestId this
  ∧ promiseRequests (clientSent (Client.cancel this j).2) = [].
Proof.
  unfold Client.cancel.
  destruct (Client.calls this !! j) as [c|]; [|by split; [left|]].
  destruct (Client.pending c); [|by split; [left|]].
  assert ((Client.bufferedRequests (Client.onCancel this j c).1
           = Client.bufferedRequests this
           ∨ Client.bufferedRequests (Client.onCancel this j c).1
             = Client.removeRequest j <$> Client.bufferedRequests this)
          ∧ Client.lastRequestId (Client.onCancel this j c).1
            = Client.lastRequestId this
          ∧ promiseRequests (clientSent (Client.onCancel this j c).2) = [])
    as (H1 & H2 & H3).
  { unfold Client.onCancel.
    destruct (Client.buffered c), (Client.state this),
      (Client.flushedRequest c); simpl; by split; [left + right|]. }
  destruct (Client.onCancel this j c) as [this1 out1].
  destruct (settle_same this1 j (Client.Canceled j)) as (_ & H4 & _ & H5 & _).
  pose proof (settle_out this1 j (Client.Canceled j)) as H6.
  destruct (Client.settle this1 j (Client.Canceled j)) as [this2 out2].
  simpl in *. rewrite H4, H5. split; [done|]. split; [done|].
  rewrite clientSent_app. unfold promiseRequests in *.
  rewrite filter_app, H3. by destruct H6 as [-> | ->].
Qed.

Lemma cancel_ordered (this : Client.ChannelClient) (out : list Client.Effect)
    (j : Z) :
  ordered this out →
  ordered (Client.cancel this j).1 (out ++ (Client.cancel this j).2).
Proof.
  destruct (cancel_buffer this j) as ([Hbuffer | Hbuffer] & Hlast & Hnone).
  - apply ordered_same; try done; [apply cancel_state | lia].
  - apply (ordered_removed _ _ _ _ j); try done. apply cancel_state.
Qed.

Lemma cancelAll_ordered (this : Client.ChannelClient) (out : list Client.Effect)
    (ids : list Z) :
  ordered this out →
  ordered (Client.cancelAll this ids).1 (out ++ (Client.cancelAll this ids).2).
Proof.
  revert this out. induction ids as [|j ids IH]; intros this out Hordered.
  - simpl. by rewrite app_nil_r.
  - simpl. pose proof (cancel_ordered this out j Hordered) as H1.
    destruct (Client.cancel this j) as [this1 out1].
    specialize (IH this1 (out ++ out1) H1).
    destruct (Client.cancelAll this1 ids) as [this2 out2].
    simpl in *. by rewrite app_assoc.
Qed.

Lemma StronglySorted_snoc (ids : list Z) (id : Z) :
  StronglySorted Z.lt ids → Forall (λ x, x < id) ids →
  StronglySorted Z.lt (ids ++ [id]).
Proof.
  intros Hsorted Hbelow. apply StronglySorted_app_2; [|done|by repeat constructor].
  intros x y Hx Hy. apply list_elem_of_singleton in Hy as ->.
  by apply (proj1 (Forall_forall _ _) Hbelow).
Qed.

Lemma requestedIds_send (id : Z) (channelName name : string) (arg : Value) :
  requestedIds (Client.send (MRequestPromise id channelName name arg)) = [id].
Proof.
  unfold requestedIds, promiseRequests, Client.send, clientSent.
  cbn [omap list_omap]. by rewrite filter_cons, decide_True.
Qed.

Lemma requestPromise_ordered (this : Client.ChannelClient)
    (out : list Client.Effect) (channelName name : string) (arg : Value) :
  ordered this out →
  ordered (Client.requestPromise this channelName name arg).1
    (out ++ (Client.requestPromise this channelName name arg).2).
Proof.
  intros (Hsorted & Hbelow & Hidle).
  unfold Client.requestPromise, Client.bufferRequest, Client.doRequest.
  simpl. destruct (Client.state this) eqn:Hstate.
  - destruct (Client.bufferedRequests this) as [buffer|] eqn:Hbuffer.
    + unfold ordered, bufferedIds in *. simpl. rewrite Hbuffer in *.
      rewrite app_nil_r, Hstate, omap_app. simpl.
      unfold Client.requestId. simpl. rewrite app_assoc.
      split; [by apply StronglySorted_snoc|]. split; [|done].
      apply Forall_app. split; [|repeat constructor; lia].
      eapply Forall_impl; [exact Hbelow|]. simpl. lia.
    + apply (ordered_same this); try done. simpl. lia.
  - unfold ordered, bufferedIds in *. simpl.
    rewrite (Hidle eq_refl) in *. rewrite Hstate.
    rewrite requestedIds_app, app_nil_r in *.
    rewrite requestedIds_send.
    split; [by apply StronglySorted_snoc|]. split; [|done].
    apply Forall_app. split; [|repeat constructor; lia].
    eapply Forall_impl; [exact Hbelow|]. simpl. lia.
Qed.

Lemma handle_ordered (this : Client.ChannelClient) (out : list Client.Effect)
    (h : Client.IHandler) (j : Z) (response : Message) :
  ordered this out →
  ordered (Client.handle this h j response).1
    (out ++ (Client.handle this h j response).2).
Proof.
  assert (Client.bufferedRequests (Client.handle this h j response).1
          = Client.bufferedRequests this
          ∧ Client.lastRequestId (Client.handle this h j response).1
            = Client.lastRequestId this) as [Hbuffer Hlast].
  { destruct h; simpl; [|done].
    destruct response; try done;
      try (match goal with
           | |- context [Client.settle ?t j ?e] =>
               by destruct (settle_same t j e) as (_ & -> & _ & -> & _)
           end).
    unfold Client.progress.
    destruct (Client.calls this !! j) as [c|]; [|done].
    by destruct (Client.pending c). }
  apply ordered_same; try done; [apply handle_state | lia|].
  by rewrite handle_sent.
Qed.

Lemma initialize_ordered then_sync (this : Client.ChannelClient)
    (out : list Client.Effect) :
  wf this → Client.state this = Client.Uninitialized →
  ordered this out →
  ordered (Client.initialize then_sync this).1
    (out ++ (Client.initialize then_sync this).2).
Proof.
  intros Hwf Hstate (Hsorted & Hbelow & _).
  destruct (proj1 Hwf Hstate) as [buffer Hbuffer].
  destruct (initialize_out then_sync this buffer Hwf Hbuffer) as [Hout Hnone].
  assert (Client.lastRequestId (Client.initialize then_sync this).1
          = Client.lastRequestId this) as Hlast.
  { unfold Client.initialize.
    pose proof (fireDidInitialize_event then_sync
                  (Client.setState Client.Idle this))
      as ((_ & _ & _ & Hlast1 & _) & _).
    destruct (Client.fireDidInitialize then_sync _) as [this1 out1].
    simpl in *.
    destruct (Client.bufferedRequests this1) as [buffer1|]; [|done].
    destruct (flushAll_same this1 buffer1) as (_ & _ & Hlast2 & _).
    destruct (Client.flushAll this1 buffer1) as [this2 out2].
    simpl in *. congruence. }
  unfold ordered, bufferedIds in *.
  rewrite Hnone, Hlast, requestedIds_app, Hbuffer in *.
  unfold requestedIds at 2 4. rewrite Hout.
  assert (omap IRawMessage.id (Client.raw <$> buffer)
          = omap Client.requestId buffer) as ->.
  { clear. induction buffer as [|r buffer IH]; [done|].
    rewrite fmap_cons. cbn [omap list_omap]. fold (omap Client.requestId buffer).
    fold (omap IRawMessage.id (Client.raw <$> buffer)). by rewrite IH. }
  by rewrite !app_nil_r.
Qed.

Lemma onMessage_ordered then_sync (this : Client.ChannelClient)
    (out : list Client.Effect) (response : Message) :
  wf this → ordered this out →
  ordered (Client.onMessage then_sync this response).1
    (out ++ (Client.onMessage then_sync this response).2).
Proof.
  intros Hwf Hordered. unfold Client.onMessage.
  destruct (negb (isResponse (IRawMessage.type response)));
    [by rewrite app_nil_r|].
  assert (ordered
            (match IRawMessage.id response with
             | Some j =>
                 match Client.handlers this !! j with
                 | Some handler => Client.handle this handler j response
                 | None => (this, [])
                 end
             | None => (this, [])
             end).1
            (out ++ (match IRawMessage.id response with
                     | Some j =>
                         match Client.handlers this !! j with
                         | Some handler => Client.handle this handler j response
                         | None => (this, [])
                         end
                     | None => (this, [])
                     end).2)) as Hdispatch.
  { destruct (IRawMessage.id response) as [j|]; [|by rewrite app_nil_r].
    destruct (Client.handlers this !! j) as [h|]; [|by rewrite app_nil_r].
    by apply handle_ordered. }
  destruct (Client.state this) eqn:Hstate; [|done].
  destruct response; try done.
  by apply initialize_ordered.
Qed.

Lemma eventStep_ordered (this : Client.ChannelClient)
    (result : Client.ChannelClient * list Client.Effect)
    (out : list Client.Effect) :
  wf this → eventStep this result →
  ordered this out → ordered result.1 (out ++ result.2).
Proof.
  intros Hwf Hstep.
  pose proof (eventStep_promiseRequests this result Hwf Hstep) as Hnone.
  destruct Hstep as ((Hstate & Hbuffer & _ & Hlast & _) & _).
  apply ordered_same; try done. lia.
Qed.

Lemma step_ordered then_sync (this : Client.ChannelClient)
    (out : list Client.Effect) (i : Client.Input) :
  wf this → ordered this out →
  ordered (Client.step then_sync this i).1
    (out ++ (Client.step then_sync this i).2).
Proof.
  intros Hwf Hordered.
  destruct i as [cn n a|j|cn n a|j|j|response| |]; cbn [Client.step].
  - by apply requestPromise_ordered.
  - by apply cancel_ordered.
  - apply (ordered_same this); try done. simpl. lia.
  - apply (eventStep_ordered this); [done | apply subscribe_event | done].
  - apply (eventStep_ordered this); [done | apply unsubscribe_event | done].
  - destruct (Client.protocolListener this); [|by rewrite app_nil_r].
    by apply onMessage_ordered.
  - apply (eventStep_ordered this); [done | apply tick_event | done].
  - unfold Client.dispose.
    destruct (Client.protocolListener this);
      [|apply (ordered_same this); try done; simpl; lia].
    assert (ordered (Client.setProtocolListener false this) out) as H0 by done.
    pose proof (cancelAll_ordered _ out (Client.activeRequests this) H0) as H1.
    by destruct (Client.cancelAll _ _) as [this1 out1].
Qed.

Lemma run_ordered then_sync (this : Client.ChannelClient)
    (out : list Client.Effect) (inputs : list Client.Input) :
  wf this → ordered this out →
  ordered (Client.run then_sync this inputs).1
    (out ++ (Client.run then_sync this inputs).2).
Proof.
  revert this out. induction inputs as [|i inputs IH];
    intros this out Hwf Hordered.
  - simpl. by rewrite app_nil_r.
  - cbn [Client.run].
    pose proof (step_ordered then_sync this out i Hwf Hordered) as H1.
    destruct (step_ok then_sync this i 0 Hwf) as [Hwf1 _].
    destruct (Client.step then_sync this i) as [this1 out1].
    specialize (IH this1 (out ++ out1) Hwf1 H1).
    destruct (Client.run then_sync this1 inputs) as [this2 out2].
    simpl in *. by rewrite app_assoc.
Qed.

(** X13: Calls reach the transport in the order they were made: whatever a
    ChannelClient goes through from its construction on (calls made before and
    after [ResponseInitialize], cancellations, event streams, disposal), the
    ids of the [RequestPromise] messages it sends grow strictly, and each is
    an id the client has allocated. *)
Theorem calls_are_sent_in_order then_sync (inputs : list Client.Input) :
  StronglySorted Z.lt
    (requestedIds (Client.run then_sync Client.create inputs).2)
  ∧ Forall (λ id, id < Client.lastRequestId
                         (Client.run then_sync Client.create inputs).1)
      (requestedIds (Client.run then_sync Client.create inputs).2).
Proof.
  assert (ordered Client.create []) as H0.
  { split; [constructor|]. by split; [constructor|]. }
  destruct (run_ordered then_sync Client.create [] inputs wf_create H0)
    as (Hsorted & Hbelow & _).
  simpl in *.
  apply StronglySorted_app_1_l in Hsorted.
  apply Forall_app in Hbelow as [Hbelow _]. done.
Qed.

(** ** IPCServer: connections *)

Lemma forward_isolated then_sync (this : IPC.IPCServer) (p : nat) (op : IPC.Routed) :
  Forall (λ e, protocolOf e = p) (IPC.forward then_sync this p op).2
  ∧ (∀ q, q ≠ p →
       IPC.connections (IPC.forward then_sync this p op).1 !! q
       = IPC.connections this !! q)
  ∧ IPC.channels (IPC.forward then_sync this p op).1 = IPC.channels this.
Proof.
  unfold IPC.forward.
  destruct (IPC.connections this !! p) as [[|id server client|]|];
    try by repeat split.
  destruct (IPC.delayed then_sync client op) as [client' out].
  simpl. split; [|split; [|done]].
  - apply Forall_fmap. by apply Forall_true.
  - intros q Hne. by rewrite list_lookup_insert_ne.
Qed.

Lemma forwardAll_isolated then_sync (this : IPC.IPCServer) (p : nat)
    (ops : list IPC.Routed) :
  Forall (λ e, protocolOf e = p) (IPC.forwardAll then_sync this p ops).2
  ∧ (∀ q, q ≠ p →
       IPC.connections (IPC.forwardAll then_sync this p ops).1 !! q
       = IPC.connections this !! q)
  ∧ IPC.channels (IPC.forwardAll then_sync this p ops).1 = IPC.channels this.
Proof.
  revert this. induction ops as [|op ops IH]; intros this; [by repeat split|].
  simpl. destruct (forward_isolated then_sync this p op) as (Hout1 & Hother1 & Hch1).
  destruct (IPC.forward then_sync this p op) as [this1 out1].
  destruct (IH this1) as (Hout2 & Hother2 & Hch2).
  destruct (IPC.forwardAll then_sync this1 p ops) as [this2 out2].
  simpl in *. split; [|split; [|congruence]].
  - apply Forall_app. by split.
  - intros q Hne. by rewrite Hother2, Hother1.
Qed.

Lemma onServer_isolated then_sync (this : IPC.IPCServer) (p : nat)
    (i : Server.Input) :
  Forall (λ e, protocolOf e = p) (IPC.onServer then_sync this p i).2
  ∧ (∀ q, q ≠ p →
       IPC.connections (IPC.onServer then_sync this p i).1 !! q
       = IPC.connections this !! q)
  ∧ IPC.channels (IPC.onServer then_sync this p i).1 = IPC.channels this.
Proof.
  unfold IPC.onServer.
  destruct (IPC.connections this !! p) as [[|id server client|]|];
    try by repeat split.
  destruct (Server.step then_sync server i) as [server' out].
  simpl. split; [|split; [|done]].
  - apply Forall_fmap. by apply Forall_true.
  - intros q Hne. by rewrite list_lookup_insert_ne.
Qed.

Lemma onClient_isolated then_sync (this : IPC.IPCServer) (p : nat)
    (i : Client.Input) :
  Forall (λ e, protocolOf e = p) (IPC.onClient then_sync this p i).2
  ∧ (∀ q, q ≠ p →
       IPC.connections (IPC.onClient then_sync this p i).1 !! q
       = IPC.connections this !! q)
  ∧ IPC.channels (IPC.onClient then_sync this p i).1 = IPC.channels this.
Proof.
  unfold IPC.onClient.
  destruct (IPC.connections this !! p) as [[|id server client|]|];
    try by repeat split.
  destruct (Client.step then_sync client i) as [client' out].
  simpl. split; [|split; [|done]].
  - apply Forall_fmap. by apply Forall_true.
  - intros q Hne. by rewrite list_lookup_insert_ne.
Qed.

(** X14: The connections of an IPCServer do not mix: what a transport delivers,
    what the channels and the callers of one connection do, and its
    disconnection, have effects on that transport only, leave the
    ChannelServer and the ChannelClient of every other connection as they
    are, and do not touch the registry of channels. *)
Theorem connections_are_isolated then_sync (this : IPC.IPCServer)
    (i : IPC.Input) (p : nat) :
  addressee i = Some p →
  Forall (λ e, protocolOf e = p) (IPC.step then_sync this i).2
  ∧ (∀ q, q ≠ p →
       IPC.connections (IPC.step then_sync this i).1 !! q
       = IPC.connections this !! q)
  ∧ IPC.channels (IPC.step then_sync this i).1 = IPC.channels this.
Proof.
  intros Hp.
  destruct i as [|protocol m|protocol|channelName channel|router op
                |protocol id n|protocol id data|protocol id|protocol id
                |protocol id|protocol|]; simplify_eq/=;
    try apply onServer_isolated; try apply onClient_isolated.
  - unfold IPC.onMessage.
    destruct (IPC.connections this !! p) as [[|id server client|]|];
      try by repeat split.
    + unfold IPC.onFirstMessage. simpl.
      match goal with
      | |- context [IPC.forwardAll _ ?t p ?ops] =>
          destruct (forwardAll_isolated then_sync t p ops)
            as (Hout & Hother & Hch);
          destruct (IPC.forwardAll then_sync t p ops) as [this2 out2]
      end.
      simpl in *. split; [|split; [|done]].
      * by repeat constructor.
      * intros q Hne. by rewrite Hother, list_lookup_insert_ne.
    + destruct m as [hello|m]; [by repeat split|].
      destruct (Server.step then_sync server (Server.Receive m)) as [server' out].
      destruct (Client.step then_sync client (Client.Receive m)) as [client' out'].
      simpl. split; [|split; [|done]].
      * apply Forall_app. split; apply Forall_fmap; by apply Forall_true.
      * intros q Hne. by rewrite list_lookup_insert_ne.
  - unfold IPC.onDisconnect.
    destruct (IPC.connections this !! p) as [[|id server client|]|];
      try by repeat split.
    destruct (Server.dispose server) as [server' out].
    destruct (Client.dispose client) as [client' out'].
    simpl. split; [|split; [|done]].
    + apply Forall_app. split; apply Forall_fmap; by apply Forall_true.
    + intros q Hne. by rewrite list_lookup_insert_ne.
Qed.

Lemma connections_are_isolated_witness :
  Forall (λ e, protocolOf e = 0%nat)
    (IPC.step true twoClients
       (IPC.Deliver 0 (IPC.Protocol (MRequestPromise 7 "files" "stat" VNull)))).2
  ∧ (∀ q, q ≠ 0%nat →
       IPC.connections
         (IPC.step true twoClients
            (IPC.Deliver 0
               (IPC.Protocol (MRequestPromise 7 "files" "stat" VNull)))).1 !! q
       = IPC.connections twoClients !! q)
  ∧ IPC.channels
      (IPC.step true twoClients
         (IPC.Deliver 0
            (IPC.Protocol (MRequestPromise 7 "files" "stat" VNull)))).1
    = IPC.channels twoClients.
Proof.
  apply (connections_are_isolated true twoClients
           (IPC.Deliver 0
              (IPC.Protocol (MRequestPromise 7 "files" "stat" VNull))) 0).
  reflexivity.
Defined.

(** *** The first message of a connection *)

Lemma setConnection_twice (this : IPC.IPCServer) (p : nat)
    (c c' : IPC.Connection) :
  IPC.setConnection p c' (IPC.setConnection p c this) = IPC.setConnection p c' this.
Proof. unfold IPC.setConnection. simpl. by rewrite list_insert_insert_eq. Qed.

(** A call or a listen made through a delayed channel on a ChannelClient
    that is not initialized sends nothing: a call is put at the end of the
    buffer; the stream of a listen gets the relay for a listener, and waits
    for [onDidInitialize]. *)
Lemma delayed_parks then_sync (client : Client.ChannelClient) (op : IPC.Routed)
    (buffer : list Client.IRequest) :
  Client.state client = Client.Uninitialized →
  Client.bufferedRequests client = Some buffer →
  let next := Client.lastRequestId client in
  ∃ client',
    IPC.delayed then_sync client op = (client', [])
    ∧ Client.state client' = Client.Uninitialized
    ∧ Client.bufferedRequests client' = Some (buffer ++ parked next [op])
    ∧ Client.lastRequestId client' = next + 1
    ∧ Client.onDidInitialize client'
      = Client.onDidInitialize client ++ listened next [op]
    ∧ Client.continuations client' = Client.continuations client
    ∧ Client.protocolListener client' = Client.protocolListener client
    ∧ (∀ j, j ≠ next → stored client' j = stored client j)
    ∧ omap (stored client') (listened next [op]) = listens next [op].
Proof.
  intros Hstate Hbuffer next. unfold IPC.delayed.
  destruct op as [cn n a|cn n a].
  - unfold Client.requestPromise, Client.bufferRequest. simpl.
    rewrite Hstate. simpl. rewrite Hbuffer. simpl.
    eexists. split; [reflexivity|]. simpl.
    by rewrite Hstate, app_nil_r.
  - unfold Client.requestEvent, Client.subscribe. simpl.
    rewrite lookup_insert_eq. simpl.
    unfold Client.onFirstListenerAdd. simpl. rewrite Hstate.
    unfold Client.setUninitializedPromise. simpl. rewrite lookup_insert_eq.
    unfold Client.setListeners. simpl. rewrite lookup_insert_eq. simpl.
    eexists. split; [reflexivity|]. simpl.
    rewrite Hstate, Hbuffer, app_nil_r.
    do 6 (split; [done|]). unfold stored. simpl. split.
    + intros j Hj. fold next. by rewrite !lookup_insert_ne.
    + fold next. by rewrite lookup_insert_eq.
Qed.

Lemma forwardAll_parks then_sync (this : IPC.IPCServer) (p : nat)
    (ops : list IPC.Routed) (id : string) (server : Server.ChannelServer)
    (client : Client.ChannelClient) (buffer : list Client.IRequest) :
  IPC.connections this !! p = Some (IPC.Registered id server client) →
  Client.state client = Client.Uninitialized →
  Client.bufferedRequests client = Some buffer →
  let next := Client.lastRequestId client in
  ∃ client',
    IPC.forwardAll then_sync this p ops
    = (IPC.setConnection p (IPC.Registered id server client') this, [])
    ∧ Client.state client' = Client.Uninitialized
    ∧ Client.bufferedRequests client' = Some (buffer ++ parked next ops)
    ∧ Client.lastRequestId client' = next + Z.of_nat (length ops)
    ∧ Client.onDidInitialize client'
      = Client.onDidInitialize client ++ listened next ops
    ∧ Client.continuations client' = Client.continuations client
    ∧ Client.protocolListener client' = Client.protocolListener client
    ∧ (∀ j, j < next → stored client' j = stored client j)
    ∧ omap (stored client') (listened next ops) = listens next ops.
Proof.
  revert this client buffer.
  induction ops as [|op ops IH]; intros this client buffer Hp Hstate Hbuffer next.
  - exists client. simpl. rewrite !app_nil_r, Z.add_0_r.
    split; [|done]. f_equal. destruct this as [a b c d]. unfold IPC.setConnection.
    simpl in *. f_equal. symmetry. by apply list_insert_id.
  - cbn [IPC.forwardAll]. unfold IPC.forward at 1. rewrite Hp.
    destruct (delayed_parks then_sync client op buffer Hstate Hbuffer)
      as (client1 & -> & Hstate1 & Hbuffer1 & Hlast1 & Hdid1 & Hcont1
          & Hlistener1 & Hstored1 & Hlistens1).
    fold next in Hbuffer1, Hlast1, Hdid1, Hstored1, Hlistens1.
    assert (IPC.connections
              (IPC.setConnection p (IPC.Registered id server client1) this) !! p
            = Some (IPC.Registered id server client1)) as Hp1.
    { simpl. apply list_lookup_insert_eq. by eapply lookup_lt_Some. }
    destruct (IH _ client1 _ Hp1 Hstate1 Hbuffer1)
      as (client2 & -> & Hstate2 & Hbuffer2 & Hlast2 & Hdid2 & Hcont2
          & Hlistener2 & Hstored2 & Hlistens2).
    rewrite Hlast1 in Hbuffer2, Hlast2, Hdid2, Hstored2, Hlistens2.
    exists client2. rewrite setConnection_twice.
    assert (parked next (op :: ops) = parked next [op] ++ parked (next + 1) ops)
      as -> by (by destruct op).
    assert (listened next (op :: ops)
            = listened next [op] ++ listened (next + 1) ops)
      as -> by (by destruct op).
    assert (listens next (op :: ops)
            = listens next [op] ++ listens (next + 1) ops)
      as -> by (by destruct op).
    split; [done|]. split; [done|].
    split; [by rewrite Hbuffer2, <- app_assoc|].
    split; [rewrite Hlast2; simpl length; lia|].
    split; [by rewrite Hdid2, Hdid1, <- app_assoc|].
    split; [congruence|]. split; [congruence|]. split.
    + intros j Hj. rewrite Hstored2 by lia. apply Hstored1. lia.
    + rewrite omap_app, Hlistens2. f_equal.
      rewrite <- Hlistens1. destruct op as [cn n a|cn n a]; [done|].
      simpl. by rewrite Hstored2 by lia.
Qed.

(** The operations that wait for [clientId] are those that the first
    message, as a string, names. *)
Lemma isClient_hello (id clientId : string) :
  IPC.isClient (IPC.Hello id) clientId = true ↔ clientId = id.
Proof. simpl. rewrite bool_decide_eq_true. split; by intros ->. Qed.

(** What [onFirstMessage] does with the first message of a connection. *)
Lemma onFirstMessage_registers then_sync (this : IPC.IPCServer)
    (p : nat) (first : IPC.Incoming) :
  IPC.connections this !! p = Some IPC.Connected →
  let server := IPC.registerAll (Server.create).1 (IPC.channels this) in
  let waiting :=
    match first with
    | IPC.Hello id => snd <$> filter (λ w, w.1 = id) (IPC.onClientAdded this)
    | IPC.Protocol _ => []
    end in
  ∃ client,
    IPC.step then_sync this (IPC.Deliver p first)
    = (IPC.mkIPCServer (IPC.channels this)
         (<[IPC.key first := p]> (IPC.channelClients this))
         match first with
         | IPC.Hello id => filter (λ w, w.1 ≠ id) (IPC.onClientAdded this)
         | IPC.Protocol _ => IPC.onClientAdded this
         end
         (<[p := IPC.Registered (IPC.key first) server client]>
            (IPC.connections this)),
       [IPC.OfServer p (Server.Send MResponseInitialize)])
    ∧ Client.state client = Client.Uninitialized
    ∧ Client.bufferedRequests client = Some (parked 0 waiting)
    ∧ Client.lastRequestId client = Z.of_nat (length waiting)
    ∧ Client.onDidInitialize client = listened 0 waiting
    ∧ Client.continuations client = []
    ∧ Client.protocolListener client = true
    ∧ omap (stored client) (listened 0 waiting) = listens 0 waiting.
Proof.
  intros Hp server waiting. cbn [IPC.step]. unfold IPC.onMessage. rewrite Hp.
  unfold IPC.onFirstMessage. cbn [Server.create].
  assert (filter (λ w : string * IPC.Routed, IPC.isClient first w.1 = true)
            (IPC.onClientAdded this)
          = match first with
            | IPC.Hello id => filter (λ w, w.1 = id) (IPC.onClientAdded this)
            | IPC.Protocol _ => []
            end) as ->.
  { destruct first as [id|m].
    - apply list_filter_iff. intros w. apply isClient_hello.
    - induction (IPC.onClientAdded this) as [|w l IH]; [done|].
      by rewrite filter_cons_False. }
  assert (filter (λ w : string * IPC.Routed, IPC.isClient first w.1 ≠ true)
            (IPC.onClientAdded this)
          = match first with
            | IPC.Hello id => filter (λ w, w.1 ≠ id) (IPC.onClientAdded this)
            | IPC.Protocol _ => IPC.onClientAdded this
            end) as ->.
  { destruct first as [id|m].
    - apply list_filter_iff. intros w. by rewrite isClient_hello.
    - induction (IPC.onClientAdded this) as [|w l IH]; [done|].
      rewrite filter_cons_True by done. by rewrite IH. }
  assert (snd <$> match first with
                  | IPC.Hello id =>
                      filter (λ w, w.1 = id) (IPC.onClientAdded this)
                  | IPC.Protocol _ => []
                  end = waiting) as -> by (by destruct first).
  match goal with
  | |- context [IPC.forwardAll _ ?t p ?ops] =>
      destruct (forwardAll_parks then_sync t p ops (IPC.key first) server
                  Client.create [])
        as (client & -> & Hstate & Hbuffer & Hlast & Hdid & Hcont & Hlistener
            & _ & Hlistens);
        try done
  end.
  { simpl. apply list_lookup_insert_eq. by eapply lookup_lt_Some. }
  exists client. split; [|done].
  unfold IPC.setConnection. simpl. by rewrite list_insert_insert_eq.
Qed.

(** X15: The first message on a connection, whatever it is, is taken for the id
    of the client and goes to no channel.  The one thing sent is the
    [ResponseInitialize] of the new ChannelServer, which serves the channels
    registered so far; the id, as a property key, now routes to this
    connection.  If the first message is a string, the calls and listens that
    waited for that id are made on the new ChannelClient, which is not
    initialized: it parks the calls in its buffer, in the order they were
    routed, and the streams of the listens wait for [onDidInitialize], each
    with its [RequestEventListen]; those that wait for another id go on
    waiting.  If the first message is not a string, it equals no id that is
    waited for, and every operation goes on waiting. *)
Theorem first_message_registers_the_client then_sync (this : IPC.IPCServer)
    (p : nat) (first : IPC.Incoming) :
  IPC.connections this !! p = Some IPC.Connected →
  let server := IPC.registerAll (Server.create).1 (IPC.channels this) in
  let waiting :=
    match first with
    | IPC.Hello id => snd <$> filter (λ w, w.1 = id) (IPC.onClientAdded this)
    | IPC.Protocol _ => []
    end in
  ∃ client,
    IPC.step then_sync this (IPC.Deliver p first)
    = (IPC.mkIPCServer (IPC.channels this)
         (<[IPC.key first := p]> (IPC.channelClients this))
         match first with
         | IPC.Hello id => filter (λ w, w.1 ≠ id) (IPC.onClientAdded this)
         | IPC.Protocol _ => IPC.onClientAdded this
         end
         (<[p := IPC.Registered (IPC.key first) server client]>
            (IPC.connections this)),
       [IPC.OfServer p (Server.Send MResponseInitialize)])
    ∧ Server.channels server = IPC.channels this
    ∧ Client.state client = Client.Uninitialized
    ∧ Client.bufferedRequests client = Some (parked 0 waiting)
    ∧ Client.onDidInitialize client = listened 0 waiting
    ∧ omap (stored client) (listened 0 waiting) = listens 0 waiting
    ∧ Client.lastRequestId client = Z.of_nat (length waiting).
Proof.
  intros Hp server waiting.
  destruct (onFirstMessage_registers then_sync this p first Hp)
    as (client & Hstep & Hstate & Hbuffer & Hlast & Hdid & _ & _ & Hlistens).
  exists client. split; [done|].
  split; [apply registerAll_channels | done].
Qed.

Lemma first_message_registers_the_client_witness :
  let server := IPC.registerAll (Server.create).1 (IPC.channels expectingServer) in
  let waiting :=
    snd <$> filter (λ w, w.1 = "a") (IPC.onClientAdded expectingServer) in
  ∃ client,
    IPC.step true expectingServer (IPC.Deliver 0 (IPC.Hello "a"))
    = (IPC.mkIPCServer (IPC.channels expectingServer)
         (<[IPC.key (IPC.Hello "a") := 0%nat]>
            (IPC.channelClients expectingServer))
         (filter (λ w, w.1 ≠ "a") (IPC.onClientAdded expectingServer))
         (<[0%nat := IPC.Registered (IPC.key (IPC.Hello "a")) server client]>
            (IPC.connections expectingServer)),
       [IPC.OfServer 0 (Server.Send MResponseInitialize)])
    ∧ Server.channels server = IPC.channels expectingServer
    ∧ Client.state client = Client.Uninitialized
    ∧ Client.bufferedRequests client = Some (parked 0 waiting)
    ∧ Client.onDidInitialize client = listened 0 waiting
    ∧ omap (stored client) (listened 0 waiting) = listens 0 waiting
    ∧ Client.lastRequestId client = Z.of_nat (length waiting).
Proof.
  apply (first_message_registers_the_client true expectingServer 0
           (IPC.Hello "a")).
  reflexivity.
Defined.

(** *** Disconnection *)

(** X16: When a registered client disconnects, its ChannelServer and then its
    ChannelClient are disposed of, and what the transport delivers afterwards
    is ignored.  The entry of [channelClients] under the client's id is
    deleted, whichever connection it points to: a call routed to that id
    afterwards is made on no connection, and waits until a client registers
    under the id, even if another connection of that name is still there.
    The other connections are left as they are. *)
Theorem disconnect_forgets_the_id then_sync (this : IPC.IPCServer) (p : nat)
    (id : string) (server : Server.ChannelServer) (client : Client.ChannelClient) :
  IPC.connections this !! p = Some (IPC.Registered id server client) →
  let this' := (IPC.step then_sync this (IPC.ClientDisconnect p)).1 in
  (IPC.step then_sync this (IPC.ClientDisconnect p)).2
  = (IPC.OfServer p <$> (Server.dispose server).2)
    ++ (IPC.OfClient p <$> (Client.dispose client).2)
  ∧ IPC.connections this' !! p = Some IPC.Disconnected
  ∧ (∀ q, q ≠ p → IPC.connections this' !! q = IPC.connections this !! q)
  ∧ IPC.channelClients this' = delete id (IPC.channelClients this)
  ∧ (∀ m, IPC.step then_sync this' (IPC.Deliver p m) = (this', []))
  ∧ ∀ router op,
      IPC.route router op = Some id → IPC.noId (Some id) = false →
      IPC.step then_sync this' (IPC.GetChannel router op)
      = (IPC.mkIPCServer (IPC.channels this') (IPC.channelClients this')
           (IPC.onClientAdded this' ++ [(id, op)]) (IPC.connections this'),
         []).
Proof.
  intros Hp this'.
  assert (IPC.step then_sync this (IPC.ClientDisconnect p)
          = (IPC.mkIPCServer (IPC.channels this)
               (delete id (IPC.channelClients this)) (IPC.onClientAdded this)
               (<[p := IPC.Disconnected]> (IPC.connections this)),
             (IPC.OfServer p <$> (Server.dispose server).2)
             ++ (IPC.OfClient p <$> (Client.dispose client).2))) as Hstep.
  { cbn [IPC.step]. unfold IPC.onDisconnect. rewrite Hp.
    by destruct (Server.dispose server), (Client.dispose client). }
  unfold this'. rewrite Hstep. simpl.
  assert (<[p := IPC.Disconnected]> (IPC.connections this) !! p
          = Some IPC.Disconnected) as Hgone.
  { apply list_lookup_insert_eq. by eapply lookup_lt_Some. }
  split; [done|]. split; [done|]. split.
  { intros q Hne. by rewrite list_lookup_insert_ne. }
  split; [done|]. split.
  - intros m. cbn [IPC.step]. unfold IPC.onMessage. simpl. by rewrite Hgone.
  - intros router op Hroute Hid. cbn [IPC.step]. unfold IPC.getChannel.
    rewrite Hroute. unfold IPC.noId in *. rewrite Hid. simpl.
    by rewrite lookup_delete_eq.
Qed.

Lemma disconnect_forgets_the_id_witness :
  let this' := (IPC.step true namesakes (IPC.ClientDisconnect 0)).1 in
  (IPC.step true namesakes (IPC.ClientDisconnect 0)).2
  = (IPC.OfServer 0
       <$> (Server.dispose (IPC.registerAll (Server.create).1 ∅)).2)
    ++ (IPC.OfClient 0 <$> (Client.dispose Client.create).2)
  ∧ IPC.connections this' !! 0%nat = Some IPC.Disconnected
  ∧ (∀ q, q ≠ 0%nat → IPC.connections this' !! q = IPC.connections namesakes !! q)
  ∧ IPC.channelClients this' = delete "a" (IPC.channelClients namesakes)
  ∧ (∀ m, IPC.step true this' (IPC.Deliver 0 m) = (this', []))
  ∧ ∀ router op,
      IPC.route router op = Some "a" → IPC.noId (Some "a") = false →
      IPC.step true this' (IPC.GetChannel router op)
      = (IPC.mkIPCServer (IPC.channels this') (IPC.channelClients this')
           (IPC.onClientAdded this' ++ [("a", op)]) (IPC.connections this'),
         []).
Proof.
  apply (disconnect_forgets_the_id true namesakes 0 "a"
           (IPC.registerAll (Server.create).1 ∅) Client.create).
  reflexivity.
Defined.

(** ** IPCClient and IPCServer: the handshake *)

Lemma parked_flush (next : Z) (ops : list IPC.Routed) :
  Forall (λ r, Client.flush r = true) (parked next ops).
Proof.
  revert next. induction ops as [|[cn n a|cn n a] ops IH]; intros next; simpl;
    [constructor | by constructor | apply IH].
Qed.

(** The callbacks of [whenInitialized().then(...)] send the messages of their
    streams, and nothing else. *)
Lemma runAll_out (this : Client.ChannelClient) (ids : list Z) :
  (Client.runAll this ids).2 = Client.Send <$> omap (stored this) ids.
Proof.
  rewrite <- runAll_sent.
  destruct (runAll_event this ids) as (_ & _ & _ & Hsends).
  induction Hsends as [|e out (m & -> & _) _ IH]; [done|].
  change (clientSent (Client.Send m :: out)) with (m :: clientSent out).
  by rewrite fmap_cons, <- IH.
Qed.

Lemma runAll_continuations (this : Client.ChannelClient) (ids : list Z) :
  Client.continuations (Client.runAll this ids).1 = Client.continuations this.
Proof.
  revert this. induction ids as [|id ids IH]; intros this; [done|].
  simpl.
  assert (Client.continuations (Client.whenInitializedThen this id).1
          = Client.continuations this) as H1.
  { unfold Client.whenInitializedThen. by destruct (Client.emitters this !! id). }
  destruct (Client.whenInitializedThen this id) as [this1 out1].
  specialize (IH this1).
  destruct (Client.runAll this1 ids) as [this2 out2].
  simpl in *. congruence.
Qed.

Lemma omap_stored (this this' : Client.ChannelClient) (ids : list Z) :
  (∀ id, stored this id = stored this' id) →
  omap (stored this) ids = omap (stored this') ids.
Proof.
  intros Hsame. induction ids as [|id ids IH]; [done|].
  cbn [omap list_omap]. rewrite Hsame.
  destruct (stored this' id); by rewrite <- IH.
Qed.

(** [ResponseInitialize] on a client that has not been initialized: the
    streams that wait for [onDidInitialize] send their requests, now or at
    the next tick, and then the buffer is flushed. *)
Lemma initialize_relays then_sync (this : Client.ChannelClient)
    (buffer : list Client.IRequest) :
  Client.bufferedRequests this = Some buffer →
  Forall (λ r, Client.flush r = true) buffer →
  let waiting := Client.onDidInitialize this in
  (Client.initialize then_sync this).2
  = Client.Send <$> ((if then_sync then omap (stored this) waiting else [])
                     ++ (Client.raw <$> buffer))
  ∧ Client.state (Client.initialize then_sync this).1 = Client.Idle
  ∧ Client.bufferedRequests (Client.initialize then_sync this).1 = None
  ∧ Client.continuations (Client.initialize then_sync this).1
    = Client.continuations this ++ (if then_sync then [] else waiting)
  ∧ (∀ id, stored (Client.initialize then_sync this).1 id = stored this id).
Proof.
  intros Hbuffer Hflush waiting.
  split; [|split; [apply initialize_state|]].
  - unfold Client.initialize, Client.fireDidInitialize.
    cbn [Client.onDidInitialize Client.setState].
    fold waiting.
    destruct then_sync.
    + pose proof (runAll_out
                    (Client.setOnDidInitialize [] (Client.setState Client.Idle this))
                    waiting) as Hout1.
      destruct (runAll_event
                  (Client.setOnDidInitialize [] (Client.setState Client.Idle this))
                  waiting) as ((_ & Hbuffer1 & _) & _).
      destruct (Client.runAll _ waiting) as [this1 out1].
      simpl in Hout1, Hbuffer1. rewrite Hbuffer1, Hbuffer.
      pose proof (flushAll_out this1 buffer Hflush) as Hout2.
      destruct (Client.flushAll this1 buffer) as [this2 out2].
      simpl in *. subst. by rewrite fmap_app.
    + simpl. rewrite Hbuffer.
      match goal with
      | |- context [Client.flushAll ?t buffer] =>
          pose proof (flushAll_out t buffer Hflush) as Hout2;
          destruct (Client.flushAll t buffer) as [this2 out2]
      end.
      simpl in *. by subst.
  - unfold Client.initialize, Client.fireDidInitialize.
    cbn [Client.onDidInitialize Client.setState].
    fold waiting.
    destruct then_sync.
    + pose proof (runAll_continuations
                    (Client.setOnDidInitialize [] (Client.setState Client.Idle this))
                    waiting) as Hcont1.
      destruct (runAll_event
                  (Client.setOnDidInitialize [] (Client.setState Client.Idle this))
                  waiting) as ((_ & Hbuffer1 & _) & Hstored1 & _).
      destruct (Client.runAll _ waiting) as [this1 out1].
      simpl in Hcont1, Hbuffer1, Hstored1. rewrite Hbuffer1, Hbuffer.
      destruct (flushAll_same this1 buffer) as (_ & _ & _ & _ & Hem & _ & Hcont2).
      destruct (Client.flushAll this1 buffer) as [this2 out2].
      simpl in *. split; [done|]. split.
      * by rewrite Hcont2, Hcont1, app_nil_r.
      * intros id. specialize (Hstored1 id). unfold stored in *.
        simpl in *. by rewrite Hem.
    + simpl. rewrite Hbuffer.
      match goal with
      | |- context [Client.flushAll ?t buffer] =>
          destruct (flushAll_same t buffer) as (_ & _ & _ & _ & Hem & _ & Hcont2);
          destruct (Client.flushAll t buffer) as [this2 out2]
      end.
      simpl in *. split; [done|]. split; [done|].
      intros id. unfold stored. simpl. by rewrite Hem.
Qed.

(** X17: The handshake of an IPCClient with an IPCServer.  The constructor of the
    IPCClient sends its id and then the [ResponseInitialize] of its
    ChannelServer.  Delivered on a new connection, the id registers the
    client, and the [ResponseInitialize] initializes the ChannelClient of the
    connection: the IPCServer answers with its own [ResponseInitialize], then
    with the [RequestEventListen] of every listen that was routed to the id
    before the client was there (the relay of the delayed channel listens to
    each), then with the calls that were routed to it, each kind in the order
    the operations were made.  Where [then] runs its callbacks later, the
    [RequestEventListen] messages are sent at the next tick instead, after
    the calls.  That [ResponseInitialize], delivered to the IPCClient,
    initializes its ChannelClient in turn. *)
Theorem ipc_handshake then_sync (this : IPC.IPCServer) (p : nat) (id : string) :
  IPC.connections this !! p = Some IPC.Connected →
  let waiting := snd <$> filter (λ w, w.1 = id) (IPC.onClientAdded this) in
  let ipcClient := (IPCClient.create id).1 in
  let hello := (IPCClient.create id).2 in
  let result := IPC.run then_sync this (IPC.Deliver p <$> omap wire hello) in
  result.2
  = IPC.OfServer p (Server.Send MResponseInitialize)
    :: (IPC.OfClient p
          <$> (Client.Send
                 <$> ((if then_sync then listens 0 waiting else [])
                      ++ (Client.raw <$> parked 0 waiting))))
  ∧ (IPC.step then_sync result.1 (IPC.Tick p)).2
    = IPC.OfClient p
        <$> (Client.Send <$> (if then_sync then [] else listens 0 waiting))
  ∧ IPC.channelClients result.1 !! id = Some p
  ∧ (∃ server client,
       IPC.connections result.1 !! p = Some (IPC.Registered id server client)
       ∧ Server.channels server = IPC.channels this
       ∧ Client.state client = Client.Idle
       ∧ Client.bufferedRequests client = None)
  ∧ ∃ client',
      IPCClient.step then_sync ipcClient (IPCClient.Deliver MResponseInitialize)
      = (IPCClient.mkIPCClient (Some client')
           (IPCClient.channelServer ipcClient), [])
      ∧ Client.state client' = Client.Idle.
Proof.
  intros Hp waiting ipcClient hello result.
  pose (server := IPC.registerAll (Server.create).1 (IPC.channels this)).
  destruct (onFirstMessage_registers then_sync this p (IPC.Hello id) Hp)
    as (client & Hfirst & Hstate & Hbuffer & _ & Hdid & Hcont & Hlistener
        & Hlistens).
  fold server waiting in Hfirst, Hbuffer, Hdid, Hlistens.
  cbn [IPC.key] in Hfirst.
  destruct (initialize_relays then_sync client (parked 0 waiting) Hbuffer
              (parked_flush 0 waiting))
    as (Hout & Hidle & Hnone & Hcont2 & Hstored2).
  rewrite Hdid, Hlistens in Hout. rewrite Hdid, Hcont in Hcont2.
  simpl in Hcont2.
  assert (result
          = (IPC.mkIPCServer (IPC.channels this)
               (<[id := p]> (IPC.channelClients this))
               (filter (λ w, w.1 ≠ id) (IPC.onClientAdded this))
               (<[p := IPC.Registered id server
                         (Client.initialize then_sync client).1]>
                  (IPC.connections this)),
             IPC.OfServer p (Server.Send MResponseInitialize)
             :: (IPC.OfClient p
                   <$> (Client.Send
                          <$> ((if then_sync then listens 0 waiting else [])
                               ++ (Client.raw <$> parked 0 waiting))))))
    as ->.
  { unfold result.
    change (IPC.Deliver p <$> omap wire hello)
      with [IPC.Deliver p (IPC.Hello id);
            IPC.Deliver p (IPC.Protocol MResponseInitialize)].
    cbn [IPC.run]. rewrite Hfirst.
    cbn [IPC.step]. unfold IPC.onMessage.
    cbn [IPC.connections].
    rewrite list_lookup_insert_eq by (by eapply lookup_lt_Some).
    assert (Server.step then_sync server (Server.Receive MResponseInitialize)
            = (server, [])) as ->.
    { simpl. by destruct (Server.protocolListener _). }
    assert (Client.step then_sync client (Client.Receive MResponseInitialize)
            = Client.initialize then_sync client) as ->.
    { cbn [Client.step]. rewrite Hlistener. unfold Client.onMessage. simpl.
      by rewrite Hstate. }
    destruct (Client.initialize then_sync client) as [client2 out2].
    simpl in *. subst out2.
    unfold IPC.setConnection. simpl.
    by rewrite list_insert_insert_eq, app_nil_r. }
  cbn [fst snd IPC.channelClients IPC.connections].
  assert (<[p := IPC.Registered id server (Client.initialize then_sync client).1]>
            (IPC.connections this) !! p
          = Some (IPC.Registered id server (Client.initialize then_sync client).1))
    as Hregistered.
  { apply list_lookup_insert_eq. by eapply lookup_lt_Some. }
  split; [done|]. split; [|split; [apply lookup_insert_eq|split]].
  - cbn [IPC.step]. unfold IPC.onClient. cbn [IPC.connections].
    rewrite Hregistered. cbn [Client.step]. unfold Client.tick.
    pose proof (runAll_out
                  (Client.setContinuations [] (Client.initialize then_sync client).1)
                  (Client.continuations (Client.initialize then_sync client).1))
      as Htick.
    destruct (Client.runAll _ _) as [client3 out3].
    simpl in Htick. subst out3. simpl. do 2 f_equal.
    rewrite Hcont2.
    rewrite (omap_stored _ client) by (intros j; apply Hstored2).
    by destruct then_sync.
  - exists server, (Client.initialize then_sync client).1.
    split; [done|]. split; [apply registerAll_channels | done].
  - exists (Client.initialize then_sync Client.create).1.
    split; [|apply initialize_state].
    by destruct then_sync.
Qed.

Lemma ipc_handshake_witness :
  let waiting :=
    snd <$> filter (λ w, w.1 = "a") (IPC.onClientAdded expectingServer) in
  let ipcClient := (IPCClient.create "a").1 in
  let hello := (IPCClient.create "a").2 in
  let result :=
    IPC.run true expectingServer (IPC.Deliver 0 <$> omap wire hello) in
  result.2
  = IPC.OfServer 0 (Server.Send MResponseInitialize)
    :: (IPC.OfClient 0
          <$> (Client.Send
                 <$> (listens 0 waiting ++ (Client.raw <$> parked 0 waiting))))
  ∧ (IPC.step true result.1 (IPC.Tick 0)).2
    = IPC.OfClient 0 <$> (Client.Send <$> [])
  ∧ IPC.channelClients result.1 !! "a" = Some 0%nat
  ∧ (∃ server client,
       IPC.connections result.1 !! 0%nat
       = Some (IPC.Registered "a" server client)
       ∧ Server.channels server = IPC.channels expectingServer
       ∧ Client.state client = Client.Idle
       ∧ Client.bufferedRequests client = None)
  ∧ ∃ client',
      IPCClient.step true ipcClient (IPCClient.Deliver MResponseInitialize)
      = (IPCClient.mkIPCClient (Some client')
           (IPCClient.channelServer ipcClient), [])
      ∧ Client.state client' = Client.Idle.
Proof.
  apply (ipc_handshake true expectingServer 0 "a"). reflexivity.
Defined.

(** ** IPCClient and IPCServer: a call *)

(** X18: A call from an IPCClient to a channel of the IPCServer, and back.  The
    initialized IPCClient sends the [RequestPromise] at once.  Delivered on
    its connection, the request goes to the ChannelServer of that connection
    alone, whose channel answers with a fulfilled result: the one thing the
    IPCServer sends is the [ResponsePromiseSuccess], on that connection.
    Delivered to the IPCClient, the response goes to its ChannelClient alone
    and completes the caller's result with the value. *)
Theorem ipc_call_round_trip then_sync (this : IPC.IPCServer) (p : nat)
    (id : string) (server : Server.ChannelServer)
    (client c : Client.ChannelClient) (s : Server.ChannelServer)
    (channelName name : string) (arg data : Value) (channel : IChannel) :
  IPC.connections this !! p = Some (IPC.Registered id server client) →
  Server.protocolListener server = true →
  Server.channels server !! channelName = Some channel →
  call channel name arg = Returns (Fulfilled data) →
  Client.state c = Client.Idle →
  Client.protocolListener c = true →
  let rid := Client.lastRequestId c in
  let request := MRequestPromise rid channelName name arg in
  ∃ ipcClient1 this1 ipcClient2,
    IPCClient.step then_sync (IPCClient.mkIPCClient (Some c) (Some s))
      (IPCClient.GetChannel (IPC.RoutedCall channelName name arg))
    = (ipcClient1, [IPCClient.OfClient (Client.Send request)])
    ∧ IPC.step then_sync this (IPC.Deliver p (IPC.Protocol request))
      = (this1,
         [IPC.OfServer p (Server.Send (MResponsePromiseSuccess rid data))])
    ∧ IPCClient.step then_sync ipcClient1
        (IPCClient.Deliver (MResponsePromiseSuccess rid data))
      = (ipcClient2, [IPCClient.OfClient (Client.Complete rid data)]).
Proof.
  intros Hp Hserver Hchannel Hcall Hstate Hlistening rid request.
  assert (awaiting (Client.requestPromise c channelName name arg).1 rid
          ∧ (Client.requestPromise c channelName name arg).2
            = [Client.Send request]) as [Hawaiting Hout].
  { unfold Client.requestPromise. simpl. rewrite Hstate. simpl.
    split; [|done]. split; [done|]. split; [apply lookup_insert_eq|].
    eexists. split; [apply lookup_insert_eq | done]. }
  destruct (Client.requestPromise c channelName name arg) as [c1 out1] eqn:Hc1.
  simpl in *. subst out1.
  destruct (receive_terminal then_sync c1 rid (Resolves data) Hawaiting)
    as (c2 & Hreceive & _).
  simpl in Hreceive.
  exists (IPCClient.mkIPCClient (Some c1) (Some s)).
  exists (IPC.step then_sync this (IPC.Deliver p (IPC.Protocol request))).1.
  exists (IPCClient.mkIPCClient (Some c2) (Some s)).
  split; [|split].
  - cbn [IPCClient.step]. unfold IPCClient.getChannel. simpl. by rewrite Hc1.
  - cbn [IPC.step]. unfold IPC.onMessage. rewrite Hp.
    assert (Client.step then_sync client (Client.Receive request)
            = (client, [])) as ->.
    { simpl. by destruct (Client.protocolListener client). }
    assert ((Server.step then_sync server (Server.Receive request)).2
            = [Server.Send (MResponsePromiseSuccess rid data)]) as Hanswer.
    { simpl. rewrite Hserver. simpl. unfold Server.onPromise, Server.callChannel.
      rewrite Hchannel, Hcall. simpl. by destruct then_sync. }
    destruct (Server.step then_sync server (Server.Receive request))
      as [server1 out]. simpl in *. by subst out.
  - cbn [IPCClient.step]. unfold IPCClient.onMessage. simpl.
    cbn [Client.step] in Hreceive. rewrite Hreceive.
    by destruct (Server.protocolListener s).
Qed.

Lemma ipc_call_round_trip_witness :
  let rid := Client.lastRequestId oneCallClient in
  let request := MRequestPromise rid "files" "stat" (VNumber 7) in
  ∃ ipcClient1 this1 ipcClient2,
    IPCClient.step true
      (IPCClient.mkIPCClient (Some oneCallClient) (Some (Server.create).1))
      (IPCClient.GetChannel (IPC.RoutedCall "files" "stat" (VNumber 7)))
    = (ipcClient1, [IPCClient.OfClient (Client.Send request)])
    ∧ IPC.step true servingServer (IPC.Deliver 0 (IPC.Protocol request))
      = (this1,
         [IPC.OfServer 0
            (Server.Send (MResponsePromiseSuccess rid (VNumber 7)))])
    ∧ IPCClient.step true ipcClient1
        (IPCClient.Deliver (MResponsePromiseSuccess rid (VNumber 7)))
      = (ipcClient2, [IPCClient.OfClient (Client.Complete rid (VNumber 7))]).
Proof.
  apply (ipc_call_round_trip true servingServer 0 "a"
           (channelServerOf servingServer 0) (channelClientOf servingServer 0)
           oneCallClient (Server.create).1 "files" "stat" (VNumber 7)
           (VNumber 7) echoChannel); reflexivity.
Defined.

(** * The breadcrumbs widget *)

(** ** Focus and selection *)

Lemma focusLoop_spec (nth : option Z) (i : nat)
    (nodes : list Breadcrumbs.HTMLDivElement) (idx : Z) :
  Breadcrumbs.focusLoop nth i nodes idx
  = (imap (λ j node,
             Breadcrumbs.setFocusedClass
               (bool_decide (Some (Z.of_nat (i + j)) = nth)) node) nodes,
     match nth with
     | Some k =>
         if decide (Z.of_nat i ≤ k < Z.of_nat (i + length nodes)) then k else idx
     | None => idx
     end).
Proof.
  revert i idx. induction nodes as [|node nodes IH]; intros i idx.
  - simpl. destruct nth as [k|]; [|done].
    rewrite decide_False; [done | lia].
  - cbn [Breadcrumbs.focusLoop imap]. rewrite !IH.
    rewrite Nat.add_0_r.
    assert (imap (λ j node0,
                    Breadcrumbs.setFocusedClass
                      (bool_decide (Some (Z.of_nat (S i + j)) = nth)) node0)
              nodes
            = imap ((λ j node0,
                       Breadcrumbs.setFocusedClass
                         (bool_decide (Some (Z.of_nat (i + j)) = nth)) node0)
                    ∘ S) nodes) as ->.
    { apply imap_ext. intros j x _. simpl. by rewrite Nat.add_succ_r. }
    destruct (decide (Some (Z.of_nat i) ≠ nth)) as [Hne|Heq].
    + rewrite bool_decide_eq_false_2 by done. f_equal.
      destruct nth as [k|]; [|done].
      assert (k ≠ Z.of_nat i) by (intros ->; done).
      simpl length. destruct (decide (Z.of_nat (S i) ≤ k < _)),
        (decide (Z.of_nat i ≤ k < _)); try done; lia.
    + apply dec_stable in Heq. rewrite bool_decide_eq_true_2 by done.
      f_equal. subst nth. simpl length.
      rewrite decide_False by lia. rewrite decide_True by lia. done.
Qed.

Lemma selectLoop_spec (nth : option Z) (i : nat)
    (nodes : list Breadcrumbs.HTMLDivElement) (idx : Z) :
  Breadcrumbs.selectLoop nth i nodes idx
  = (imap (λ j node,
             Breadcrumbs.setSelectedClass
               (bool_decide (Some (Z.of_nat (i + j)) = nth)) node) nodes,
     match nth with
     | Some k =>
         if decide (Z.of_nat i ≤ k < Z.of_nat (i + length nodes)) then k else idx
     | None => idx
     end).
Proof.
  revert i idx. induction nodes as [|node nodes IH]; intros i idx.
  - simpl. destruct nth as [k|]; [|done].
    rewrite decide_False; [done | lia].
  - cbn [Breadcrumbs.selectLoop imap]. rewrite !IH.
    rewrite Nat.add_0_r.
    assert (imap (λ j node0,
                    Breadcrumbs.setSelectedClass
                      (bool_decide (Some (Z.of_nat (S i + j)) = nth)) node0)
              nodes
            = imap ((λ j node0,
                       Breadcrumbs.setSelectedClass
                         (bool_decide (Some (Z.of_nat (i + j)) = nth)) node0)
                    ∘ S) nodes) as ->.
    { apply imap_ext. intros j x _. simpl. by rewrite Nat.add_succ_r. }
    destruct (decide (Some (Z.of_nat i) ≠ nth)) as [Hne|Heq].
    + rewrite bool_decide_eq_false_2 by done. f_equal.
      destruct nth as [k|]; [|done].
      assert (k ≠ Z.of_nat i) by (intros ->; done).
      simpl length. destruct (decide (Z.of_nat (S i) ≤ k < _)),
        (decide (Z.of_nat i ≤ k < _)); try done; lia.
    + apply dec_stable in Heq. rewrite bool_decide_eq_true_2 by done.
      f_equal. subst nth. simpl length.
      rewrite decide_False by lia. rewrite decide_True by lia. done.
Qed.

(** [_focus(nth)] in closed form. *)
Lemma focus_spec (this : Breadcrumbs.BreadcrumbsWidget) (nth : option Z) :
  let idx := landing nth (length (Breadcrumbs._nodes this)) in
  let nodes :=
    imap (λ j node,
            Breadcrumbs.setFocusedClass (bool_decide (Some (Z.of_nat j) = nth))
              node) (Breadcrumbs._nodes this) in
  Breadcrumbs._focus this nth
  = (Breadcrumbs.mkWidget (Breadcrumbs._items this) nodes
       (Breadcrumbs._freeNodes this) idx (Breadcrumbs._selectedItemIdx this)
       (Breadcrumbs.created this),
     [Breadcrumbs.DidFocusItem (Breadcrumbs.at_ (Breadcrumbs._items this) idx)
        (Breadcrumbs.element <$> Breadcrumbs.at_ nodes idx)]).
Proof.
  unfold Breadcrumbs._focus. rewrite focusLoop_spec. simpl.
  unfold landing. destruct nth as [k|]; [|done].
  change (Z.of_nat 0) with 0. by destruct (decide (0 ≤ k < _)).
Qed.

Lemma select_spec (this : Breadcrumbs.BreadcrumbsWidget) (nth : option Z) :
  let idx := landing nth (length (Breadcrumbs._nodes this)) in
  let nodes :=
    imap (λ j node,
            Breadcrumbs.setSelectedClass (bool_decide (Some (Z.of_nat j) = nth))
              node) (Breadcrumbs._nodes this) in
  Breadcrumbs._select this nth
  = (Breadcrumbs.mkWidget (Breadcrumbs._items this) nodes
       (Breadcrumbs._freeNodes this) (Breadcrumbs._focusedItemIdx this) idx
       (Breadcrumbs.created this),
     [Breadcrumbs.DidSelectItem (Breadcrumbs.at_ (Breadcrumbs._items this) idx)
        (Breadcrumbs.element <$> Breadcrumbs.at_ nodes idx)]).
Proof.
  unfold Breadcrumbs._select. rewrite selectLoop_spec. simpl.
  unfold landing. destruct nth as [k|]; [|done].
  change (Z.of_nat 0) with 0. by destruct (decide (0 ≤ k < _)).
Qed.

(** X19: [_focus(nth)] leaves the widget focused on [nth] if that is the index of
    a node, and on nothing otherwise; the class 'focused' is on the node of
    the focused index and on no other node, and nothing else about the nodes
    changes; the one event fired carries the focused item and its node, or
    [undefined] for both. *)
Theorem focus_marks_the_focused_node (this : Breadcrumbs.BreadcrumbsWidget)
    (nth : option Z) :
  let this' := (Breadcrumbs._focus this nth).1 in
  let idx := Breadcrumbs._focusedItemIdx this' in
  idx = landing nth (length (Breadcrumbs._nodes this))
  ∧ (∀ i node, Breadcrumbs._nodes this' !! i = Some node →
       Breadcrumbs.focused node = bool_decide (Z.of_nat i = idx))
  ∧ unfocused <$> Breadcrumbs._nodes this' = unfocused <$> Breadcrumbs._nodes this
  ∧ (Breadcrumbs._focus this nth).2
    = [Breadcrumbs.DidFocusItem (Breadcrumbs.getFocused this')
         (Breadcrumbs.element <$> Breadcrumbs.at_ (Breadcrumbs._nodes this') idx)]
  ∧ Breadcrumbs._items this' = Breadcrumbs._items this
  ∧ Breadcrumbs._freeNodes this' = Breadcrumbs._freeNodes this
  ∧ Breadcrumbs._selectedItemIdx this' = Breadcrumbs._selectedItemIdx this.
Proof.
  rewrite focus_spec. simpl. split; [done|]. split; [|split; [|done]].
  - intros i node. rewrite list_lookup_imap.
    destruct (Breadcrumbs._nodes this !! i) as [node0|] eqn:Hi; [|done].
    simpl. intros [= <-]. simpl.
    apply lookup_lt_Some in Hi. apply bool_decide_ext.
    unfold landing. destruct nth as [k|].
    + destruct (decide (0 ≤ k < _)); split; intros; simplify_eq;
        try done; exfalso; lia.
    + split; [done | lia].
  - apply list_eq. intros i. rewrite !list_lookup_fmap, list_lookup_imap.
    by destruct (Breadcrumbs._nodes this !! i).
Qed.

Lemma landing_rem (a : Z) (n : nat) :
  0 ≤ a → (0 < n)%nat →
  landing (Breadcrumbs.rem a (Z.of_nat n)) n = a `mod` Z.of_nat n.
Proof.
  intros Ha Hn. unfold Breadcrumbs.rem, landing.
  rewrite decide_False by lia.
  rewrite Z.rem_mod_nonneg by lia.
  rewrite decide_True; [done|]. apply Z.mod_pos_bound. lia.
Qed.

Lemma focus_length (this : Breadcrumbs.BreadcrumbsWidget) (nth : option Z) :
  length (Breadcrumbs._nodes (Breadcrumbs._focus this nth).1)
  = length (Breadcrumbs._nodes this).
Proof. rewrite focus_spec. simpl. apply length_imap. Qed.

(** X20: With an item focused, [focusNext] and [focusPrev] move the focus by one
    place around the row, and each undoes the other. *)
Theorem focusNext_and_focusPrev_are_inverse
    (this : Breadcrumbs.BreadcrumbsWidget) :
  0 ≤ Breadcrumbs._focusedItemIdx this
      < Z.of_nat (length (Breadcrumbs._nodes this)) →
  let idx := Breadcrumbs._focusedItemIdx this in
  let length := Z.of_nat (length (Breadcrumbs._nodes this)) in
  Breadcrumbs._focusedItemIdx (Breadcrumbs.focusNext this).1
  = (if decide (idx + 1 = length) then 0 else idx + 1)
  ∧ Breadcrumbs._focusedItemIdx (Breadcrumbs.focusPrev this).1
    = (if decide (idx = 0) then length - 1 else idx - 1)
  ∧ Breadcrumbs._focusedItemIdx
      (Breadcrumbs.focusPrev (Breadcrumbs.focusNext this).1).1 = idx
  ∧ Breadcrumbs._focusedItemIdx
      (Breadcrumbs.focusNext (Breadcrumbs.focusPrev this).1).1 = idx.
Proof.
  intros Hidx. simpl.
  set (idx := Breadcrumbs._focusedItemIdx this) in *.
  set (len := length (Breadcrumbs._nodes this)) in *.
  assert (Breadcrumbs._focusedItemIdx (Breadcrumbs.focusNext this).1
          = (if decide (idx + 1 = Z.of_nat len) then 0 else idx + 1)) as Hnext.
  { unfold Breadcrumbs.focusNext. rewrite focus_spec. simpl.
    fold idx len. rewrite landing_rem by lia.
    destruct (decide (idx + 1 = Z.of_nat len)) as [Heq|Hne];
      [rewrite Heq; apply Z_mod_same_full | apply Z.mod_small; lia]. }
  assert (Breadcrumbs._focusedItemIdx (Breadcrumbs.focusPrev this).1
          = (if decide (idx = 0) then Z.of_nat len - 1 else idx - 1)) as Hprev.
  { unfold Breadcrumbs.focusPrev. rewrite focus_spec. simpl.
    fold idx len. rewrite landing_rem by lia.
    destruct (decide (idx = 0)) as [Heq|Hne].
    - rewrite Z.mod_small; lia.
    - replace (idx - 1 + Z.of_nat len) with (idx - 1 + 1 * Z.of_nat len) by lia.
      rewrite Z.mod_add by lia. apply Z.mod_small. lia. }
  assert (length (Breadcrumbs._nodes (Breadcrumbs.focusNext this).1) = len)
    as Hlength1 by apply focus_length.
  assert (length (Breadcrumbs._nodes (Breadcrumbs.focusPrev this).1) = len)
    as Hlength2 by apply focus_length.
  split; [done|]. split; [done|]. split.
  - unfold Breadcrumbs.focusPrev at 1. rewrite focus_spec. simpl.
    rewrite Hlength1, Hnext.
    rewrite landing_rem by (destruct (decide (idx + 1 = Z.of_nat len)); lia).
    destruct (decide (idx + 1 = Z.of_nat len)) as [Heq|Hne].
    + replace (0 - 1 + Z.of_nat len) with (Z.of_nat len - 1) by lia.
      rewrite Z.mod_small; lia.
    + replace (idx + 1 - 1 + Z.of_nat len) with (idx + 1 * Z.of_nat len) by lia.
      rewrite Z.mod_add by lia. apply Z.mod_small. lia.
  - unfold Breadcrumbs.focusNext at 1. rewrite focus_spec. simpl.
    rewrite Hlength2, Hprev.
    rewrite landing_rem by (destruct (decide (idx = 0)); lia).
    destruct (decide (idx = 0)) as [Heq|Hne].
    + replace (Z.of_nat len - 1 + 1) with (Z.of_nat len) by lia.
      rewrite Z_mod_same_full. lia.
    + replace (idx - 1 + 1) with idx by lia. apply Z.mod_small. lia.
Qed.

Lemma focusNext_and_focusPrev_are_inverse_witness :
  let idx := Breadcrumbs._focusedItemIdx fourCrumbs in
  let length := Z.of_nat (length (Breadcrumbs._nodes fourCrumbs)) in
  Breadcrumbs._focusedItemIdx (Breadcrumbs.focusNext fourCrumbs).1
  = (if decide (idx + 1 = length) then 0 else idx + 1)
  ∧ Breadcrumbs._focusedItemIdx (Breadcrumbs.focusPrev fourCrumbs).1
    = (if decide (idx = 0) then length - 1 else idx - 1)
  ∧ Breadcrumbs._focusedItemIdx
      (Breadcrumbs.focusPrev (Breadcrumbs.focusNext fourCrumbs).1).1 = idx
  ∧ Breadcrumbs._focusedItemIdx
      (Breadcrumbs.focusNext (Breadcrumbs.focusPrev fourCrumbs).1).1 = idx.
Proof.
  apply (focusNext_and_focusPrev_are_inverse fourCrumbs).
  vm_compute. split; [discriminate | reflexivity].
Defined.

(** X21: With nothing focused, [focusNext] focuses the first item, but
    [focusPrev] does not focus the last: [(-1 - 1 + length) % length] is the
    index of the item before the last. *)
Theorem focusPrev_from_nothing_skips_the_last
    (this : Breadcrumbs.BreadcrumbsWidget) :
  Breadcrumbs._focusedItemIdx this = -1 →
  (2 ≤ length (Breadcrumbs._nodes this))%nat →
  Breadcrumbs._focusedItemIdx (Breadcrumbs.focusNext this).1 = 0
  ∧ Breadcrumbs._focusedItemIdx (Breadcrumbs.focusPrev this).1
    = Z.of_nat (length (Breadcrumbs._nodes this)) - 2.
Proof.
  intros Hidx Hlength. split.
  - unfold Breadcrumbs.focusNext. rewrite focus_spec. simpl.
    rewrite Hidx, landing_rem by lia. apply Z.mod_small. lia.
  - unfold Breadcrumbs.focusPrev. rewrite focus_spec. simpl.
    rewrite Hidx, landing_rem by lia. rewrite Z.mod_small; lia.
Qed.

Lemma focusPrev_from_nothing_skips_the_last_witness :
  Breadcrumbs._focusedItemIdx (Breadcrumbs.focusNext unfocusedCrumbs).1 = 0
  ∧ Breadcrumbs._focusedItemIdx (Breadcrumbs.focusPrev unfocusedCrumbs).1
    = Z.of_nat (length (Breadcrumbs._nodes unfocusedCrumbs)) - 2.
Proof.
  apply (focusPrev_from_nothing_skips_the_last unfocusedCrumbs).
  - reflexivity.
  - vm_compute. lia.
Defined.

(** ** Rendering *)

Lemma renderExisting_spec (items : list Breadcrumbs.BreadcrumbsItem)
    (nodes : list Breadcrumbs.HTMLDivElement) :
  Breadcrumbs.renderExisting items nodes
  = (zip_with Breadcrumbs._renderItem items nodes,
     drop (length nodes) items, drop (length items) nodes).
Proof.
  revert nodes. induction items as [|item items IH]; intros [|node nodes];
    simpl; rewrite ?drop_nil, ?IH; done.
Qed.

Lemma zip_with_justRendered (items : list Breadcrumbs.BreadcrumbsItem)
    (nodes : list Breadcrumbs.HTMLDivElement) :
  Forall2 justRendered (take (length nodes) items)
    (zip_with Breadcrumbs._renderItem items nodes).
Proof.
  revert nodes. induction items as [|item items IH]; intros [|node nodes];
    simpl; try constructor; [done | apply IH].
Qed.

Lemma renderNew_justRendered (items : list Breadcrumbs.BreadcrumbsItem)
    (freeNodes : list Breadcrumbs.HTMLDivElement) (created : nat) :
  Forall2 justRendered items
    (Breadcrumbs.renderNew items freeNodes created).1.1.
Proof.
  revert freeNodes created.
  induction items as [|item items IH]; intros freeNodes created; simpl;
    [constructor|].
  destruct (Breadcrumbs.pop freeNodes) as [[node freeNodes']|].
  - specialize (IH freeNodes' created).
    destruct (Breadcrumbs.renderNew items freeNodes' created) as [[ns fr] cr].
    by constructor.
  - specialize (IH freeNodes (S created)).
    destruct (Breadcrumbs.renderNew items freeNodes (S created))
      as [[ns fr] cr].
    by constructor.
Qed.

(** [_render(start)], with [start] within the items and the nodes: the nodes
    before [start] are left alone, and from [start] on there is, for every
    item, a node that shows it. *)
Lemma render_spec (this : Breadcrumbs.BreadcrumbsWidget) (start : nat) :
  (start ≤ length (Breadcrumbs._nodes this))%nat →
  (start ≤ length (Breadcrumbs._items this))%nat →
  ∃ this',
    Breadcrumbs._render this start = Some this'
    ∧ Breadcrumbs._items this' = Breadcrumbs._items this
    ∧ Breadcrumbs._focusedItemIdx this' = Breadcrumbs._focusedItemIdx this
    ∧ Breadcrumbs._selectedItemIdx this' = Breadcrumbs._selectedItemIdx this
    ∧ take start (Breadcrumbs._nodes this') = take start (Breadcrumbs._nodes this)
    ∧ Forall2 justRendered (drop start (Breadcrumbs._items this))
        (drop start (Breadcrumbs._nodes this')).
Proof.
  intros Hnodes Hitems. unfold Breadcrumbs._render.
  rewrite decide_True by done. rewrite renderExisting_spec.
  set (items := drop start (Breadcrumbs._items this)).
  set (nodes := drop start (Breadcrumbs._nodes this)).
  pose proof (renderNew_justRendered (drop (length nodes) items)
                (Breadcrumbs._freeNodes this ++ drop (length items) nodes)
                (Breadcrumbs.created this)) as Hnew.
  destruct (Breadcrumbs.renderNew _ _ _) as [[new fr] cr]. simpl in Hnew.
  eexists. split; [reflexivity|]. simpl.
  assert (length (take start (Breadcrumbs._nodes this)) = start) as Hstart.
  { rewrite length_take. lia. }
  assert (take (length (Breadcrumbs._items this))
            (take start (Breadcrumbs._nodes this)
             ++ zip_with Breadcrumbs._renderItem items nodes)
          = take start (Breadcrumbs._nodes this)
            ++ zip_with Breadcrumbs._renderItem items nodes) as ->.
  { apply take_ge. rewrite length_app, Hstart, length_zip_with.
    unfold items, nodes. rewrite !length_drop. lia. }
  split; [done|]. split; [done|]. split; [done|]. split.
  - rewrite <- app_assoc. rewrite take_app_length'; done.
  - rewrite <- app_assoc. rewrite drop_app_length' by done.
    rewrite <- (take_drop (length nodes) items) at 1.
    apply Forall2_app; [apply zip_with_justRendered | done].
Qed.

(** [_focus(-1)] takes the focus away. *)
Lemma focus_none (this : Breadcrumbs.BreadcrumbsWidget) :
  Breadcrumbs._focus this (Some (-1))
  = (Breadcrumbs.mkWidget (Breadcrumbs._items this)
       (unfocused <$> Breadcrumbs._nodes this) (Breadcrumbs._freeNodes this)
       (-1) (Breadcrumbs._selectedItemIdx this) (Breadcrumbs.created this),
     [Breadcrumbs.DidFocusItem None None]).
Proof.
  rewrite focus_spec. simpl.
  assert (imap (λ j node,
                  Breadcrumbs.setFocusedClass
                    (bool_decide (Some (Z.of_nat j) = Some (-1))) node)
            (Breadcrumbs._nodes this)
          = unfocused <$> Breadcrumbs._nodes this) as ->.
  { rewrite <- imap_const. apply imap_ext. intros j node _. simpl.
    rewrite bool_decide_eq_false_2; [done|]. intros [= ?]. lia. }
  done.
Qed.

(** [setItems(items)], when there is a node for every item and the common
    prefix lies within the items: what [_render] makes of the nodes, and what
    becomes of the focus. *)
Lemma setItems_rendered
    (commonPrefixLength :
       list Breadcrumbs.BreadcrumbsItem → list Breadcrumbs.BreadcrumbsItem →
       (Breadcrumbs.BreadcrumbsItem → Breadcrumbs.BreadcrumbsItem → bool) → nat)
    (this : Breadcrumbs.BreadcrumbsWidget)
    (items : list Breadcrumbs.BreadcrumbsItem) :
  let prefix :=
    commonPrefixLength (Breadcrumbs._items this) items
      (λ a b, Breadcrumbs.equals a b) in
  let reset :=
    bool_decide (Breadcrumbs._focusedItemIdx this ≤ Z.of_nat prefix) in
  (prefix ≤ length (Breadcrumbs._nodes this))%nat →
  (prefix ≤ length (Breadcrumbs._items this))%nat →
  ∃ this' nodes,
    Breadcrumbs.setItems commonPrefixLength this items
    = Some (this',
            (Breadcrumbs.DisposeItem <$> drop prefix (Breadcrumbs._items this))
            ++ (if reset then [Breadcrumbs.DidFocusItem None None] else []))
    ∧ Breadcrumbs._items this'
      = take prefix (Breadcrumbs._items this) ++ drop prefix items
    ∧ Breadcrumbs._selectedItemIdx this' = Breadcrumbs._selectedItemIdx this
    ∧ Breadcrumbs._focusedItemIdx this'
      = (if reset then -1 else Breadcrumbs._focusedItemIdx this)
    ∧ Breadcrumbs._nodes this' = (if reset then unfocused <$> nodes else nodes)
    ∧ take prefix nodes = take prefix (Breadcrumbs._nodes this)
    ∧ Forall2 justRendered (drop prefix (Breadcrumbs._items this'))
        (drop prefix nodes).
Proof.
  intros prefix reset Hprefix Hwithin. unfold Breadcrumbs.setItems.
  fold prefix.
  set (this1 := Breadcrumbs.mkWidget _ _ _ _ _ _).
  destruct (render_spec this1 prefix) as
    (this2 & -> & Hitems & Hfocus & Hselect & Htake & Hdrop).
  { done. }
  { unfold this1. simpl. rewrite length_app, length_take. lia. }
  simpl in *. rewrite Hfocus. unfold reset.
  destruct (decide (Breadcrumbs._focusedItemIdx this ≤ Z.of_nat prefix))
    as [Hle|Hgt].
  - rewrite bool_decide_eq_true_2 by done. rewrite focus_none.
    eexists _, (Breadcrumbs._nodes this2). split; [reflexivity|]. simpl.
    by rewrite Hitems.
  - rewrite bool_decide_eq_false_2 by done. rewrite app_nil_r.
    exists this2, (Breadcrumbs._nodes this2). by rewrite Hitems.
Qed.

(** X22: [setItems(items)] keeps the items and the nodes of the common prefix,
    and from there on shows the new items, each in a node that has neither
    class; the items it replaced are disposed of, in their order.  The focus
    is taken away if the focused index lies within the prefix or at its end,
    and kept otherwise; the selected index is kept in any case. *)
Theorem setItems_rerenders_from_the_common_prefix
    (commonPrefixLength :
       list Breadcrumbs.BreadcrumbsItem → list Breadcrumbs.BreadcrumbsItem →
       (Breadcrumbs.BreadcrumbsItem → Breadcrumbs.BreadcrumbsItem → bool) → nat)
    (this : Breadcrumbs.BreadcrumbsWidget)
    (items : list Breadcrumbs.BreadcrumbsItem) :
  let prefix :=
    commonPrefixLength (Breadcrumbs._items this) items
      (λ a b, Breadcrumbs.equals a b) in
  let reset :=
    bool_decide (Breadcrumbs._focusedItemIdx this ≤ Z.of_nat prefix) in
  length (Breadcrumbs._nodes this) = length (Breadcrumbs._items this) →
  (prefix ≤ length (Breadcrumbs._items this))%nat →
  ∃ this',
    Breadcrumbs.setItems commonPrefixLength this items
    = Some (this',
            (Breadcrumbs.DisposeItem <$> drop prefix (Breadcrumbs._items this))
            ++ (if reset then [Breadcrumbs.DidFocusItem None None] else []))
    ∧ Breadcrumbs._items this'
      = take prefix (Breadcrumbs._items this) ++ drop prefix items
    ∧ length (Breadcrumbs._nodes this') = length (Breadcrumbs._items this')
    ∧ unfocused <$> take prefix (Breadcrumbs._nodes this')
      = unfocused <$> take prefix (Breadcrumbs._nodes this)
    ∧ Forall2 justRendered (drop prefix (Breadcrumbs._items this'))
        (drop prefix (Breadcrumbs._nodes this'))
    ∧ Breadcrumbs._focusedItemIdx this'
      = (if reset then -1 else Breadcrumbs._focusedItemIdx this)
    ∧ Breadcrumbs._selectedItemIdx this' = Breadcrumbs._selectedItemIdx this.
Proof.
  intros prefix reset Hlength Hprefix.
  destruct (setItems_rendered commonPrefixLength this items)
    as (this' & nodes & Hset & Hitems & Hselected & Hfocused & Hnodes
        & Htake & Hdrop); [fold prefix; lia | done |].
  fold prefix reset in Hset, Hitems, Hfocused, Hnodes, Htake, Hdrop.
  exists this'. split; [done|]. split; [done|].
  assert (length nodes = length (Breadcrumbs._items this')) as Hsame.
  { apply Forall2_length in Hdrop. rewrite !length_drop in Hdrop.
    assert (length (take prefix nodes) = prefix) as Hstart.
    { rewrite Htake, length_take. lia. }
    rewrite length_take in Hstart.
    rewrite Hitems, length_app, length_take in *. lia. }
  rewrite Hnodes. destruct reset.
  - rewrite length_fmap. split; [done|]. split; [|split; [|done]].
    + rewrite <- fmap_take, Htake, <- list_fmap_compose.
      apply list_fmap_ext. by intros _ [el f sel r] _.
    + rewrite <- fmap_drop. apply Forall2_fmap_r.
      eapply Forall2_impl; [exact Hdrop|].
      intros item node (_ & H2 & H3). done.
  - split; [done|]. split; [by rewrite Htake|]. done.
Qed.

Lemma setItems_rerenders_from_the_common_prefix_witness :
  let prefix :=
    commonPrefix (Breadcrumbs._items fourCrumbs) otherCrumbs
      (λ a b, Breadcrumbs.equals a b) in
  let reset :=
    bool_decide (Breadcrumbs._focusedItemIdx fourCrumbs ≤ Z.of_nat prefix) in
  ∃ this',
    Breadcrumbs.setItems commonPrefix fourCrumbs otherCrumbs
    = Some (this',
            (Breadcrumbs.DisposeItem
               <$> drop prefix (Breadcrumbs._items fourCrumbs))
            ++ (if reset then [Breadcrumbs.DidFocusItem None None] else []))
    ∧ Breadcrumbs._items this'
      = take prefix (Breadcrumbs._items fourCrumbs) ++ drop prefix otherCrumbs
    ∧ length (Breadcrumbs._nodes this') = length (Breadcrumbs._items this')
    ∧ unfocused <$> take prefix (Breadcrumbs._nodes this')
      = unfocused <$> take prefix (Breadcrumbs._nodes fourCrumbs)
    ∧ Forall2 justRendered (drop prefix (Breadcrumbs._items this'))
        (drop prefix (Breadcrumbs._nodes this'))
    ∧ Breadcrumbs._focusedItemIdx this'
      = (if reset then -1 else Breadcrumbs._focusedItemIdx fourCrumbs)
    ∧ Breadcrumbs._selectedItemIdx this'
      = Breadcrumbs._selectedItemIdx fourCrumbs.
Proof.
  apply (setItems_rerenders_from_the_common_prefix commonPrefix fourCrumbs
           otherCrumbs).
  - reflexivity.
  - vm_compute. lia.
Defined.

Lemma at_replaced (old items : list Breadcrumbs.BreadcrumbsItem) (prefix : nat)
    (idx : Z) :
  (prefix ≤ length old)%nat → Z.of_nat prefix ≤ idx →
  Breadcrumbs.at_ (take prefix old ++ drop prefix items) idx
  = Breadcrumbs.at_ items idx.
Proof.
  intros Hprefix Hidx. unfold Breadcrumbs.at_.
  rewrite !decide_True by lia.
  rewrite lookup_app_r; rewrite length_take; [|lia].
  rewrite lookup_drop. f_equal. lia.
Qed.

(** X23: [setItems] never looks at the selection.  With the selected index at or
    beyond the common prefix, the node that had the class 'selected' is
    rendered anew or removed, and no node has the class afterwards; but the
    selected index stays, no event is fired, and [getSelected()] now answers
    with whatever new item is at that index, or with [undefined]. *)
Theorem setItems_keeps_a_stale_selection
    (commonPrefixLength :
       list Breadcrumbs.BreadcrumbsItem → list Breadcrumbs.BreadcrumbsItem →
       (Breadcrumbs.BreadcrumbsItem → Breadcrumbs.BreadcrumbsItem → bool) → nat)
    (this : Breadcrumbs.BreadcrumbsWidget)
    (items : list Breadcrumbs.BreadcrumbsItem) :
  let prefix :=
    commonPrefixLength (Breadcrumbs._items this) items
      (λ a b, Breadcrumbs.equals a b) in
  coherent this →
  (prefix ≤ length (Breadcrumbs._items this))%nat →
  Z.of_nat prefix ≤ Breadcrumbs._selectedItemIdx this →
  ∃ this' out,
    Breadcrumbs.setItems commonPrefixLength this items = Some (this', out)
    ∧ Breadcrumbs._selectedItemIdx this' = Breadcrumbs._selectedItemIdx this
    ∧ Breadcrumbs.getSelected this'
      = Breadcrumbs.at_ items (Breadcrumbs._selectedItemIdx this)
    ∧ Forall (λ node, Breadcrumbs.selected node = false)
        (Breadcrumbs._nodes this')
    ∧ Forall (λ e, ∀ item node, e ≠ Breadcrumbs.DidSelectItem item node) out.
Proof.
  intros prefix (Hlength & _ & Hcoherent) Hprefix Hidx.
  destruct (setItems_rendered commonPrefixLength this items)
    as (this' & nodes & Hset & Hitems & Hselected & _ & Hnodes & Htake & Hdrop);
    [fold prefix; lia | done |].
  fold prefix in Hset, Hitems, Hnodes, Htake, Hdrop.
  eexists this', _. split; [exact Hset|]. split; [done|]. split; [|split].
  - unfold Breadcrumbs.getSelected. rewrite Hitems, Hselected.
    by apply at_replaced.
  - assert (Forall (λ node, Breadcrumbs.selected node = false) nodes) as Hall.
    { rewrite <- (take_drop prefix nodes). apply Forall_app. split.
      - rewrite Htake. apply Forall_forall. intros node Hin.
        apply list_elem_of_lookup in Hin as [i Hi].
        apply lookup_take_Some in Hi as [Hi Hlt].
        destruct (Breadcrumbs.selected node) eqn:Hsel; [|done].
        specialize (Hcoherent i node Hi Hsel). lia.
      - eapply Forall2_Forall_r; [exact Hdrop|].
        apply Forall_true. by intros item node (_ & ? & _). }
    rewrite Hnodes. destruct (bool_decide _); [|done].
    apply Forall_fmap. eapply Forall_impl; [exact Hall|]. by intros [].
  - apply Forall_app. split.
    + apply Forall_fmap, Forall_true. by intros.
    + destruct (bool_decide _); by repeat constructor.
Qed.

(** X24: [setItems] compares the common prefix with the focused index the other
    way round.  With the focused index beyond the prefix, the focused item is
    among those replaced; its node is rendered anew or removed, and no node
    has the class 'focused' afterwards; but the focused index stays, no event
    is fired, and [getFocused()] now answers with whatever new item is at
    that index, or with [undefined]. *)
Theorem setItems_keeps_a_stale_focus
    (commonPrefixLength :
       list Breadcrumbs.BreadcrumbsItem → list Breadcrumbs.BreadcrumbsItem →
       (Breadcrumbs.BreadcrumbsItem → Breadcrumbs.BreadcrumbsItem → bool) → nat)
    (this : Breadcrumbs.BreadcrumbsWidget)
    (items : list Breadcrumbs.BreadcrumbsItem) :
  let prefix :=
    commonPrefixLength (Breadcrumbs._items this) items
      (λ a b, Breadcrumbs.equals a b) in
  coherent this →
  (prefix ≤ length (Breadcrumbs._items this))%nat →
  Z.of_nat prefix < Breadcrumbs._focusedItemIdx this →
  ∃ this' out,
    Breadcrumbs.setItems commonPrefixLength this items = Some (this', out)
    ∧ Breadcrumbs._focusedItemIdx this' = Breadcrumbs._focusedItemIdx this
    ∧ Breadcrumbs.getFocused this'
      = Breadcrumbs.at_ items (Breadcrumbs._focusedItemIdx this)
    ∧ Forall (λ node, Breadcrumbs.focused node = false)
        (Breadcrumbs._nodes this')
    ∧ Forall (λ e, ∀ item node, e ≠ Breadcrumbs.DidFocusItem item node) out.
Proof.
  intros prefix (Hlength & Hcoherent & _) Hprefix Hidx.
  destruct (setItems_rendered commonPrefixLength this items)
    as (this' & nodes & Hset & Hitems & _ & Hfocused & Hnodes & Htake & Hdrop);
    [fold prefix; lia | done |].
  fold prefix in Hset, Hitems, Hfocused, Hnodes, Htake, Hdrop.
  rewrite bool_decide_eq_false_2 in Hset, Hfocused, Hnodes by lia.
  eexists this', _. split; [exact Hset|]. split; [done|]. split; [|split].
  - unfold Breadcrumbs.getFocused. rewrite Hitems, Hfocused.
    apply at_replaced; [done | lia].
  - rewrite Hnodes. rewrite <- (take_drop prefix nodes).
    apply Forall_app. split.
    + rewrite Htake. apply Forall_forall. intros node Hin.
      apply list_elem_of_lookup in Hin as [i Hi].
      apply lookup_take_Some in Hi as [Hi Hlt].
      destruct (Breadcrumbs.focused node) eqn:Hfoc; [|done].
      specialize (Hcoherent i node Hi Hfoc). lia.
    + eapply Forall2_Forall_r; [exact Hdrop|].
      apply Forall_true. by intros item node (? & _).
  - rewrite app_nil_r. apply Forall_fmap, Forall_true. by intros.
Qed.

(** ** What every widget satisfies until it is disposed of *)

Lemma focus_coherent (this : Breadcrumbs.BreadcrumbsWidget) (nth : option Z) :
  coherent this → coherent (Breadcrumbs._focus this nth).1.
Proof.
  intros (Hlength & _ & Hselected). rewrite focus_spec.
  unfold coherent. simpl.
  split; [by rewrite length_imap|]. split.
  - intros i node. rewrite list_lookup_imap.
    destruct (Breadcrumbs._nodes this !! i) as [node0|] eqn:Hi; [|done].
    simpl. intros [= <-]. simpl. intros Hnth%bool_decide_eq_true_1.
    apply lookup_lt_Some in Hi. subst nth. unfold landing.
    rewrite decide_True; [done | lia].
  - intros i node. rewrite list_lookup_imap.
    destruct (Breadcrumbs._nodes this !! i) as [node0|] eqn:Hi; [|done].
    simpl. intros [= <-]. simpl. by apply Hselected.
Qed.

Lemma select_coherent (this : Breadcrumbs.BreadcrumbsWidget) (nth : option Z) :
  coherent this → coherent (Breadcrumbs._select this nth).1.
Proof.
  intros (Hlength & Hfocused & _). rewrite select_spec.
  unfold coherent. simpl.
  split; [by rewrite length_imap|]. split.
  - intros i node. rewrite list_lookup_imap.
    destruct (Breadcrumbs._nodes this !! i) as [node0|] eqn:Hi; [|done].
    simpl. intros [= <-]. simpl. by apply Hfocused.
  - intros i node. rewrite list_lookup_imap.
    destruct (Breadcrumbs._nodes this !! i) as [node0|] eqn:Hi; [|done].
    simpl. intros [= <-]. simpl. intros Hnth%bool_decide_eq_true_1.
    apply lookup_lt_Some in Hi. subst nth. unfold landing.
    rewrite decide_True; [done | lia].
Qed.

Lemma onClick_coherent (this : Breadcrumbs.BreadcrumbsWidget) (path : list nat) :
  coherent this → coherent (Breadcrumbs._onClick this path).1.
Proof.
  intros Hcoherent. induction path as [|el path IH]; simpl; [done|].
  destruct (decide (0 ≤ _)); [|done].
  match goal with
  | |- context [Breadcrumbs._focus this ?nth] =>
      pose proof (focus_coherent this nth Hcoherent) as H1;
      destruct (Breadcrumbs._focus this nth) as [this1 out1];
      pose proof (select_coherent this1 nth H1) as H2;
      destruct (Breadcrumbs._select this1 nth) as [this2 out2]
  end.
  done.
Qed.

Lemma setItems_coherent
    (commonPrefixLength :
       list Breadcrumbs.BreadcrumbsItem → list Breadcrumbs.BreadcrumbsItem →
       (Breadcrumbs.BreadcrumbsItem → Breadcrumbs.BreadcrumbsItem → bool) → nat)
    (this : Breadcrumbs.BreadcrumbsWidget)
    (items : list Breadcrumbs.BreadcrumbsItem) :
  (commonPrefixLength (Breadcrumbs._items this) items
     (λ a b, Breadcrumbs.equals a b) ≤ length (Breadcrumbs._items this))%nat →
  coherent this →
  ∃ this' out,
    Breadcrumbs.setItems commonPrefixLength this items = Some (this', out)
    ∧ coherent this'.
Proof.
  set (prefix := commonPrefixLength _ _ _).
  intros Hprefix (Hlength & Hfocus & Hselect).
  destruct (setItems_rendered commonPrefixLength this items)
    as (this' & nodes & Hset & Hitems & Hselected & Hfocused & Hnodes
        & Htake & Hdrop); [fold prefix; lia | done |].
  fold prefix in Hset, Hitems, Hfocused, Hnodes, Htake, Hdrop.
  eexists this', _. split; [exact Hset|].
  assert (length nodes = length (Breadcrumbs._items this')) as Hsame.
  { apply Forall2_length in Hdrop. rewrite !length_drop in Hdrop.
    assert (length (take prefix nodes) = prefix) as Hstart.
    { rewrite Htake, length_take. lia. }
    rewrite length_take in Hstart.
    rewrite Hitems, length_app, length_take in *. lia. }
  assert (∀ i node, nodes !! i = Some node →
            (i < prefix)%nat ∧ Breadcrumbs._nodes this !! i = Some node
            ∨ Breadcrumbs.focused node = false
              ∧ Breadcrumbs.selected node = false) as Hnode.
  { intros i node Hi. destruct (decide (i < prefix)%nat) as [Hlt|Hge].
    - left. split; [done|].
      rewrite <- (lookup_take_lt _ prefix i) by done.
      rewrite <- Htake. by rewrite lookup_take_lt.
    - right.
      assert (drop prefix nodes !! (i - prefix)%nat = Some node) as Hi'.
      { rewrite lookup_drop. rewrite <- Hi. f_equal. lia. }
      destruct (Forall2_lookup_r _ _ _ _ _ Hdrop Hi') as (item & _ & H1 & H2 & _).
      done. }
  split; [|split].
  - rewrite Hnodes. destruct (bool_decide _); by rewrite ?length_fmap.
  - intros i node. rewrite Hnodes, Hfocused.
    destruct (bool_decide _).
    + rewrite list_lookup_fmap.
      destruct (nodes !! i) as [[]|]; simpl; [|done]. by intros [= <-].
    + intros Hi Hfoc.
      destruct (Hnode i node Hi) as [[_ Hold] | [Hnone _]]; [|congruence].
      by apply (Hfocus i node).
  - intros i node. rewrite Hnodes, Hselected. intros Hi Hsel.
    assert (∃ node0, nodes !! i = Some node0
                     ∧ Breadcrumbs.selected node0 = true) as (node0 & Hi0 & Hsel0).
    { destruct (bool_decide _); [|by exists node].
      rewrite list_lookup_fmap in Hi.
      destruct (nodes !! i) as [node0|]; [|done].
      exists node0. split; [done|]. injection Hi as <-. by destruct node0. }
    destruct (Hnode i node0 Hi0) as [[_ Hold] | [_ Hnone]]; [|congruence].
    by apply (Hselect i node0).
Qed.

Lemma run_coherent
    (commonPrefixLength :
       list Breadcrumbs.BreadcrumbsItem → list Breadcrumbs.BreadcrumbsItem →
       (Breadcrumbs.BreadcrumbsItem → Breadcrumbs.BreadcrumbsItem → bool) → nat)
    (this : Breadcrumbs.BreadcrumbsWidget) (inputs : list Breadcrumbs.Input) :
  (∀ one other equals,
     (commonPrefixLength one other equals ≤ length one)%nat) →
  Forall (λ i, i ≠ Breadcrumbs.Disposal) inputs →
  coherent this →
  ∃ this' out,
    Breadcrumbs.run commonPrefixLength this inputs = Some (this', out)
    ∧ coherent this'.
Proof.
  intros Hprefix Hinputs. revert this.
  induction Hinputs as [|i inputs Hi _ IH]; intros this Hcoherent.
  - by exists this, [].
  - cbn [Breadcrumbs.run].
    assert (∃ this1 out1,
              Breadcrumbs.step commonPrefixLength this i = Some (this1, out1)
              ∧ coherent this1) as (this1 & out1 & -> & H1).
    { destruct i as [item| | |item|items|path|]; cbn [Breadcrumbs.step];
        try done; try (by apply setItems_coherent);
        eexists _, _; (split; [f_equal; apply surjective_pairing|]);
        first [by apply focus_coherent | by apply select_coherent
              | by apply onClick_coherent]. }
    destruct (IH this1 H1) as (this2 & out2 & -> & H2).
    by exists this2, (out1 ++ out2).
Qed.

Lemma commonPrefix_le (one other : list Breadcrumbs.BreadcrumbsItem)
    (equals : Breadcrumbs.BreadcrumbsItem → Breadcrumbs.BreadcrumbsItem → bool) :
  (commonPrefix one other equals ≤ length one)%nat.
Proof.
  revert other. induction one as [|a one IH]; intros [|b other]; simpl;
    try lia.
  destruct (equals a b); [|lia]. specialize (IH other). lia.
Qed.

Lemma widgetOf_coherent (inputs : list Breadcrumbs.Input) :
  Forall (λ i, i ≠ Breadcrumbs.Disposal) inputs → coherent (widgetOf inputs).
Proof.
  intros Hinputs. unfold widgetOf.
  destruct (run_coherent commonPrefix Breadcrumbs.create inputs commonPrefix_le
              Hinputs) as (this & out & -> & Hcoherent); [|done].
  split; [done|]. split; intros i node Hi; simpl in Hi;
    by rewrite lookup_nil in Hi.
Qed.

(** X25: From its construction until it is disposed of, whatever is focused,
    selected, clicked and set, a widget has one node for every item, the
    class 'focused' is on no node but that of the focused index, and the
    class 'selected' on no node but that of the selected index; and
    [setItems] never leaves a hole in the array of nodes. *)
Theorem widget_stays_coherent
    (commonPrefixLength :
       list Breadcrumbs.BreadcrumbsItem → list Breadcrumbs.BreadcrumbsItem →
       (Breadcrumbs.BreadcrumbsItem → Breadcrumbs.BreadcrumbsItem → bool) → nat)
    (inputs : list Breadcrumbs.Input) :
  (∀ one other equals,
     (commonPrefixLength one other equals ≤ length one)%nat) →
  Forall (λ i, i ≠ Breadcrumbs.Disposal) inputs →
  ∃ this out,
    Breadcrumbs.run commonPrefixLength Breadcrumbs.create inputs
    = Some (this, out)
    ∧ coherent this.
Proof.
  intros Hprefix Hinputs.
  apply run_coherent; [done | done |].
  split; [done|].
  split; intros i node Hi; simpl in Hi; by rewrite lookup_nil in Hi.
Qed.

Lemma widget_stays_coherent_witness :
  ∃ this out,
    Breadcrumbs.run commonPrefix Breadcrumbs.create
      [Breadcrumbs.SetItems crumbs;
       Breadcrumbs.SetFocused (Breadcrumbs.mkItem 3 "common" "common");
       Breadcrumbs.SetSelected (Breadcrumbs.mkItem 2 "base" "base");
       Breadcrumbs.SetItems (take 2 crumbs);
       Breadcrumbs.FocusPrev;
       Breadcrumbs.Click [7%nat; 1%nat]]
    = Some (this, out)
    ∧ coherent this.
Proof.
  apply (widget_stays_coherent commonPrefix
           [Breadcrumbs.SetItems crumbs;
            Breadcrumbs.SetFocused (Breadcrumbs.mkItem 3 "common" "common");
            Breadcrumbs.SetSelected (Breadcrumbs.mkItem 2 "base" "base");
            Breadcrumbs.SetItems (take 2 crumbs);
            Breadcrumbs.FocusPrev;
            Breadcrumbs.Click [7%nat; 1%nat]]).
  - exact commonPrefix_le.
  - repeat constructor; discriminate.
Defined.

Lemma setItems_keeps_a_stale_selection_witness :
  ∃ this' out,
    Breadcrumbs.setItems commonPrefix fourCrumbs otherCrumbs = Some (this', out)
    ∧ Breadcrumbs._selectedItemIdx this'
      = Breadcrumbs._selectedItemIdx fourCrumbs
    ∧ Breadcrumbs.getSelected this'
      = Breadcrumbs.at_ otherCrumbs (Breadcrumbs._selectedItemIdx fourCrumbs)
    ∧ Forall (λ node, Breadcrumbs.selected node = false)
        (Breadcrumbs._nodes this')
    ∧ Forall (λ e, ∀ item node, e ≠ Breadcrumbs.DidSelectItem item node) out.
Proof.
  apply (setItems_keeps_a_stale_selection commonPrefix fourCrumbs otherCrumbs).
  - apply widgetOf_coherent. repeat constructor; discriminate.
  - vm_compute. lia.
  - vm_compute. discriminate.
Defined.

Lemma setItems_keeps_a_stale_focus_witness :
  ∃ this' out,
    Breadcrumbs.setItems commonPrefix fourCrumbs strangeCrumbs
    = Some (this', out)
    ∧ Breadcrumbs._focusedItemIdx this' = Breadcrumbs._focusedItemIdx fourCrumbs
    ∧ Breadcrumbs.getFocused this'
      = Breadcrumbs.at_ strangeCrumbs (Breadcrumbs._focusedItemIdx fourCrumbs)
    ∧ Forall (λ node, Breadcrumbs.focused node = false)
        (Breadcrumbs._nodes this')
    ∧ Forall (λ e, ∀ item node, e ≠ Breadcrumbs.DidFocusItem item node) out.
Proof.
  apply (setItems_keeps_a_stale_focus commonPrefix fourCrumbs strangeCrumbs).
  - apply widgetOf_coherent. repeat constructor; discriminate.
  - vm_compute. lia.
  - reflexivity.
Defined.

(** ** Clicks *)

Lemma indexOf_spec {A : Type} `{EqDecision A} (x : A) (array : list A) :
  let i := Breadcrumbs.indexOf x array in
  (i = -1 ∧ x ∉ array)
  ∨ (0 ≤ i < Z.of_nat (length array)
     ∧ array !! Z.to_nat i = Some x
     ∧ x ∉ take (Z.to_nat i) array).
Proof.
  induction array as [|y array IH]; simpl.
  - left. split; [done | apply not_elem_of_nil].
  - destruct (decide (y = x)) as [->|Hne].
    + right. split; [lia|]. split; [done | apply not_elem_of_nil].
    + destruct IH as [[Hi Hnotin] | (Hi & Hlookup & Hnotin)].
      * rewrite Hi. rewrite decide_True by done. left. split; [done|].
        apply not_elem_of_cons. by split.
      * rewrite decide_False by lia. right. split; [lia|].
        replace (Z.to_nat (Breadcrumbs.indexOf x array + 1))
          with (S (Z.to_nat (Breadcrumbs.indexOf x array))) by lia.
        split; [done|]. simpl. apply not_elem_of_cons. by split.
Qed.

(** X26: A click reaches the widget with the element clicked and its ancestors.
    The first of them that is a node of the widget is focused and then
    selected: both indices are the index of that node, and the two events
    are fired in that order, each with the item of the node.  A click on
    nothing that is a node changes nothing. *)
Theorem click_focuses_and_selects (this : Breadcrumbs.BreadcrumbsWidget)
    (outside : list nat) (el : nat) (parents : list nat) (i : nat)
    (node : Breadcrumbs.HTMLDivElement) :
  Forall (λ x, x ∉ Breadcrumbs.element <$> Breadcrumbs._nodes this) outside →
  Breadcrumbs._nodes this !! i = Some node →
  Breadcrumbs.element node = el →
  el ∉ Breadcrumbs.element <$> take i (Breadcrumbs._nodes this) →
  let this' := (Breadcrumbs._onClick this (outside ++ el :: parents)).1 in
  Breadcrumbs._onClick this outside = (this, [])
  ∧ Breadcrumbs._focusedItemIdx this' = Z.of_nat i
  ∧ Breadcrumbs._selectedItemIdx this' = Z.of_nat i
  ∧ (Breadcrumbs._onClick this (outside ++ el :: parents)).2
    = [Breadcrumbs.DidFocusItem (Breadcrumbs._items this !! i) (Some el);
       Breadcrumbs.DidSelectItem (Breadcrumbs._items this !! i) (Some el)]
  ∧ (∀ j node', Breadcrumbs._nodes this' !! j = Some node' →
       Breadcrumbs.focused node' = bool_decide (j = i)
       ∧ Breadcrumbs.selected node' = bool_decide (j = i)).
Proof.
  intros Houtside Hi Hel Hfirst.
  assert (Breadcrumbs.indexOf el (Breadcrumbs.element <$> Breadcrumbs._nodes this)
          = Z.of_nat i) as Hindex.
  { destruct (indexOf_spec el (Breadcrumbs.element <$> Breadcrumbs._nodes this))
      as [[_ Hnotin] | (Hrange & Hlookup & Hnotin)].
    - destruct Hnotin. apply list_elem_of_fmap. exists node. split; [done|].
      by eapply list_elem_of_lookup_2.
    - set (k := Breadcrumbs.indexOf _ _) in *.
      destruct (decide (Z.to_nat k < i)%nat) as [Hlt|Hge].
      + destruct Hfirst. rewrite fmap_take.
        apply (list_elem_of_lookup_2 _ (Z.to_nat k)).
        by rewrite lookup_take_lt.
      + destruct (decide (i < Z.to_nat k)%nat) as [Hlt|Hge'].
        * destruct Hnotin.
          apply (list_elem_of_lookup_2 _ i). rewrite lookup_take_lt by done.
          by rewrite list_lookup_fmap, Hi, <- Hel.
        * lia. }
  induction Houtside as [|x outside Hx _ IH]; simpl.
  - rewrite Hindex. rewrite decide_True by lia.
    rewrite focus_spec. cbn [fst snd]. rewrite select_spec. simpl.
    pose proof (lookup_lt_Some _ _ _ Hi) as Hlt.
    rewrite !length_imap. unfold landing. rewrite !decide_True by lia.
    split; [done|]. split; [done|]. split; [done|]. split.
    + unfold Breadcrumbs.at_. rewrite !decide_True by lia.
      rewrite Nat2Z.id, !list_lookup_imap, Hi. simpl.
      by rewrite Hel.
    + intros j node'. rewrite !list_lookup_imap.
      destruct (Breadcrumbs._nodes this !! j) as [node0|]; [|done].
      simpl. intros [= <-]. simpl.
      split; apply bool_decide_ext; split; intros; simplify_eq; try done;
        f_equal; lia.
  - destruct (indexOf_spec x (Breadcrumbs.element <$> Breadcrumbs._nodes this))
      as [[Hnone _] | (_ & Hlookup & _)].
    + rewrite Hnone. rewrite decide_False by lia.
      destruct IH as (-> & IH). done.
    + destruct Hx. by eapply list_elem_of_lookup_2.
Qed.

Lemma click_focuses_and_selects_witness :
  let this' := (Breadcrumbs._onClick fourCrumbs ([9; 8] ++ 3 :: [0])%nat).1 in
  Breadcrumbs._onClick fourCrumbs [9; 8]%nat = (fourCrumbs, [])
  ∧ Breadcrumbs._focusedItemIdx this' = Z.of_nat 3
  ∧ Breadcrumbs._selectedItemIdx this' = Z.of_nat 3
  ∧ (Breadcrumbs._onClick fourCrumbs ([9; 8] ++ 3 :: [0])%nat).2
    = [Breadcrumbs.DidFocusItem (Breadcrumbs._items fourCrumbs !! 3%nat)
         (Some 3%nat);
       Breadcrumbs.DidSelectItem (Breadcrumbs._items fourCrumbs !! 3%nat)
         (Some 3%nat)]
  ∧ (∀ j node', Breadcrumbs._nodes this' !! j = Some node' →
       Breadcrumbs.focused node' = bool_decide (j = 3%nat)
       ∧ Breadcrumbs.selected node' = bool_decide (j = 3%nat)).
Proof.
  apply (click_focuses_and_selects fourCrumbs [9; 8]%nat 3%nat [0%nat] 3%nat
           (Breadcrumbs.mkNode 3 false false
              (Some (Breadcrumbs.mkItem 3 "common" "common")))).
  - repeat constructor; intros H; vm_compute in H;
      repeat (apply elem_of_cons in H as [H|H]; [discriminate|]);
      by apply elem_of_nil in H.
  - reflexivity.
  - reflexivity.
  - intros H; vm_compute in H;
      repeat (apply elem_of_cons in H as [H|H]; [discriminate|]);
      by apply elem_of_nil in H.
Defined.

(** ** The pool of free nodes *)

Lemma pop_spec {A : Type} (array : list A) :
  match Breadcrumbs.pop array with
  | Some (x, rest) => array = rest ++ [x]
  | None => array = []
  end.
Proof.
  unfold Breadcrumbs.pop. destruct (reverse array) as [|x rest] eqn:Hreverse.
  - apply (f_equal reverse) in Hreverse. by rewrite reverse_involutive in Hreverse.
  - apply (f_equal reverse) in Hreverse.
    by rewrite reverse_involutive, reverse_cons in Hreverse.
Qed.

(** The last loop of [_render] takes the nodes it needs from the end of the
    pool, and makes new elements only once the pool is empty. *)
Lemma renderNew_recycles (items : list Breadcrumbs.BreadcrumbsItem)
    (freeNodes : list Breadcrumbs.HTMLDivElement) (created : nat) :
  let '(new, freeNodes', created') :=
    Breadcrumbs.renderNew items freeNodes created in
  (Breadcrumbs.element <$> new) ++ (Breadcrumbs.element <$> freeNodes')
  ≡ₚ (Breadcrumbs.element <$> freeNodes) ++ seq created (created' - created)
  ∧ (created ≤ created')%nat
  ∧ (freeNodes = [] → freeNodes' = [])
  ∧ ((created < created')%nat → freeNodes' = [])
  ∧ (items = [] → freeNodes' = freeNodes ∧ created' = created).
Proof.
  revert freeNodes created.
  induction items as [|item items IH]; intros freeNodes created; simpl.
  - rewrite Nat.sub_diag. simpl. rewrite app_nil_r.
    split; [done|]. split; [done|]. split; [done|]. split; [lia | done].
  - pose proof (pop_spec freeNodes) as Hpop.
    destruct (Breadcrumbs.pop freeNodes) as [[node rest]|].
    + specialize (IH rest created).
      destruct (Breadcrumbs.renderNew items rest created) as [[new fr] cr].
      destruct IH as (Hperm & Hle & Hempty & Hnew & _).
      subst freeNodes. simpl.
      split; [|split; [done|]; split; [|split; [done|done]]].
      * rewrite Hperm, fmap_app. simpl.
        rewrite <- !app_assoc. simpl. apply Permutation_middle.
      * intros H. by apply app_nil in H as [_ [=]].
    + specialize (IH freeNodes (S created)).
      destruct (Breadcrumbs.renderNew items freeNodes (S created))
        as [[new fr] cr].
      destruct IH as (Hperm & Hle & Hempty & Hnew & _).
      subst freeNodes. simpl in *.
      split; [|split; [lia|]; split; [done|]; split; [|done]].
      * rewrite Hperm.
        replace (cr - created)%nat with (S (cr - S created)) by lia. done.
      * intros _. by apply Hempty.
Qed.

Lemma zip_with_renderItem_elements (items : list Breadcrumbs.BreadcrumbsItem)
    (nodes : list Breadcrumbs.HTMLDivElement) :
  Breadcrumbs.element <$> zip_with Breadcrumbs._renderItem items nodes
  = Breadcrumbs.element <$> take (length items) nodes.
Proof.
  revert nodes. induction items as [|item items IH]; intros [|node nodes];
    simpl; try done. by rewrite IH.
Qed.

(** X27: [_render] recycles the elements: every element the widget had, in the
    row or in the pool, is in the row or in the pool afterwards, once; what
    is new are elements just created, and one is created only when the pool
    has run empty.  With no fewer nodes than items nothing is created, and
    the nodes beyond the items go to the end of the pool. *)
Theorem render_recycles_the_nodes (this : Breadcrumbs.BreadcrumbsWidget)
    (start : nat) :
  (start ≤ length (Breadcrumbs._nodes this))%nat →
  (start ≤ length (Breadcrumbs._items this))%nat →
  ∃ this',
    Breadcrumbs._render this start = Some this'
    ∧ Breadcrumbs.element
        <$> (Breadcrumbs._nodes this' ++ Breadcrumbs._freeNodes this')
      ≡ₚ (Breadcrumbs.element
            <$> (Breadcrumbs._nodes this ++ Breadcrumbs._freeNodes this))
         ++ seq (Breadcrumbs.created this)
              (Breadcrumbs.created this' - Breadcrumbs.created this)
    ∧ (Breadcrumbs.created this ≤ Breadcrumbs.created this')%nat
    ∧ ((Breadcrumbs.created this < Breadcrumbs.created this')%nat →
       Breadcrumbs._freeNodes this' = [])
    ∧ ((length (Breadcrumbs._items this) ≤ length (Breadcrumbs._nodes this))%nat →
       Breadcrumbs.created this' = Breadcrumbs.created this
       ∧ Breadcrumbs._freeNodes this'
         = Breadcrumbs._freeNodes this
           ++ drop (length (Breadcrumbs._items this)) (Breadcrumbs._nodes this)).
Proof.
  intros Hnodes Hitems. unfold Breadcrumbs._render.
  rewrite decide_True by done. rewrite renderExisting_spec.
  set (items := drop start (Breadcrumbs._items this)).
  set (nodes := drop start (Breadcrumbs._nodes this)).
  pose proof (renderNew_recycles (drop (length nodes) items)
                (Breadcrumbs._freeNodes this ++ drop (length items) nodes)
                (Breadcrumbs.created this)) as Hnew.
  destruct (Breadcrumbs.renderNew _ _ _) as [[new fr] cr].
  destruct Hnew as (Hperm & Hle & _ & Hcreated & Hnone).
  eexists. split; [reflexivity|]. simpl.
  assert (length (take start (Breadcrumbs._nodes this)) = start) as Hstart.
  { rewrite length_take. lia. }
  assert (take (length (Breadcrumbs._items this))
            (take start (Breadcrumbs._nodes this)
             ++ zip_with Breadcrumbs._renderItem items nodes)
          = take start (Breadcrumbs._nodes this)
            ++ zip_with Breadcrumbs._renderItem items nodes) as ->.
  { apply take_ge. rewrite length_app, Hstart, length_zip_with.
    unfold items, nodes. rewrite !length_drop. lia. }
  split; [|split; [done|]; split; [done|]].
  - rewrite !fmap_app, zip_with_renderItem_elements.
    rewrite <- !app_assoc. rewrite Hperm. rewrite !fmap_app.
    assert (Breadcrumbs.element <$> Breadcrumbs._nodes this
            = (Breadcrumbs.element <$> take start (Breadcrumbs._nodes this))
              ++ (Breadcrumbs.element <$> take (length items) nodes)
              ++ (Breadcrumbs.element <$> drop (length items) nodes)) as ->.
    { rewrite <- !fmap_app, take_drop. unfold nodes. by rewrite take_drop. }
    rewrite <- !app_assoc.
    apply Permutation_app_head, Permutation_app_head.
    rewrite !app_assoc. apply Permutation_app_tail, Permutation_app_comm.
  - intros Hfewer.
    assert (drop (length nodes) items = []) as Hempty.
    { apply drop_ge. unfold items, nodes. rewrite !length_drop. lia. }
    destruct (Hnone Hempty) as [-> ->]. split; [done|]. f_equal.
    unfold items, nodes. rewrite length_drop, drop_drop. f_equal. lia.
Qed.

Lemma render_recycles_the_nodes_witness :
  ∃ this',
    Breadcrumbs._render fourCrumbs 2 = Some this'
    ∧ Breadcrumbs.element
        <$> (Breadcrumbs._nodes this' ++ Breadcrumbs._freeNodes this')
      ≡ₚ (Breadcrumbs.element
            <$> (Breadcrumbs._nodes fourCrumbs
                 ++ Breadcrumbs._freeNodes fourCrumbs))
         ++ seq (Breadcrumbs.created fourCrumbs)
              (Breadcrumbs.created this' - Breadcrumbs.created fourCrumbs)
    ∧ (Breadcrumbs.created fourCrumbs ≤ Breadcrumbs.created this')%nat
    ∧ ((Breadcrumbs.created fourCrumbs < Breadcrumbs.created this')%nat →
       Breadcrumbs._freeNodes this' = [])
    ∧ ((length (Breadcrumbs._items fourCrumbs)
        ≤ length (Breadcrumbs._nodes fourCrumbs))%nat →
       Breadcrumbs.created this' = Breadcrumbs.created fourCrumbs
       ∧ Breadcrumbs._freeNodes this'
         = Breadcrumbs._freeNodes fourCrumbs
           ++ drop (length (Breadcrumbs._items fourCrumbs))
                (Breadcrumbs._nodes fourCrumbs)).
Proof.
  apply (render_recycles_the_nodes fourCrumbs 2); vm_compute; lia.
Defined.

(** * The next-tick channel *)

Lemma nextTick_step_conserves (this : NextTick.NextTickChannel)
    (i : NextTick.Input) :
  let '(this', out) := NextTick.step this i in
  out ++ (NextTick.perform <$> NextTick.timeouts this')
  ≡ₚ (NextTick.perform <$> NextTick.timeouts this)
     ++ (NextTick.perform <$> asked [i])
  ∧ (NextTick.didTick this = true → NextTick.didTick this' = true)
  ∧ (NextTick.didTick this = false → NextTick.didTick this' = false → out = []).
Proof.
  destruct i as [op|k]; simpl.
  - unfold NextTick.do. destruct (NextTick.didTick this) eqn:Htick; simpl.
    + split; [apply Permutation_cons_append | by split].
    + split; [by rewrite fmap_app | by split].
  - unfold NextTick.elapsed.
    destruct (NextTick.timeouts this !! k) as [op|] eqn:Hk; simpl.
    + split; [|by split]. rewrite app_nil_r.
      rewrite <- fmap_cons. apply fmap_Permutation.
      symmetry. by apply delete_Permutation.
    + split; [by rewrite app_nil_r | by split].
Qed.

(** X28: The channel [getNextTickChannel] returns loses and repeats nothing:
    at any moment, what has reached the wrapped channel together with what
    still waits for its timeout is what was asked, each operation once.
    Until the first timeout completes nothing reaches the channel, and every
    operation waits, in the order asked; from then on [didTick] stays true
    and every operation asked goes to the channel at once - ahead of those
    asked earlier whose timeouts are still to complete. *)
Theorem next_tick_channel_conserves_operations
    (inputs : list NextTick.Input) :
  let '(this, out) := NextTick.run NextTick.create inputs in
  out ++ (NextTick.perform <$> NextTick.timeouts this)
  ≡ₚ NextTick.perform <$> asked inputs
  ∧ (NextTick.didTick this = false →
     out = [] ∧ NextTick.timeouts this = asked inputs)
  ∧ (NextTick.didTick this = true →
     ∀ op later,
       (NextTick.run this (NextTick.Do op :: later)).2
       = NextTick.perform op :: (NextTick.run this later).2
       ∧ NextTick.didTick (NextTick.run this later).1 = true).
Proof.
  assert (∀ inputs this,
            let '(this', out) := NextTick.run this inputs in
            out ++ (NextTick.perform <$> NextTick.timeouts this')
            ≡ₚ (NextTick.perform <$> NextTick.timeouts this)
               ++ (NextTick.perform <$> asked inputs)
            ∧ (NextTick.didTick this = true → NextTick.didTick this' = true)
            ∧ (NextTick.didTick this' = false →
               out = []
               ∧ NextTick.timeouts this'
                 = NextTick.timeouts this ++ asked inputs)) as Hrun.
  { clear inputs. induction inputs as [|i inputs IH]; intros this.
    - simpl. rewrite !app_nil_r. done.
    - cbn [NextTick.run].
      pose proof (nextTick_step_conserves this i) as Hstep.
      assert (NextTick.didTick (NextTick.step this i).1 = false →
              NextTick.timeouts (NextTick.step this i).1
              = NextTick.timeouts this ++ asked [i]) as Hwaiting.
      { destruct i as [op|k]; simpl.
        - unfold NextTick.do.
          destruct (NextTick.didTick this) eqn:Htick; simpl; [congruence|done].
        - unfold NextTick.elapsed.
          destruct (NextTick.timeouts this !! k); simpl; [done|].
          by rewrite app_nil_r. }
      destruct (NextTick.step this i) as [this1 out1].
      cbn [fst] in Hwaiting.
      destruct Hstep as (Hperm1 & Htick1 & Hquiet1).
      specialize (IH this1).
      destruct (NextTick.run this1 inputs) as [this2 out2].
      destruct IH as (Hperm2 & Htick2 & Hquiet2).
      assert (asked (i :: inputs) = asked [i] ++ asked inputs) as ->
        by (by destruct i).
      split; [|split].
      + rewrite <- app_assoc, Hperm2, app_assoc, Hperm1.
        by rewrite fmap_app, <- !app_assoc.
      + intros H. by apply Htick2, Htick1.
      + intros Hfalse. destruct (Hquiet2 Hfalse) as [-> Hlist].
        destruct (NextTick.didTick this1) eqn:Htick.
        * specialize (Htick2 eq_refl). congruence.
        * destruct (NextTick.didTick this) eqn:Htick0;
            [specialize (Htick1 eq_refl); congruence|].
          rewrite (Hquiet1 eq_refl eq_refl). split; [done|].
          rewrite Hlist, (Hwaiting eq_refl).
          by rewrite <- app_assoc. }
  pose proof (Hrun inputs NextTick.create) as Hcreate.
  destruct (NextTick.run NextTick.create inputs) as [this out].
  destruct Hcreate as (Hperm & _ & Hquiet). simpl in Hperm.
  split; [done|]. split; [done|].
  intros Htick op later. cbn [NextTick.run NextTick.step].
  unfold NextTick.do. rewrite Htick.
  pose proof (Hrun later this) as Hlater.
  destruct (NextTick.run this later) as [this2 out2].
  destruct Hlater as (_ & Hstays & _). split; [done | by apply Hstays].
Qed.
